(** * QA_Assignment: outcome store, session bootstrap, retry helper,
      settings loading and command line, fixture resolution, test-data
      manager, API helper, global teardown and file clean-up.

    A shallow embedding of the stateful helpers of the test framework.
    JavaScript values are modelled by the JSON fragment the framework
    stores and loads; the file system, the browser page and the object
    heap are explicit states threaded through a small exception monad. *)

From Stdlib Require Import ZArith String Ascii List Bool Lia QArith_base.
From Stdlib Require Import DecimalString DecimalZ DecimalPos DecimalNat DecimalFacts.
From stdpp Require Import base gmap strings list sorting.

Set Warnings "-register-all,-clear-no-such-hyp".

Open Scope string_scope.
Open Scope Z_scope.
Open Scope list_scope.

(* ================================================================== *)
(** * Part I: definitions                                              *)
(* ================================================================== *)

(** ** JavaScript values *)

Module JS.

(** The primitive values of JSON.  A JavaScript string is read as its
    sequence of code units, one [ascii] per unit (code units up to 255);
    numbers are the integer-valued ones. *)
Inductive prim : Type :=
| PNull
| PBool (b : bool)
| PNum (n : Z)
| PStr (s : string).

(** The values [JSON.parse] produces.  An object keeps its properties in
    insertion order; [undefined] is the absence of a value and is [None]
    in [option json]. *)
Inductive json : Type :=
| JPrim (p : prim)
| JArr (elems : list json)
| JObj (props : list (string * json)).

Abbreviation JNull := (JPrim PNull).
Abbreviation JBool b := (JPrim (PBool b)).
Abbreviation JNum n := (JPrim (PNum n)).
Abbreviation JStr s := (JPrim (PStr s)).

Definition jsvalue := option json.
Definition undefined : jsvalue := None.

(** [ToBoolean] on primitives: [null], [false], [0] and [""] are falsy. *)
Definition truthy_prim (p : prim) : bool :=
  match p with
  | PNull => false
  | PBool b => b
  | PNum n => negb (n =? 0)
  | PStr s => negb (String.eqb s "")
  end.

(** [ToBoolean]: [undefined] is falsy, arrays and objects are truthy. *)
Definition truthy (v : jsvalue) : bool :=
  match v with
  | None => false
  | Some (JPrim p) => truthy_prim p
  | Some (JArr _) => true
  | Some (JObj _) => true
  end.

(** The double quote, as a code unit and as a string. *)
Definition dquote : ascii := ascii_of_nat 34.
Definition dq : string := String dquote EmptyString.

(** Own-property lookup [o[k]] on a property list. *)
Fixpoint obj_get {A} (props : list (string * A)) (k : string) : option A :=
  match props with
  | [] => None
  | (k', v) :: rest => if String.eqb k' k then Some v else obj_get rest k
  end.

(** Property assignment [o[k] = v]: an existing key keeps its place. *)
Fixpoint obj_set {A} (props : list (string * A)) (k : string) (v : A)
  : list (string * A) :=
  match props with
  | [] => [(k, v)]
  | (k', v') :: rest =>
      if String.eqb k' k then (k', v) :: rest
      else (k', v') :: obj_set rest k v
  end.

(** Object spread [{...a, ...b}] on two property lists. *)
Definition obj_spread {A} (a b : list (string * A)) : list (string * A) :=
  fold_left (fun acc kv => obj_set acc (fst kv) (snd kv)) b a.

Definition obj_keys {A} (props : list (string * A)) : list string :=
  map fst props.

(** Every object of a value has pairwise distinct keys, as every
    JavaScript object has. *)
Fixpoint json_wf (v : json) : Prop :=
  match v with
  | JArr l => (fix all (l : list json) : Prop :=
                 match l with [] => True | x :: r => json_wf x /\ all r end) l
  | JObj ps => NoDup (map fst ps) /\
               (fix all (l : list (string * json)) : Prop :=
                  match l with
                  | [] => True
                  | kv :: r => json_wf (snd kv) /\ all r
                  end) ps
  | _ => True
  end.

(** What a JavaScript computation can throw.  [SkipSignal] is what
    [test.skip] raises inside a test body; [Unmodelled] marks a step that
    leaves the modelled fragment of the language (the digits of a
    number beyond 2^53, a property that a prototype gives, numeric
    coercion of values on the heap). *)
Inductive exn : Type :=
| IOError (code : string) (p : list string)
| SyntaxError
| TypeError
| TimeoutError (what : string)
| Error (msg : string)
| SkipSignal (reason : string)
| Unmodelled (what : string).

Inductive outcome (A : Type) : Type :=
| Returned (a : A)
| Thrown (e : exn).
Arguments Returned {A} a.
Arguments Thrown {A} e.

(** Computations over a state [S] that return or throw. *)
Definition M (S A : Type) : Type := S -> outcome A * S.

Definition ret {S A} (a : A) : M S A := fun s => (Returned a, s).
Definition throw {S A} (e : exn) : M S A := fun s => (Thrown e, s).
Definition bind {S A B} (m : M S A) (k : A -> M S B) : M S B :=
  fun s => match m s with
           | (Returned a, s') => k a s'
           | (Thrown e, s') => (Thrown e, s')
           end.
(** [try { m } catch (e) { h e }] *)
Definition try_catch {S A} (m : M S A) (h : exn -> M S A) : M S A :=
  fun s => match m s with
           | (Returned a, s') => (Returned a, s')
           | (Thrown e, s') => h e s'
           end.
Definition gets {S A} (f : S -> A) : M S A := fun s => (Returned (f s), s).
Definition modify {S} (f : S -> S) : M S unit := fun s => (Returned tt, f s).

(** The platform's [JSON] object.  [JSON_parse] answers [None] where
    [JSON.parse] throws a [SyntaxError]. *)
Class JSONImpl : Type := {
  JSON_parse : string -> option json;
  JSON_stringify : json -> string
}.

(** What the framework relies on: a stringified value parses back, and
    what parses is a value whose objects have distinct keys. *)
Definition JSON_faithful (J : JSONImpl) : Prop :=
  (forall v, json_wf v -> JSON_parse (JSON_stringify v) = Some v) /\
  (forall text v, JSON_parse text = Some v -> json_wf v).

End JS.

Export JS.

Declare Scope js_scope.
Delimit Scope js_scope with js.
Notation "'do' x <- m ; k" := (bind m (fun x => k))
  (at level 10, x name, m at level 100, k at level 200) : js_scope.
Notation "m ;; k" := (bind m (fun _ => k))
  (at level 100, k at level 200, right associativity) : js_scope.
Open Scope js_scope.

(** ** The file system ([fs] module of the platform) *)

Module Fs.

Definition path := list string.

(** What stands at a path: a directory, or a regular file with its text. *)
Inductive node : Type :=
| Dir
| File (text : string).

(** The nodes of the disk, and the paths the process has no permission
    to create or write. *)
Record filesystem : Type := {
  fs_nodes : gmap path node;
  fs_denied : gset path
}.

Definition node_at (fs : filesystem) (p : path) : option node :=
  fs_nodes fs !! p.

(** The project root [[]] is a directory. *)
Definition is_dir (fs : filesystem) (p : path) : bool :=
  match p with
  | [] => true
  | _ => match node_at fs p with Some Dir => true | _ => false end
  end.

Definition is_file (fs : filesystem) (p : path) : bool :=
  match node_at fs p with Some (File _) => true | _ => false end.

(** The text of the file at [p], if a file stands there. *)
Definition file_text (fs : filesystem) (p : path) : option string :=
  match node_at fs p with Some (File text) => Some text | _ => None end.

Definition denied (fs : filesystem) (p : path) : bool :=
  bool_decide (p ∈ fs_denied fs).

Definition dirname (p : path) : path := removelast p.

(** The non-empty prefixes of a path, shortest first. *)
Fixpoint ancestors_and_self (p : path) : list path :=
  match p with
  | [] => []
  | c :: rest => [c] :: map (cons c) (ancestors_and_self rest)
  end.

(** The disk with the file [p] holding [text]. *)
Definition with_file (fs : filesystem) (p : path) (text : string) : filesystem :=
  {| fs_nodes := <[p := File text]> (fs_nodes fs);
     fs_denied := fs_denied fs |}.

(** The disk with the directories [ds] added. *)
Definition with_dirs (fs : filesystem) (ds : list path) : filesystem :=
  {| fs_nodes := foldr (fun d nodes => <[d := Dir]> nodes) (fs_nodes fs) ds;
     fs_denied := fs_denied fs |}.

Definition existsSync (p : path) : M filesystem bool :=
  gets (fun fs => is_dir fs p || is_file fs p).

(** [fs.mkdirSync(p)]: the parent must exist, the path must be free. *)
Definition mkdirSync (p : path) : M filesystem unit :=
  fun fs =>
    if is_dir fs p || is_file fs p then (Thrown (IOError "EEXIST" p), fs)
    else if negb (is_dir fs (dirname p)) then (Thrown (IOError "ENOENT" p), fs)
    else if denied fs p then (Thrown (IOError "EACCES" p), fs)
    else (Returned tt, with_dirs fs [p]).

(** [fs.mkdirSync(p, { recursive: true })]: creates the missing
    ancestors too; an existing directory is left as it is. *)
Definition mkdirSync_recursive (p : path) : M filesystem unit :=
  fun fs =>
    let chain := ancestors_and_self p in
    match find (fun q => is_file fs q) chain with
    | Some q => (Thrown (IOError "EEXIST" q), fs)
    | None =>
        match find (fun q => negb (is_dir fs q) && denied fs q) chain with
        | Some q => (Thrown (IOError "EACCES" q), fs)
        | None => (Returned tt, with_dirs fs chain)
        end
    end.

(** [fs.writeFileSync(p, text)]: creates or replaces the whole file. *)
Definition writeFileSync (p : path) (text : string) : M filesystem unit :=
  fun fs =>
    if is_dir fs p then (Thrown (IOError "EISDIR" p), fs)
    else if negb (is_dir fs (dirname p)) then (Thrown (IOError "ENOENT" p), fs)
    else if denied fs p then (Thrown (IOError "EACCES" p), fs)
    else (Returned tt, with_file fs p text).

(** [fs.readFileSync(p, "utf-8")] *)
Definition readFileSync (p : path) : M filesystem string :=
  fun fs =>
    match node_at fs p with
    | Some (File text) => (Returned text, fs)
    | Some Dir => (Thrown (IOError "EISDIR" p), fs)
    | None => (Thrown (IOError "ENOENT" p), fs)
    end.

Definition is_IOError (e : exn) : bool :=
  match e with IOError _ _ => true | _ => false end.

(** A project directory with nothing in it and no restriction. *)
Definition empty_fs : filesystem :=
  {| fs_nodes := ∅; fs_denied := ∅ |}.

End Fs.

Export Fs.

(** ** utils/outcomeHelper.js (src/unnamed/part_007, lines 1-23) *)

Module OutcomeHelper.

(** [path.resolve(__dirname, "../temp")], relative to the project root. *)
Definition tempDir : path := ["temp"].
(** [path.join(tempDir, "testData.json")] *)
Definition dataPath : path := tempDir ++ ["testData.json"].

(** The store can be written: nothing but a directory stands at
    [tempDir] (or it can be created), and nothing but a file at
    [dataPath], which the process may write. *)
Definition store_writable (fs : filesystem) : bool :=
  negb (is_file fs tempDir) && negb (is_dir fs dataPath)
  && negb (denied fs dataPath)
  && (is_dir fs tempDir || negb (denied fs tempDir)).

(** Nothing stands at [dataPath]. *)
Definition store_absent (fs : filesystem) : bool :=
  negb (is_dir fs dataPath || is_file fs dataPath).

Section WithJSON.
Context {J : JSONImpl}.

Definition writeTestData (data : json) : M filesystem unit :=
  do present <- existsSync tempDir;
  (if negb present then mkdirSync_recursive tempDir else ret tt);;
  writeFileSync dataPath (JSON_stringify data).

Definition readTestData : M filesystem json :=
  do present <- existsSync dataPath;
  if negb present then ret (JObj [])
  else
    do raw <- readFileSync dataPath;
    match JSON_parse raw with
    | Some v => ret v
    | None => throw SyntaxError
    end.

(** A run of writes, one after the other; stops at the first throw. *)
Fixpoint write_all (records : list json) : M filesystem unit :=
  match records with
  | [] => ret tt
  | r :: rest => writeTestData r;; write_all rest
  end.

End WithJSON.

(** *** Sample stores and records *)

(** The store with a file cut short by a crash in the middle of a write. *)
Definition corrupted_store : filesystem :=
  with_file (with_dirs empty_fs [tempDir]) dataPath "{".

Definition login_record : json := JObj [("loginSuccess", JBool true)].

Definition profile_record : json := JObj [("profileChecked", JBool true)].

End OutcomeHelper.

(** ** Running a computation inside a larger state *)

Module Lift.

(** Run a computation on the first component of a pair of states. *)
Definition on_fst {A B R} (m : M A R) : M (A * B) R :=
  fun s => let '(r, a') := m (fst s) in (r, (a', snd s)).

(** Run a computation on the second component of a pair of states. *)
Definition on_snd {A B R} (m : M B R) : M (A * B) R :=
  fun s => let '(r, b') := m (snd s) in (r, (fst s, b')).

End Lift.

Export Lift.

(** ** Member access on JavaScript values *)

Module Member.

(** A decimal digit. *)
Definition is_digit (c : ascii) : bool :=
  let n := N_of_ascii c in ((48 <=? n) && (n <=? 57))%N.

(** Decimal spelling of an array index. *)
Definition index_key (i : nat) : string :=
  NilZero.string_of_uint (Nat.to_uint i).

(** The array index a property key spells, if it is a canonical one. *)
Definition key_index (k : string) : option nat :=
  match NilZero.uint_of_string k with
  | Some u => let i := Nat.of_uint u in
              if String.eqb (index_key i) k then Some i else None
  | None => None
  end.

Definition char_string (c : ascii) : string := String c EmptyString.

(** [v[k]] for a property name [k]: throws on [null], reads own
    properties of objects, [length] and indices of arrays and strings,
    and is [undefined] on booleans and numbers. *)
Definition get_member {S} (v : json) (k : string) : M S jsvalue :=
  match v with
  | JNull => throw TypeError
  | JObj props => ret (obj_get props k)
  | JArr elems =>
      if String.eqb k "length" then ret (Some (JNum (Z.of_nat (length elems))))
      else match key_index k with
           | Some i => ret (elems !! i)
           | None => ret undefined
           end
  | JStr s =>
      if String.eqb k "length" then ret (Some (JNum (Z.of_nat (String.length s))))
      else match key_index k with
           | Some i => ret (option_map (fun c => JStr (char_string c)) (String.get i s))
           | None => ret undefined
           end
  | JBool _ | JNum _ => ret undefined
  end.

(** The own enumerable properties an object spread [...v] copies. *)
Definition own_props (v : json) : list (string * json) :=
  match v with
  | JObj props => props
  | JArr elems => imap (fun i x => (index_key i, x)) elems
  | JStr s => imap (fun i c => (index_key i, JStr (char_string c)))
                   (list_ascii_of_string s)
  | JPrim _ => []
  end.

End Member.

Export Member.

(** ** tests/login.spec.js (src/unnamed/part_000) *)

Module LoginSpec.

(** [process.env] as the tests read it. *)
Record environment : Type := {
  LOGIN_EMAIL : string;
  LOGIN_PASSWORD : string;
  INVALID_EMAIL : string;
  INVALID_PASSWORD : string
}.

(** How the runner reports one test. *)
Inductive test_status : Type :=
| Passed
| Failed (e : exn)
| Skipped (reason : string).

(** [test.skip(condition, description)] inside a test body. *)
Definition test_skip {S} (condition : bool) (description : string) : M S unit :=
  if condition then throw (SkipSignal description) else ret tt.

Definition run_test {S} (body : M S unit) (s : S) : test_status * S :=
  match body s with
  | (Returned _, s') => (Passed, s')
  | (Thrown (SkipSignal reason), s') => (Skipped reason, s')
  | (Thrown e, s') => (Failed e, s')
  end.

Section Tests.
Context {J : JSONImpl}.
(** The browser page behind the [loginPage] fixture and the methods of
    pages/loginPage.js the tests call. *)
Context {Page : Type}.
Variable login : string -> string -> M Page unit.
Variable assertLoginSuccess : M Page unit.
Variable assertLoginFailure : M Page unit.
Variable logout : M Page unit.
Variable env : environment.

Definition World : Type := (Page * filesystem)%type.

(** test("Login with valid credentials") *)
Definition test_login_valid : M World unit :=
  on_fst (login (LOGIN_EMAIL env) (LOGIN_PASSWORD env));;
  on_fst assertLoginSuccess;;
  on_snd (OutcomeHelper.writeTestData (JObj [("loginSuccess", JBool true)])).

(** test("Login with invalid credentials") *)
Definition test_login_invalid : M World unit :=
  on_fst (login (INVALID_EMAIL env) (INVALID_PASSWORD env));;
  on_fst assertLoginFailure.

(** test("Logout after Login") *)
Definition test_logout_after_login : M World unit :=
  do testData <- on_snd OutcomeHelper.readTestData;
  do loginSuccess <- get_member testData "loginSuccess";
  test_skip (negb (truthy loginSuccess))
            "Skipping logout because login was not successful";;
  on_fst (login (LOGIN_EMAIL env) (LOGIN_PASSWORD env));;
  on_fst assertLoginSuccess;;
  on_fst logout.

End Tests.

(** *** A sample page and environment *)

(** A page on which every step of the login test succeeds. *)
Definition calm_login (email password : string) : M unit unit := ret tt.

Definition calm_step : M unit unit := ret tt.

Definition sample_env : environment :=
  {| LOGIN_EMAIL := "qa@example.com"; LOGIN_PASSWORD := "correct horse";
     INVALID_EMAIL := "nobody@example.com"; INVALID_PASSWORD := "wrong" |}.

End LoginSpec.

(** ** pages/BasePage.js: retryAction (src/utils/setConfig.js, lines 373-384) *)

Module BasePage.

(** One [logger.warn] line of the retry loop:
    "Action failed, retry <attempt>/<of>: <error.message>". *)
Record retry_warning : Type := {
  attempt : Z;
  of_max : Z;
  cause : exn
}.

Section RetryAction.
Context {W : Type}.
(** [this.logger.warn] and [this.page.waitForTimeout] *)
Variable logger_warn : retry_warning -> M W unit.
Variable waitForTimeout : Z -> M W unit.

(** The [for] loop from counter [i]; [fuel] bounds the remaining turns. *)
Fixpoint retry_loop (action : M W unit) (maxRetries delay : Z)
  (fuel : nat) (i : Z) : M W unit :=
  match fuel with
  | O => ret tt
  | S fuel' =>
      if i <? maxRetries then
        try_catch action
          (fun error =>
             logger_warn {| attempt := i + 1; of_max := maxRetries; cause := error |};;
             (if i =? maxRetries - 1 then throw error else ret tt);;
             waitForTimeout delay;;
             retry_loop action maxRetries delay fuel' (i + 1))
      else ret tt
  end.

Definition retryAction (action : M W unit) (maxRetries delay : Z) : M W unit :=
  retry_loop action maxRetries delay (Z.to_nat maxRetries) 0.

End RetryAction.

(** A page whose only state is what the retry loop and its action leave
    behind: how often the action ran, the warnings and the waits. *)
Record probe : Type := {
  invocations : nat;
  warnings : list retry_warning;
  waits : list Z
}.

Definition fresh_probe : probe :=
  {| invocations := 0; warnings := []; waits := [] |}.

Definition probe_warn (w : retry_warning) : M probe unit :=
  modify (fun p => {| invocations := invocations p;
                      warnings := warnings p ++ [w];
                      waits := waits p |}).

Definition probe_wait (delay : Z) : M probe unit :=
  modify (fun p => {| invocations := invocations p;
                      warnings := warnings p;
                      waits := waits p ++ [delay] |}).

(** An action given by what its k-th invocation does (k from 0). *)
Definition scripted (behaviour : nat -> outcome unit) : M probe unit :=
  fun p => (behaviour (invocations p),
            {| invocations := S (invocations p);
               warnings := warnings p;
               waits := waits p |}).

Definition retryAction_probe (behaviour : nat -> outcome unit)
  (maxRetries delay : Z) : M probe unit :=
  retryAction probe_warn probe_wait (scripted behaviour) maxRetries delay.

(** *** The probe after each step of an attempt *)

Definition warning (k : nat) (maxRetries : Z) (e : exn) : retry_warning :=
  {| attempt := Z.of_nat k + 1; of_max := maxRetries; cause := e |}.

Definition after_call (p : probe) : probe :=
  {| invocations := S (invocations p); warnings := warnings p; waits := waits p |}.

Definition after_warning (w : retry_warning) (p : probe) : probe :=
  {| invocations := invocations p; warnings := warnings p ++ [w]; waits := waits p |}.

Definition after_wait (delay : Z) (p : probe) : probe :=
  {| invocations := invocations p; warnings := warnings p; waits := waits p ++ [delay] |}.

(** An action that times out twice before it succeeds. *)
Definition flaky (k : nat) : outcome unit :=
  match k with
  | O => Thrown (TimeoutError "locator.click")
  | S O => Thrown (TimeoutError "locator.click")
  | _ => Returned tt
  end.

(** The probe after [m] failed attempts that were not the last. *)
Definition after_failures (maxRetries delay : Z) (err : nat -> exn)
  (i : Z) (m : nat) (p : probe) : probe :=
  {| invocations := invocations p + m;
     warnings := warnings p ++
                 map (fun t => {| attempt := i + Z.of_nat t + 1; of_max := maxRetries;
                                  cause := err (invocations p + t)%nat |}) (seq 0 m);
     waits := waits p ++ repeat delay m |}.

(** An action that times out at every invocation. *)
Definition never_clicks (k : nat) : outcome unit :=
  Thrown (TimeoutError "locator.click").

End BasePage.

(** ** global-setup.js (src/utils/apiHelper.js, lines 417-441) *)

Module GlobalSetup.

Record environment : Type := {
  BASE_URL : string;
  LOGIN_EMAIL : string;
  LOGIN_PASSWORD : string
}.

(** The browser automation surface the bootstrap drives, over a browser
    state [B].  [context_state] is what [context.storageState()] captures:
    an object with the cookie list and the per-origin storage. *)
Class Driver (B : Type) : Type := {
  chromium_launch : M B unit;
  browser_newContext : M B unit;
  context_newPage : M B unit;
  page_goto : string -> M B unit;
  page_click : string -> M B unit;
  page_fill : string -> string -> M B unit;
  context_state : B -> json;
  browser_close : M B unit
}.

(** The selectors of the bootstrap, with the double quotes they hold. *)
Definition sel_login_link : string := ("a[href=" ++ dq ++ "/login" ++ dq ++ "]")%string.
Definition sel_email : string := ("input[name=" ++ dq ++ "email" ++ dq ++ "]")%string.
Definition sel_password : string := ("input[name=" ++ dq ++ "password" ++ dq ++ "]")%string.
Definition sel_submit : string := ("button[type=" ++ dq ++ "submit" ++ dq ++ "]")%string.

(** [path.resolve(__dirname, "storageState")] *)
Definition storageDir : path := ["storageState"].
(** [path.join(storageDir, "storageState.json")] *)
Definition snapshotPath : path := storageDir ++ ["storageState.json"].

Section Bootstrap.
Context {J : JSONImpl} {B : Type} {D : Driver B}.
Variable env : environment.

(** [context.storageState({ path })]: captures the session state and
    writes it, creating the directory of [path] when it is missing. *)
Definition context_storageState (p : path) : M (B * filesystem) unit :=
  do snapshot <- on_fst (gets context_state);
  on_snd (mkdirSync_recursive (dirname p));;
  on_snd (writeFileSync p (JSON_stringify snapshot)).

(** The steps up to the submit click. *)
Definition submit_login_form : M (B * filesystem) unit :=
  on_fst chromium_launch;;
  on_fst browser_newContext;;
  on_fst context_newPage;;
  on_fst (page_goto (BASE_URL env));;
  on_fst (page_click sel_login_link);;
  on_fst (page_fill sel_email (LOGIN_EMAIL env));;
  on_fst (page_fill sel_password (LOGIN_PASSWORD env));;
  on_fst (page_click sel_submit).

Definition global_setup : M (B * filesystem) unit :=
  submit_login_form;;
  do present <- on_snd (existsSync storageDir);
  (if negb present then on_snd (mkdirSync storageDir) else ret tt);;
  context_storageState snapshotPath;;
  on_fst browser_close.

End Bootstrap.

(** The cookie list of a session snapshot. *)
Definition snapshot_cookies (snapshot : json) : list json :=
  match snapshot with
  | JObj props => match obj_get props "cookies" with
                  | Some (JArr cookies) => cookies
                  | _ => []
                  end
  | _ => []
  end.

(** *** A site to run the bootstrap against

    A login form that accepts one registered account: a submit with the
    registered pair sets a session cookie, any other submit shows the
    error banner of pages/loginPage.js and sets nothing.  Every selector
    the bootstrap uses exists, so every driver call returns. *)
Record browser : Type := {
  url : string;
  email_field : string;
  password_field : string;
  cookies : list (string * string);
  banner : string
}.

Definition blank_browser : browser :=
  {| url := ""; email_field := ""; password_field := "";
     cookies := []; banner := "" |}.

Definition registered_email : string := "qa@example.com".
Definition registered_password : string := "correct horse".

Definition site_goto (target : string) : M browser unit :=
  modify (fun b => {| url := target; email_field := ""; password_field := "";
                      cookies := cookies b; banner := "" |}).

Definition site_fill (selector text : string) : M browser unit :=
  fun b =>
    if String.eqb selector sel_email then
      (Returned tt, {| url := url b; email_field := text;
                       password_field := password_field b;
                       cookies := cookies b; banner := banner b |})
    else if String.eqb selector sel_password then
      (Returned tt, {| url := url b; email_field := email_field b;
                       password_field := text;
                       cookies := cookies b; banner := banner b |})
    else (Thrown (TimeoutError selector), b).

Definition site_click (selector : string) : M browser unit :=
  fun b =>
    if String.eqb selector sel_login_link then
      (Returned tt, {| url := "/login"; email_field := ""; password_field := "";
                       cookies := cookies b; banner := "" |})
    else if String.eqb selector sel_submit then
      if String.eqb (email_field b) registered_email
         && String.eqb (password_field b) registered_password
      then (Returned tt, {| url := "/"; email_field := ""; password_field := "";
                            cookies := ("sessionid", "s3ss10n") :: cookies b;
                            banner := "Logged in as" |})
      else (Returned tt, {| url := "/login"; email_field := email_field b;
                            password_field := password_field b;
                            cookies := cookies b;
                            banner := "Your email or password is incorrect!" |})
    else (Thrown (TimeoutError selector), b).

Definition cookie_json (c : string * string) : json :=
  JObj [("name", JStr (fst c)); ("value", JStr (snd c))].

Definition site_state (b : browser) : json :=
  JObj [("cookies", JArr (map cookie_json (cookies b))); ("origins", JArr [])].

Definition site_driver : Driver browser :=
  {| chromium_launch := ret tt;
     browser_newContext := ret tt;
     context_newPage := ret tt;
     page_goto := site_goto;
     page_click := site_click;
     page_fill := site_fill;
     context_state := site_state;
     browser_close := ret tt |}.

(** *** The two halves of the bootstrap, and sample runs *)

(** The snapshot can be written: nothing but a directory stands at
    [storageDir] (or it can be created), and nothing but a file at
    [snapshotPath], which the process may write. *)
Definition snapshot_writable (fs : filesystem) : bool :=
  negb (is_file fs storageDir) && negb (is_dir fs snapshotPath)
  && negb (denied fs snapshotPath)
  && (is_dir fs storageDir || negb (denied fs storageDir)).

Section Steps.
Context {J : JSONImpl} {B : Type} {D : Driver B}.
Variable env : environment.

(** The driver calls of the bootstrap up to the submit click, on the
    browser alone. *)
Definition drive : M B unit :=
  chromium_launch;;
  browser_newContext;;
  context_newPage;;
  page_goto (BASE_URL env);;
  page_click sel_login_link;;
  page_fill sel_email (LOGIN_EMAIL env);;
  page_fill sel_password (LOGIN_PASSWORD env);;
  page_click sel_submit.

(** What follows the submit click: the directory, the snapshot, the
    close. *)
Definition capture : M (B * filesystem) unit :=
  do present <- on_snd (existsSync storageDir);
  (if negb present then on_snd (mkdirSync storageDir) else ret tt);;
  context_storageState snapshotPath;;
  on_fst browser_close.

End Steps.

Definition good_env : environment :=
  {| BASE_URL := "https://shop.example.com/";
     LOGIN_EMAIL := registered_email;
     LOGIN_PASSWORD := registered_password |}.

Definition bad_env : environment :=
  {| BASE_URL := "https://shop.example.com/";
     LOGIN_EMAIL := "nobody@example.com";
     LOGIN_PASSWORD := "wrong" |}.

Definition no_cookies : json := JObj [("cookies", JArr []); ("origins", JArr [])].

Definition logged_in_browser : browser :=
  {| url := "/"; email_field := ""; password_field := "";
     cookies := [("sessionid", "s3ss10n")]; banner := "Logged in as" |}.

End GlobalSetup.

(** ** Settings: utils/setConfig.js (lines 1-25) and the two runner
       configurations (src/unnamed/part_006, src/unnamed/part_007 from
       line 25) *)

Module Settings.

(** [path.resolve(__dirname, "../settings.json")] *)
Definition settingsPath : path := ["settings.json"].

(** What [console.error] has printed. *)
Definition console := list exn.

Definition console_error (e : exn) : M (filesystem * console) unit :=
  on_snd (modify (fun c => c ++ [e])).

Definition defaultSettings : list (string * json) :=
  [("executionMode", JStr "parallel");
   ("browserMode", JStr "headless");
   ("environment", JStr "staging")].

(** [a === "text"] *)
Definition strict_eq_string (a : jsvalue) (text : string) : bool :=
  match a with
  | Some (JStr s) => String.eqb s text
  | _ => false
  end.

(** [a || b] *)
Definition js_or (a b : jsvalue) : jsvalue := if truthy a then a else b.

Section WithJSON.
Context {J : JSONImpl}.

(** [JSON.parse(fs.readFileSync(settingsPath, "utf-8"))] *)
Definition read_and_parse : M (filesystem * console) json :=
  do content <- on_fst (readFileSync settingsPath);
  match JSON_parse content with
  | Some v => ret v
  | None => throw SyntaxError
  end.

(** utils/setConfig.js: [loadSettings()] *)
Definition loadSettings : M (filesystem * console) (list (string * json)) :=
  do present <- on_fst (existsSync settingsPath);
  if present then
    try_catch
      (do parsed <- read_and_parse;
       ret (obj_spread defaultSettings (own_props parsed)))
      (fun error => console_error error;; ret defaultSettings)
  else ret defaultSettings.

(** The runner configuration of src/unnamed/part_006: the [settings]
    object after the load, and the values derived from it. *)
Definition current_settings : M (filesystem * console) (list (string * json)) :=
  let settings := defaultSettings in
  do present <- on_fst (existsSync settingsPath);
  if present then
    try_catch
      (do parsed <- read_and_parse;
       ret (obj_spread settings (own_props parsed)))
      (fun error => console_error error;; ret settings)
  else ret settings.

Record current_config : Type := {
  isParallel : bool;
  isHeadless : bool;
  environment : jsvalue
}.

Definition load_current_config : M (filesystem * console) current_config :=
  do settings <- current_settings;
  ret {| isParallel := strict_eq_string (obj_get settings "executionMode") "parallel";
         isHeadless := strict_eq_string (obj_get settings "browserMode") "headless";
         environment := js_or (obj_get settings "environment") (Some (JStr "staging")) |}.

(** The older runner configuration of src/unnamed/part_007 (from line
    25): two defaults, and a parsed file replaces the whole object. *)
Definition legacy_defaults : list (string * json) :=
  [("executionMode", JStr "parallel");
   ("browserMode", JStr "headless")].

Definition legacy_settings : M (filesystem * console) json :=
  let settings := JObj legacy_defaults in
  do present <- on_fst (existsSync settingsPath);
  if present then
    try_catch read_and_parse
      (fun error => console_error error;; ret settings)
  else ret settings.

Record legacy_config : Type := {
  legacy_isParallel : bool;
  legacy_isHeadless : bool
}.

Definition load_legacy_config : M (filesystem * console) legacy_config :=
  do settings <- legacy_settings;
  do executionMode <- get_member settings "executionMode";
  do browserMode <- get_member settings "browserMode";
  ret {| legacy_isParallel := strict_eq_string executionMode "parallel";
         legacy_isHeadless := strict_eq_string browserMode "headless" |}.

End WithJSON.

(** *** What an option reads after the load *)

(** The value the parsed settings file gives to the option [k]. *)
Definition file_option (parsed : json) (k : string) : option json :=
  match parsed with
  | JObj props => obj_get props k
  | _ => None
  end.

(** The option names are no array indices: they start with a letter. *)
Definition option_name (k : string) : Prop :=
  match k with
  | String c _ => is_digit c = false
  | EmptyString => True
  end.

Section Expected.
Context {J : JSONImpl}.

(** What the option [k] reads after the load: the file's value when the
    file parses and has the key, the default otherwise. *)
Definition expected_option (fs : filesystem) (k : string) : option json :=
  match node_at fs settingsPath with
  | Some (File content) =>
      match JSON_parse content with
      | Some parsed =>
          match file_option parsed k with
          | Some v => Some v
          | None => obj_get defaultSettings k
          end
      | None => obj_get defaultSettings k
      end
  | _ => obj_get defaultSettings k
  end.

End Expected.

End Settings.

(** ** Objects on the heap *)

Module Heap.

Abbreviation loc := positive.

(** A value as a variable holds it: a primitive or a reference. *)
Inductive hval : Type :=
| HUndefined
| HPrim (p : prim)
| HRef (l : loc).

Inductive cell : Type :=
| CObj (props : list (string * hval))
| CArr (elems : list hval).

Abbreviation heap := (gmap loc cell).

Definition alloc (c : cell) (h : heap) : loc * heap :=
  let l := fresh (dom h) in (l, <[l := c]> h).

(** The objects [JSON.parse] builds for a value: one new cell for each
    array and object, children first. *)
Fixpoint alloc_json (v : json) (h : heap) : hval * heap :=
  match v with
  | JPrim p => (HPrim p, h)
  | JArr elems =>
      let '(vs, h1) :=
        (fix go (l : list json) (h : heap) : list hval * heap :=
           match l with
           | [] => ([], h)
           | x :: r => let '(v, h1) := alloc_json x h in
                       let '(vs, h2) := go r h1 in (v :: vs, h2)
           end) elems h in
      let '(l, h2) := alloc (CArr vs) h1 in (HRef l, h2)
  | JObj props =>
      let '(ps, h1) :=
        (fix go (l : list (string * json)) (h : heap)
           : list (string * hval) * heap :=
           match l with
           | [] => ([], h)
           | (k, x) :: r => let '(v, h1) := alloc_json x h in
                            let '(ps, h2) := go r h1 in ((k, v) :: ps, h2)
           end) props h in
      let '(l, h2) := alloc (CObj ps) h1 in (HRef l, h2)
  end.

(** The JSON value a heap value stands for: [None] when it holds
    [undefined], a dangling reference, or is deeper than [fuel]. *)
Fixpoint reify_json (fuel : nat) (h : heap) (v : hval) : option json :=
  match v with
  | HUndefined => None
  | HPrim p => Some (JPrim p)
  | HRef l =>
      match fuel with
      | O => None
      | S fuel' =>
          match h !! l with
          | None => None
          | Some (CArr vs) =>
              option_map JArr (mapM (reify_json fuel' h) vs)
          | Some (CObj ps) =>
              option_map JObj
                (mapM (fun kv => option_map (pair (fst kv))
                                   (reify_json fuel' h (snd kv))) ps)
          end
      end
  end.

(** The value a caller sees behind [v]: [None] is [undefined]. *)
Definition denotes (h : heap) (v : hval) (x : jsvalue) : Prop :=
  match x with
  | None => v = HUndefined
  | Some j => exists fuel, reify_json fuel h v = Some j
  end.

Definition cell_values (c : cell) : list hval :=
  match c with
  | CObj props => map snd props
  | CArr elems => elems
  end.

(** [l] is one of the objects reachable from [v]. *)
Inductive reachable (h : heap) : hval -> loc -> Prop :=
| reach_here l : reachable h (HRef l) l
| reach_step l c v l' :
    h !! l = Some c -> v ∈ cell_values c -> reachable h v l' ->
    reachable h (HRef l) l'.

(** lodash's [_.cloneDeep] on JSON-shaped data: a value-equal structure
    made of new objects only; a primitive is returned as it is. *)
Definition cloneDeep (v : hval) : M heap hval :=
  match v with
  | HRef _ =>
      fun h => match reify_json (S (size h)) h v with
               | Some t => let '(v', h') := alloc_json t h in (Returned v', h')
               | None => (Thrown (Unmodelled "cloneDeep of data that is not JSON"), h)
               end
  | _ => ret v
  end.

Definition truthy_h (v : hval) : bool :=
  match v with
  | HUndefined => false
  | HPrim p => truthy_prim p
  | HRef _ => true
  end.

(** Decimal spelling of an integer, as [ToString] gives it for a
    property key. *)
Definition Z_key (i : Z) : string := NilZero.string_of_int (Z.to_int i).

(** [v[k]] on the heap. *)
Definition hread (h : heap) (v : hval) (k : string) : outcome hval :=
  match v with
  | HUndefined | HPrim PNull => Thrown TypeError
  | HPrim (PStr s) =>
      if String.eqb k "length" then Returned (HPrim (PNum (Z.of_nat (String.length s))))
      else match key_index k with
           | Some i => Returned (match String.get i s with
                                 | Some c => HPrim (PStr (char_string c))
                                 | None => HUndefined
                                 end)
           | None => Returned HUndefined
           end
  | HPrim (PBool _) | HPrim (PNum _) => Returned HUndefined
  | HRef l =>
      match h !! l with
      | Some (CObj props) => Returned (default HUndefined (obj_get props k))
      | Some (CArr elems) =>
          if String.eqb k "length"
          then Returned (HPrim (PNum (Z.of_nat (length elems))))
          else match key_index k with
               | Some i => Returned (default HUndefined (elems !! i))
               | None => Returned HUndefined
               end
      | None => Thrown (Unmodelled "dangling reference")
      end
  end.

Definition hget (v : hval) (k : string) : M heap hval :=
  fun h => (hread h v k, h).

(** [v === 0] *)
Definition is_zero (v : hval) : bool :=
  match v with
  | HPrim (PNum n) => n =? 0
  | _ => false
  end.

(** [index >= len] for a number [index]: [undefined] compares false;
    strings and objects would need numeric coercion. *)
Definition index_ge {S} (index : Z) (len : hval) : M S bool :=
  match len with
  | HUndefined => ret false
  | HPrim (PNum n) => ret (n <=? index)
  | HPrim PNull => ret (0 <=? index)
  | HPrim (PBool b) => ret ((if b then 1 else 0) <=? index)
  | HPrim (PStr _) | HRef _ => throw (Unmodelled "ToNumber")
  end.

(** *** What an allocation guarantees *)

(** A value that is an object is one of [S]. *)
Definition closed_val (S : gset loc) (v : hval) : Prop :=
  match v with
  | HRef l => l ∈ S
  | _ => True
  end.

(** The objects of [S] hold objects of [S] only. *)
Definition cells_closed (h : heap) (S : gset loc) : Prop :=
  forall l c v, l ∈ S -> h !! l = Some c -> v ∈ cell_values c -> closed_val S v.

(** The allocation of the elements of an array, and of the properties
    of an object, as [alloc_json] does them. *)
Fixpoint alloc_list (l : list json) (h : heap) : list hval * heap :=
  match l with
  | [] => ([], h)
  | x :: r => let '(v, h1) := alloc_json x h in
              let '(vs, h2) := alloc_list r h1 in (v :: vs, h2)
  end.

Fixpoint alloc_props (l : list (string * json)) (h : heap)
  : list (string * hval) * heap :=
  match l with
  | [] => ([], h)
  | (k, x) :: r => let '(v, h1) := alloc_json x h in
                   let '(ps, h2) := alloc_props r h1 in ((k, v) :: ps, h2)
  end.

(** What an allocation from [h] to [h'] guarantees for its result. *)
Record allocated (h h' : heap) (vs : list hval) : Prop := {
  alloc_extends : h ⊆ h';
  alloc_closed_vals : Forall (closed_val (dom h' ∖ dom h)) vs;
  alloc_closed_cells : cells_closed h' (dom h' ∖ dom h)
}.

(** The reading of one property. *)
Definition reify_prop (n : nat) (h : heap) (kv : string * hval) : option (string * json) :=
  option_map (pair (fst kv)) (reify_json n h (snd kv)).

(** What the allocation of a value gives: new objects only, and the
    value back. *)
Definition alloc_spec (t : json) : Prop :=
  forall h v h', alloc_json t h = (v, h') ->
    allocated h h' [v] /\ exists n, reify_json n h' v = Some t.

End Heap.

Export Heap.

(** ** utils/testDataManager.js *)

Module TestDataManager.

Inductive log_line : Type :=
| LogInfo (msg : string)
| LogError (msg : string) (e : exn).

(** The manager object: [this.cache], the heap its objects live in, the
    disk it loads from and the log it writes. *)
Record manager : Type := {
  heap_of : heap;
  cache : gmap string hval;
  disk : filesystem;
  log : list log_line
}.

Definition on_heap {A} (m : M heap A) : M manager A :=
  fun st => let '(r, h') := m (heap_of st) in
            (r, {| heap_of := h'; cache := cache st; disk := disk st; log := log st |}).

Definition on_disk {A} (m : M filesystem A) : M manager A :=
  fun st => let '(r, d') := m (disk st) in
            (r, {| heap_of := heap_of st; cache := cache st; disk := d'; log := log st |}).

Definition logger (line : log_line) : M manager unit :=
  modify (fun st => {| heap_of := heap_of st; cache := cache st;
                       disk := disk st; log := log st ++ [line] |}).

Definition cache_set (key : string) (data : hval) : M manager unit :=
  modify (fun st => {| heap_of := heap_of st; cache := <[key := data]> (cache st);
                       disk := disk st; log := log st |}).

(** [path.join(process.cwd(), 'testData')]; paths are spelled from the
    working directory of the process. *)
Definition testDataPath : path := ["testData"].

Section WithJSON.
Context {J : JSONImpl}.

Definition loadTestData (fileName : string) : M manager hval :=
  let cacheKey := fileName in
  do cached <- gets (fun st => cache st !! cacheKey);
  match cached with
  | Some data =>
      logger (LogInfo ("Loading test data from cache: " ++ fileName)%string);;
      ret data
  | None =>
      try_catch
        (let filePath := testDataPath ++ [(fileName ++ ".json")%string] in
         do present <- on_disk (existsSync filePath);
         (if negb present
          then throw (Error ("Test data file not found: "
                             ++ String.concat "/" filePath)%string)
          else ret tt);;
         do text <- on_disk (readFileSync filePath);
         do parsed <- match JSON_parse text with
                      | Some v => ret v
                      | None => throw SyntaxError
                      end;
         do data <- on_heap (fun h => let '(v, h') := alloc_json parsed h in (Returned v, h'));
         cache_set cacheKey data;;
         logger (LogInfo ("Loaded test data: " ++ fileName)%string);;
         ret data)
        (fun error =>
           logger (LogError ("Error loading test data " ++ fileName ++ ":")%string error);;
           throw error)
  end.

Definition getUser (type : string) (index : Z) : M manager hval :=
  do users <- loadTestData "users";
  let userType :=
    if String.eqb type "valid" then "validUsers"
    else if String.eqb type "invalid" then "invalidUsers"
    else if String.eqb type "test" then "testUsers"
    else if String.eqb type "bulk" then "bulkUsers"
    else "validUsers" in
  do group <- on_heap (hget users userType);
  do empty <- (if negb (truthy_h group) then ret true
               else do len <- on_heap (hget group "length"); ret (is_zero len));
  (if empty : bool
   then throw (Error ("No " ++ type ++ " users found in test data")%string)
   else ret tt);;
  do len <- on_heap (hget group "length");
  do beyond <- index_ge index len;
  (if beyond : bool
   then throw (Error ("User index " ++ Z_key index ++ " out of range for "
                      ++ type ++ " users")%string)
   else ret tt);;
  do entry <- on_heap (hget group (Z_key index));
  on_heap (cloneDeep entry).

Definition getProduct (type : string) (index : Z) : M manager hval :=
  do products <- loadTestData "products";
  let productType :=
    if String.eqb type "valid" then "validProducts"
    else if String.eqb type "outOfStock" then "outOfStockProducts"
    else if String.eqb type "discounted" then "discountedProducts"
    else if String.eqb type "bulk" then "bulkProducts"
    else "validProducts" in
  do group <- on_heap (hget products productType);
  do empty <- (if negb (truthy_h group) then ret true
               else do len <- on_heap (hget group "length"); ret (is_zero len));
  (if empty : bool
   then throw (Error ("No " ++ type ++ " products found in test data")%string)
   else ret tt);;
  do len <- on_heap (hget group "length");
  do beyond <- index_ge index len;
  (if beyond : bool
   then throw (Error ("Product index " ++ Z_key index ++ " out of range for "
                      ++ type ++ " products")%string)
   else ret tt);;
  do entry <- on_heap (hget group (Z_key index));
  on_heap (cloneDeep entry).

(** The shape the two getters share: load a file, read one group of it,
    check the two ranges, copy the entry. *)
Definition get_entry (fileName group : string) (index : Z)
  (none_found out_of_range : string) : M manager hval :=
  do data <- loadTestData fileName;
  do group <- on_heap (hget data group);
  do empty <- (if negb (truthy_h group) then ret true
               else do len <- on_heap (hget group "length"); ret (is_zero len));
  (if empty : bool then throw (Error none_found) else ret tt);;
  do len <- on_heap (hget group "length");
  do beyond <- index_ge index len;
  (if beyond : bool then throw (Error out_of_range) else ret tt);;
  do entry <- on_heap (hget group (Z_key index));
  on_heap (cloneDeep entry).

End WithJSON.

(** What a caller can do to the heap with the objects it holds: write
    any cell at any location that is not [protected]. *)
Inductive caller_writes (protected : loc -> Prop) : heap -> heap -> Prop :=
| writes_none h : caller_writes protected h h
| writes_step h l c h' :
    ~ protected l ->
    caller_writes protected (<[l := c]> h) h' ->
    caller_writes protected h h'.

(** The objects of the cached data. *)
Definition cached_object (st : manager) (l : loc) : Prop :=
  exists key root, cache st !! key = Some root /\ reachable (heap_of st) root l.

(** Every object of the cached data is on the heap. *)
Definition heap_closed (st : manager) : Prop :=
  forall l, cached_object st l -> l ∈ dom (heap_of st).

Definition with_heap (st : manager) (h : heap) : manager :=
  {| heap_of := h; cache := cache st; disk := disk st; log := log st |}.

Definition with_disk (st : manager) (d : filesystem) : manager :=
  {| heap_of := heap_of st; cache := cache st; disk := d; log := log st |}.

(** *** The entry a getter copies, and what a copy is *)

(** [index >= len] without a state. *)
Definition index_ge_pure (index : Z) (len : hval) : outcome bool :=
  match len with
  | HUndefined => Returned false
  | HPrim (PNum n) => Returned (n <=? index)
  | HPrim PNull => Returned (0 <=? index)
  | HPrim (PBool b) => Returned ((if b then 1 else 0) <=? index)
  | HPrim (PStr _) | HRef _ => Thrown (Unmodelled "ToNumber")
  end.

(** The entry a getter picks on the heap [h], before it copies it. *)
Definition select (h : heap) (data : hval) (group : string) (index : Z)
  (none_found out_of_range : string) : outcome hval :=
  match hread h data group with
  | Thrown e => Thrown e
  | Returned entries =>
      match (if negb (truthy_h entries) then Returned true
             else match hread h entries "length" with
                  | Returned len => Returned (is_zero len)
                  | Thrown e => Thrown e
                  end) with
      | Thrown e => Thrown e
      | Returned true => Thrown (Error none_found)
      | Returned false =>
          match hread h entries "length" with
          | Thrown e => Thrown e
          | Returned len =>
              match index_ge_pure index len with
              | Thrown e => Thrown e
              | Returned true => Thrown (Error out_of_range)
              | Returned false => hread h entries (Z_key index)
              end
          end
      end
  end.

(** What it means for a getter to hand out copies: the objects of an
    answer are none of the cached ones, and whatever a caller then writes
    outside the cached objects, the next call gives a value equal to the
    first and leaves the cached objects as they were. *)
Definition returns_copies (getter : M manager hval) : Prop :=
  forall st v1 st1,
    heap_closed st ->
    getter st = (Returned v1, st1) ->
    exists x,
      denotes (heap_of st1) v1 x /\
      (forall l, reachable (heap_of st1) v1 l -> ~ cached_object st1 l) /\
      forall h2,
        caller_writes (cached_object st1) (heap_of st1) h2 ->
        exists v2 st3,
          getter (with_heap st1 h2) = (Returned v2, st3) /\
          denotes (heap_of st3) v2 x /\
          (forall l, cached_object st1 l -> heap_of st3 !! l = heap_of st1 !! l).

End TestDataManager.

(** ** Regular expressions, as [RegExp.prototype.test] decides them *)

Module Regex.

Inductive regex : Type :=
| Empty
| Eps
| Chr (accept : ascii -> bool)
| Seq (r1 r2 : regex)
| Alt (r1 r2 : regex)
| Star (r : regex).

(** [r+] *)
Definition Plus (r : regex) : regex := Seq r (Star r).

Fixpoint nullable (r : regex) : bool :=
  match r with
  | Empty => false
  | Eps => true
  | Chr _ => false
  | Seq r1 r2 => nullable r1 && nullable r2
  | Alt r1 r2 => nullable r1 || nullable r2
  | Star _ => true
  end.

(** What is left of [r] after reading [c]. *)
Fixpoint deriv (c : ascii) (r : regex) : regex :=
  match r with
  | Empty => Empty
  | Eps => Empty
  | Chr accept => if accept c then Eps else Empty
  | Seq r1 r2 =>
      if nullable r1 then Alt (Seq (deriv c r1) r2) (deriv c r2)
      else Seq (deriv c r1) r2
  | Alt r1 r2 => Alt (deriv c r1) (deriv c r2)
  | Star r1 => Seq (deriv c r1) (Star r1)
  end.

(** Whole-input match: the pattern is anchored by [^] and [$]. *)
Fixpoint matches (r : regex) (input : list ascii) : bool :=
  match input with
  | [] => nullable r
  | c :: rest => matches (deriv c r) rest
  end.

Definition regex_test (r : regex) (s : string) : bool :=
  matches r (list_ascii_of_string s).

(** The class [\s] on a code unit: white space and line terminators. *)
Definition is_space_code (n : N) : bool :=
  ((9 <=? n) && (n <=? 13) || (n =? 32) || (n =? 160) || (n =? 5760)
   || (8192 <=? n) && (n <=? 8202) || (n =? 8232) || (n =? 8233)
   || (n =? 8239) || (n =? 8287) || (n =? 12288) || (n =? 65279))%N.

Definition is_space (c : ascii) : bool := is_space_code (N_of_ascii c).

(** The class [[^\s@]] *)
Definition not_space_at (c : ascii) : bool :=
  negb (is_space c) && negb (Ascii.eqb c "@").

Definition is_char (x c : ascii) : bool := Ascii.eqb c x.

(** [/^[^\s@]+@[^\s@]+\.[^\s@]+$/] *)
Definition emailRegex : regex :=
  Seq (Plus (Chr not_space_at))
    (Seq (Chr (is_char "@"))
       (Seq (Plus (Chr not_space_at))
          (Seq (Chr (is_char "."))
             (Plus (Chr not_space_at))))).

(** *** The words of a pattern *)

(** The words a pattern stands for. *)
Inductive lang : regex -> list ascii -> Prop :=
| lang_eps : lang Eps []
| lang_chr accept c : accept c = true -> lang (Chr accept) [c]
| lang_seq r1 r2 s1 s2 :
    lang r1 s1 -> lang r2 s2 -> lang (Seq r1 r2) (s1 ++ s2)
| lang_alt_l r1 r2 s : lang r1 s -> lang (Alt r1 r2) s
| lang_alt_r r1 r2 s : lang r2 s -> lang (Alt r1 r2) s
| lang_star_nil r : lang (Star r) []
| lang_star_cons r s1 s2 :
    lang r s1 -> lang (Star r) s2 -> lang (Star r) (s1 ++ s2).

(** A non-empty run of characters that are neither white space nor
    [@]. *)
Definition email_part (s : list ascii) : Prop :=
  s <> [] /\ Forall (fun c => not_space_at c = true) s.

(** [local@domain.tld], each of the three parts an [email_part]. *)
Definition email_shape (s : list ascii) : Prop :=
  exists a b c,
    s = a ++ "@"%char :: b ++ "."%char :: c /\
    email_part a /\ email_part b /\ email_part c.

End Regex.

Export Regex.

(** ** utils/testDataManager.js: validateUserData (lines 272-300) *)

Module Validation.

Record validation : Type := {
  valid : bool;
  errors : list string
}.

(** [v[k]] for a value that may be [undefined]: throws on [undefined]
    as on [null]. *)
Definition member {S} (v : jsvalue) (k : string) : M S jsvalue :=
  match v with
  | None => throw TypeError
  | Some j => get_member j k
  end.

(** *** Conversions: [ToString], [ToPrimitive], [ToNumber] and the
        relational comparison *)

(** The integers that a double holds as they are, and that print as
    their decimal digits. *)
Definition exact_integer (x : Z) : bool := Z.abs x <=? 2 ^ 53.

(** [ToString] on a primitive.  A number beyond [2^53] prints the
    shortest digits that read back as the same double, which the model
    does not work out. *)
Definition prim_to_string (p : prim) : outcome string :=
  match p with
  | PNull => Returned "null"
  | PBool true => Returned "true"
  | PBool false => Returned "false"
  | PNum n => if exact_integer n then Returned (Z_key n)
              else Thrown (Unmodelled "number beyond 2^53")
  | PStr s => Returned s
  end.

(** [ToString] on a value of the JSON fragment.  An array joins the
    strings of its elements with commas, [null] elements as empty
    strings, and throws what the first element that does not convert
    throws.  An object without a [toString] of its own inherits the
    method that answers "[object Object]".  A [toString] of its own is
    no function in this fragment and hides that method; [valueOf] then
    gives no primitive either, and the conversion throws a
    [TypeError]. *)
Fixpoint to_string_json (v : json) : outcome string :=
  match v with
  | JPrim p => prim_to_string p
  | JArr elems =>
      match
        (fix texts (l : list json) : outcome (list string) :=
           match l with
           | [] => Returned []
           | x :: rest =>
               match match x with
                     | JNull => Returned ""
                     | _ => to_string_json x
                     end
               with
               | Thrown e => Thrown e
               | Returned text =>
                   match texts rest with
                   | Thrown e => Thrown e
                   | Returned others => Returned (text :: others)
                   end
               end
           end) elems
      with
      | Thrown e => Thrown e
      | Returned pieces => Returned (String.concat "," pieces)
      end
  | JObj props =>
      match obj_get props "toString" with
      | Some _ => Thrown TypeError
      | None => Returned "[object Object]"
      end
  end.

(** [String(v)], as a template literal and [RegExp.prototype.test] take
    their operand. *)
Definition value_text (v : jsvalue) : outcome string :=
  match v with
  | None => Returned "undefined"
  | Some j => to_string_json j
  end.

(** A step that answers without a look at the state. *)
Definition answer {S A} (o : outcome A) : M S A := fun s => (o, s).

Definition to_string {S} (v : jsvalue) : M S string := answer (value_text v).

(** [ToPrimitive]: a primitive is its own, an array or an object gives
    its string; [None] is [undefined]. *)
Definition to_primitive (v : jsvalue) : outcome (option prim) :=
  match v with
  | None => Returned None
  | Some (JPrim p) => Returned (Some p)
  | Some j => match to_string_json j with
              | Returned text => Returned (Some (PStr text))
              | Thrown e => Thrown e
              end
  end.

(** The numbers: [NaN], the two infinities, and the finite doubles as
    the rationals they are. *)
Inductive number : Type :=
| NaN
| Infinity (negative : bool)
| Finite (q : Q).

Definition negate (x : number) : number :=
  match x with
  | NaN => NaN
  | Infinity negative => Infinity (negb negative)
  | Finite q => Finite (Qopp q)
  end.

(** The largest [k] with [2^k <= a / b], for [a] and [b] above 0. *)
Definition floor_log2 (a b : Z) : Z :=
  let k := Z.log2 a - Z.log2 b in
  if (if 0 <=? k then b * 2 ^ k <=? a else b <=? a * 2 ^ (- k)) then k else k - 1.

(** The double nearest to [a / b], for [a] and [b] above 0: a
    significand of 53 bits (fewer below [2^-1022]), a tie to the even
    significand, and [Infinity] from [2^1024] on. *)
Definition round_positive (a b : Z) : number :=
  let e := Z.max (floor_log2 a b - 52) (- 1074) in
  let n := if 0 <=? e then a else a * 2 ^ (- e) in
  let d := if 0 <=? e then b * 2 ^ e else b in
  let m := match 2 * (n mod d) ?= d with
           | Lt => n / d
           | Gt => n / d + 1
           | Eq => if Z.even (n / d) then n / d else n / d + 1
           end in
  if 0 <=? e then
    if 2 ^ 1024 <=? m * 2 ^ e then Infinity false
    else Finite (inject_Z (m * 2 ^ e))
  else Finite (Qmake m (Z.to_pos (2 ^ (- e)))).

(** The double nearest to [a / b], for [a] not below 0 and [b] above. *)
Definition round_ratio (a b : Z) : number :=
  if a =? 0 then Finite (inject_Z 0) else round_positive a b.

(** The value of a digit in a base up to 16. *)
Definition digit_value (base : Z) (c : ascii) : option Z :=
  let n := Z.of_N (N_of_ascii c) in
  let d := if (48 <=? n) && (n <=? 57) then Some (n - 48)
           else if (97 <=? n) && (n <=? 102) then Some (n - 87)
           else if (65 <=? n) && (n <=? 70) then Some (n - 55)
           else None in
  match d with
  | Some v => if v <? base then Some v else None
  | None => None
  end.

(** The digits a text starts with: the number they spell after [acc],
    how many they are after [count], and the text that follows. *)
Fixpoint digits (base : Z) (text : list ascii) (acc : Z) (count : nat)
  : Z * nat * list ascii :=
  match text with
  | [] => (acc, count, [])
  | c :: rest =>
      match digit_value base c with
      | Some d => digits base rest (acc * base + d) (S count)
      | None => (acc, count, text)
      end
  end.

(** [0x], [0o] and [0b] literals: no sign, at least one digit, nothing
    after the digits. *)
Definition non_decimal (text : list ascii) : option number :=
  match text with
  | "0"%char :: p :: rest =>
      let base := if Ascii.eqb p "x" || Ascii.eqb p "X" then 16
                  else if Ascii.eqb p "o" || Ascii.eqb p "O" then 8
                  else if Ascii.eqb p "b" || Ascii.eqb p "B" then 2
                  else 0 in
      if base =? 0 then None
      else match digits base rest 0 0 with
           | (v, S _, []) => Some (round_ratio v 1)
           | _ => None
           end
  | _ => None
  end.

(** What may follow the digits of a decimal literal: nothing, or [e] or
    [E], a sign or none, and at least one digit. *)
Definition exponent_part (text : list ascii) : option Z :=
  match text with
  | [] => Some 0
  | c :: rest =>
      if Ascii.eqb c "e" || Ascii.eqb c "E" then
        let '(negative, rest') :=
          match rest with
          | "+"%char :: r => (false, r)
          | "-"%char :: r => (true, r)
          | _ => (false, rest)
          end in
        match digits 10 rest' 0 0 with
        | (v, S _, []) => Some (if negative : bool then - v else v)
        | _ => None
        end
      else None
  end.

(** A decimal literal without a sign: [Infinity], or digits with a
    point or without, at least one digit in all, and an exponent or
    none. *)
Definition unsigned_decimal (text : list ascii) : number :=
  if String.eqb (string_of_list_ascii text) "Infinity" then Infinity false
  else
    let '(int, ni, rest) := digits 10 text 0 0 in
    let '(frac, nf, rest') :=
      match rest with
      | "."%char :: r => digits 10 r 0 0
      | _ => (0, 0%nat, rest)
      end in
    if (ni + nf =? 0)%nat then NaN
    else match exponent_part rest' with
         | None => NaN
         | Some x =>
             let mantissa := int * 10 ^ Z.of_nat nf + frac in
             let e10 := x - Z.of_nat nf in
             if 0 <=? e10 then round_ratio (mantissa * 10 ^ e10) 1
             else round_ratio mantissa (10 ^ (- e10))
         end.

Definition signed_decimal (text : list ascii) : number :=
  match text with
  | "+"%char :: rest => unsigned_decimal rest
  | "-"%char :: rest => negate (unsigned_decimal rest)
  | _ => unsigned_decimal text
  end.

Fixpoint drop_space (text : list ascii) : list ascii :=
  match text with
  | c :: rest => if is_space c then drop_space rest else text
  | [] => []
  end.

(** [ToNumber] on a string: white space around the literal is dropped,
    the empty text is 0, and what is no literal is [NaN]. *)
Definition string_to_number (s : string) : number :=
  let text := rev (drop_space (rev (drop_space (list_ascii_of_string s)))) in
  match text with
  | [] => Finite (inject_Z 0)
  | _ => match non_decimal text with
         | Some x => x
         | None => signed_decimal text
         end
  end.

(** [ToNumber] on a primitive or [undefined]. *)
Definition to_number (p : option prim) : number :=
  match p with
  | None => NaN
  | Some PNull => Finite (inject_Z 0)
  | Some (PBool b) => Finite (inject_Z (if b then 1 else 0))
  | Some (PNum n) => Finite (inject_Z n)
  | Some (PStr s) => string_to_number s
  end.

(** [x < y] on numbers; [None] where a side is [NaN]. *)
Definition number_less (x y : number) : option bool :=
  match x, y with
  | NaN, _ | _, NaN => None
  | Infinity a, Infinity b => Some (a && negb b)
  | Infinity a, Finite _ => Some a
  | Finite _, Infinity b => Some (negb b)
  | Finite p, Finite q => Some (match Qcompare p q with Lt => true | _ => false end)
  end.

(** [a < b] on strings: by code units, a proper prefix first. *)
Fixpoint string_less (a b : string) : bool :=
  match a, b with
  | _, EmptyString => false
  | EmptyString, String _ _ => true
  | String x a', String y b' =>
      if (N_of_ascii x <? N_of_ascii y)%N then true
      else if (N_of_ascii y <? N_of_ascii x)%N then false
      else string_less a' b'
  end.

(** The comparison of two primitives: two strings as strings, anything
    else as numbers; [None] is the undefined answer of a [NaN]. *)
Definition prim_less (px py : option prim) : option bool :=
  match px, py with
  | Some (PStr a), Some (PStr b) => Some (string_less a b)
  | _, _ => number_less (to_number px) (to_number py)
  end.

(** Both operands as primitives, the left one first. *)
Definition operands (a b : jsvalue) : outcome (option prim * option prim) :=
  match to_primitive a with
  | Thrown e => Thrown e
  | Returned pa =>
      match to_primitive b with
      | Thrown e => Thrown e
      | Returned pb => Returned (pa, pb)
      end
  end.

Definition is_answer (r : option bool) (b : bool) : bool :=
  match r with
  | Some x => Bool.eqb x b
  | None => false
  end.

(** [a < b], [a > b] and [a >= b]. *)
Definition less (a b : jsvalue) : outcome bool :=
  match operands a b with
  | Returned (pa, pb) => Returned (is_answer (prim_less pa pb) true)
  | Thrown e => Thrown e
  end.

Definition greater (a b : jsvalue) : outcome bool :=
  match operands a b with
  | Returned (pa, pb) => Returned (is_answer (prim_less pb pa) true)
  | Thrown e => Thrown e
  end.

Definition greater_equal (a b : jsvalue) : outcome bool :=
  match operands a b with
  | Returned (pa, pb) => Returned (is_answer (prim_less pa pb) false)
  | Thrown e => Thrown e
  end.

(** [len < n] for a number [n]. *)
Definition less_than {S} (len : jsvalue) (n : Z) : M S bool :=
  answer (less len (Some (JNum n))).

Definition requiredFields : list string :=
  ["email"; "password"; "firstName"; "lastName"].

(** [fields.filter(field => !user[field])] *)
Fixpoint filter_missing {S} (user : jsvalue) (fields : list string)
  : M S (list string) :=
  match fields with
  | [] => ret []
  | field :: rest =>
      do v <- member user field;
      do others <- filter_missing user rest;
      ret (if negb (truthy v) then field :: others else others)
  end.

Definition validateUserData {S} (user : jsvalue) : M S validation :=
  do missingFields <- filter_missing user requiredFields;
  if 0 <? Z.of_nat (length missingFields) then
    ret {| valid := false;
           errors := [("Missing required fields: "
                       ++ String.concat ", " missingFields)%string] |}
  else
    let errors0 : list string := [] in
    do email <- member user "email";
    do text <- to_string email;
    let errors1 :=
      if negb (regex_test emailRegex text)
      then errors0 ++ ["Invalid email format"] else errors0 in
    do password <- member user "password";
    do len <- member password "length";
    do short <- less_than len 8;
    let errors2 :=
      if short : bool
      then errors1 ++ ["Password must be at least 8 characters long"]
      else errors1 in
    ret {| valid := Z.of_nat (length errors2) =? 0; errors := errors2 |}.

(** *** The conditions of a valid user *)

(** [null] or [undefined] *)
Definition nullish (v : jsvalue) : bool :=
  match v with
  | None | Some JNull => true
  | _ => false
  end.

(** The value of [v[k]], where the access does not throw. *)
Definition field_of (v : jsvalue) (k : string) : jsvalue :=
  match v with
  | Some j => match get_member (S := unit) j k tt with
              | (Returned x, _) => x
              | (Thrown _, _) => None
              end
  | None => None
  end.

(** All four required fields are there and truthy. *)
Definition fields_present (user : jsvalue) : bool :=
  forallb (fun field => truthy (field_of user field)) requiredFields.

(** The email converts to a string, and the string matches the
    pattern. *)
Definition email_ok (user : jsvalue) : bool :=
  match value_text (field_of user "email") with
  | Returned text => regex_test emailRegex text
  | Thrown _ => false
  end.

(** [user.password.length]: the length of a string or an array, the
    [length] property of an object, [undefined] on a number or a
    boolean. *)
Definition password_length (user : jsvalue) : jsvalue :=
  field_of (field_of user "password") "length".

(** The password does not fall short: [user.password.length < 8] is
    false. *)
Definition password_ok (user : jsvalue) : bool :=
  match less (password_length user) (Some (JNum 8)) with
  | Returned short => negb short
  | Thrown _ => false
  end.

(** The value converts to a primitive: it is no object with a
    [toString] of its own, and no array that holds one where it joins
    its elements. *)
Fixpoint converts_json (v : json) : bool :=
  match v with
  | JPrim _ => true
  | JArr elems =>
      (fix all (l : list json) : bool :=
         match l with
         | [] => true
         | x :: rest => converts_json x && all rest
         end) elems
  | JObj props =>
      match obj_get props "toString" with
      | Some _ => false
      | None => true
      end
  end.

Definition converts (v : jsvalue) : bool :=
  match v with
  | None => true
  | Some j => converts_json j
  end.

(** Every number of the value is an integer up to [2^53] in
    magnitude. *)
Fixpoint exact_numbers_json (v : json) : bool :=
  match v with
  | JNum n => exact_integer n
  | JPrim _ => true
  | JArr elems =>
      (fix all (l : list json) : bool :=
         match l with
         | [] => true
         | x :: rest => exact_numbers_json x && all rest
         end) elems
  | JObj props =>
      (fix all (l : list (string * json)) : bool :=
         match l with
         | [] => true
         | kv :: rest => exact_numbers_json (snd kv) && all rest
         end) props
  end.

Definition exact_numbers (v : jsvalue) : bool :=
  match v with
  | None => true
  | Some j => exact_numbers_json j
  end.

(** A user whose password is the number 1234. *)
Definition numeric_password_user : jsvalue :=
  Some (JObj [("email", JStr "qa@example.com"); ("password", JNum 1234);
              ("firstName", JStr "Quinn"); ("lastName", JStr "Ashby")]).

(** A user with a password of ten characters. *)
Definition sample_valid_user : jsvalue :=
  Some (JObj [("email", JStr "qa@example.com"); ("password", JStr "longenough");
              ("firstName", JStr "Quinn"); ("lastName", JStr "Ashby")]).

End Validation.

(** ** Fixture composition (fixtures/customFixtures.js,
       fixtures/loginFixture.js) *)

Module FixtureComposer.

(** A fixture is declared by its name and the names its setup function
    destructures from its first parameter. *)
Definition registry := list (string * list string).

(** The fixtures the runner itself provides. *)
Definition builtin_fixtures : registry :=
  [("browser", []); ("context", ["browser"]); ("page", ["context"]);
   ("baseURL", [])].

(** fixtures/customFixtures.js: [base.extend({ ... })] *)
Definition customFixtures : registry :=
  [("apiHelper", ["baseURL"]);
   ("browserHelper", ["page"; "context"]);
   ("testData", []);
   ("authenticatedUser", ["page"; "apiHelper"]);
   ("adminUser", ["page"; "apiHelper"]);
   ("database", []);
   ("performanceMonitor", ["page"]);
   ("screenshot", ["page"]);
   ("networkMocker", ["page"]);
   ("errorTracker", ["page"]);
   ("fileOperations", ["page"]);
   ("mobileDevice", ["browser"])].

(** fixtures/loginFixture.js: [baseTest.extend({ loginPage })] *)
Definition loginFixture : registry := [("loginPage", ["page"])].

(** [base.extend(more)]: a later declaration of a name replaces the
    earlier one. *)
Definition extend (base more : registry) : registry := more ++ base.

Inductive resolve_error : Type :=
| CycleError (chain : list string)
| UnknownFixture (name : string)
| DepthExceeded.

Definition mem (name : string) (names : list string) : bool :=
  existsb (String.eqb name) names.

(** Modelled from the spec: the resolver of the fixture composer is the
    test runner's and is not among the sources; section 4.3 asks for a
    resolution that orders the requested fixtures after their
    dependencies and fails on a dependency cycle.  [visit] sets up one
    fixture: its dependencies first, each fixture once; [stack] holds the
    fixtures whose dependencies are being set up. *)
Fixpoint visit (fuel : nat) (reg : registry) (stack : list string)
  (name : string) (order : list string) : resolve_error + list string :=
  if mem name order then inr order
  else if mem name stack then inl (CycleError (name :: stack))
  else
    match obj_get reg name with
    | None => inl (UnknownFixture name)
    | Some deps =>
        match fuel with
        | O => inl DepthExceeded
        | S fuel' =>
            match
              (fix visit_all (names : list string) (order : list string)
                 : resolve_error + list string :=
                 match names with
                 | [] => inr order
                 | d :: rest =>
                     match visit fuel' reg (name :: stack) d order with
                     | inl e => inl e
                     | inr order' => visit_all rest order'
                     end
                 end) deps order
            with
            | inl e => inl e
            | inr order' => inr (order' ++ [name])
            end
        end
    end.

(** The loop over a list of names, as [visit] runs it on dependencies. *)
Fixpoint visit_all (fuel : nat) (reg : registry) (stack : list string)
  (names : list string) (order : list string) : resolve_error + list string :=
  match names with
  | [] => inr order
  | d :: rest =>
      match visit fuel reg stack d order with
      | inl e => inl e
      | inr order' => visit_all fuel reg stack rest order'
      end
  end.

(** Modelled from the spec: [resolve(testDecl)] gives the setup order
    for the fixtures a test declares, or the error. *)
Definition resolve (reg : registry) (testDecl : list string)
  : resolve_error + list string :=
  visit_all (length reg) reg [] testDecl [].

(** Teardown runs in the reverse of the setup order. *)
Definition teardown_order (setup : list string) : list string := rev setup.

(** [order] sets every fixture up after all of its dependencies. *)
Definition topological (reg : registry) (order : list string) : Prop :=
  forall before name after deps d,
    order = before ++ name :: after ->
    obj_get reg name = Some deps ->
    d ∈ deps ->
    d ∈ before.

(** [d] is declared as a dependency of [n]. *)
Definition depends_on (reg : registry) (n d : string) : Prop :=
  exists deps, obj_get reg n = Some deps /\ d ∈ deps.

(** [chain] is a path of the dependency graph, dependent last: every
    name is a dependency of the name after it. *)
Fixpoint dependency_chain (reg : registry) (chain : list string) : Prop :=
  match chain with
  | [] => True
  | d :: rest =>
      match rest with
      | [] => True
      | n :: _ => depends_on reg n d
      end /\ dependency_chain reg rest
  end.

(** A dependency cycle: a chain that comes back to its first name. *)
Definition is_cycle (reg : registry) (chain : list string) : Prop :=
  dependency_chain reg chain /\
  exists name rest, chain = name :: rest /\ name ∈ rest.

(** *** The invariants of the resolver *)

Section Invariants.
Variable reg : registry.

(** The invariant of the setup order. *)
Definition good (order : list string) : Prop :=
  NoDup order /\ topological reg order.

(** What a visit under [stack] from [order] promises for [targets]. *)
Definition visit_post (stack order : list string)
  (res : resolve_error + list string) (targets : list string) : Prop :=
  match res with
  | inr order' =>
      good order' /\
      (exists ext, order' = order ++ ext /\ forall x, x ∈ ext -> x ∉ stack) /\
      (forall n, n ∈ targets -> n ∈ order')
  | inl (CycleError chain) => is_cycle reg chain
  | inl (UnknownFixture n) => obj_get reg n = None
  | inl DepthExceeded => False
  end.

(** What holds of the stack when a name is visited under it. *)
Definition stack_ok (fuel : nat) (stack : list string) : Prop :=
  NoDup stack /\
  (forall s, s ∈ stack -> s ∈ map fst reg) /\
  (length reg <= fuel + length stack)%nat.

End Invariants.

(** The fixtures of the repository, on top of the runner's. *)
Definition all_fixtures : registry :=
  extend (extend builtin_fixtures customFixtures) loginFixture.

End FixtureComposer.

(** ** A JSON reader and writer on text

    [stringify] writes what [JSON.stringify(value, null, 2)] writes;
    [parse] reads the JSON texts whose numbers are integers in the
    spelling [stringify] gives them and whose string escapes name code
    units up to 255, and answers [None] on every other text. *)

Module JSONText.

Inductive token : Type :=
| TLBrace | TRBrace | TLBrack | TRBrack | TColon | TComma
| TPrim (p : prim).

(** *** Printing: [JSON.stringify(value, null, 2)] *)

Definition text := list ascii.

Definition chars (s : string) : text := list_ascii_of_string s.

Definition hex_digit (n : N) : ascii :=
  ascii_of_N (if (n <? 10)%N then 48 + n else 87 + n).

(** One code unit inside a string literal. *)
Definition escape_char (c : ascii) : text :=
  let n := N_of_ascii c in
  if (n =? 34)%N then chars "\" ++ [c]
  else if (n =? 92)%N then chars "\\"
  else if (n =? 8)%N then chars "\b"
  else if (n =? 12)%N then chars "\f"
  else if (n =? 10)%N then chars "\n"
  else if (n =? 13)%N then chars "\r"
  else if (n =? 9)%N then chars "\t"
  else if (n <? 32)%N then chars "\u00" ++ [hex_digit (n / 16); hex_digit (n mod 16)]
  else [c].

Definition quote (s : string) : text :=
  dquote :: flat_map escape_char (chars s) ++ [dquote].

Definition print_prim (p : prim) : text :=
  match p with
  | PNull => chars "null"
  | PBool true => chars "true"
  | PBool false => chars "false"
  | PNum n => chars (Z_key n)
  | PStr s => quote s
  end.

Definition newline : ascii := ascii_of_nat 10.

(** A line break and the indentation of nesting depth [depth]. *)
Definition break (depth : nat) : text :=
  newline :: concat (repeat (chars "  ") depth).

Fixpoint stringify_at (depth : nat) (v : json) : text :=
  match v with
  | JPrim p => print_prim p
  | JArr [] => chars "[]"
  | JArr (x :: rest) =>
      "["%char :: break (S depth) ++ stringify_at (S depth) x
      ++ flat_map (fun y => ","%char :: break (S depth)
                            ++ stringify_at (S depth) y) rest
      ++ break depth ++ ["]"%char]
  | JObj [] => chars "{}"
  | JObj ((k, x) :: rest) =>
      "{"%char :: break (S depth) ++ quote k
      ++ ":"%char :: " "%char :: stringify_at (S depth) x
      ++ flat_map (fun '(k', y) => ","%char :: break (S depth) ++ quote k'
                                   ++ ":"%char :: " "%char
                                   :: stringify_at (S depth) y) rest
      ++ break depth ++ ["}"%char]
  end.

(** The tokens of a value, as its text spells them. *)
Fixpoint tokens_of (v : json) : list token :=
  match v with
  | JPrim p => [TPrim p]
  | JArr [] => [TLBrack; TRBrack]
  | JArr (x :: rest) =>
      TLBrack :: tokens_of x
      ++ flat_map (fun y => TComma :: tokens_of y) rest
      ++ [TRBrack]
  | JObj [] => [TLBrace; TRBrace]
  | JObj ((k, x) :: rest) =>
      TLBrace :: TPrim (PStr k) :: TColon :: tokens_of x
      ++ flat_map (fun '(k', y) => TComma :: TPrim (PStr k') :: TColon :: tokens_of y) rest
      ++ [TRBrace]
  end.

Definition stringify (v : json) : string :=
  string_of_list_ascii (stringify_at 0 v).

(** *** Reading: [JSON.parse(text)] *)

Definition is_ws (c : ascii) : bool :=
  let n := N_of_ascii c in
  ((n =? 32) || (n =? 10) || (n =? 13) || (n =? 9))%N.

Definition is_num_char (c : ascii) : bool :=
  is_digit c || Ascii.eqb c "-".

(** The longest prefix of number characters, and the rest. *)
Fixpoint span_num (s : text) : text * text :=
  match s with
  | [] => ([], [])
  | c :: r => if is_num_char c
              then let '(tok, rest) := span_num r in (c :: tok, rest)
              else ([], s)
  end.

(** The integer a number token spells; only the spelling
    [JSON.stringify] gives an integer is read. *)
Definition number_of (tok : text) : option Z :=
  let s := string_of_list_ascii tok in
  match NilZero.int_of_string s with
  | Some i => let z := Z.of_int i in
              if String.eqb (Z_key z) s then Some z else None
  | None => None
  end.

Definition hex_value (c : ascii) : option N :=
  let n := N_of_ascii c in
  if ((48 <=? n) && (n <=? 57))%N then Some (n - 48)%N
  else if ((97 <=? n) && (n <=? 102))%N then Some (n - 87)%N
  else if ((65 <=? n) && (n <=? 70))%N then Some (n - 55)%N
  else None.

Definition hex4 (a b c d : ascii) : option N :=
  match hex_value a, hex_value b, hex_value c, hex_value d with
  | Some x, Some y, Some z, Some w => Some (((x * 16 + y) * 16 + z) * 16 + w)%N
  | _, _, _, _ => None
  end.

Definition push (c : ascii) (r : option (text * text)) : option (text * text) :=
  match r with
  | Some (s, rest) => Some (c :: s, rest)
  | None => None
  end.

(** The inside of a string literal, up to its closing quote; an escape
    [\uXXXX] is read when it names a code unit up to 255. *)
Fixpoint lex_string (s : text) : option (text * text) :=
  match s with
  | [] => None
  | c :: r =>
      let n := N_of_ascii c in
      if (n =? 34)%N then Some ([], r)
      else if (n =? 92)%N then
        match r with
        | [] => None
        | e :: r' =>
            let m := N_of_ascii e in
            if (m =? 34)%N then push e (lex_string r')
            else if (m =? 92)%N then push e (lex_string r')
            else if (m =? 47)%N then push e (lex_string r')
            else if (m =? 98)%N then push (ascii_of_N 8) (lex_string r')
            else if (m =? 102)%N then push (ascii_of_N 12) (lex_string r')
            else if (m =? 110)%N then push (ascii_of_N 10) (lex_string r')
            else if (m =? 114)%N then push (ascii_of_N 13) (lex_string r')
            else if (m =? 116)%N then push (ascii_of_N 9) (lex_string r')
            else if (m =? 117)%N then
              match r' with
              | a :: b :: c' :: d :: r'' =>
                  match hex4 a b c' d with
                  | Some code => if (code <? 256)%N
                                 then push (ascii_of_N code) (lex_string r'')
                                 else None
                  | None => None
                  end
              | _ => None
              end
            else None
        end
      else if (n <? 32)%N then None
      else push c (lex_string r)
  end.

Definition punctuation (c : ascii) : option token :=
  let n := N_of_ascii c in
  if (n =? 123)%N then Some TLBrace
  else if (n =? 125)%N then Some TRBrace
  else if (n =? 91)%N then Some TLBrack
  else if (n =? 93)%N then Some TRBrack
  else if (n =? 58)%N then Some TColon
  else if (n =? 44)%N then Some TComma
  else None.

(** [Some rest] when [s] starts with [word]. *)
Fixpoint strip_prefix (word s : text) : option text :=
  match word with
  | [] => Some s
  | w :: word' =>
      match s with
      | c :: s' => if Ascii.eqb w c then strip_prefix word' s' else None
      | [] => None
      end
  end.

Definition literal (s : text) : option (prim * text) :=
  match strip_prefix (chars "null") s with
  | Some r => Some (PNull, r)
  | None =>
      match strip_prefix (chars "true") s with
      | Some r => Some (PBool true, r)
      | None =>
          match strip_prefix (chars "false") s with
          | Some r => Some (PBool false, r)
          | None => None
          end
      end
  end.

Definition cons_token (t : token) (r : option (list token)) : option (list token) :=
  match r with
  | Some ts => Some (t :: ts)
  | None => None
  end.

(** The tokens of a text; every turn reads at least one character, and
    [fuel] bounds the turns. *)
Fixpoint lex (fuel : nat) (s : text) : option (list token) :=
  match fuel with
  | O => None
  | S fuel' =>
      match s with
      | [] => Some []
      | c :: r =>
          if is_ws c then lex fuel' r
          else
            match punctuation c with
            | Some t => cons_token t (lex fuel' r)
            | None =>
                if (N_of_ascii c =? 34)%N then
                  match lex_string r with
                  | Some (str, r') =>
                      cons_token (TPrim (PStr (string_of_list_ascii str))) (lex fuel' r')
                  | None => None
                  end
                else if is_num_char c then
                  let '(tok, r') := span_num s in
                  match number_of tok with
                  | Some z => cons_token (TPrim (PNum z)) (lex fuel' r')
                  | None => None
                  end
                else
                  match literal s with
                  | Some (p, r') => cons_token (TPrim p) (lex fuel' r')
                  | None => None
                  end
            end
      end
  end.

(** One value from the front of the tokens.  A repeated key of an
    object keeps its first place and takes the later value. *)
Fixpoint parse_value (fuel : nat) (ts : list token) : option (json * list token) :=
  match fuel with
  | O => None
  | S fuel' =>
      match ts with
      | TPrim p :: r => Some (JPrim p, r)
      | TLBrack :: TRBrack :: r => Some (JArr [], r)
      | TLBrack :: r =>
          match parse_elems fuel' [] r with
          | Some (l, r') => Some (JArr l, r')
          | None => None
          end
      | TLBrace :: TRBrace :: r => Some (JObj [], r)
      | TLBrace :: r =>
          match parse_members fuel' [] r with
          | Some (ps, r') => Some (JObj ps, r')
          | None => None
          end
      | _ => None
      end
  end
with parse_elems (fuel : nat) (acc : list json) (ts : list token)
  : option (list json * list token) :=
  match fuel with
  | O => None
  | S fuel' =>
      match parse_value fuel' ts with
      | Some (v, TComma :: r) => parse_elems fuel' (acc ++ [v]) r
      | Some (v, TRBrack :: r) => Some (acc ++ [v], r)
      | _ => None
      end
  end
with parse_members (fuel : nat) (acc : list (string * json)) (ts : list token)
  : option (list (string * json) * list token) :=
  match fuel with
  | O => None
  | S fuel' =>
      match ts with
      | TPrim (PStr k) :: TColon :: r =>
          match parse_value fuel' r with
          | Some (v, TComma :: r') => parse_members fuel' (obj_set acc k v) r'
          | Some (v, TRBrace :: r') => Some (obj_set acc k v, r')
          | _ => None
          end
      | _ => None
      end
  end.

Definition parse (s : string) : option json :=
  let cs := chars s in
  match lex (S (length cs)) cs with
  | Some ts =>
      match parse_value (S (length ts)) ts with
      | Some (v, []) => Some v
      | _ => None
      end
  | None => None
  end.

Definition text_json : JSONImpl :=
  {| JSON_parse := parse; JSON_stringify := stringify |}.

(** *** What the proofs about the reader are stated with *)

(** No number character follows. *)
Definition delimited (rest : text) : Prop :=
  match rest with
  | [] => True
  | c :: _ => is_num_char c = false
  end.

(** [pre] reads as the tokens [toks], whatever follows. *)
Definition reads (pre : text) (toks : list token) : Prop :=
  forall fuel rest ts, delimited rest -> lex fuel rest = Some ts ->
    lex (fuel + length pre) (pre ++ rest) = Some (toks ++ ts).

(** Putting [b] in front keeps a text delimited. *)
Definition starts_clean (b : text) : Prop :=
  forall rest, delimited rest -> delimited (b ++ rest).

(** [parse_value] reads back the tokens of [v], given fuel for them. *)
Definition parses (v : json) : Prop :=
  forall fuel rest, (length (tokens_of v) <= fuel)%nat ->
    parse_value fuel (tokens_of v ++ rest) = Some (v, rest).

End JSONText.

(** ** Sample files, written with the JSON writer above *)

Module Samples.
Import OutcomeHelper Settings TestDataManager.

#[local] Existing Instance JSONText.text_json.

(** A settings file that only chooses the browser mode. *)
Definition browser_only_settings : json := JObj [("browserMode", JStr "headed")].

Definition browser_only_disk : filesystem :=
  with_file empty_fs settingsPath (JSON_stringify browser_only_settings).

Definition sample_user : json :=
  JObj [("email", JStr "user@example.com"); ("password", JStr "secret1")].

Definition sample_users : json :=
  JObj [("validUsers", JArr [sample_user]); ("invalidUsers", JArr [])].

(** A manager that has loaded nothing yet, over a disk that holds
    [testData/users.json]. *)
Definition sample_manager : manager :=
  {| heap_of := ∅;
     cache := ∅;
     disk := with_file (with_dirs empty_fs [testDataPath])
               (testDataPath ++ ["users.json"]) (JSON_stringify sample_users);
     log := [] |}.

End Samples.

(** ** Types of values *)

Module Coercion.

(** [typeof v] on a value of the JSON fragment *)
Definition typeof (v : jsvalue) : string :=
  match v with
  | None => "undefined"
  | Some JNull => "object"
  | Some (JBool _) => "boolean"
  | Some (JNum _) => "number"
  | Some (JStr _) => "string"
  | Some (JArr _) => "object"
  | Some (JObj _) => "object"
  end.

End Coercion.

(** ** utils/apiHelper.js: the pure helpers of [APIHelper] *)

Module APIHelper.
Import Validation Settings TestDataManager Coercion.

(** [s.split(sep)] for a separator of one character: the pieces between
    the separators, the empty ones too; never an empty list. *)
Fixpoint split_on (sep : ascii) (s : string) : list string :=
  match s with
  | EmptyString => [EmptyString]
  | String c rest =>
      if Ascii.eqb c sep then EmptyString :: split_on sep rest
      else match split_on sep rest with
           | first :: others => String c first :: others
           | [] => [String c EmptyString]
           end
  end.

Section Runtime.

(** [inherits v k]: the prototype chain of the value [v] has a property
    named [k], a method such as [toString] or the accessor [__proto__].
    The table is the runtime's; what such a property holds is no value
    of the JSON fragment. *)
Variable inherits : json -> string -> bool.

(** [v[k]]: the own property as [member] reads it, and without one the
    property of the prototype chain, which leaves the fragment. *)
Definition read {S} (v : jsvalue) (k : string) : M S jsvalue :=
  do own <- member v k;
  match own, v with
  | None, Some j =>
      if inherits j k then throw (Unmodelled "inherited property") else ret undefined
  | _, _ => ret own
  end.

(** [keys.reduce((current, key) => current && current[key], current)] *)
Fixpoint reduce_path {S} (keys : list string) (current : jsvalue) : M S jsvalue :=
  match keys with
  | [] => ret current
  | key :: rest =>
      do next <- (if truthy current then read current key else ret current);
      reduce_path rest next
  end.

(** [getValueByPath(obj, path)] for a path that is a string. *)
Definition getValueByPath {S} (obj : jsvalue) (path : string) : M S jsvalue :=
  reduce_path (split_on "." path) obj.

(** The keys a [for (const key in v)] loop visits on a value of the JSON
    fragment: none on [null], [undefined], numbers and booleans, the
    indices of a string or an array, the keys of an object.  (The loop
    visits index-like keys of an object first; [validateSchema] answers
    the same in every order, see [validateSchema_order].) *)
Definition enumerable_keys (v : jsvalue) : list string :=
  match v with
  | Some j => map fst (own_props j)
  | None => []
  end.

(** [schema.hasOwnProperty(key)] for a key the loop visits: the method
    is the inherited one, which answers [true], unless the schema is an
    object with a property of that name; a value of the JSON fragment is
    no function, and the call throws. *)
Definition hasOwnProperty_call {S} (schema : jsvalue) (key : string) : M S bool :=
  match schema with
  | Some (JObj props) =>
      match obj_get props "hasOwnProperty" with
      | Some _ => throw TypeError
      | None => ret true
      end
  | _ => ret true
  end.

(** The body of the loop of [validateSchema], over the keys left. *)
Fixpoint check_keys {S} (data schema : jsvalue) (keys : list string) : M S bool :=
  match keys with
  | [] => ret true
  | key :: rest =>
      do own <- hasOwnProperty_call schema key;
      if own : bool then
        do actual <- read data key;
        do expected <- read schema key;
        if negb (strict_eq_string expected (typeof actual)) then ret false
        else check_keys data schema rest
      else check_keys data schema rest
  end.

(** [catch (error) { return false; }]: every exception answers [false];
    a run that has left the fragment stays outside it. *)
Definition answer_false {S} (error : exn) : M S bool :=
  match error with
  | Unmodelled _ => throw error
  | _ => ret false
  end.

Definition validateSchema {S} (data schema : jsvalue) : M S bool :=
  try_catch (check_keys data schema (enumerable_keys schema)) answer_false.

End Runtime.

(** [l[i]] for an index that may be negative. *)
Definition at_index (l : list Z) (i : Z) : option Z :=
  if i <? 0 then None else l !! Z.to_nat i.

(** [a + b] on two such integers, as doubles add: the sum as it is up
    to [2^53]; beyond, where a double holds the even integers only, an
    odd sum goes to the neighbour with the even significand, the
    multiple of four. *)
Definition double_add (a b : Z) : Z :=
  let sum := a + b in
  if exact_integer sum || Z.even sum then sum
  else if (sum + 1) mod 4 =? 0 then sum + 1 else sum - 1.

(** [median(arr)] on an array of integers; [None] is [NaN].  The
    comparison [a - b] orders integers as they are ordered, the sum of
    the two middle values is rounded as doubles are, and a double
    halves exactly.  An array with a number beyond [2^53] is outside
    the model. *)
Definition median (arr : list Z) : outcome (option Q) :=
  let sorted := merge_sort Z.le arr in
  let middle := Z.of_nat (length sorted) / 2 in
  if negb (forallb exact_integer sorted) then
    Thrown (Unmodelled "number beyond 2^53")
  else if Z.of_nat (length sorted) mod 2 =? 0 then
    match at_index sorted (middle - 1), at_index sorted middle with
    | Some a, Some b => Returned (Some (double_add a b # 2))
    | _, _ => Returned None
    end
  else Returned (option_map inject_Z (at_index sorted middle)).

(** An object whose properties may hold [undefined]. *)
Definition jsobject := list (string * jsvalue).

(** [o[k]] on such an object. *)
Definition prop (o : jsobject) (k : string) : jsvalue :=
  match obj_get o k with
  | Some v => v
  | None => None
  end.

(** [a >= n] for a number [n]. *)
Definition ge_number {S} (a : jsvalue) (n : Z) : M S bool :=
  answer (greater_equal a (Some (JNum n))).

(** [formatResponse(response)], with [this.lastRequest]. *)
Definition formatResponse {S} (lastRequest response : jsvalue) : M S jsobject :=
  do status <- member response "status";
  do statusText <- member response "statusText";
  do headers <- member response "headers";
  do data <- member response "data";
  do config <- member response "config";
  do status1 <- member response "status";
  do reached <- ge_number status1 200;
  do success <- (if reached : bool
                 then do status2 <- member response "status"; less_than status2 300
                 else ret false);
  ret [("status", status); ("statusText", statusText); ("headers", headers);
       ("data", data); ("config", config); ("request", lastRequest);
       ("success", Some (JBool success))].

(** [a > b] *)
Definition greater_than {S} (a b : jsvalue) : M S bool :=
  answer (greater a b).

(** [assertResponseTime(response, maxTime)] on a response that is an
    object; the log lines are written without the glyph that starts
    them. *)
Definition assertResponseTime (response : jsobject) (maxTime : jsvalue)
  : M (list log_line) unit :=
  do late <- greater_than (prop response "responseTime") maxTime;
  (if late : bool
   then do time <- to_string (prop response "responseTime");
        do limit <- to_string maxTime;
        throw (Error ("Response time " ++ time
                      ++ "ms exceeded maximum " ++ limit ++ "ms")%string)
   else ret tt);;
  do time <- to_string (prop response "responseTime");
  do limit <- to_string maxTime;
  modify (fun log => log ++ [LogInfo ("Response time assertion passed: "
                                      ++ time ++ "ms <= " ++ limit ++ "ms")%string]).

(** *** What the statements are made of *)

(** The key [hasOwnProperty] of a schema that is an object hides the
    method of that name. *)
Definition method_hidden (schema : jsvalue) : bool :=
  match schema with
  | Some (JObj props) => bool_decide (is_Some (obj_get props "hasOwnProperty"))
  | _ => false
  end.

(** The read [v[k]] stays in the fragment: the value has the property
    itself, or no prototype gives it one. *)
Definition plain_key (inherits : json -> string -> bool) (v : jsvalue) (k : string)
  : bool :=
  match v, field_of v k with
  | Some j, None => negb (inherits j k)
  | _, _ => true
  end.

(** The names of the properties of [Object.prototype]. *)
Definition object_prototype : list string :=
  ["constructor"; "__defineGetter__"; "__defineSetter__"; "hasOwnProperty";
   "__lookupGetter__"; "__lookupSetter__"; "isPrototypeOf"; "propertyIsEnumerable";
   "toString"; "valueOf"; "__proto__"; "toLocaleString"].

(** A table for the samples: every value inherits those. *)
Definition sample_inherits (v : json) (k : string) : bool :=
  existsb (String.eqb k) object_prototype.

(** The schema asks of [data], at the key [k], the type the data has
    there. *)
Definition type_matches (data schema : jsvalue) (k : string) : Prop :=
  field_of schema k = Some (JStr (typeof (field_of data k))).

(** What the loop answers over any list of keys. *)
Definition keys_ok (data schema : jsvalue) (keys : list string) : bool :=
  match keys with
  | [] => true
  | _ => negb (method_hidden schema) && negb (nullish data) && negb (nullish schema)
         && forallb (fun k => strict_eq_string (field_of schema k)
                                (typeof (field_of data k))) keys
  end.

(** A response as [axios] hands it over. *)
Definition sample_response : jsvalue :=
  Some (JObj [("status", JNum 200); ("statusText", JStr "OK");
              ("headers", JObj []); ("data", JObj [("id", JNum 7)]);
              ("config", JObj [])]).

End APIHelper.

(** ** utils/testDataManager.js: the generated-data store, the cache,
       export and search *)

Module TestDataStore.
Import TestDataManager Validation Coercion.

#[global] Instance prim_eq_dec : EqDecision prim.
Proof. solve_decision. Defined.

#[global] Instance hval_eq_dec : EqDecision hval.
Proof. solve_decision. Defined.

(** [this.generatedData]: a [Map], its entries in the order they were
    first set.  Two keys are the same key when they are the same
    primitive or the same object. *)
Definition generated := list (hval * hval).

(** [map.get(key)] *)
Fixpoint map_get (g : generated) (key : hval) : option hval :=
  match g with
  | [] => None
  | (k, v) :: rest => if decide (k = key) then Some v else map_get rest key
  end.

(** [map.set(key, value)] *)
Fixpoint map_set (g : generated) (key value : hval) : generated :=
  match g with
  | [] => [(key, value)]
  | (k, v) :: rest =>
      if decide (k = key) then (k, value) :: rest
      else (k, v) :: map_set rest key value
  end.

(** [map.delete(key)] *)
Definition map_delete (g : generated) (key : hval) : generated :=
  List.filter (fun kv => negb (bool_decide (fst kv = key))) g.

(** [ToString] of a value on the heap, as a template literal takes it:
    an object with a [toString] of its own throws a [TypeError], any
    other object reads "[object Object]", and an array joins its
    elements.  An array that holds something that is not JSON is
    outside the model. *)
Definition to_string_h (h : heap) (v : hval) : outcome string :=
  match v with
  | HUndefined => Returned "undefined"
  | HPrim p => prim_to_string p
  | HRef l =>
      match h !! l with
      | Some (CObj props) =>
          match obj_get props "toString" with
          | Some _ => Thrown TypeError
          | None => Returned "[object Object]"
          end
      | Some (CArr _) =>
          match reify_json (S (size h)) h v with
          | Some j => to_string_json j
          | None => Thrown (Unmodelled "ToString")
          end
      | None => Thrown (Unmodelled "ToString")
      end
  end.

Definition store : Type := (manager * generated)%type.

Definition text_of (v : hval) : M store string :=
  fun st => (to_string_h (heap_of (fst st)) v, st).

Definition saveGeneratedData (key data : hval) : M store unit :=
  on_snd (modify (fun g => map_set g key data));;
  do text <- text_of key;
  on_fst (logger (LogInfo ("Saved generated data with key: " ++ text)%string)).

Definition getGeneratedData (key : hval) : M store hval :=
  do present <- on_snd (gets (fun g => bool_decide (is_Some (map_get g key))));
  if present : bool then
    do text <- text_of key;
    on_fst (logger (LogInfo ("Retrieved generated data with key: " ++ text)%string));;
    on_snd (gets (fun g => default HUndefined (map_get g key)))
  else
    do text <- text_of key;
    throw (Error ("No generated data found for key: " ++ text)%string).

(** [clearGeneratedData(key = null)] *)
Definition clearGeneratedData (key : hval) : M store unit :=
  if truthy_h key then
    on_snd (modify (fun g => map_delete g key));;
    do text <- text_of key;
    on_fst (logger (LogInfo ("Cleared generated data for key: " ++ text)%string))
  else
    on_snd (modify (fun _ => []));;
    on_fst (logger (LogInfo "Cleared all generated data")).

Definition clearCache : M manager unit :=
  modify (fun st => {| heap_of := heap_of st; cache := ∅;
                       disk := disk st; log := log st |});;
  logger (LogInfo "Test data cache cleared").

(** What [JSON.stringify] sees of a value on the heap: a property that
    holds [undefined] is left out, an element that is [undefined] reads
    [null]; [Some None] is [undefined] itself, [None] a structure that
    refers back to itself (which throws a [TypeError]). *)
Fixpoint view (fuel : nat) (h : heap) (v : hval) : option jsvalue :=
  match v with
  | HUndefined => Some None
  | HPrim p => Some (Some (JPrim p))
  | HRef l =>
      match fuel with
      | O => None
      | S fuel' =>
          match h !! l with
          | None => None
          | Some (CArr vs) =>
              option_map (fun elems => Some (JArr (map (default JNull) elems)))
                (mapM (view fuel' h) vs)
          | Some (CObj ps) =>
              option_map
                (fun props => Some (JObj (omap (fun kv => option_map (pair (fst kv)) (snd kv))
                                               props)))
                (mapM (fun kv => option_map (pair (fst kv)) (view fuel' h (snd kv))) ps)
          end
      end
  end.

Section WithJSON.
Context {J : JSONImpl}.

(** [JSON.stringify(data, null, 2)] as the argument of
    [fs.writeFileSync]: the write refuses [undefined] with a
    [TypeError] before it touches the disk. *)
Definition stringify_data (data : hval) : M manager string :=
  fun st => match view (S (size (heap_of st))) (heap_of st) data with
            | Some (Some x) => (Returned (JSON_stringify x), st)
            | Some None => (Thrown TypeError, st)
            | None => (Thrown TypeError, st)
            end.

Definition exportTestData (fileName : string) (data : hval) : M manager unit :=
  try_catch
    (let filePath := testDataPath ++ [(fileName ++ ".json")%string] in
     do text <- stringify_data data;
     on_disk (writeFileSync filePath text);;
     logger (LogInfo ("Exported test data to: " ++ String.concat "/" filePath)%string))
    (fun error =>
       logger (LogError "Error exporting test data:" error);;
       throw error).

End WithJSON.

(** The elements a spread [...v] puts into an array literal: those of
    an array, the characters of a string; nothing else of the JSON
    fragment can be iterated. *)
Definition spread_h (h : heap) (v : hval) : outcome (list hval) :=
  match v with
  | HRef l =>
      match h !! l with
      | Some (CArr elems) => Returned elems
      | Some (CObj _) => Thrown TypeError
      | None => Thrown (Unmodelled "dangling reference")
      end
  | HPrim (PStr s) =>
      Returned (map (fun c => HPrim (PStr (char_string c))) (list_ascii_of_string s))
  | _ => Thrown TypeError
  end.

(** The elements of [[...data[g1], ...data[g2], ...]], left to right. *)
Fixpoint gather (h : heap) (data : hval) (groups : list string)
  : outcome (list hval) :=
  match groups with
  | [] => Returned []
  | g :: rest =>
      match hread h data g with
      | Thrown e => Thrown e
      | Returned v =>
          match spread_h h v with
          | Thrown e => Thrown e
          | Returned elems =>
              match gather h data rest with
              | Thrown e => Thrown e
              | Returned more => Returned (elems ++ more)
              end
          end
      end
  end.

(** [elems.find(x => x[field] === value)] *)
Fixpoint find_by (h : heap) (elems : list hval) (field : string) (value : hval)
  : outcome hval :=
  match elems with
  | [] => Returned HUndefined
  | x :: rest =>
      match hread h x field with
      | Thrown e => Thrown e
      | Returned v =>
          if bool_decide (v = value) then Returned x
          else find_by h rest field value
      end
  end.

(** The array literal: a new array on the heap. *)
Definition new_array (elems : list hval) : M heap hval :=
  fun h => let '(l, h') := alloc (CArr elems) h in (Returned (HRef l), h').

Section Search.
Context {J : JSONImpl}.

Definition findUserByEmail (email : hval) : M manager hval :=
  do users <- loadTestData "users";
  do elems <- on_heap (fun h =>
                (gather h users ["validUsers"; "invalidUsers"; "testUsers"; "bulkUsers"], h));
  do allUsers <- on_heap (new_array elems);
  on_heap (fun h => (find_by h elems "email" email, h)).

Definition findProductBySku (sku : hval) : M manager hval :=
  do products <- loadTestData "products";
  do elems <- on_heap (fun h =>
                (gather h products ["validProducts"; "outOfStockProducts";
                                    "discountedProducts"; "bulkProducts"], h));
  do allProducts <- on_heap (new_array elems);
  on_heap (fun h => (find_by h elems "sku" sku, h)).

(** The shape the two searches share. *)
Definition find_entry (fileName : string) (groups : list string)
  (field : string) (value : hval) : M manager hval :=
  do data <- loadTestData fileName;
  do elems <- on_heap (fun h => (gather h data groups, h));
  do all <- on_heap (new_array elems);
  on_heap (fun h => (find_by h elems field value, h)).

End Search.

Definition productFields : list string := ["name"; "price"; "category"].

Definition validateProductData {S} (product : jsvalue) : M S validation :=
  do missingFields <- filter_missing product productFields;
  if 0 <? Z.of_nat (length missingFields) then
    ret {| valid := false;
           errors := [("Missing required fields: "
                       ++ String.concat ", " missingFields)%string] |}
  else
    let errors0 : list string := [] in
    do price <- member product "price";
    do bad_price <- (if negb (String.eqb (typeof price) "number") then ret true
                     else do price' <- member product "price"; less_than price' 0);
    let errors1 :=
      if bad_price : bool then errors0 ++ ["Price must be a positive number"]
      else errors0 in
    do quantity <- member product "quantity";
    do bad_quantity <-
      (match quantity with
       | None => ret false
       | Some _ =>
           do quantity' <- member product "quantity";
           if negb (String.eqb (typeof quantity') "number") then ret true
           else do quantity'' <- member product "quantity"; less_than quantity'' 0
       end);
    let errors2 :=
      if bad_quantity : bool
      then errors1 ++ ["Quantity must be a non-negative number"]
      else errors1 in
    ret {| valid := Z.of_nat (length errors2) =? 0; errors := errors2 |}.

(** *** What the statements are made of *)

(** The path of the data file of a name. *)
Definition data_file (fileName : string) : path :=
  testDataPath ++ [(fileName ++ ".json")%string].

(** A price that is a number above 0. *)
Definition price_ok (product : jsvalue) : bool :=
  match field_of product "price" with
  | Some (JNum n) => 0 <? n
  | _ => false
  end.

(** No quantity, or one that is a number and not below 0. *)
Definition quantity_ok (product : jsvalue) : bool :=
  match field_of product "quantity" with
  | None => true
  | Some (JNum n) => 0 <=? n
  | _ => false
  end.

(** The groups the two searches read. *)
Definition user_groups : list string :=
  ["validUsers"; "invalidUsers"; "testUsers"; "bulkUsers"].

Definition product_groups : list string :=
  ["validProducts"; "outOfStockProducts"; "discountedProducts"; "bulkProducts"].

(** *** Sample data *)

#[local] Existing Instance JSONText.text_json.

(** A users file with all four groups. *)
Definition full_users : json :=
  JObj [("validUsers", JArr [Samples.sample_user]);
        ("invalidUsers", JArr []);
        ("testUsers", JArr []);
        ("bulkUsers", JArr [])].

Definition full_manager : manager :=
  {| heap_of := ∅;
     cache := ∅;
     disk := with_file (with_dirs empty_fs [testDataPath])
               (data_file "users") (JSON_stringify full_users);
     log := [] |}.

(** A users file edited by hand, in a spelling of its own, and a
    manager that has the sample users in its cache while the disk holds
    the edited file. *)
Definition edited_text : string :=
  ("{ " ++ dq ++ "validUsers" ++ dq ++ " :  [ 1 ,2 ] }")%string.

Definition edited_manager : manager :=
  {| heap_of := ∅;
     cache := {["users" := HPrim (PStr "stale")]};
     disk := with_file (with_dirs empty_fs [testDataPath]) (data_file "users") edited_text;
     log := [] |}.

(** The sample manager after a first load of the users. *)
Definition loaded_manager : manager := snd (loadTestData "users" Samples.sample_manager).

(** What that load answered. *)
Definition loaded_users : hval :=
  match fst (loadTestData "users" Samples.sample_manager) with
  | Returned root => root
  | Thrown _ => HUndefined
  end.

End TestDataStore.

(** ** utils/testDataManager.js: modified copies and invalid variations
       (lines 186-233) *)

Module DataVariations.
Import TestDataManager Validation Coercion TestDataStore.

(** An object literal: a new object on the heap. *)
Definition new_object (props : list (string * hval)) : M heap hval :=
  fun h => let '(l, h') := alloc (CObj props) h in (Returned (HRef l), h').

(** The object literals of an array literal, left to right. *)
Fixpoint new_objects (literals : list (list (string * hval))) : M heap (list hval) :=
  match literals with
  | [] => ret []
  | props :: rest =>
      do v <- new_object props;
      do vs <- new_objects rest;
      ret (v :: vs)
  end.

(** The properties of a source that holds primitives only. *)
Definition flat_props (props : list (string * hval)) : option (list (string * prim)) :=
  mapM (fun kv => match snd kv with
                  | HPrim p => Some (fst kv, p)
                  | _ => None
                  end) props.

(** The assignments [object[k] = p], in the order of the source. *)
Definition assign {A} (inj : prim -> A) (props : list (string * A))
  (flat : list (string * prim)) : list (string * A) :=
  fold_left (fun acc kp => obj_set acc (fst kp) (inj (snd kp))) flat props.

(** lodash's [_.merge(object, source)] on two objects of which the
    source holds primitives only: each property of the source is
    assigned to the object, and the object is returned.  (A property
    that holds an object is merged in depth and one that holds
    [undefined] is skipped where the object has the key; these, and an
    array or a primitive in the place of an object, are left out.) *)
Definition merge (object source : hval) : M heap hval :=
  fun h =>
    match object, source with
    | HRef lo, HRef ls =>
        match h !! lo, h !! ls with
        | Some (CObj props), Some (CObj mods) =>
            match flat_props mods with
            | Some flat => (Returned object, <[lo := CObj (assign HPrim props flat)]> h)
            | None => (Thrown (Unmodelled "merge in depth"), h)
            end
        | _, _ => (Thrown (Unmodelled "merge of arrays"), h)
        end
    | _, _ => (Thrown (Unmodelled "merge of primitives"), h)
    end.

Definition modifyUserData (user modifications : hval) : M manager hval :=
  do modifiedUser <- on_heap (cloneDeep user);
  on_heap (merge modifiedUser modifications).

Definition modifyProductData (product modifications : hval) : M manager hval :=
  do modifiedProduct <- on_heap (cloneDeep product);
  on_heap (merge modifiedProduct modifications).

(** [faker.helpers.arrayElement(array)] on an array literal: the element
    at the index drawn. *)
Definition arrayElement {S} (draw : nat) (elems : list hval) : M S hval :=
  match elems !! draw with
  | Some v => ret v
  | None => throw (Unmodelled "draw outside the array")
  end.

Definition userVariations : list (list (string * hval)) :=
  [[("email", HPrim (PStr "invalid-email"))];
   [("email", HPrim (PStr ""))];
   [("password", HPrim (PStr ""))];
   [("password", HPrim (PStr "123"))];
   [("firstName", HPrim (PStr ""))];
   [("lastName", HPrim (PStr ""))];
   [("phone", HPrim (PStr "invalid-phone"))];
   [("role", HPrim (PStr "invalid-role"))];
   [("email", HPrim (PStr "test@"))];
   [("email", HPrim (PStr "@example.com"))]].

Definition productVariations : list (list (string * hval)) :=
  [[("name", HPrim (PStr ""))];
   [("price", HPrim (PNum (-1)))];
   [("price", HPrim (PStr "invalid-price"))];
   [("category", HPrim (PStr ""))];
   [("quantity", HPrim (PNum (-1)))];
   [("sku", HPrim (PStr ""))];
   [("inStock", HPrim (PStr "invalid-boolean"))]].

Section WithJSON.
Context {J : JSONImpl}.

(** [createInvalidUser(baseUser = null)], with the draw of
    [arrayElement]. *)
Definition createInvalidUser (draw : nat) (baseUser : hval) : M manager hval :=
  do user <- (if truthy_h baseUser then ret baseUser else getUser "valid" 0);
  do variations <- on_heap (new_objects userVariations);
  do invalidVariations <- on_heap (new_array variations);
  do randomVariation <- arrayElement draw variations;
  modifyUserData user randomVariation.

Definition createInvalidProduct (draw : nat) (baseProduct : hval) : M manager hval :=
  do product <- (if truthy_h baseProduct then ret baseProduct else getProduct "valid" 0);
  do variations <- on_heap (new_objects productVariations);
  do invalidVariations <- on_heap (new_array variations);
  do randomVariation <- arrayElement draw variations;
  modifyProductData product randomVariation.

(** The shape the two share. *)
Definition create_invalid (default : M manager hval)
  (literals : list (list (string * hval))) (draw : nat) (base : hval)
  : M manager hval :=
  do value <- (if truthy_h base then ret base else default);
  do variations <- on_heap (new_objects literals);
  do all <- on_heap (new_array variations);
  do randomVariation <- arrayElement draw variations;
  modifyUserData value randomVariation.

End WithJSON.

(** *** What the statements are made of *)

(** [validateUserData] accepts the user. *)
Definition user_accepted (user : jsvalue) : bool :=
  match validateUserData user tt with
  | (Returned r, _) => valid r
  | (Thrown _, _) => false
  end.

(** [validateProductData] accepts the product. *)
Definition product_accepted (product : jsvalue) : bool :=
  match validateProductData product tt with
  | (Returned r, _) => valid r
  | (Thrown _, _) => false
  end.

(** The data on the heap [h] behind the object at [l]. *)
Definition object_at (h : heap) (l : loc) (props : list (string * json)) : Prop :=
  reify_json (S (size h)) h (HRef l) = Some (JObj props).

(** *** Sample data *)

Definition valid_user : list (string * json) :=
  [("email", JStr "qa@example.com"); ("password", JStr "longenough");
   ("firstName", JStr "Quinn"); ("lastName", JStr "Ashby")].

Definition valid_product : list (string * json) :=
  [("name", JStr "Lamp"); ("price", JNum 25); ("category", JStr "home");
   ("sku", JStr "L-1")].

(** A manager whose heap holds one object with the given data. *)
Definition manager_with (props : list (string * json)) : manager :=
  {| heap_of := snd (alloc_json (JObj props) ∅);
     cache := ∅;
     disk := empty_fs;
     log := [] |}.

Definition object_of (props : list (string * json)) : loc :=
  match fst (alloc_json (JObj props) ∅) with
  | HRef l => l
  | _ => 1%positive
  end.

(** Modifications of a user, and a manager whose heap holds the sample
    user and then an object with the modifications. *)
Definition promotion : list (string * json) :=
  [("role", JStr "admin"); ("email", JStr "admin@example.com")].

Definition manager_with_promotion : manager :=
  {| heap_of := snd (alloc_json (JObj promotion) (snd (alloc_json (JObj valid_user) ∅)));
     cache := ∅;
     disk := empty_fs;
     log := [] |}.

Definition promotion_object : loc :=
  match fst (alloc_json (JObj promotion) (snd (alloc_json (JObj valid_user) ∅))) with
  | HRef l => l
  | _ => 1%positive
  end.

End DataVariations.

(** ** utils/setConfig.js: saveSettings and the command line (lines 27-88) *)

Module SetConfig.
Import Settings.

(** [c.toLowerCase()] on one code unit up to 255: the letters [A-Z] and
    the accented capitals of Latin-1 have a lower-case form. *)
Definition lower_char (c : ascii) : ascii :=
  let n := N_of_ascii c in
  if ((65 <=? n) && (n <=? 90)
      || (192 <=? n) && (n <=? 222) && negb (n =? 215))%N
  then ascii_of_N (n + 32) else c.

Fixpoint toLowerCase (s : string) : string :=
  match s with
  | EmptyString => EmptyString
  | String c rest => String (lower_char c) (toLowerCase rest)
  end.

(** What [console.log] prints: a text, or a text and the settings
    object.  Colours and the glyphs that start some lines are left
    out. *)
Inductive printed : Type :=
| Print (text : string)
| PrintSettings (text : string) (settings : list (string * json)).

(** The disk, what [console.error] has printed and what [console.log]
    has printed. *)
Definition cli : Type := ((filesystem * console) * list printed)%type.

Definition console_log (line : printed) : M cli unit :=
  on_snd (modify (fun out => out ++ [line])).

(** [console.error] with a text only is recorded as the error of that
    message. *)
Definition cli_error (e : exn) : M cli unit := on_fst (console_error e).

Definition validEnvs : list string := ["local"; "dev"; "staging"; "production"].

(** [validEnvs.includes(name)] *)
Definition includes (names : list string) (name : string) : bool :=
  existsb (String.eqb name) names.

(** [text.split(sep)[1]] *)
Definition second_piece (sep : ascii) (text : string) : jsvalue :=
  match APIHelper.split_on sep text with
  | _ :: piece :: _ => Some (JStr piece)
  | _ => None
  end.

Section WithJSON.
Context {J : JSONImpl}.

Definition saveSettings (settings : list (string * json)) : M cli unit :=
  try_catch
    (on_fst (on_fst (writeFileSync settingsPath (JSON_stringify (JObj settings))));;
     console_log (Print "Settings updated successfully");;
     console_log (PrintSettings "Current settings:" settings))
    (fun error => cli_error error).

(** [setConfig()], with [process.argv.slice(2)] as [args].  The
    assignment to a property of [settings] is the update of the object
    the load answered; the process ends after the call, so that the
    defaults another process starts from are the ones above. *)
Definition setConfig (args : list string) : M cli unit :=
  match args with
  | [] =>
      console_log (Print "Usage: node setConfig.js <option>");;
      console_log (Print "Available options:");;
      console_log (Print "  parallel     - Run tests in parallel");;
      console_log (Print "  sequential   - Run tests sequentially");;
      console_log (Print "  headless     - Run browsers in headless mode");;
      console_log (Print "  headed       - Run browsers with UI");;
      console_log (Print "  env:<name>   - Set environment (local, dev, staging, production)")
  | arg :: _ =>
      do settings <- on_fst loadSettings;
      let option := toLowerCase arg in
      if String.eqb option "parallel" then
        let settings := obj_set settings "executionMode" (JStr "parallel") in
        console_log (Print "Setting execution mode to parallel");;
        saveSettings settings
      else if String.eqb option "sequential" then
        let settings := obj_set settings "executionMode" (JStr "sequential") in
        console_log (Print "Setting execution mode to sequential");;
        saveSettings settings
      else if String.eqb option "headless" then
        let settings := obj_set settings "browserMode" (JStr "headless") in
        console_log (Print "Setting browser mode to headless");;
        saveSettings settings
      else if String.eqb option "headed" then
        let settings := obj_set settings "browserMode" (JStr "headed") in
        console_log (Print "Setting browser mode to headed");;
        saveSettings settings
      else if String.prefix "env:" option then
        let environment := second_piece ":" option in
        match environment with
        | Some (JStr name) =>
            if includes validEnvs name then
              let settings := obj_set settings "environment" (JStr name) in
              console_log (Print ("Setting environment to " ++ name)%string);;
              saveSettings settings
            else
              cli_error (Error ("Invalid environment: " ++ name)%string);;
              console_log (Print ("Valid environments: "
                                  ++ String.concat ", " validEnvs)%string)
        | _ =>
            do text <- Validation.to_string environment;
            cli_error (Error ("Invalid environment: " ++ text)%string);;
            console_log (Print ("Valid environments: "
                                ++ String.concat ", " validEnvs)%string)
        end
      else
        cli_error (Error ("Unknown option: " ++ option)%string)
  end.

End WithJSON.

(** *** What the statements are made of *)

(** The option a lower-cased argument chooses, and its value. *)
Definition chosen (choice : string) : option (string * string) :=
  if String.eqb choice "parallel" then Some ("executionMode", "parallel")
  else if String.eqb choice "sequential" then Some ("executionMode", "sequential")
  else if String.eqb choice "headless" then Some ("browserMode", "headless")
  else if String.eqb choice "headed" then Some ("browserMode", "headed")
  else if String.prefix "env:" choice then
    match second_piece ":" choice with
    | Some (JStr name) => if includes validEnvs name then Some ("environment", name) else None
    | _ => None
    end
  else None.

(** The settings file can be written. *)
Definition settings_writable (fs : filesystem) : bool :=
  negb (is_dir fs settingsPath) && negb (denied fs settingsPath).

End SetConfig.

(** ** Directories of the file system: listing, removing, renaming *)

Module FsTree.

(** [q] is [p] or stands below it. *)
Definition within (p q : path) : bool := bool_decide (p `prefix_of` q).

(** The name of [q] in the directory [p], if [q] stands directly in
    it. *)
Definition child_name (p q : path) : option string :=
  if bool_decide (take (length p) q = p) then
    match drop (length p) q with
    | [name] => Some name
    | _ => None
    end
  else None.

(** The names that stand directly in the directory [p]. *)
Definition children (fs : filesystem) (p : path) : list string :=
  omap (fun kv => child_name p (fst kv)) (map_to_list (fs_nodes fs)).

(** The disk without what stands at [p]. *)
Definition without (fs : filesystem) (p : path) : filesystem :=
  {| fs_nodes := delete p (fs_nodes fs);
     fs_denied := fs_denied fs |}.

(** Where [q] stands after [src] has become [dst]. *)
Definition reroot (src dst q : path) : path :=
  if within src q then dst ++ drop (length src) q else q.

(** The nodes of the disk after the tree at [src] has moved to [dst],
    where nothing stood. *)
Definition moved_entries (fs : filesystem) (src dst : path) : list (path * node) :=
  omap (fun kv => if within dst (fst kv) then None
                  else Some (reroot src dst (fst kv), snd kv))
       (map_to_list (fs_nodes fs)).

(** The disk with the tree at [src] moved to [dst]. *)
Definition moved (fs : filesystem) (src dst : path) : filesystem :=
  {| fs_nodes := list_to_map (moved_entries fs src dst);
     fs_denied := fs_denied fs |}.

Section Environment.

(** The order in which the system lists a directory is its own. *)
Variable listing : list string -> list string.

(** The files the process may not remove. *)
Variable locked : path -> bool.

(** [fs.readdirSync(p)] *)
Definition readdirSync (p : path) : M filesystem (list string) :=
  fun fs =>
    if is_dir fs p then (Returned (listing (children fs p)), fs)
    else if is_file fs p then (Thrown (IOError "ENOTDIR" p), fs)
    else (Thrown (IOError "ENOENT" p), fs).

(** [fs.statSync(p).isFile()] *)
Definition stat_isFile (p : path) : M filesystem bool :=
  fun fs =>
    match node_at fs p with
    | Some (File _) => (Returned true, fs)
    | Some Dir => (Returned false, fs)
    | None => if is_dir fs p then (Returned false, fs)
              else (Thrown (IOError "ENOENT" p), fs)
    end.

(** [fs.unlinkSync(p)]: removes a file, and no directory. *)
Definition unlinkSync (p : path) : M filesystem unit :=
  fun fs =>
    match node_at fs p with
    | Some (File _) =>
        if locked p then (Thrown (IOError "EACCES" p), fs)
        else (Returned tt, without fs p)
    | Some Dir => (Thrown (IOError "EISDIR" p), fs)
    | None => if is_dir fs p then (Thrown (IOError "EISDIR" p), fs)
              else (Thrown (IOError "ENOENT" p), fs)
    end.

(** [fs.renameSync(src, dst)] to a path where nothing stands, in a
    directory that does; what the system does over an existing [dst]
    is its own. *)
Definition renameSync (src dst : path) : M filesystem unit :=
  fun fs =>
    if negb (is_dir fs src || is_file fs src) then (Thrown (IOError "ENOENT" src), fs)
    else if within src dst then (Thrown (IOError "EINVAL" dst), fs)
    else if is_dir fs dst || is_file fs dst
         then (Thrown (Unmodelled "rename onto an existing path"), fs)
    else if negb (is_dir fs (dirname dst)) then (Thrown (IOError "ENOENT" dst), fs)
    else if denied fs dst || locked src then (Thrown (IOError "EACCES" dst), fs)
    else (Returned tt, moved fs src dst).

End Environment.

End FsTree.

(** ** global-teardown.js *)

Module GlobalTeardown.
Import FsTree.

(** What the teardown prints: with [console.log], and with
    [console.error] together with the error caught.  Colours and the
    glyphs that start the lines are left out. *)
Inductive line : Type :=
| Logged (text : string)
| Failed (text : string) (error : exn).

Definition console_log {S} (text : string) : M (S * list line) unit :=
  on_snd (modify (fun out => out ++ [Logged text])).

Definition console_error {S} (text : string) (error : exn) : M (S * list line) unit :=
  on_snd (modify (fun out => out ++ [Failed text error])).

(** [items.forEach(f)] *)
Fixpoint for_each {S A} (items : list A) (f : A -> M S unit) : M S unit :=
  match items with
  | [] => ret tt
  | item :: rest => f item;; for_each rest f
  end.

(** [text.replace(/[:.]/g, '-')] *)
Fixpoint dashed (text : string) : string :=
  match text with
  | EmptyString => EmptyString
  | String c rest =>
      String (if Ascii.eqb c ":" || Ascii.eqb c "." then "-"%char else c) (dashed rest)
  end.

Definition tempDir : path := ["temp"].
Definition testResultsDir : path := ["test-results"].
Definition archiveDir : path := ["archived-results"].

(** [path.join(archiveDir, `results-${timestamp}`)], for the ISO string
    [now] of the clock. *)
Definition archivePath (now : string) : path :=
  archiveDir ++ [("results-" ++ dashed now)%string].

Section Environment.
Variable listing : list string -> list string.
Variable locked : path -> bool.

(** The body of the loop over the temporary files. *)
Definition remove_file (file : string) : M (filesystem * list line) unit :=
  let filePath := tempDir ++ [file] in
  do is_file <- on_fst (stat_isFile filePath);
  if is_file : bool then on_fst (unlinkSync locked filePath) else ret tt.

(** The clean-up of the temporary files. *)
Definition sweep_temp : M (filesystem * list line) unit :=
  do present <- on_fst (existsSync tempDir);
  if present : bool then
    do files <- on_fst (readdirSync listing tempDir);
    for_each files remove_file;;
    console_log "Cleaned up temporary files"
  else ret tt.

(** The archive of the test results. *)
Definition archive_results (now : string) : M (filesystem * list line) unit :=
  do present <- on_fst (existsSync testResultsDir);
  if present : bool then
    do archived <- on_fst (existsSync archiveDir);
    (if negb archived then on_fst (mkdirSync archiveDir) else ret tt);;
    do resultFiles <- on_fst (readdirSync listing testResultsDir);
    if 0 <? Z.of_nat (length resultFiles) then
      on_fst (renameSync locked testResultsDir (archivePath now));;
      console_log ("Archived test results to "
                   ++ String.concat "/" (archivePath now))%string
    else ret tt
  else ret tt.

(** The teardown, at the time [now]. *)
Definition teardown (now : string) : M (filesystem * list line) unit :=
  console_log "Running global teardown...";;
  try_catch
    (sweep_temp;;
     archive_results now;;
     console_log "Global teardown completed successfully")
    (fun error => console_error "Error during global teardown:" error).

End Environment.

(** *** What the statements are made of *)

(** No file that stands directly in [dir] is locked. *)
Definition removable (locked : path -> bool) (fs : filesystem) (dir : path) : Prop :=
  forall name, is_file fs (dir ++ [name]) = true -> locked (dir ++ [name]) = false.

(** The archive can be made: [archived-results] is a directory or can
    become one, nothing stands where the results are to go, and the
    process may move them there. *)
Definition archivable (locked : path -> bool) (fs : filesystem) (now : string) : Prop :=
  is_file fs archiveDir = false /\
  (is_dir fs archiveDir = true \/ denied fs archiveDir = false) /\
  node_at fs (archivePath now) = None /\
  denied fs (archivePath now) = false /\
  locked testResultsDir = false.

(** The path starts in the directory [top] of the project. *)
Definition under (top : string) (q : path) : bool :=
  match q with
  | first :: _ => String.eqb first top
  | [] => false
  end.

(** *** Sample disks *)

(** The system lists a directory in the order of the disk. *)
Definition as_stored (names : list string) : list string := names.

Definition nothing_locked (p : path) : bool := false.

(** The outcome store cannot be removed. *)
Definition store_locked (p : path) : bool :=
  bool_decide (p = tempDir ++ ["testData.json"]).

(** A project after a run: the outcome store in [temp], a snapshot
    directory beside it, and one report in [test-results]. *)
Definition disk_after_run : filesystem :=
  with_file
    (with_file
       (with_dirs empty_fs [tempDir; tempDir ++ ["snapshots"]; testResultsDir])
       (tempDir ++ ["testData.json"]) "{}")
    (testResultsDir ++ ["results.json"]) "[]".

(** A project whose run has left no report. *)
Definition disk_without_results : filesystem :=
  with_dirs empty_fs [tempDir; testResultsDir].

Definition sample_time : string := "2024-05-01T10:20:30.123Z".

End GlobalTeardown.

(** ** fixtures/customFixtures.js: the clean-up of the file operations
       (lines 434-454) *)

Module FileOperations.
Import FsTree TestDataManager GlobalTeardown.

(** [path.join(process.cwd(), 'downloads')] and
    [path.join(process.cwd(), 'testFiles')] *)
Definition downloadPath : path := ["downloads"].
Definition uploadPath : path := ["testFiles"].

Definition logger_info (msg : string) : M (filesystem * list log_line) unit :=
  on_snd (modify (fun lines => lines ++ [LogInfo msg])).

Definition logger_error (msg : string) (error : exn) : M (filesystem * list log_line) unit :=
  on_snd (modify (fun lines => lines ++ [LogError msg error])).

Section Environment.
Variable listing : list string -> list string.
Variable locked : path -> bool.

Definition cleanupFiles : M (filesystem * list log_line) unit :=
  try_catch
    (do downloads <- on_fst (existsSync downloadPath);
     (if downloads : bool then
        do files <- on_fst (readdirSync listing downloadPath);
        for_each files (fun file => on_fst (unlinkSync locked (downloadPath ++ [file])))
      else ret tt);;
     do uploads <- on_fst (existsSync uploadPath);
     (if uploads : bool then
        do files <- on_fst (readdirSync listing uploadPath);
        for_each files (fun file => on_fst (unlinkSync locked (uploadPath ++ [file])))
      else ret tt);;
     logger_info "Test files cleaned up")
    (fun error => logger_error "Error cleaning up files:" error).

(** One of the two blocks: every entry of the directory is unlinked. *)
Definition remove_entries (dir : path) : M (filesystem * list log_line) unit :=
  do present <- on_fst (existsSync dir);
  if present : bool then
    do files <- on_fst (readdirSync listing dir);
    for_each files (fun file => on_fst (unlinkSync locked (dir ++ [file])))
  else ret tt.

End Environment.

(** *** What the statements are made of *)

(** Every entry of the directory is a file that can be removed. *)
Definition only_files (locked : path -> bool) (fs : filesystem) (dir : path) : Prop :=
  forall name, node_at fs (dir ++ [name]) <> None ->
    is_file fs (dir ++ [name]) = true /\ locked (dir ++ [name]) = false.

(** An entry of the directory that [unlinkSync] refuses: a directory,
    or a locked file. *)
Definition stuck_entry (locked : path -> bool) (fs : filesystem) (dir : path)
  (name : string) : Prop :=
  is_dir fs (dir ++ [name]) = true
  \/ (is_file fs (dir ++ [name]) = true /\ locked (dir ++ [name]) = true).

(** *** Sample disks *)

(** A download and a test file. *)
Definition tidy_disk : filesystem :=
  with_file
    (with_file (with_dirs empty_fs [downloadPath; uploadPath])
       (downloadPath ++ ["report.pdf"]) "%PDF")
    (uploadPath ++ ["avatar.png"]) "PNG".

(** The same with an unpacked archive among the downloads. *)
Definition disk_with_folder : filesystem :=
  with_dirs tidy_disk [downloadPath ++ ["unpacked"]].

End FileOperations.

(** * Part II: the theorems *)

(** ** The JSON writer and reader agree *)

Module JSONTextFacts.
Import JSONText.

(** Induction on a JSON value, with the hypothesis for every element of
    an array and every property of an object. *)
Lemma json_ind' (P : json -> Prop) :
  (forall p, P (JPrim p)) ->
  (forall l, Forall P l -> P (JArr l)) ->
  (forall ps, Forall (fun kv => P (snd kv)) ps -> P (JObj ps)) ->
  forall v, P v.
Proof.
  intros Hp Ha Ho. fix IH 1. intros [p|l|ps].
  - apply Hp.
  - apply Ha. induction l as [|x l IHl]; constructor; [apply IH | exact IHl].
  - apply Ho. induction ps as [|[k x] ps IHps]; constructor; [apply IH | exact IHps].
Qed.

Lemma lex_string_escape_char c tail :
  lex_string (escape_char c ++ tail) = push c (lex_string tail).
Proof.
  destruct c as [[] [] [] [] [] [] [] []]; reflexivity.
Qed.

(** The reader of a string literal gives back what the writer escaped. *)
Lemma lex_string_quote s rest :
  lex_string (flat_map escape_char s ++ dquote :: rest) = Some (s, rest).
Proof.
  induction s as [|c s IH]; simpl.
  - reflexivity.
  - rewrite <- app_assoc, lex_string_escape_char, IH. reflexivity.
Qed.

Lemma span_num_app tok rest :
  Forall (fun c => is_num_char c = true) tok -> delimited rest ->
  span_num (tok ++ rest) = (tok, rest).
Proof.
  intros Htok Hrest. induction Htok as [|c tok Hc _ IH]; simpl.
  - destruct rest as [|c r]; simpl in *; [reflexivity | now rewrite Hrest].
  - now rewrite Hc, IH.
Qed.

Lemma uint_digits d :
  Forall (fun c => is_num_char c = true) (chars (NilEmpty.string_of_uint d)).
Proof.
  induction d; simpl; constructor; auto.
Qed.

Lemma Z_key_num_chars z :
  Forall (fun c => is_num_char c = true) (chars (Z_key z)).
Proof.
  unfold Z_key. destruct z as [|p|p]; simpl.
  - repeat constructor.
  - unfold NilZero.string_of_uint. destruct (Pos.to_uint p) eqn:E;
      try (rewrite <- E; apply uint_digits). repeat constructor.
  - constructor; [reflexivity|].
    unfold NilZero.string_of_uint. destruct (Pos.to_uint p) eqn:E;
      try (rewrite <- E; apply uint_digits). repeat constructor.
Qed.

(** The spelling of a number reads back as the number. *)
Lemma number_of_key z : number_of (chars (Z_key z)) = Some z.
Proof.
  unfold number_of, chars. rewrite string_of_list_ascii_of_string.
  unfold Z_key at 1. rewrite NilZero.isi.
  - rewrite DecimalZ.of_to. fold (Z_key z). now rewrite String.eqb_refl.
  - destruct z; simpl; try discriminate.
    intros [= E]. now apply (Unsigned.to_uint_nonnil p).
  - destruct z; simpl; try discriminate.
    intros [= E]. now apply (Unsigned.to_uint_nonnil p).
Qed.

(** More fuel does not change what the lexer answers. *)
Lemma lex_more fuel k s ts : lex fuel s = Some ts -> lex (fuel + k) s = Some ts.
Proof.
  revert s ts. induction fuel as [|fuel IH]; intros s ts; [discriminate|].
  cbn [lex Nat.add]. destruct s as [|c r]; [easy|].
  destruct (is_ws c); [apply IH|].
  destruct (punctuation c) as [t|].
  { destruct (lex fuel r) eqn:E; [|discriminate]. now rewrite (IH _ _ E). }
  destruct (N_of_ascii c =? 34)%N.
  { destruct (lex_string r) as [[str r']|]; [|easy].
    destruct (lex fuel r') eqn:E; [|discriminate]. now rewrite (IH _ _ E). }
  destruct (is_num_char c).
  { destruct (span_num (c :: r)) as [tok r']. destruct (number_of tok); [|easy].
    destruct (lex fuel r') eqn:E; [|discriminate]. now rewrite (IH _ _ E). }
  destruct (literal (c :: r)) as [[p r']|]; [|easy].
  destruct (lex fuel r') eqn:E; [|discriminate]. now rewrite (IH _ _ E).
Qed.

Lemma lex_le fuel fuel' s ts :
  (fuel <= fuel')%nat -> lex fuel s = Some ts -> lex fuel' s = Some ts.
Proof.
  intros Hle H. replace fuel' with (fuel + (fuel' - fuel))%nat by lia.
  now apply lex_more.
Qed.

Lemma starts_clean_cons c b : is_num_char c = false -> starts_clean (c :: b).
Proof. intros Hc rest _. exact Hc. Qed.

Lemma reads_nil : reads [] [].
Proof. intros fuel rest ts _ H. cbn. now rewrite Nat.add_0_r. Qed.

Lemma reads_app a b ta tb :
  reads a ta -> reads b tb -> starts_clean b -> reads (a ++ b) (ta ++ tb).
Proof.
  intros Ha Hb Hc fuel rest ts Hd H.
  rewrite <- !app_assoc, length_app.
  replace (fuel + (length a + length b))%nat with (fuel + length b + length a)%nat by lia.
  apply Ha; [now apply Hc | now apply Hb].
Qed.

Lemma reads_ws pre : Forall (fun c => is_ws c = true) pre -> reads pre [].
Proof.
  intros Hpre fuel rest ts _ H. induction Hpre as [|c pre Hc _ IH].
  - cbn. now rewrite Nat.add_0_r.
  - cbn [length app]. rewrite Nat.add_succ_r. cbn [lex]. now rewrite Hc.
Qed.

Lemma break_ws depth : Forall (fun c => is_ws c = true) (break depth).
Proof.
  unfold break. constructor; [reflexivity|].
  induction depth as [|d IH]; cbn [repeat concat]; [constructor|].
  apply Forall_app. split; [repeat constructor | exact IH].
Qed.

Lemma starts_clean_break depth b : starts_clean (break depth ++ b).
Proof. intros rest _. reflexivity. Qed.

Lemma reads_punct c t :
  punctuation c = Some t -> is_ws c = false -> reads [c] [t].
Proof.
  intros Hp Hw fuel rest ts _ H. cbn [app length].
  rewrite Nat.add_1_r. cbn [lex]. now rewrite Hw, Hp, H.
Qed.

Lemma reads_quote s : reads (quote s) [TPrim (PStr s)].
Proof.
  intros fuel rest ts _ H.
  apply lex_le with (fuel := S fuel); [unfold quote; cbn [length]; lia|].
  unfold quote. cbn [app lex].
  change (is_ws dquote) with false. change (punctuation dquote) with (@None token).
  change (N_of_ascii dquote =? 34)%N with true. cbn iota.
  rewrite <- app_assoc. cbn [app]. rewrite lex_string_quote.
  unfold chars. now rewrite string_of_list_ascii_of_string, H.
Qed.

Lemma num_char_first c :
  is_num_char c = true ->
  is_ws c = false /\ punctuation c = None /\ (N_of_ascii c =? 34)%N = false.
Proof.
  destruct c as [[] [] [] [] [] [] [] []]; try discriminate; now intros _.
Qed.

Lemma reads_number z : reads (chars (Z_key z)) [TPrim (PNum z)].
Proof.
  intros fuel rest ts Hd H.
  pose proof (Z_key_num_chars z) as Hchars.
  pose proof (number_of_key z) as Hnum.
  pose proof (span_num_app _ _ Hchars Hd) as Hspan.
  destruct (chars (Z_key z)) as [|c r] eqn:E.
  { exfalso. unfold number_of in Hnum. simpl in Hnum. discriminate. }
  apply lex_le with (fuel := S fuel); [cbn [length]; lia|].
  inversion Hchars as [|? ? Hc _]; subst.
  destruct (num_char_first _ Hc) as (Hw & Hp & Hq).
  cbn [app lex]. rewrite Hw, Hp, Hq, Hc.
  change (c :: r ++ rest) with ((c :: r) ++ rest). rewrite Hspan, Hnum, H.
  reflexivity.
Qed.

Lemma reads_prim p : reads (print_prim p) [TPrim p].
Proof.
  destruct p as [|[]|z|s].
  - intros fuel rest ts _ H.
    apply lex_le with (fuel := S fuel); [cbn; lia|]. cbn. now rewrite H.
  - intros fuel rest ts _ H.
    apply lex_le with (fuel := S fuel); [cbn; lia|]. cbn. now rewrite H.
  - intros fuel rest ts _ H.
    apply lex_le with (fuel := S fuel); [cbn; lia|]. cbn. now rewrite H.
  - apply reads_number.
  - apply reads_quote.
Qed.

Lemma starts_clean_quote s b : starts_clean (quote s ++ b).
Proof. intros rest _. reflexivity. Qed.

Lemma reads_punct_cons c t b tb :
  punctuation c = Some t -> is_ws c = false ->
  reads b tb -> reads (c :: b) (t :: tb).
Proof.
  intros Hp Hw Hb fuel rest ts Hd H. cbn [app length].
  rewrite Nat.add_succ_r. cbn [lex]. rewrite Hw, Hp.
  now rewrite (Hb _ _ _ Hd H).
Qed.

Lemma reads_ws_cons c b tb :
  is_ws c = true -> reads b tb -> reads (c :: b) tb.
Proof.
  intros Hw Hb fuel rest ts Hd H. cbn [app length].
  rewrite Nat.add_succ_r. cbn [lex]. rewrite Hw. now apply Hb.
Qed.

Lemma reads_ws_app pre b tb :
  Forall (fun c => is_ws c = true) pre -> reads b tb -> reads (pre ++ b) tb.
Proof.
  intros Hpre Hb. induction Hpre as [|c pre Hc _ IH]; [exact Hb|].
  cbn [app]. now apply reads_ws_cons.
Qed.

Lemma starts_clean_nil : starts_clean [].
Proof. now intros rest. Qed.

Lemma starts_clean_app_cons c a b : is_num_char c = false -> starts_clean ((c :: a) ++ b).
Proof. intros Hc rest _. exact Hc. Qed.

Lemma reads_elems depth (l : list json) :
  Forall (fun y => forall d, reads (stringify_at d y) (tokens_of y)) l ->
  reads
    (flat_map (fun y => ","%char :: break (S depth) ++ stringify_at (S depth) y) l)
    (flat_map (fun y => TComma :: tokens_of y) l)
  /\ starts_clean
    (flat_map (fun y => ","%char :: break (S depth) ++ stringify_at (S depth) y) l).
Proof.
  induction 1 as [|y l Hy _ [IH IHc]]; cbn [flat_map].
  - split; [apply reads_nil | apply starts_clean_nil].
  - split; [|now apply starts_clean_app_cons].
    cbn [app]. apply reads_punct_cons; [reflexivity..|].
    rewrite <- app_assoc. apply reads_ws_app; [apply break_ws|].
    now apply reads_app.
Qed.

Lemma reads_members depth (ps : list (string * json)) :
  Forall (fun kv => forall d, reads (stringify_at d (snd kv)) (tokens_of (snd kv))) ps ->
  reads
    (flat_map (fun '(k', y) => ","%char :: break (S depth) ++ quote k'
                               ++ ":"%char :: " "%char
                               :: stringify_at (S depth) y) ps)
    (flat_map (fun '(k', y) => TComma :: TPrim (PStr k') :: TColon :: tokens_of y) ps)
  /\ starts_clean
    (flat_map (fun '(k', y) => ","%char :: break (S depth) ++ quote k'
                               ++ ":"%char :: " "%char
                               :: stringify_at (S depth) y) ps).
Proof.
  induction 1 as [|[k y] ps Hy _ [IH IHc]]; cbn [flat_map].
  - split; [apply reads_nil | apply starts_clean_nil].
  - split; [|now apply starts_clean_app_cons].
    cbn [snd] in Hy. cbn [app].
    apply reads_punct_cons; [reflexivity..|].
    rewrite <- !app_assoc. apply reads_ws_app; [apply break_ws|].
    change (TPrim (PStr k) :: TColon :: tokens_of y ++ ?r)
      with ([TPrim (PStr k)] ++ (TColon :: tokens_of y ++ r)).
    apply reads_app; [apply reads_quote| |now apply starts_clean_cons].
    cbn [app]. apply reads_punct_cons; [reflexivity..|].
    apply reads_ws_cons; [reflexivity|].
    now apply reads_app.
Qed.

(** The text the writer gives for [v] reads as the tokens of [v], at
    every depth of indentation. *)
Lemma reads_stringify v : forall depth, reads (stringify_at depth v) (tokens_of v).
Proof.
  induction v as [p|l IH|ps IH] using json_ind'; intros depth.
  - apply reads_prim.
  - destruct l as [|x l].
    + cbn. apply reads_punct_cons; [reflexivity..|].
      apply reads_punct_cons; [reflexivity..|]. apply reads_nil.
    + inversion IH as [|? ? Hx Hl]; subst.
      destruct (reads_elems depth l Hl) as [Hr Hc].
      cbn [stringify_at tokens_of].
      apply reads_punct_cons; [reflexivity..|].
      apply reads_ws_app; [apply break_ws|].
      apply reads_app; [apply Hx| |].
      * apply reads_app; [exact Hr| |apply starts_clean_break].
        apply reads_ws_app; [apply break_ws|].
        apply reads_punct_cons; [reflexivity..|]. apply reads_nil.
      * destruct l; [apply starts_clean_break | now apply starts_clean_app_cons].
  - destruct ps as [|[k x] ps].
    + cbn. apply reads_punct_cons; [reflexivity..|].
      apply reads_punct_cons; [reflexivity..|]. apply reads_nil.
    + inversion IH as [|? ? Hx Hl]; subst. cbn [snd] in Hx.
      destruct (reads_members depth ps Hl) as [Hr Hc].
      cbn [stringify_at tokens_of].
      apply reads_punct_cons; [reflexivity..|].
      apply reads_ws_app; [apply break_ws|].
      change (TPrim (PStr k) :: TColon :: tokens_of x ++ ?r)
        with ([TPrim (PStr k)] ++ (TColon :: tokens_of x ++ r)).
      apply reads_app; [apply reads_quote| |now apply starts_clean_cons].
      apply reads_punct_cons; [reflexivity..|].
      apply reads_ws_cons; [reflexivity|].
      apply reads_app; [apply Hx| |].
      * apply reads_app; [exact Hr| |apply starts_clean_break].
        apply reads_ws_app; [apply break_ws|].
        apply reads_punct_cons; [reflexivity..|]. apply reads_nil.
      * destruct ps as [|[k' y] ps]; [apply starts_clean_break | now apply starts_clean_app_cons].
Qed.

(** The lexer has fuel enough for the whole text of [v]. *)
Lemma lex_stringify v :
  lex (S (length (stringify_at 0 v))) (stringify_at 0 v) = Some (tokens_of v).
Proof.
  pose proof (reads_stringify v 0 1%nat [] [] I eq_refl) as H.
  rewrite !app_nil_r in H. exact H.
Qed.

Lemma obj_set_fresh {A} (acc : list (string * A)) k v :
  k ∉ map fst acc -> obj_set acc k v = acc ++ [(k, v)].
Proof.
  induction acc as [|[k' v'] acc IH]; cbn; intros Hk; [reflexivity|].
  apply not_elem_of_cons in Hk as [Hne Hk].
  destruct (String.eqb_spec k' k) as [->|_]; [congruence|].
  now rewrite IH.
Qed.

Lemma json_wf_arr l : json_wf (JArr l) <-> Forall json_wf l.
Proof.
  cbn. induction l as [|x l IH]; [easy|].
  rewrite Forall_cons_iff, <- IH. reflexivity.
Qed.

Lemma json_wf_obj ps :
  json_wf (JObj ps) <-> NoDup (map fst ps) /\ Forall (fun kv => json_wf (snd kv)) ps.
Proof.
  cbn. apply and_iff_compat_l. induction ps as [|kv ps IH]; [easy|].
  rewrite Forall_cons_iff, <- IH. reflexivity.
Qed.

Lemma tokens_not_closing v rest :
  match tokens_of v ++ rest with
  | TRBrack :: _ => False
  | _ => True
  end.
Proof. destruct v as [p|[|x l]|[|[k x] ps]]; exact I. Qed.

Lemma parse_value_array fuel ts :
  match ts with TRBrack :: _ => False | _ => True end ->
  parse_value (S fuel) (TLBrack :: ts) =
  match parse_elems fuel [] ts with
  | Some (l, r) => Some (JArr l, r)
  | None => None
  end.
Proof. destruct ts as [|[] ts]; easy. Qed.

Lemma parse_value_object fuel ts :
  match ts with TRBrace :: _ => False | _ => True end ->
  parse_value (S fuel) (TLBrace :: ts) =
  match parse_members fuel [] ts with
  | Some (ps, r) => Some (JObj ps, r)
  | None => None
  end.
Proof. destruct ts as [|[] ts]; easy. Qed.

Lemma parse_elems_tokens (l : list json) :
  Forall parses l ->
  forall x, parses x ->
  forall fuel acc rest,
    (length (tokens_of x) + length (flat_map (fun y => TComma :: tokens_of y) l) < fuel)%nat ->
    parse_elems fuel acc
      (tokens_of x ++ flat_map (fun y => TComma :: tokens_of y) l ++ TRBrack :: rest)
    = Some (acc ++ x :: l, rest).
Proof.
  induction 1 as [|y l Hy _ IH]; intros x Hx fuel acc rest Hfuel;
    (destruct fuel as [|fuel]; [lia|]); cbn [parse_elems flat_map].
  - cbn [app flat_map length] in *. rewrite Hx by lia. reflexivity.
  - cbn [flat_map length] in Hfuel. rewrite length_app in Hfuel.
    cbn [length] in Hfuel.
    rewrite Hx by lia. cbn [app]. rewrite <- app_assoc.
    rewrite IH by (auto; lia). now rewrite <- app_assoc.
Qed.

Lemma parse_members_tokens (ps : list (string * json)) :
  Forall (fun kv => parses (snd kv)) ps ->
  forall k x, parses x ->
  forall fuel acc rest,
    NoDup (map fst acc ++ k :: map fst ps) ->
    (2 + length (tokens_of x)
     + length (flat_map (fun '(k', y) => TComma :: TPrim (PStr k') :: TColon :: tokens_of y) ps)
     < fuel)%nat ->
    parse_members fuel acc
      (TPrim (PStr k) :: TColon :: tokens_of x
       ++ flat_map (fun '(k', y) => TComma :: TPrim (PStr k') :: TColon :: tokens_of y) ps
       ++ TRBrace :: rest)
    = Some (acc ++ (k, x) :: ps, rest).
Proof.
  induction 1 as [|[k' y] ps Hy _ IH]; intros k x Hx fuel acc rest Hnd Hfuel;
    (destruct fuel as [|fuel]; [lia|]); cbn [parse_members flat_map].
  - cbn [app flat_map length] in *. rewrite Hx by lia.
    rewrite obj_set_fresh; [reflexivity|].
    apply NoDup_app in Hnd as (_ & Hnd & _). intros Hin.
    apply (Hnd _ Hin). now left.
  - cbn [flat_map length] in Hfuel. rewrite length_app in Hfuel.
    cbn [length] in Hfuel.
    cbn [snd] in Hy. rewrite Hx by lia. cbn [app]. rewrite <- app_assoc.
    assert (Hk : k ∉ map fst acc).
    { apply NoDup_app in Hnd as (_ & Hnd & _). intros Hin.
      apply (Hnd _ Hin). now left. }
    rewrite obj_set_fresh by exact Hk.
    rewrite IH; auto.
    + now rewrite <- app_assoc.
    + rewrite map_app. cbn [map fst]. rewrite <- app_assoc. exact Hnd.
    + lia.
Qed.

(** The parser reads the tokens of a value back as the value. *)
Lemma parses_wf v : json_wf v -> parses v.
Proof.
  induction v as [p|l IH|ps IH] using json_ind'; intros Hwf fuel rest Hfuel.
  - destruct fuel; [cbn in Hfuel; lia | reflexivity].
  - apply json_wf_arr in Hwf.
    assert (Hall : Forall parses l).
    { clear Hfuel. induction IH as [|x l Hx _ IHl]; [constructor|].
      inversion Hwf; subst. constructor; auto. }
    destruct l as [|x l].
    + destruct fuel; [cbn in Hfuel; lia | reflexivity].
    + inversion Hall as [|? ? Hx Hl]; subst.
      destruct fuel as [|fuel]; [cbn in Hfuel; lia|].
      cbn [tokens_of] in *. cbn [app]. rewrite <- !app_assoc.
      rewrite parse_value_array by apply tokens_not_closing.
      cbn [length] in Hfuel. rewrite !length_app in Hfuel. cbn [length] in Hfuel.
      cbn [app]. rewrite parse_elems_tokens by (auto; lia). reflexivity.
  - apply json_wf_obj in Hwf. destruct Hwf as [Hnd Hwf].
    assert (Hall : Forall (fun kv => parses (snd kv)) ps).
    { clear Hfuel Hnd. induction IH as [|x l Hx _ IHl]; [constructor|].
      inversion Hwf; subst. constructor; auto. }
    destruct ps as [|[k x] ps].
    + destruct fuel; [cbn in Hfuel; lia | reflexivity].
    + inversion Hall as [|? ? Hx Hl]; subst. cbn [snd] in Hx.
      destruct fuel as [|fuel]; [cbn in Hfuel; lia|].
      cbn [tokens_of] in *. cbn [app]. rewrite <- !app_assoc.
      rewrite parse_value_object by exact I.
      cbn [length] in Hfuel. rewrite !length_app in Hfuel. cbn [length] in Hfuel.
      cbn [app]. rewrite parse_members_tokens; auto; lia.
Qed.

(** What is written parses back. *)
Lemma parse_stringify v : json_wf v -> parse (stringify v) = Some v.
Proof.
  intros Hwf. unfold parse, stringify, chars.
  rewrite list_ascii_of_string_of_list_ascii, lex_stringify.
  pose proof (parses_wf v Hwf (S (length (tokens_of v))) []) as H.
  rewrite app_nil_r in H. rewrite H by lia. reflexivity.
Qed.
Lemma obj_set_key_in {A} (acc : list (string * A)) k v x :
  x ∈ map fst (obj_set acc k v) -> x ∈ map fst acc \/ x = k.
Proof.
  induction acc as [|[k' v'] acc IH]; cbn.
  - intros Hx. apply list_elem_of_singleton in Hx. now right.
  - destruct (String.eqb_spec k' k) as [->|Hne]; cbn; [now left|].
    intros Hx. apply elem_of_cons in Hx as [->|Hx]; [left; now left|].
    destruct (IH Hx) as [H|H]; [left; now right | now right].
Qed.

Lemma obj_set_NoDup {A} (acc : list (string * A)) k v :
  NoDup (map fst acc) -> NoDup (map fst (obj_set acc k v)).
Proof.
  induction acc as [|[k' v'] acc IH]; cbn; intros Hnd.
  - apply NoDup_singleton.
  - apply NoDup_cons in Hnd as [Hk' Hnd].
    destruct (String.eqb_spec k' k) as [->|Hne]; cbn.
    + now apply NoDup_cons.
    + apply NoDup_cons. split; [|now apply IH].
      intros Hin. apply obj_set_key_in in Hin as [Hin|Heq]; congruence.
Qed.

Lemma obj_set_Forall {A} (P : string * A -> Prop) acc k v :
  Forall P acc -> (forall k', P (k', v)) -> Forall P (obj_set acc k v).
Proof.
  intros Hacc Hv. induction Hacc as [|[k' v'] acc Hkv Hrest IH]; cbn.
  - repeat constructor. apply Hv.
  - destruct (String.eqb k' k); constructor; auto.
Qed.

Lemma parse_wf_fuel fuel :
  (forall ts v r, parse_value fuel ts = Some (v, r) -> json_wf v) /\
  (forall acc ts l r, Forall json_wf acc ->
     parse_elems fuel acc ts = Some (l, r) -> Forall json_wf l) /\
  (forall acc ts ps r, json_wf (JObj acc) ->
     parse_members fuel acc ts = Some (ps, r) -> json_wf (JObj ps)).
Proof.
  induction fuel as [|fuel (IHv & IHe & IHm)]; [split; [|split]; discriminate|].
  split; [|split].
  - intros ts v r H. cbn [parse_value] in H.
    destruct ts as [|[] ts]; try discriminate.
    + destruct ts as [|t ts].
      * destruct (parse_members fuel [] []) as [[ps r']|] eqn:E; [|discriminate].
        injection H as <- <-. eapply IHm; [|exact E]. apply json_wf_obj. split; constructor.
      * assert (Hcase : t = TRBrace /\ v = JObj [] \/
          exists ps r', parse_members fuel [] (t :: ts) = Some (ps, r') /\ v = JObj ps).
        { destruct t; try (destruct (parse_members fuel [] _) as [[ps r']|] eqn:E;
            [injection H as <- <-; right; eauto | discriminate]).
          injection H as <- <-. now left. }
        destruct Hcase as [[_ ->]|(ps & r' & E & ->)].
        -- apply json_wf_obj; split; constructor.
        -- eapply IHm; [|exact E]. apply json_wf_obj. split; constructor.
    + destruct ts as [|t ts].
      * destruct (parse_elems fuel [] []) as [[l r']|] eqn:E; [|discriminate].
        injection H as <- <-. apply json_wf_arr. eapply IHe; [|exact E]. constructor.
      * assert (Hcase : t = TRBrack /\ v = JArr [] \/
          exists l r', parse_elems fuel [] (t :: ts) = Some (l, r') /\ v = JArr l).
        { destruct t; try (destruct (parse_elems fuel [] _) as [[l r']|] eqn:E;
            [injection H as <- <-; right; eauto | discriminate]).
          injection H as <- <-. now left. }
        destruct Hcase as [[_ ->]|(l & r' & E & ->)].
        -- apply json_wf_arr; constructor.
        -- apply json_wf_arr. eapply IHe; [|exact E]. constructor.
    + injection H as <- <-. exact I.
  - intros acc ts l r Hacc H. cbn [parse_elems] in H.
    destruct (parse_value fuel ts) as [[v [|t r']]|] eqn:E; try discriminate.
    assert (Hv : json_wf v) by (eapply IHv; exact E).
    assert (Hacc' : Forall json_wf (acc ++ [v])) by (apply Forall_app; auto).
    destruct t; try discriminate.
    + injection H as <- <-. exact Hacc'.
    + eapply IHe; [exact Hacc' | exact H].
  - intros acc ts ps r Hacc H. cbn [parse_members] in H.
    destruct ts as [|[| | | | | |[| | |k]] [|[] ts]]; try discriminate.
    destruct (parse_value fuel ts) as [[v [|t r']]|] eqn:E; try discriminate.
    assert (Hv : json_wf v) by (eapply IHv; exact E).
    assert (Hacc' : json_wf (JObj (obj_set acc k v))).
    { apply json_wf_obj in Hacc as [Hnd Hall]. apply json_wf_obj. split.
      - now apply obj_set_NoDup.
      - now apply obj_set_Forall. }
    destruct t; try discriminate.
    + injection H as <- <-. exact Hacc'.
    + eapply IHm; [exact Hacc' | exact H].
Qed.

(** What parses has objects with distinct keys: a repeated key takes
    the place of the earlier one. *)
Lemma parse_wf text v : parse text = Some v -> json_wf v.
Proof.
  unfold parse. destruct (lex _ _) as [ts|]; [|discriminate].
  destruct (parse_value _ ts) as [[v' [|]]|] eqn:E; try discriminate.
  intros [= <-]. eapply (proj1 (parse_wf_fuel _)), E.
Qed.

(** The writer and the reader on text are a faithful [JSON]. *)
Lemma text_json_faithful : JSON_faithful text_json.
Proof. split; [exact parse_stringify | exact parse_wf]. Qed.

End JSONTextFacts.

(** ** The file system *)

Module FsFacts.

Ltac case_bool_decide_goal :=
  match goal with
  | |- context [bool_decide ?P] => destruct (bool_decide P) eqn:?
  end.

Lemma is_dir_is_file fs p : p <> [] -> is_dir fs p = true -> is_file fs p = false.
Proof.
  unfold is_dir, is_file. destruct p; [congruence|].
  now destruct (node_at fs _) as [[]|].
Qed.

Lemma is_dir_node fs p :
  p <> [] -> is_dir fs p = match node_at fs p with Some Dir => true | _ => false end.
Proof. destruct p; [congruence | reflexivity]. Qed.

Lemma denied_with_file fs p text q : denied (with_file fs p text) q = denied fs q.
Proof. reflexivity. Qed.

Lemma nodes_with_file fs p text q :
  node_at (with_file fs p text) q =
  if decide (p = q) then Some (File text) else node_at fs q.
Proof. unfold node_at, with_file; cbn. apply lookup_insert. Qed.

Lemma is_dir_with_file fs p text q :
  q <> p -> is_dir (with_file fs p text) q = is_dir fs q.
Proof.
  intros Hne. unfold is_dir. destruct q; [reflexivity|].
  now rewrite nodes_with_file, decide_False by congruence.
Qed.

Lemma is_file_with_file_ne fs p text q :
  q <> p -> is_file (with_file fs p text) q = is_file fs q.
Proof.
  intros Hne. unfold is_file.
  now rewrite nodes_with_file, decide_False by congruence.
Qed.

Lemma file_text_with_file fs p text : file_text (with_file fs p text) p = Some text.
Proof. unfold file_text. rewrite nodes_with_file. now rewrite decide_True. Qed.

Lemma file_text_with_file_ne fs p text q :
  q <> p -> file_text (with_file fs p text) q = file_text fs q.
Proof.
  intros Hne. unfold file_text. rewrite nodes_with_file.
  now rewrite decide_False by congruence.
Qed.

Lemma denied_with_dirs fs ds q : denied (with_dirs fs ds) q = denied fs q.
Proof. reflexivity. Qed.

Lemma nodes_with_dirs fs ds q :
  node_at (with_dirs fs ds) q =
  if bool_decide (q ∈ ds) then Some Dir else node_at fs q.
Proof.
  unfold node_at, with_dirs; cbn. induction ds as [|d ds IH]; cbn [foldr].
  - reflexivity.
  - rewrite lookup_insert. destruct (decide (d = q)) as [->|Hne].
    + rewrite bool_decide_eq_true_2; [reflexivity | now left].
    + rewrite IH. destruct (bool_decide (q ∈ ds)) eqn:E.
      * apply bool_decide_eq_true in E.
        rewrite bool_decide_eq_true_2; [reflexivity | now right].
      * apply bool_decide_eq_false in E.
        rewrite bool_decide_eq_false_2; [reflexivity|].
        intros Hin. apply elem_of_cons in Hin as [->|Hin]; tauto.
Qed.

Lemma is_dir_with_file_eq fs p text :
  p <> [] -> is_dir (with_file fs p text) p = false.
Proof.
  unfold is_dir. destruct p; [congruence|]. intros _.
  now rewrite nodes_with_file, decide_True.
Qed.

Lemma is_file_file_text fs p : is_file fs p = false -> file_text fs p = None.
Proof.
  unfold is_file, file_text.
  destruct (node_at fs p) as [[]|]; intros; (discriminate || reflexivity).
Qed.

Lemma file_text_with_dirs fs ds p :
  file_text (with_dirs fs ds) p =
  if bool_decide (p ∈ ds) then None else file_text fs p.
Proof.
  unfold file_text. rewrite nodes_with_dirs. now case_bool_decide_goal.
Qed.

Lemma is_dir_with_dirs fs ds p :
  is_dir (with_dirs fs ds) p = bool_decide (p ∈ ds) || is_dir fs p.
Proof.
  unfold is_dir. destruct p as [|c p]; [now rewrite orb_true_r|].
  rewrite nodes_with_dirs. now case_bool_decide_goal.
Qed.

Lemma is_file_with_dirs fs ds p :
  is_file (with_dirs fs ds) p = negb (bool_decide (p ∈ ds)) && is_file fs p.
Proof.
  unfold is_file. rewrite nodes_with_dirs. now case_bool_decide_goal.
Qed.

Lemma file_text_with_dirs_free fs ds p :
  (forall d, d ∈ ds -> is_file fs d = false) ->
  file_text (with_dirs fs ds) p = file_text fs p.
Proof.
  intros Hfree. rewrite file_text_with_dirs.
  destruct (bool_decide (p ∈ ds)) eqn:E; [|reflexivity].
  apply bool_decide_eq_true in E. symmetry. now apply is_file_file_text, Hfree.
Qed.

End FsFacts.

(** ** The outcome store *)

Module OutcomeStoreFacts.
Import OutcomeHelper JSONTextFacts FsFacts.

Lemma tempDir_dataPath : tempDir <> dataPath.
Proof. unfold dataPath, tempDir. cbn. discriminate. Qed.

Lemma tempDir_not_root : tempDir <> [].
Proof. discriminate. Qed.

Lemma dataPath_not_root : dataPath <> [].
Proof. discriminate. Qed.

Lemma store_writable_with_file fs text :
  store_writable fs = true -> is_dir fs tempDir = true ->
  store_writable (with_file fs dataPath text) = true.
Proof.
  unfold store_writable. intros H Htd.
  apply andb_prop in H as [H Htmp]. apply andb_prop in H as [H Hden].
  apply andb_prop in H as [Hfile _].
  rewrite is_file_with_file_ne by apply tempDir_dataPath.
  rewrite is_dir_with_file_eq by apply dataPath_not_root.
  rewrite (is_dir_with_file _ _ _ tempDir) by apply tempDir_dataPath.
  rewrite !denied_with_file, Hden, Htmp.
  now rewrite Hfile.
Qed.

Section WithJSON.
Context {J : JSONImpl}.

(** A write on a writable store creates what is missing and leaves the
    file holding exactly the text of [data]; no other file changes. *)
Lemma writeTestData_ok data fs :
  store_writable fs = true ->
  exists fs',
    writeTestData data fs = (Returned tt, fs') /\
    is_dir fs' tempDir = true /\
    file_text fs' dataPath = Some (JSON_stringify data) /\
    (forall p, p <> dataPath -> file_text fs' p = file_text fs p) /\
    store_writable fs' = true.
Proof.
  intros Hw. pose proof Hw as H. unfold store_writable in H.
  apply andb_prop in H as [H Htmp]. apply andb_prop in H as [H Hden].
  apply andb_prop in H as [Hfile Hdir].
  apply negb_true_iff in Hfile, Hdir, Hden.
  unfold writeTestData, bind, existsSync, gets. rewrite Hfile, orb_false_r.
  destruct (is_dir fs tempDir) eqn:Htd; cbn [negb ret].
  - unfold writeFileSync. rewrite Hdir.
    change (dirname dataPath) with tempDir. rewrite Htd, Hden. cbn [negb].
    eexists. split; [reflexivity|].
    rewrite is_dir_with_file by apply tempDir_dataPath.
    repeat split; auto using store_writable_with_file, file_text_with_file,
      file_text_with_file_ne.
  - cbn [orb] in Htmp. apply negb_true_iff in Htmp.
    unfold mkdirSync_recursive. change (ancestors_and_self tempDir) with [tempDir].
    cbn [find]. rewrite Hfile, Htd, Htmp. cbn [negb andb].
    assert (Htd' : is_dir (with_dirs fs [tempDir]) tempDir = true).
    { rewrite is_dir_with_dirs. rewrite bool_decide_eq_true_2; [reflexivity | now left]. }
    assert (Hdp : is_dir (with_dirs fs [tempDir]) dataPath = false).
    { rewrite is_dir_with_dirs, Hdir, orb_false_r.
      apply bool_decide_eq_false. intros Hin.
      apply list_elem_of_singleton in Hin. symmetry in Hin. now apply tempDir_dataPath. }
    unfold writeFileSync. rewrite Hdp.
    change (dirname dataPath) with tempDir. rewrite Htd', denied_with_dirs, Hden.
    cbn [negb].
    eexists. split; [reflexivity|].
    rewrite is_dir_with_file by apply tempDir_dataPath.
    split; [exact Htd'|]. split; [apply file_text_with_file|]. split.
    + intros p Hp. rewrite file_text_with_file_ne by exact Hp.
      apply file_text_with_dirs_free. intros d Hd.
      apply list_elem_of_singleton in Hd. now subst d.
    + apply store_writable_with_file; [|exact Htd'].
      unfold store_writable.
      rewrite Hdp, !denied_with_dirs, Hden, Htd'.
      rewrite (is_dir_is_file _ _ tempDir_not_root Htd'). reflexivity.
Qed.

(** A write on a store that cannot be written throws an [IOError] and
    leaves every file as it was. *)
Lemma writeTestData_fails data fs :
  store_writable fs = false ->
  exists e fs',
    writeTestData data fs = (Thrown e, fs') /\
    is_IOError e = true /\
    (forall p, file_text fs' p = file_text fs p).
Proof.
  intros Hw.
  unfold writeTestData, bind, existsSync, gets.
  destruct (is_dir fs tempDir) eqn:Htd; cbn [orb negb ret].
  - unfold writeFileSync. change (dirname dataPath) with tempDir. rewrite Htd.
    cbn [negb].
    destruct (is_dir fs dataPath) eqn:Hdir; [eauto 6|].
    destruct (denied fs dataPath) eqn:Hden; [eauto 6|].
    exfalso. unfold store_writable in Hw.
    rewrite Hdir, Hden, Htd, (is_dir_is_file _ _ tempDir_not_root Htd) in Hw.
    discriminate.
  - destruct (is_file fs tempDir) eqn:Hfile; cbn [negb ret].
    + unfold writeFileSync. change (dirname dataPath) with tempDir. rewrite Htd.
      cbn [negb]. destruct (is_dir fs dataPath); eauto 6.
    + unfold mkdirSync_recursive. change (ancestors_and_self tempDir) with [tempDir].
      cbn [find]. rewrite Hfile, Htd. cbn [negb andb].
      destruct (denied fs tempDir) eqn:Htmp; [eauto 6|].
      assert (Hsame : forall p, file_text (with_dirs fs [tempDir]) p = file_text fs p).
      { intros p. apply file_text_with_dirs_free. intros d Hd.
        apply list_elem_of_singleton in Hd. now subst d. }
      unfold writeFileSync.
      destruct (is_dir (with_dirs fs [tempDir]) dataPath) eqn:Hdp; [eauto 6|].
      destruct (negb (is_dir (with_dirs fs [tempDir]) (dirname dataPath))); [eauto 6|].
      rewrite denied_with_dirs.
      destruct (denied fs dataPath) eqn:Hden; [eauto 6|].
      exfalso. unfold store_writable in Hw.
      rewrite Hfile, Hden, Htd, Htmp in Hw. cbn [negb andb orb] in Hw.
      rewrite !andb_true_r in Hw. apply negb_false_iff in Hw.
      rewrite is_dir_with_dirs, Hw, orb_true_r in Hdp. discriminate.
Qed.

(** What a read answers, by what stands at [dataPath]. *)
Lemma readTestData_spec fs :
  readTestData fs =
  match node_at fs dataPath with
  | None => (Returned (JObj []), fs)
  | Some Dir => (Thrown (IOError "EISDIR" dataPath), fs)
  | Some (File raw) =>
      match JSON_parse raw with
      | Some v => (Returned v, fs)
      | None => (Thrown SyntaxError, fs)
      end
  end.
Proof.
  unfold readTestData, bind, existsSync, gets, readFileSync, is_file.
  rewrite is_dir_node by apply dataPath_not_root.
  destruct (node_at fs dataPath) as [[|raw]|] eqn:E; cbn [orb negb];
    rewrite ?E; try reflexivity.
  now destruct (JSON_parse raw).
Qed.

(** With no record on disk a read answers the empty object. *)
Lemma read_without_record fs :
  store_absent fs = true -> readTestData fs = (Returned (JObj []), fs).
Proof.
  intros Habs. unfold store_absent in Habs. apply negb_true_iff in Habs.
  unfold readTestData, bind, existsSync, gets. now rewrite Habs.
Qed.

Lemma read_after_write data fs' :
  JSON_faithful J -> json_wf data ->
  file_text fs' dataPath = Some (JSON_stringify data) ->
  readTestData fs' = (Returned data, fs').
Proof.
  intros [HJ _] Hwf Htext. rewrite readTestData_spec.
  unfold file_text in Htext.
  destruct (node_at fs' dataPath) as [[|raw]|]; try discriminate.
  injection Htext as ->. now rewrite HJ.
Qed.

Lemma write_all_last earlier last fs :
  store_writable fs = true ->
  exists fs',
    write_all (earlier ++ [last]) fs = (Returned tt, fs') /\
    file_text fs' dataPath = Some (JSON_stringify last).
Proof.
  revert fs. induction earlier as [|r earlier IH]; intros fs Hw; cbn [app write_all].
  - destruct (writeTestData_ok last fs Hw) as (fs' & Hrun & _ & Htext & _).
    exists fs'. unfold bind. now rewrite Hrun.
  - destruct (writeTestData_ok r fs Hw) as (fs1 & Hrun & _ & _ & _ & Hw1).
    destruct (IH fs1 Hw1) as (fs' & Hrest & Htext).
    exists fs'. unfold bind. now rewrite Hrun.
Qed.

(** C1 (amended): a write replaces the state on disk with the given
    record -- a read after it answers exactly that record -- and creates
    the directory and the file when they are missing; on a location that
    cannot be written it throws an [IOError] and changes no file. *)
Theorem writeTestData_replaces data fs :
  JSON_faithful J -> json_wf data ->
  (store_writable fs = true ->
     exists fs',
       writeTestData data fs = (Returned tt, fs') /\
       is_dir fs' tempDir = true /\
       file_text fs' dataPath = Some (JSON_stringify data) /\
       readTestData fs' = (Returned data, fs')) /\
  (store_writable fs = false ->
     exists e fs',
       writeTestData data fs = (Thrown e, fs') /\
       is_IOError e = true /\
       forall p, file_text fs' p = file_text fs p).
Proof.
  intros HJ Hwf. split; intros Hw.
  - destruct (writeTestData_ok data fs Hw) as (fs' & Hrun & Hdir & Htext & _).
    exists fs'. repeat split; auto using read_after_write.
  - now apply writeTestData_fails.
Qed.

(** C2 (amended): a read answers the empty mapping when nothing stands at
    the data path and the parsed value when the file parses; on a file
    that does not parse it throws a [SyntaxError], and on a directory an
    [IOError]; it never changes the disk. *)
Theorem readTestData_answers fs :
  (store_absent fs = true -> readTestData fs = (Returned (JObj []), fs)) /\
  (forall raw v,
     file_text fs dataPath = Some raw -> JSON_parse raw = Some v ->
     readTestData fs = (Returned v, fs)) /\
  (forall raw,
     file_text fs dataPath = Some raw -> JSON_parse raw = None ->
     readTestData fs = (Thrown SyntaxError, fs)) /\
  (is_dir fs dataPath = true ->
   readTestData fs = (Thrown (IOError "EISDIR" dataPath), fs)).
Proof.
  split; [apply read_without_record|].
  rewrite readTestData_spec. unfold file_text.
  rewrite is_dir_node by apply dataPath_not_root.
  destruct (node_at fs dataPath) as [[|text]|]; repeat split;
    try discriminate; try reflexivity.
  - intros raw v [= ->] ->. reflexivity.
  - intros raw [= ->] ->. reflexivity.
Qed.

(** C3 (amended): after any run of writes on a writable store, a read
    answers exactly the record of the last write: its keys with their
    values, and no key that only an earlier write had. *)
Theorem read_after_writes_is_last earlier last fs :
  JSON_faithful J -> json_wf last -> store_writable fs = true ->
  exists fs',
    write_all (earlier ++ [last]) fs = (Returned tt, fs') /\
    readTestData fs' = (Returned last, fs').
Proof.
  intros HJ Hwf Hw.
  destruct (write_all_last earlier last fs Hw) as (fs' & Hrun & Htext).
  exists fs'. split; [exact Hrun | now apply read_after_write].
Qed.

End WithJSON.

#[local] Existing Instance JSONText.text_json.

Lemma login_record_wf : json_wf login_record.
Proof. cbn. split; [apply NoDup_singleton | auto]. Qed.

Lemma empty_fs_writable : store_writable empty_fs = true.
Proof. reflexivity. Qed.

(** C1, witness: the record of the login test on an empty project. *)
Lemma writeTestData_replaces_witness :
  exists fs',
    writeTestData login_record empty_fs = (Returned tt, fs') /\
    is_dir fs' tempDir = true /\
    file_text fs' dataPath = Some (JSON_stringify login_record) /\
    readTestData fs' = (Returned login_record, fs').
Proof.
  exact (proj1 (writeTestData_replaces login_record empty_fs
                  text_json_faithful login_record_wf) empty_fs_writable).
Defined.

(** C1, counterexample: the key of an earlier write does not survive a
    later write of another key. *)
Lemma write_does_not_merge :
  fst ((writeTestData login_record;;
        writeTestData profile_record;;
        readTestData) empty_fs)
  = Returned profile_record
  /\ obj_get [("profileChecked", JBool true)] "loginSuccess" = None (A := json).
Proof. split; vm_compute; reflexivity. Qed.

(** C2, witness: a read on an empty project, and a read of a file cut
    short. *)
Lemma readTestData_answers_witness :
  readTestData empty_fs = (Returned (JObj []), empty_fs) /\
  readTestData corrupted_store = (Thrown SyntaxError, corrupted_store).
Proof.
  split.
  - exact (proj1 (readTestData_answers empty_fs) eq_refl).
  - exact (proj1 (proj2 (proj2 (readTestData_answers corrupted_store)))
             "{" eq_refl eq_refl).
Defined.

(** C2, counterexample: a read of a corrupted file throws. *)
Lemma read_corrupted_throws :
  readTestData corrupted_store
  = (Thrown SyntaxError, corrupted_store).
Proof. vm_compute. reflexivity. Qed.

(** C3, witness: two writes, then a read. *)
Lemma read_after_writes_is_last_witness :
  exists fs',
    write_all ([profile_record] ++ [login_record]) empty_fs
      = (Returned tt, fs') /\
    readTestData fs' = (Returned login_record, fs').
Proof.
  apply (read_after_writes_is_last [profile_record]
           login_record empty_fs text_json_faithful login_record_wf empty_fs_writable).
Defined.

(** C3, counterexample: a key written once and not repeated is gone
    after the writes that follow. *)
Lemma earlier_key_is_lost :
  fst ((write_all
          [JObj [("a", JNum 1)]; JObj [("b", JNum 2)]; JObj [("a", JNum 3)]];;
        readTestData) empty_fs)
  = Returned (JObj [("a", JNum 3)])
  /\ obj_get [("a", JNum 3)] "b" = None (A := json).
Proof. split; vm_compute; reflexivity. Qed.

End OutcomeStoreFacts.

(** ** The login tests and the outcome they share *)

Module LoginSpecFacts.
Import OutcomeHelper LoginSpec JSONTextFacts FsFacts OutcomeStoreFacts.

Section Tests.
Context {J : JSONImpl} {Page : Type}.
Variable login : string -> string -> M Page unit.
Variable assertLoginSuccess : M Page unit.
Variable logout : M Page unit.
Variable env : environment.

(** With no record on disk the logout test is skipped before it touches
    the page. *)
Lemma logout_skipped_without_record p fs :
  store_absent fs = true ->
  run_test (test_logout_after_login login assertLoginSuccess logout env) (p, fs)
  = (Skipped "Skipping logout because login was not successful", (p, fs)).
Proof.
  intros Habs. unfold store_absent in Habs. apply negb_true_iff in Habs.
  unfold run_test, test_logout_after_login, bind, on_snd. cbn [fst snd].
  unfold readTestData, bind, existsSync, gets. rewrite Habs. reflexivity.
Qed.

(** With the record of a passed login on disk the logout test runs its
    body. *)
Lemma logout_runs_with_record p fs :
  readTestData fs = (Returned login_record, fs) ->
  test_logout_after_login login assertLoginSuccess logout env (p, fs)
  = (on_fst (login (LOGIN_EMAIL env) (LOGIN_PASSWORD env));;
     on_fst assertLoginSuccess;;
     on_fst logout) (p, fs).
Proof.
  intros Hread. unfold test_logout_after_login.
  unfold bind at 1. unfold on_snd at 1. cbn [fst snd]. rewrite Hread.
  reflexivity.
Qed.

(** C4: on an empty store a read observes [loginSuccess === undefined]
    and the logout test is skipped without touching the page; once the
    login test has passed and written its record, a read observes
    [loginSuccess === true] and the logout test runs its body. *)
Theorem login_outcome_gates_logout p fs :
  JSON_faithful J ->
  store_absent fs = true -> store_writable fs = true ->
  readTestData fs = (Returned (JObj []), fs)
  /\
  get_member (S := Page * filesystem) (JObj []) "loginSuccess" (p, fs)
  = (Returned undefined, (p, fs))
  /\
  run_test (test_logout_after_login login assertLoginSuccess logout env) (p, fs)
  = (Skipped "Skipping logout because login was not successful", (p, fs))
  /\
  forall p1 p2,
    login (LOGIN_EMAIL env) (LOGIN_PASSWORD env) p = (Returned tt, p1) ->
    assertLoginSuccess p1 = (Returned tt, p2) ->
    exists fs',
      run_test (test_login_valid login assertLoginSuccess env) (p, fs)
      = (Passed, (p2, fs')) /\
      readTestData fs' = (Returned (JObj [("loginSuccess", JBool true)]), fs') /\
      get_member (S := Page * filesystem)
        (JObj [("loginSuccess", JBool true)]) "loginSuccess" (p2, fs')
      = (Returned (Some (JBool true)), (p2, fs')) /\
      forall q,
        test_logout_after_login login assertLoginSuccess logout env (q, fs')
        = (on_fst (login (LOGIN_EMAIL env) (LOGIN_PASSWORD env));;
           on_fst assertLoginSuccess;;
           on_fst logout) (q, fs').
Proof.
  intros HJ Habs Hw. split; [now apply read_without_record|].
  split; [reflexivity|].
  split; [now apply logout_skipped_without_record|].
  intros p1 p2 Hlogin Hassert.
  destruct (writeTestData_ok login_record fs Hw) as (fs' & Hrun & _ & Htext & _).
  assert (Hread : readTestData fs' = (Returned login_record, fs'))
    by (apply read_after_write; auto using login_record_wf).
  exists fs'. split; [|split; [exact Hread | split; [reflexivity|]]].
  - unfold run_test, test_login_valid, bind, on_fst, on_snd. cbn [fst snd].
    rewrite Hlogin. cbn [fst snd]. rewrite Hassert. cbn [fst snd].
    fold login_record. now rewrite Hrun.
  - intros q. now apply logout_runs_with_record.
Qed.

End Tests.

#[local] Existing Instance JSONText.text_json.

(** C4, witness: an empty project and a page whose steps succeed. *)
Lemma login_outcome_gates_logout_witness :
  readTestData empty_fs = (Returned (JObj []), empty_fs)
  /\
  get_member (S := unit * filesystem) (JObj []) "loginSuccess" (tt, empty_fs)
  = (Returned undefined, (tt, empty_fs))
  /\
  run_test (test_logout_after_login calm_login calm_step calm_step sample_env)
    (tt, empty_fs)
  = (Skipped "Skipping logout because login was not successful", (tt, empty_fs))
  /\
  exists fs',
    run_test (test_login_valid calm_login calm_step sample_env) (tt, empty_fs)
    = (Passed, (tt, fs')) /\
    readTestData fs' = (Returned (JObj [("loginSuccess", JBool true)]), fs') /\
    get_member (S := unit * filesystem)
      (JObj [("loginSuccess", JBool true)]) "loginSuccess" (tt, fs')
    = (Returned (Some (JBool true)), (tt, fs')) /\
    forall q,
      test_logout_after_login calm_login calm_step calm_step sample_env (q, fs')
      = (on_fst (calm_login (LOGIN_EMAIL sample_env) (LOGIN_PASSWORD sample_env));;
         on_fst calm_step;;
         on_fst calm_step) (q, fs').
Proof.
  destruct (login_outcome_gates_logout calm_login calm_step calm_step
              sample_env tt empty_fs text_json_faithful eq_refl eq_refl)
    as (Hread & Hmember & Hskip & Hrun).
  split; [exact Hread|]. split; [exact Hmember|]. split; [exact Hskip|].
  exact (Hrun tt tt eq_refl eq_refl).
Defined.

End LoginSpecFacts.

(** ** The retry helper *)

Module RetryFacts.
Import BasePage.

(** One turn of the loop on the probe. *)
Lemma retry_loop_turn behaviour maxRetries delay fuel i p :
  i < maxRetries ->
  retry_loop probe_warn probe_wait (scripted behaviour) maxRetries delay (S fuel) i p =
  match behaviour (invocations p) with
  | Returned _ => (Returned tt, after_call p)
  | Thrown e =>
      let logged :=
        after_warning {| attempt := i + 1; of_max := maxRetries; cause := e |}
          (after_call p) in
      if i =? maxRetries - 1 then (Thrown e, logged)
      else retry_loop probe_warn probe_wait (scripted behaviour) maxRetries delay
             fuel (i + 1) (after_wait delay logged)
  end.
Proof.
  intros Hi. cbn [retry_loop]. apply Z.ltb_lt in Hi. rewrite Hi.
  unfold try_catch, scripted. fold (after_call p).
  destruct (behaviour (invocations p)) as [[]|e]; [reflexivity|].
  unfold bind, probe_warn, probe_wait, modify, ret, throw.
  fold (after_warning {| attempt := i + 1; of_max := maxRetries; cause := e |} (after_call p)).
  destruct (i =? maxRetries - 1); reflexivity.
Qed.

(** C6: with [maxRetries = 3], an action that throws on its first two
    invocations and returns on the third makes the call return after
    exactly three invocations, the two failures only logged and waited
    for; had the third invocation thrown too, its error, and not an
    earlier one, is what the call throws. *)
Theorem retryAction_three_attempts behaviour delay e1 e2 :
  behaviour 0%nat = Thrown e1 ->
  behaviour 1%nat = Thrown e2 ->
  (behaviour 2%nat = Returned tt ->
     retryAction_probe behaviour 3 delay fresh_probe
     = (Returned tt,
        {| invocations := 3;
           warnings := [warning 0 3 e1; warning 1 3 e2];
           waits := [delay; delay] |}))
  /\
  (forall e3, behaviour 2%nat = Thrown e3 ->
     retryAction_probe behaviour 3 delay fresh_probe
     = (Thrown e3,
        {| invocations := 3;
           warnings := [warning 0 3 e1; warning 1 3 e2; warning 2 3 e3];
           waits := [delay; delay] |})).
Proof.
  intros H0 H1.
  unfold retryAction_probe, retryAction. change (Z.to_nat 3) with 3%nat.
  rewrite retry_loop_turn by lia. cbn [invocations fresh_probe]. rewrite H0.
  cbv zeta. change (0 =? 3 - 1) with false. cbn iota.
  rewrite retry_loop_turn by lia.
  cbn [invocations after_wait after_warning after_call fresh_probe]. rewrite H1.
  cbv zeta. change (0 + 1 =? 3 - 1) with false. cbn iota.
  rewrite retry_loop_turn by lia.
  cbn [invocations after_wait after_warning after_call fresh_probe].
  split.
  - intros H2. rewrite H2. reflexivity.
  - intros e3 H2. rewrite H2. reflexivity.
Qed.

(** C6, witness: a click that times out twice. *)
Lemma retryAction_three_attempts_witness :
  retryAction_probe flaky 3 1000 fresh_probe
  = (Returned tt,
     {| invocations := 3;
        warnings := [warning 0 3 (TimeoutError "locator.click");
                     warning 1 3 (TimeoutError "locator.click")];
        waits := [1000; 1000] |}).
Proof.
  exact (proj1 (retryAction_three_attempts flaky 1000 _ _ eq_refl eq_refl) eq_refl).
Defined.

(** A click that times out three times: the third error is the one
    thrown. *)
Example retryAction_three_timeouts :
  fst (retryAction_probe
         (fun k => Thrown (TimeoutError (Z_key (Z.of_nat k)))) 3 1000 fresh_probe)
  = Thrown (TimeoutError "2").
Proof. vm_compute. reflexivity. Qed.

Lemma after_failures_zero maxRetries delay err i p :
  after_failures maxRetries delay err i 0 p = p.
Proof.
  destruct p as [c ws ds]. unfold after_failures. cbn.
  now rewrite Nat.add_0_r, !app_nil_r.
Qed.

Lemma after_failures_succ maxRetries delay err i m p :
  after_failures maxRetries delay err (i + 1) m
    (after_wait delay
       (after_warning {| attempt := i + 1; of_max := maxRetries;
                         cause := err (invocations p) |} (after_call p)))
  = after_failures maxRetries delay err i (S m) p.
Proof.
  destruct p as [c ws ds]. unfold after_failures, after_wait, after_warning, after_call.
  cbn [invocations warnings waits]. f_equal.
  - lia.
  - rewrite <- app_assoc. f_equal. cbn [seq map app]. f_equal.
    + f_equal; [lia | f_equal; lia].
    + rewrite <- seq_shift, map_map. apply map_ext. intros t.
      f_equal; [lia | f_equal; lia].
  - rewrite <- app_assoc. reflexivity.
Qed.

(** [m] failed attempts, none of them the last, bring the loop [m] turns
    further. *)
Lemma retry_loop_failures behaviour err maxRetries delay m :
  forall fuel i p,
    i + Z.of_nat m < maxRetries ->
    (forall t, (t < m)%nat -> behaviour (invocations p + t)%nat = Thrown (err (invocations p + t)%nat)) ->
    retry_loop probe_warn probe_wait (scripted behaviour) maxRetries delay (m + fuel) i p
    = retry_loop probe_warn probe_wait (scripted behaviour) maxRetries delay fuel
        (i + Z.of_nat m) (after_failures maxRetries delay err i m p).
Proof.
  induction m as [|m IH]; intros fuel i p Hi Hfail.
  - now rewrite after_failures_zero, Z.add_0_r.
  - change (S m + fuel)%nat with (S (m + fuel)).
    rewrite retry_loop_turn by lia.
    pose proof (Hfail 0%nat ltac:(lia)) as H0. rewrite Nat.add_0_r in H0. rewrite H0.
    cbv zeta. replace (i =? maxRetries - 1) with false by (symmetry; apply Z.eqb_neq; lia).
    rewrite IH.
    + rewrite after_failures_succ. f_equal. lia.
    + lia.
    + intros t Ht. cbn [invocations after_wait after_warning after_call].
      replace (S (invocations p) + t)%nat with (invocations p + S t)%nat by lia.
      apply Hfail. lia.
Qed.

(** The call returns at the first invocation that returns, after one
    warning and one wait for each failure before it. *)
Theorem retryAction_first_success behaviour err (n k : nat) delay :
  (k < n)%nat ->
  (forall t, (t < k)%nat -> behaviour t = Thrown (err t)) ->
  behaviour k = Returned tt ->
  retryAction_probe behaviour (Z.of_nat n) delay fresh_probe
  = (Returned tt,
     {| invocations := S k;
        warnings := map (fun t => warning t (Z.of_nat n) (err t)) (seq 0 k);
        waits := repeat delay k |}).
Proof.
  intros Hk Hfail Hok.
  unfold retryAction_probe, retryAction. rewrite Nat2Z.id.
  set (maxRetries := Z.of_nat n).
  replace n with (k + S (n - S k))%nat by lia.
  rewrite (retry_loop_failures behaviour err) by (subst maxRetries; cbn; auto; lia).
  rewrite retry_loop_turn by (subst maxRetries; lia).
  unfold after_failures. cbn [invocations fresh_probe Nat.add]. rewrite Hok.
  unfold after_call. cbn [invocations warnings waits fresh_probe app].
  reflexivity.
Qed.

(** When every invocation throws, the call throws the error of the last
    one, after [n] invocations and [n - 1] waits. *)
Theorem retryAction_all_fail behaviour err (n : nat) delay :
  (forall t, (t < S n)%nat -> behaviour t = Thrown (err t)) ->
  retryAction_probe behaviour (Z.of_nat (S n)) delay fresh_probe
  = (Thrown (err n),
     {| invocations := S n;
        warnings := map (fun t => warning t (Z.of_nat (S n)) (err t)) (seq 0 (S n));
        waits := repeat delay n |}).
Proof.
  intros Hfail.
  unfold retryAction_probe, retryAction. rewrite Nat2Z.id.
  set (maxRetries := Z.of_nat (S n)).
  replace (S n) with (n + 1)%nat by lia.
  rewrite (retry_loop_failures behaviour err)
    by (subst maxRetries; cbn [invocations fresh_probe Nat.add]; auto; lia).
  rewrite retry_loop_turn by (subst maxRetries; lia).
  unfold after_failures. cbn [invocations fresh_probe Nat.add].
  rewrite Hfail by lia.
  cbv zeta. replace (0 + Z.of_nat n =? maxRetries - 1) with true
    by (symmetry; apply Z.eqb_eq; subst maxRetries; lia).
  unfold after_warning, after_call. cbn [invocations warnings waits fresh_probe app].
  replace (n + 1)%nat with (S n) by lia.
  rewrite seq_S, map_app. reflexivity.
Qed.

Section AnyPage.
Context {W : Type}.
Variable logger_warn : retry_warning -> M W unit.
Variable waitForTimeout : Z -> M W unit.

(** With no attempt allowed the call returns without running the
    action. *)
Theorem retryAction_no_attempt (action : M W unit) maxRetries delay s :
  maxRetries <= 0 ->
  retryAction logger_warn waitForTimeout action maxRetries delay s = (Returned tt, s).
Proof.
  intros Hn. unfold retryAction.
  destruct (Z.to_nat maxRetries) as [|fuel]; [reflexivity|].
  cbn [retry_loop]. replace (0 <? maxRetries) with false; [reflexivity|].
  symmetry. apply Z.ltb_ge. exact Hn.
Qed.

End AnyPage.

(** A click that times out twice, with five attempts allowed. *)
Lemma retryAction_first_success_witness :
  retryAction_probe flaky (Z.of_nat 5) 1000 fresh_probe
  = (Returned tt,
     {| invocations := 3;
        warnings := map (fun t => warning t (Z.of_nat 5) (TimeoutError "locator.click"))
                        (seq 0 2);
        waits := repeat 1000 2 |}).
Proof.
  apply (retryAction_first_success flaky (fun _ => TimeoutError "locator.click")
           5 2 1000).
  - lia.
  - intros [|[|t]] Ht; [reflexivity | reflexivity | lia].
  - reflexivity.
Defined.

(** A click that always times out, with two attempts allowed. *)
Lemma retryAction_all_fail_witness :
  retryAction_probe never_clicks (Z.of_nat 2) 1000 fresh_probe
  = (Thrown (TimeoutError "locator.click"),
     {| invocations := 2;
        warnings := map (fun t => warning t (Z.of_nat 2) (TimeoutError "locator.click"))
                        (seq 0 2);
        waits := repeat 1000 1 |}).
Proof.
  apply (retryAction_all_fail never_clicks (fun _ => TimeoutError "locator.click")
           1 1000).
  intros t Ht. reflexivity.
Defined.

(** No attempt allowed: the action is not run. *)
Lemma retryAction_no_attempt_witness :
  retryAction probe_warn probe_wait (scripted never_clicks) 0 1000 fresh_probe
  = (Returned tt, fresh_probe).
Proof.
  apply (retryAction_no_attempt probe_warn probe_wait (scripted never_clicks)
           0 1000 fresh_probe).
  lia.
Defined.

End RetryFacts.

(** ** The session bootstrap *)

Module GlobalSetupFacts.
Import GlobalSetup JSONTextFacts FsFacts.

Lemma storageDir_snapshotPath : storageDir <> snapshotPath.
Proof. unfold snapshotPath, storageDir. cbn. discriminate. Qed.

Lemma storageDir_not_root : storageDir <> [].
Proof. discriminate. Qed.

Section Bootstrap.
Context {J : JSONImpl} {B : Type} {D : Driver B}.
Variable env : environment.

Local Abbreviation drive := (GlobalSetup.drive env).

Lemma on_fst_step {A C R : Type} (m : M A unit) (k : M (A * C) R) (a : A) (c : C) :
  (on_fst m;; k) (a, c) =
  match m a with
  | (Returned _, a') => k (a', c)
  | (Thrown e, a') => (Thrown e, (a', c))
  end.
Proof.
  unfold bind, on_fst. cbn [fst snd]. now destruct (m a) as [[[]|e] a'].
Qed.

Lemma seq_step {A R : Type} (m : M A unit) (k : M A R) (a : A) :
  (m;; k) a =
  match m a with
  | (Returned _, a') => k a'
  | (Thrown e, a') => (Thrown e, a')
  end.
Proof. unfold bind. now destruct (m a) as [[[]|e] a']. Qed.

Lemma submit_login_form_drive b fs :
  submit_login_form env (b, fs) =
  match drive b with
  | (r, b') => (r, (b', fs))
  end.
Proof.
  unfold submit_login_form, drive.
  repeat (rewrite on_fst_step, seq_step;
          match goal with
          | |- context [match ?m ?x with _ => _ end] =>
              destruct (m x) as [[[]|?] ?]; [|reflexivity]
          end).
  unfold on_fst. cbn [fst snd].
  match goal with |- context [page_click ?s ?x] => now destruct (page_click s x) end.
Qed.

Lemma global_setup_capture b fs :
  global_setup env (b, fs) =
  match drive b with
  | (Returned _, b1) => capture (b1, fs)
  | (Thrown e, b1) => (Thrown e, (b1, fs))
  end.
Proof.
  unfold global_setup. unfold bind at 1. rewrite submit_login_form_drive.
  now destruct (drive b) as [[[]|e] b1].
Qed.

Lemma storageState_ok b1 fs :
  is_dir fs storageDir = true ->
  is_dir fs snapshotPath = false -> denied fs snapshotPath = false ->
  exists fs',
    context_storageState snapshotPath (b1, fs) = (Returned tt, (b1, fs')) /\
    file_text fs' snapshotPath = Some (JSON_stringify (context_state b1)).
Proof.
  intros Hsd Hsp Hden.
  unfold context_storageState, bind, on_fst, on_snd, gets. cbn [fst snd].
  change (dirname snapshotPath) with storageDir.
  unfold mkdirSync_recursive. change (ancestors_and_self storageDir) with [storageDir].
  cbn [find]. rewrite (is_dir_is_file _ _ storageDir_not_root Hsd), Hsd.
  cbn [negb andb fst snd].
  unfold writeFileSync. change (dirname snapshotPath) with storageDir.
  rewrite !is_dir_with_dirs, Hsd, Hsp, denied_with_dirs, Hden, !orb_true_r.
  rewrite bool_decide_eq_false_2.
  2:{ intros Hin. apply list_elem_of_singleton in Hin. symmetry in Hin.
      now apply storageDir_snapshotPath. }
  cbn [negb orb fst snd]. eexists. split; [reflexivity|].
  apply file_text_with_file.
Qed.

(** Where the snapshot cannot be written at its path, the capture of
    the state throws and no file has changed. *)
Lemma storageState_fails b1 fs :
  is_dir fs storageDir = true ->
  is_dir fs snapshotPath || denied fs snapshotPath = true ->
  exists e fs',
    is_IOError e = true /\
    context_storageState snapshotPath (b1, fs) = (Thrown e, (b1, fs')) /\
    forall p, file_text fs' p = file_text fs p.
Proof.
  intros Hsd Hbad.
  unfold context_storageState, bind, on_fst, on_snd, gets. cbn [fst snd].
  change (dirname snapshotPath) with storageDir.
  unfold mkdirSync_recursive. change (ancestors_and_self storageDir) with [storageDir].
  cbn [find]. rewrite (is_dir_is_file _ _ storageDir_not_root Hsd), Hsd.
  cbn [negb andb fst snd].
  unfold writeFileSync. change (dirname snapshotPath) with storageDir.
  rewrite !is_dir_with_dirs, Hsd, denied_with_dirs, !orb_true_r.
  rewrite bool_decide_eq_false_2.
  2:{ intros Hin. apply list_elem_of_singleton in Hin. symmetry in Hin.
      now apply storageDir_snapshotPath. }
  cbn [negb orb].
  assert (Hsame : forall p, file_text (with_dirs fs [storageDir]) p = file_text fs p).
  { intros p. apply file_text_with_dirs_free. intros d Hd.
    apply list_elem_of_singleton in Hd. subst d.
    apply is_dir_is_file; [apply storageDir_not_root | exact Hsd]. }
  destruct (is_dir fs snapshotPath); cbn [fst snd].
  - do 2 eexists. split; [|split; [reflexivity | exact Hsame]]. reflexivity.
  - cbn [orb] in Hbad. rewrite Hbad. cbn [fst snd].
    do 2 eexists. split; [|split; [reflexivity | exact Hsame]]. reflexivity.
Qed.

(** What follows the submit click where the snapshot can be written:
    the snapshot is written, and the run ends as the close ends. *)
Lemma capture_ok b1 fs :
  snapshot_writable fs = true ->
  exists fs',
    file_text fs' snapshotPath = Some (JSON_stringify (context_state b1)) /\
    capture (b1, fs) = (let '(r, b2) := browser_close b1 in (r, (b2, fs'))).
Proof.
  intros Hw. unfold snapshot_writable in Hw.
  apply andb_prop in Hw as [Hw Htmp]. apply andb_prop in Hw as [Hw Hden].
  apply andb_prop in Hw as [Hfile Hdir].
  apply negb_true_iff in Hfile, Hdir, Hden.
  unfold capture. unfold bind at 1. unfold on_snd at 1, existsSync, gets.
  cbn [fst snd]. rewrite Hfile, orb_false_r.
  destruct (is_dir fs storageDir) eqn:Hsd; cbn [negb].
  - destruct (storageState_ok b1 fs Hsd Hdir Hden) as (fs' & Hrun & Htext).
    exists fs'. split; [exact Htext|]. unfold bind, ret. rewrite Hrun.
    unfold on_fst. cbn [fst snd]. reflexivity.
  - cbn [orb] in Htmp. apply negb_true_iff in Htmp.
    assert (Hsd' : is_dir (with_dirs fs [storageDir]) storageDir = true).
    { rewrite is_dir_with_dirs, bool_decide_eq_true_2; [reflexivity | now left]. }
    assert (Hdir' : is_dir (with_dirs fs [storageDir]) snapshotPath = false).
    { rewrite is_dir_with_dirs, Hdir, orb_false_r. apply bool_decide_eq_false.
      intros Hin. apply list_elem_of_singleton in Hin. symmetry in Hin.
      now apply storageDir_snapshotPath. }
    destruct (storageState_ok b1 (with_dirs fs [storageDir]) Hsd' Hdir')
      as (fs' & Hrun & Htext); [now rewrite denied_with_dirs|].
    exists fs'. split; [exact Htext|].
    unfold bind. unfold on_snd at 1, mkdirSync. cbn [fst snd].
    rewrite Hsd, Hfile. change (dirname storageDir) with (@nil string).
    cbn [orb negb is_dir]. rewrite Htmp. cbn [fst snd].
    rewrite Hrun. unfold on_fst. cbn [fst snd]. reflexivity.
Qed.

(** What follows the submit click where the snapshot cannot be
    written: an error of the file system, no file changed, and the
    browser not closed. *)
Lemma capture_fails b1 fs :
  snapshot_writable fs = false ->
  exists e fs',
    is_IOError e = true /\
    capture (b1, fs) = (Thrown e, (b1, fs')) /\
    forall p, file_text fs' p = file_text fs p.
Proof.
  intros Hw. unfold snapshot_writable in Hw.
  unfold capture. unfold bind at 1. unfold on_snd at 1, existsSync, gets.
  cbn [fst snd].
  destruct (is_file fs storageDir) eqn:Hfile.
  - assert (Hsd : is_dir fs storageDir = false).
    { destruct (is_dir fs storageDir) eqn:E; [|reflexivity].
      apply is_dir_is_file in E; [congruence | apply storageDir_not_root]. }
    rewrite Hsd. cbn [orb negb]. unfold bind at 1. unfold ret at 1.
    unfold bind at 1.
    unfold context_storageState, bind, on_fst, on_snd, gets. cbn [fst snd].
    change (dirname snapshotPath) with storageDir.
    unfold mkdirSync_recursive. change (ancestors_and_self storageDir) with [storageDir].
    cbn [find]. rewrite Hfile. cbn [fst snd].
    do 2 eexists. split; [|split; [reflexivity | reflexivity]]. reflexivity.
  - cbn [negb andb] in Hw. rewrite orb_false_r.
    destruct (is_dir fs storageDir) eqn:Hsd; cbn [negb].
    + cbn [orb] in Hw. rewrite andb_true_r in Hw.
      unfold bind at 1. unfold ret at 1. unfold bind at 1.
      destruct (storageState_fails b1 fs Hsd) as (e & fs' & He & Hrun & Hsame).
      { destruct (is_dir fs snapshotPath); [reflexivity|].
        destruct (denied fs snapshotPath); [reflexivity | discriminate]. }
      rewrite Hrun. eauto.
    + unfold bind at 1. unfold on_snd at 1, mkdirSync. cbn [fst snd].
      rewrite Hsd, Hfile. change (dirname storageDir) with (@nil string).
      cbn [orb negb is_dir].
      destruct (denied fs storageDir) eqn:Hdd; cbn [fst snd].
      * do 2 eexists. split; [|split; [reflexivity | reflexivity]]. reflexivity.
      * cbn [orb negb] in Hw. rewrite andb_true_r in Hw.
        assert (Hsd' : is_dir (with_dirs fs [storageDir]) storageDir = true).
        { rewrite is_dir_with_dirs, bool_decide_eq_true_2; [reflexivity | now left]. }
        unfold bind at 1.
        destruct (storageState_fails b1 (with_dirs fs [storageDir]) Hsd')
          as (e & fs' & He & Hrun & Hsame).
        { rewrite is_dir_with_dirs, denied_with_dirs.
          rewrite bool_decide_eq_false_2.
          2:{ intros Hin. apply list_elem_of_singleton in Hin. symmetry in Hin.
              now apply storageDir_snapshotPath. }
          cbn [orb].
          destruct (is_dir fs snapshotPath); [reflexivity|].
          destruct (denied fs snapshotPath); [reflexivity | discriminate]. }
        rewrite Hrun. exists e, fs'. split; [exact He|]. split; [reflexivity|].
        intros p. rewrite Hsame. apply file_text_with_dirs_free.
        intros d Hd. apply list_elem_of_singleton in Hd. now subst d.
Qed.


End Bootstrap.

#[local] Existing Instance JSONText.text_json.
#[local] Existing Instance site_driver.



End GlobalSetupFacts.

(** ** Property lists *)

Module ObjectFacts.

Lemma obj_get_absent {A} (ps : list (string * A)) k :
  k ∉ map fst ps -> obj_get ps k = None.
Proof.
  induction ps as [|[k' v] ps IH]; cbn; [reflexivity|]. intros Hk.
  apply not_elem_of_cons in Hk as [Hne Hk].
  destruct (String.eqb_spec k' k); [congruence | auto].
Qed.

Lemma obj_get_set {A} (ps : list (string * A)) k v k' :
  obj_get (obj_set ps k v) k' = if String.eqb k k' then Some v else obj_get ps k'.
Proof.
  induction ps as [|[k0 v0] ps IH]; cbn.
  - reflexivity.
  - destruct (String.eqb_spec k0 k) as [->|Hne]; cbn.
    + now destruct (String.eqb k k').
    + rewrite IH. destruct (String.eqb_spec k0 k') as [->|]; [|reflexivity].
      destruct (String.eqb_spec k k'); [congruence | reflexivity].
Qed.

(** A key the right operand lacks keeps its value in the spread. *)
Lemma obj_get_spread_absent {A} (a b : list (string * A)) k :
  k ∉ map fst b -> obj_get (obj_spread a b) k = obj_get a k.
Proof.
  unfold obj_spread. revert a. induction b as [|[k1 v1] b IH]; intros a Hk; cbn.
  - reflexivity.
  - cbn in Hk. apply not_elem_of_cons in Hk as [Hne Hk].
    rewrite IH by exact Hk. rewrite obj_get_set.
    destruct (String.eqb_spec k1 k); [congruence | reflexivity].
Qed.

(** A key the right operand has takes its value from there. *)
Lemma obj_get_spread {A} (a b : list (string * A)) k :
  NoDup (map fst b) ->
  obj_get (obj_spread a b) k =
  match obj_get b k with
  | Some v => Some v
  | None => obj_get a k
  end.
Proof.
  unfold obj_spread. revert a. induction b as [|[k1 v1] b IH]; intros a Hnd; cbn.
  - reflexivity.
  - cbn in Hnd. apply NoDup_cons in Hnd as [Hk1 Hnd].
    rewrite IH by exact Hnd.
    destruct (String.eqb_spec k1 k) as [->|Hne].
    + rewrite (obj_get_absent b k Hk1), obj_get_set. now rewrite String.eqb_refl.
    + destruct (obj_get b k); [reflexivity|]. rewrite obj_get_set.
      destruct (String.eqb_spec k1 k); [congruence | reflexivity].
Qed.

End ObjectFacts.

(** ** The settings and the runner configurations *)

Module SettingsFacts.
Import Settings Samples JSONTextFacts FsFacts ObjectFacts.

Lemma index_key_starts_with_digit i :
  exists c s, index_key i = String c s /\ is_digit c = true.
Proof.
  unfold index_key, NilZero.string_of_uint.
  destruct (Nat.to_uint i) as [|u|u|u|u|u|u|u|u|u|u]; cbn; eauto.
Qed.

Lemma option_name_not_index k i : option_name k -> index_key i <> k.
Proof.
  intros Hk Heq. destruct (index_key_starts_with_digit i) as (c & s & E & Hc).
  rewrite E in Heq. subst k. cbn in Hk. congruence.
Qed.

Lemma imap_keys_not_option {A B} (f : A -> B) (l : list A) k :
  option_name k -> k ∉ map fst (imap (fun i x => (index_key i, f x)) l).
Proof.
  intros Hk Hin. apply list_elem_of_fmap in Hin as ([k' v] & -> & Hin).
  apply elem_of_lookup_imap in Hin as (i & x & E & _).
  cbn in E. injection E as E _. cbn in Hk. eapply option_name_not_index; eauto.
Qed.

(** What an option reads after [{...defaults, ...parsed}]. *)
Lemma spread_option defaults parsed k :
  json_wf parsed -> option_name k ->
  obj_get (obj_spread defaults (own_props parsed)) k =
  match file_option parsed k with
  | Some v => Some v
  | None => obj_get defaults k
  end.
Proof.
  intros Hwf Hk. destruct parsed as [[| | |s]|l|ps]; cbn [own_props file_option];
    try reflexivity.
  - apply obj_get_spread_absent.
    apply (imap_keys_not_option (fun c => JStr (char_string c))). exact Hk.
  - apply obj_get_spread_absent.
    apply (imap_keys_not_option (fun x => x)). exact Hk.
  - apply obj_get_spread. apply json_wf_obj in Hwf. tauto.
Qed.

Lemma settingsPath_not_root : settingsPath <> [].
Proof. discriminate. Qed.

Section WithJSON.
Context {J : JSONImpl}.

Lemma read_and_parse_spec fs c :
  read_and_parse (fs, c) =
  match node_at fs settingsPath with
  | Some (File content) =>
      match JSON_parse content with
      | Some parsed => (Returned parsed, (fs, c))
      | None => (Thrown SyntaxError, (fs, c))
      end
  | Some Dir => (Thrown (IOError "EISDIR" settingsPath), (fs, c))
  | None => (Thrown (IOError "ENOENT" settingsPath), (fs, c))
  end.
Proof.
  unfold read_and_parse, bind, on_fst, readFileSync. cbn [fst snd].
  destruct (node_at fs settingsPath) as [[|content]|]; try reflexivity.
  now destruct (JSON_parse content).
Qed.

Lemma settings_present fs :
  is_dir fs settingsPath || is_file fs settingsPath =
  match node_at fs settingsPath with Some _ => true | None => false end.
Proof.
  rewrite is_dir_node by apply settingsPath_not_root. unfold is_file.
  now destruct (node_at fs settingsPath) as [[]|].
Qed.

Lemma loadSettings_option fs c k :
  JSON_faithful J -> option_name k ->
  exists settings c',
    loadSettings (fs, c) = (Returned settings, (fs, c')) /\
    obj_get settings k = expected_option fs k.
Proof.
  intros [_ HJ] Hk. unfold loadSettings, expected_option.
  unfold bind at 1. unfold on_fst at 1, existsSync, gets. cbn [fst snd].
  rewrite settings_present.
  destruct (node_at fs settingsPath) as [[|content]|] eqn:E.
  - unfold try_catch, bind. rewrite read_and_parse_spec, E.
    unfold console_error, on_snd, modify, ret; cbn [fst snd]; eauto.
  - unfold try_catch, bind. rewrite read_and_parse_spec, E.
    destruct (JSON_parse content) as [parsed|] eqn:EP.
    + unfold ret. do 2 eexists. split; [reflexivity|].
      apply spread_option; eauto.
    + unfold console_error, on_snd, modify, ret; cbn [fst snd]; eauto.
  - unfold ret. eauto.
Qed.

Lemma current_settings_option fs c k :
  JSON_faithful J -> option_name k ->
  exists settings c',
    current_settings (fs, c) = (Returned settings, (fs, c')) /\
    obj_get settings k = expected_option fs k.
Proof. apply loadSettings_option. Qed.

Lemma legacy_settings_spec fs c :
  exists c',
    legacy_settings (fs, c) =
    (Returned
       match node_at fs settingsPath with
       | Some (File content) =>
           match JSON_parse content with
           | Some parsed => parsed
           | None => JObj legacy_defaults
           end
       | _ => JObj legacy_defaults
       end, (fs, c')).
Proof.
  unfold legacy_settings.
  unfold bind at 1. unfold on_fst at 1, existsSync, gets. cbn [fst snd].
  rewrite settings_present.
  destruct (node_at fs settingsPath) as [[|content]|] eqn:E.
  - unfold try_catch. rewrite read_and_parse_spec, E.
    unfold bind, console_error, on_snd, modify, ret; cbn [fst snd]; eauto.
  - unfold try_catch. rewrite read_and_parse_spec, E.
    destruct (JSON_parse content) as [parsed|] eqn:EP; [eauto|].
    unfold bind, console_error, on_snd, modify, ret; cbn [fst snd]; eauto.
  - unfold ret. eauto.
Qed.

(** The settings objects of [loadSettings] and of the current runner
    configuration give every option the file's value when the file
    parses and has the key, and the default otherwise -- [parallel],
    [headless], [staging] for the three options; the older runner
    configuration has no [environment] option, keeps its two defaults
    when the file is absent or does not parse, and takes a parsed file
    as the whole settings object. *)
Lemma settings_fall_back_per_key fs c k :
  JSON_faithful J -> option_name k ->
  (exists settings c',
     loadSettings (fs, c) = (Returned settings, (fs, c')) /\
     obj_get settings k = expected_option fs k) /\
  (exists settings c',
     current_settings (fs, c) = (Returned settings, (fs, c')) /\
     obj_get settings k = expected_option fs k) /\
  (exists c',
     legacy_settings (fs, c) =
     (Returned
        match node_at fs settingsPath with
        | Some (File content) =>
            match JSON_parse content with
            | Some parsed => parsed
            | None => JObj legacy_defaults
            end
        | _ => JObj legacy_defaults
        end, (fs, c'))) /\
  obj_get defaultSettings "executionMode" = Some (JStr "parallel") /\
  obj_get defaultSettings "browserMode" = Some (JStr "headless") /\
  obj_get defaultSettings "environment" = Some (JStr "staging") /\
  obj_get legacy_defaults "environment" = None.
Proof.
  intros HJ Hk.
  split; [now apply loadSettings_option|].
  split; [now apply current_settings_option|].
  split; [apply legacy_settings_spec|].
  repeat split; reflexivity.
Qed.

End WithJSON.

#[local] Existing Instance JSONText.text_json.

(** The execution mode with a file that omits it. *)
Example settings_fall_back_per_key_sample :
  (exists settings c',
     loadSettings (browser_only_disk, []) = (Returned settings, (browser_only_disk, c')) /\
     obj_get settings "executionMode" = expected_option browser_only_disk "executionMode") /\
  expected_option browser_only_disk "executionMode" = Some (JStr "parallel") /\
  expected_option browser_only_disk "browserMode" = Some (JStr "headed").
Proof.
  split; [|split; vm_compute; reflexivity].
  apply (settings_fall_back_per_key browser_only_disk [] "executionMode"
           text_json_faithful eq_refl).
Defined.

(** C7, on a settings file that holds the browser mode only: the older
    runner configuration (part_007) declares the defaults [parallel] and
    [headless] and then replaces them by the parsed file, so it reads no
    execution mode at all and runs sequentially; [loadSettings] and the
    current runner configuration (part_006), which spread the file over
    the defaults, keep [parallel] on the same disk. *)
Theorem legacy_config_drops_defaults :
  obj_get legacy_defaults "executionMode" = Some (JStr "parallel")
  /\ fst (legacy_settings (browser_only_disk, [])) = Returned browser_only_settings
  /\ fst (get_member browser_only_settings "executionMode" tt)
     = Returned None
  /\ (exists settings,
        fst (loadSettings (browser_only_disk, [])) = Returned settings /\
        obj_get settings "executionMode" = Some (JStr "parallel"))
  /\ fst (load_legacy_config (browser_only_disk, []))
     = Returned {| legacy_isParallel := false; legacy_isHeadless := false |}
  /\ fst (load_current_config (browser_only_disk, []))
     = Returned {| isParallel := true; isHeadless := false;
                   environment := Some (JStr "staging") |}.
Proof.
  repeat split; try (vm_compute; reflexivity).
  eexists. split; vm_compute; reflexivity.
Qed.

End SettingsFacts.

(** ** Values on the heap *)

Module HeapFacts.
Import JSONTextFacts.

(** *** The value behind a reference *)

Lemma mapM_mono {A B} (f g : A -> option B) (l : list A) (k : list B) :
  (forall x y, x ∈ l -> f x = Some y -> g x = Some y) ->
  mapM f l = Some k -> mapM g l = Some k.
Proof.
  intros Hfg H. apply mapM_Some in H. apply mapM_Some.
  induction H as [|x y l k Hxy _ IH]; constructor.
  - apply Hfg; [now left | exact Hxy].
  - apply IH. intros x' y' Hin. apply Hfg. now right.
Qed.

Lemma mapM_agree {A B} (f g : A -> option B) (l : list A) :
  (forall x, x ∈ l -> f x = g x) -> mapM f l = mapM g l.
Proof.
  intros Hfg. induction l as [|x l IH]; [reflexivity|].
  cbn. rewrite (Hfg x) by now left.
  rewrite IH; [reflexivity|]. intros y Hy. apply Hfg. now right.
Qed.

(** More fuel and a larger heap keep the value. *)
Lemma reify_json_mono n : forall m h h' v t,
  (n <= m)%nat -> h ⊆ h' ->
  reify_json n h v = Some t -> reify_json m h' v = Some t.
Proof.
  induction n as [|n IH]; intros m h h' v t Hle Hsub H.
  - destruct v; try discriminate; destruct m; exact H.
  - destruct v as [|p|l]; [discriminate | destruct m; exact H |].
    destruct m as [|m]; [lia|]. cbn [reify_json] in *.
    destruct (h !! l) as [c|] eqn:E; [|discriminate].
    rewrite (lookup_weaken _ _ _ _ E Hsub).
    destruct c as [ps|vs].
    + destruct (mapM _ ps) as [kvs|] eqn:Em; [|discriminate].
      erewrite mapM_mono; [exact H | | exact Em].
      intros kv y _ Hkv. cbn in *.
      destruct (reify_json n h (snd kv)) as [j|] eqn:Ej; [|discriminate].
      now rewrite (IH m h h' _ _ ltac:(lia) Hsub Ej).
    + destruct (mapM _ vs) as [js|] eqn:Em; [|discriminate].
      erewrite mapM_mono; [exact H | | exact Em].
      intros x y _ Hx. now apply (IH m h h' _ _ ltac:(lia) Hsub).
Qed.

(** A heap that agrees on the reachable objects gives the same value. *)
Lemma reify_json_frame n : forall h h2 v,
  (forall l, reachable h v l -> h2 !! l = h !! l) ->
  reify_json n h2 v = reify_json n h v.
Proof.
  induction n as [|n IH]; intros h h2 v Hagree; [reflexivity|].
  destruct v as [|p|l]; try reflexivity. cbn [reify_json].
  rewrite (Hagree l (reach_here _ _)).
  destruct (h !! l) as [c|] eqn:E; [|reflexivity].
  assert (Hsub : forall v, v ∈ cell_values c ->
            reify_json n h2 v = reify_json n h v).
  { intros v Hv. apply IH. intros l' Hl'. apply Hagree.
    eapply reach_step; eauto. }
  destruct c as [ps|vs]; cbn [cell_values] in Hsub.
  - f_equal. apply mapM_agree. intros kv Hkv.
    rewrite Hsub; [reflexivity|]. now apply list_elem_of_fmap_2.
  - f_equal. now apply mapM_agree.
Qed.

(** *** Reachability inside a closed set of locations *)

Lemma reachable_closed h S v l :
  closed_val S v -> cells_closed h S -> reachable h v l -> l ∈ S.
Proof.
  intros Hv Hcells Hreach. induction Hreach as [l|l c v l' Hl Hin _ IH].
  - exact Hv.
  - apply IH. eapply Hcells; eauto.
Qed.

Lemma closed_val_mono S S' v : S ⊆ S' -> closed_val S v -> closed_val S' v.
Proof. destruct v; cbn; set_solver. Qed.

(** *** Allocation of a JSON value *)

Lemma alloc_json_arr l h :
  alloc_json (JArr l) h =
  let '(vs, h1) := alloc_list l h in
  let '(loc, h2) := alloc (CArr vs) h1 in (HRef loc, h2).
Proof.
  cbn [alloc_json].
  match goal with
  | |- (let '(_, _) := ?f l h in _) = _ =>
      assert (E : forall l h, f l h = alloc_list l h)
  end.
  { clear. induction l as [|x l IH]; intros h; cbn [alloc_list]; [reflexivity|].
    destruct (alloc_json x h) as [v h1]. now rewrite IH. }
  now rewrite E.
Qed.

Lemma alloc_json_obj l h :
  alloc_json (JObj l) h =
  let '(ps, h1) := alloc_props l h in
  let '(loc, h2) := alloc (CObj ps) h1 in (HRef loc, h2).
Proof.
  cbn [alloc_json].
  match goal with
  | |- (let '(_, _) := ?f l h in _) = _ =>
      assert (E : forall l h, f l h = alloc_props l h)
  end.
  { clear. induction l as [|[k x] l IH]; intros h; cbn [alloc_props]; [reflexivity|].
    destruct (alloc_json x h) as [v h1]. now rewrite IH. }
  now rewrite E.
Qed.

Lemma allocated_refl h : allocated h h [].
Proof.
  split; [reflexivity | constructor |].
  intros l c v Hl. set_solver.
Qed.

Lemma allocated_trans h h1 h2 vs1 vs2 :
  allocated h h1 vs1 -> allocated h1 h2 vs2 -> allocated h h2 (vs1 ++ vs2).
Proof.
  intros [Hs1 Hv1 Hc1] [Hs2 Hv2 Hc2].
  pose proof (subseteq_dom _ _ Hs1) as Hd1.
  pose proof (subseteq_dom _ _ Hs2) as Hd2.
  split.
  - now transitivity h1.
  - apply Forall_app. split.
    + eapply Forall_impl; [exact Hv1|]. intros v. apply closed_val_mono. set_solver.
    + eapply Forall_impl; [exact Hv2|]. intros v. apply closed_val_mono. set_solver.
  - intros l c v Hl Hlook Hin.
    destruct (decide (l ∈ dom h1)) as [Hin1|Hout1].
    + assert (Hl1 : l ∈ dom h1 ∖ dom h) by set_solver.
      apply elem_of_dom in Hin1 as [c1 Hc1'].
      pose proof (lookup_weaken _ _ _ _ Hc1' Hs2) as Hc2'.
      rewrite Hlook in Hc2'. injection Hc2' as ->.
      eapply closed_val_mono; [|eapply Hc1; eauto]. set_solver.
    + assert (Hl2 : l ∈ dom h2 ∖ dom h1) by set_solver.
      eapply closed_val_mono; [|eapply Hc2; eauto]. set_solver.
Qed.

Lemma allocated_cell h h1 vs c :
  allocated h h1 vs -> (forall v, v ∈ cell_values c -> v ∈ vs) ->
  allocated h (<[fresh (dom h1) := c]> h1) [HRef (fresh (dom h1))].
Proof.
  intros [Hs Hv Hc] Hvals.
  pose proof (is_fresh (dom h1)) as Hfresh.
  pose proof (subseteq_dom _ _ Hs) as Hd.
  assert (Hnone : h1 !! fresh (dom h1) = None) by now apply not_elem_of_dom.
  split.
  - transitivity h1; [exact Hs | now apply insert_subseteq].
  - repeat constructor. cbn. rewrite dom_insert_L. set_solver.
  - intros l c' v Hl Hlook Hin. rewrite dom_insert_L in *.
    destruct (decide (l = fresh (dom h1))) as [->|Hne].
    + rewrite lookup_insert_eq in Hlook. injection Hlook as <-.
      apply Hvals in Hin. rewrite Forall_forall in Hv.
      eapply closed_val_mono; [|apply Hv; exact Hin]. set_solver.
    + rewrite lookup_insert_ne in Hlook by congruence.
      eapply closed_val_mono; [|eapply Hc; eauto; set_solver]. set_solver.
Qed.

Lemma allocated_prim h p : allocated h h [HPrim p].
Proof.
  destruct (allocated_refl h) as [Hs _ Hc]. split; auto. repeat constructor.
Qed.

Lemma reify_ref n h l :
  reify_json (S n) h (HRef l) =
  match h !! l with
  | None => None
  | Some (CArr vs) => option_map JArr (mapM (reify_json n h) vs)
  | Some (CObj ps) => option_map JObj (mapM (reify_prop n h) ps)
  end.
Proof. reflexivity. Qed.

Lemma alloc_list_ok l :
  Forall alloc_spec l ->
  forall h vs h', alloc_list l h = (vs, h') ->
    allocated h h' vs /\ exists n, mapM (reify_json n h') vs = Some l.
Proof.
  induction 1 as [|x l Hx _ IH]; intros h vs h' Halloc; cbn [alloc_list] in Halloc.
  - injection Halloc as <- <-. split; [apply allocated_refl | now exists 0%nat].
  - destruct (alloc_json x h) as [v h1] eqn:Ex.
    destruct (alloc_list l h1) as [vs' h2] eqn:El.
    injection Halloc as <- <-.
    destruct (Hx _ _ _ Ex) as [Ha1 [n1 Hr1]].
    destruct (IH _ _ _ El) as [Ha2 [n2 Hr2]].
    split; [exact (allocated_trans _ _ _ _ _ Ha1 Ha2)|].
    exists (n1 + n2)%nat. apply mapM_Some. constructor.
    + exact (reify_json_mono n1 (n1 + n2) h1 h2 v x ltac:(lia) (alloc_extends _ _ _ Ha2) Hr1).
    + apply mapM_Some in Hr2. eapply Forall2_impl; [exact Hr2|].
      intros y j. apply reify_json_mono; [lia | reflexivity].
Qed.

Lemma alloc_props_ok l :
  Forall (fun kv => alloc_spec (snd kv)) l ->
  forall h ps h', alloc_props l h = (ps, h') ->
    allocated h h' (map snd ps) /\ exists n, mapM (reify_prop n h') ps = Some l.
Proof.
  induction 1 as [|[k x] l Hx _ IH]; intros h ps h' Halloc; cbn [alloc_props] in Halloc.
  - injection Halloc as <- <-. split; [apply allocated_refl | now exists 0%nat].
  - destruct (alloc_json x h) as [v h1] eqn:Ex.
    destruct (alloc_props l h1) as [ps' h2] eqn:El.
    injection Halloc as <- <-. cbn [snd] in Hx.
    destruct (Hx _ _ _ Ex) as [Ha1 [n1 Hr1]].
    destruct (IH _ _ _ El) as [Ha2 [n2 Hr2]].
    split; [exact (allocated_trans _ _ _ _ _ Ha1 Ha2)|].
    exists (n1 + n2)%nat. apply mapM_Some. constructor.
    + unfold reify_prop. cbn [fst snd].
      now rewrite (reify_json_mono n1 (n1 + n2) h1 h2 v x ltac:(lia) (alloc_extends _ _ _ Ha2) Hr1).
    + apply mapM_Some in Hr2. eapply Forall2_impl; [exact Hr2|].
      intros [k' y] [k'' j]. unfold reify_prop. cbn [fst snd].
      destruct (reify_json n2 h2 y) as [j'|] eqn:Ey; [|discriminate].
      intros [= <- <-].
      now rewrite (reify_json_mono n2 (n1 + n2) h2 h2 y j' ltac:(lia) ltac:(reflexivity) Ey).
Qed.

(** The allocation of a value only adds objects, closed among
    themselves, and the result stands for the value. *)
Lemma alloc_json_ok t : alloc_spec t.
Proof.
  induction t as [p|l IH|ps IH] using json_ind'; intros h v h' Halloc.
  - injection Halloc as <- <-. split; [apply allocated_prim | now exists 0%nat].
  - rewrite alloc_json_arr in Halloc.
    destruct (alloc_list l h) as [vs h1] eqn:El. unfold alloc in Halloc.
    injection Halloc as <- <-.
    destruct (alloc_list_ok l IH _ _ _ El) as [Ha [n Hr]].
    pose proof (allocated_cell h h1 vs (CArr vs) Ha (fun v Hv => Hv)) as Hcell.
    split; [exact Hcell|].
    exists (S n). rewrite reify_ref, lookup_insert_eq.
    erewrite mapM_mono; [reflexivity | | exact Hr].
    intros y j _. apply reify_json_mono; [lia|].
    apply insert_subseteq. apply not_elem_of_dom, is_fresh.
  - rewrite alloc_json_obj in Halloc.
    destruct (alloc_props ps h) as [hps h1] eqn:El. unfold alloc in Halloc.
    injection Halloc as <- <-.
    destruct (alloc_props_ok ps IH _ _ _ El) as [Ha [n Hr]].
    pose proof (allocated_cell h h1 (map snd hps) (CObj hps) Ha (fun v Hv => Hv)) as Hcell.
    split; [exact Hcell|].
    exists (S n). rewrite reify_ref, lookup_insert_eq.
    erewrite mapM_mono; [reflexivity | | exact Hr].
    intros [k y] [k' j] _. unfold reify_prop. cbn [fst snd].
    destruct (reify_json n h1 y) as [j'|] eqn:Ey; [|discriminate].
    intros [= <- <-].
    erewrite reify_json_mono; [reflexivity | | | exact Ey]; [lia|].
    apply insert_subseteq. apply not_elem_of_dom, is_fresh.
Qed.

(** The objects of a fresh copy are all new. *)
Lemma alloc_json_fresh t h v h' l :
  alloc_json t h = (v, h') -> reachable h' v l -> l ∈ dom h' /\ l ∉ dom h.
Proof.
  intros Halloc Hreach.
  destruct (alloc_json_ok t h v h' Halloc) as [[_ Hv Hc] _].
  inversion Hv as [|? ? Hv' _]; subst.
  pose proof (reachable_closed _ _ _ _ Hv' Hc Hreach). set_solver.
Qed.

End HeapFacts.

(** ** The test-data manager *)

Module TestDataFacts.
Import TestDataManager Samples JSONTextFacts HeapFacts.

(** *** Reachability *)

Lemma reachable_mono h h' v l : h ⊆ h' -> reachable h v l -> reachable h' v l.
Proof.
  intros Hsub Hr. induction Hr as [l|l c v l' Hl Hin _ IH].
  - constructor.
  - eapply reach_step; eauto. eapply lookup_weaken; eauto.
Qed.

Lemma reachable_within h h' v :
  h ⊆ h' -> (forall l, reachable h v l -> l ∈ dom h) ->
  forall l, reachable h' v l -> reachable h v l.
Proof.
  intros Hsub Hclosed l Hr. induction Hr as [l|l c v l' Hl Hin _ IH].
  - constructor.
  - pose proof (Hclosed l (reach_here _ _)) as Hdom.
    apply elem_of_dom in Hdom as [c0 Hc0].
    pose proof (lookup_weaken _ _ _ _ Hc0 Hsub) as Hc0'.
    rewrite Hl in Hc0'. injection Hc0' as ->.
    eapply reach_step; eauto. apply IH.
    intros x Hx. apply Hclosed. eapply reach_step; eauto.
Qed.

Lemma reachable_prim h p l : ~ reachable h (HPrim p) l.
Proof. intros H. inversion H. Qed.

Lemma reachable_undefined h l : ~ reachable h HUndefined l.
Proof. intros H. inversion H. Qed.

Lemma obj_get_value {A} (props : list (string * A)) k v :
  obj_get props k = Some v -> v ∈ map snd props.
Proof.
  induction props as [|[k' v'] props IH]; cbn; [discriminate|].
  destruct (String.eqb k' k); [intros [= ->]; now left | right; auto].
Qed.

(** What [v[k]] reads is reachable from [v]. *)
Lemma hread_reachable h v k w l :
  hread h v k = Returned w -> reachable h w l -> reachable h v l.
Proof.
  intros Hread Hr. destruct w as [|p|lw]; [now apply reachable_undefined in Hr
    | now apply reachable_prim in Hr |].
  destruct v as [|[| | |s]|lv]; cbn in Hread; try discriminate.
  - destruct (String.eqb k "length"); [discriminate|].
    destruct (key_index k) as [i|]; [|discriminate].
    destruct (String.get i s); discriminate.
  - destruct (h !! lv) as [[props|elems]|] eqn:E; [| |discriminate].
    + destruct (obj_get props k) as [w|] eqn:Ew; cbn in Hread; [|discriminate].
      injection Hread as ->. eapply reach_step; eauto.
      cbn. eapply obj_get_value; eauto.
    + destruct (String.eqb k "length"); [discriminate|].
      destruct (key_index k) as [i|]; [|discriminate].
      destruct (elems !! i) as [w|] eqn:Ew; cbn in Hread; [|discriminate].
      injection Hread as ->. eapply reach_step; eauto.
      cbn. eapply list_elem_of_lookup_2; eauto.
Qed.

(** [v[k]] only looks at the object [v] refers to. *)
Lemma hread_frame h h2 v k :
  (forall l, reachable h v l -> h2 !! l = h !! l) ->
  hread h2 v k = hread h v k.
Proof.
  intros Hagree. destruct v as [|p|l]; try reflexivity.
  cbn. now rewrite (Hagree l (reach_here _ _)).
Qed.

(** *** What a caller's writes leave alone *)

Lemma caller_writes_keep P h h2 l :
  caller_writes P h h2 -> P l -> h2 !! l = h !! l.
Proof.
  intros Hw Hl. induction Hw as [h|h l' c h' Hl' _ IH]; [reflexivity|].
  rewrite IH. apply lookup_insert_ne. congruence.
Qed.

Lemma caller_writes_dom P h h2 : caller_writes P h h2 -> dom h ⊆ dom h2.
Proof.
  induction 1 as [h|h l' c h' _ _ IH]; [reflexivity|].
  rewrite dom_insert in IH. set_solver.
Qed.

(** *** The reads between the load and the copy *)

Lemma index_ge_pure_spec {S} index len (s : S) :
  index_ge index len s = (index_ge_pure index len, s).
Proof. now destruct len as [|[|[]| |]|]. Qed.

Lemma select_frame h h2 data group index none_found out_of_range :
  (forall l, reachable h data l -> h2 !! l = h !! l) ->
  select h2 data group index none_found out_of_range
  = select h data group index none_found out_of_range.
Proof.
  intros Hagree. unfold select. rewrite (hread_frame h h2 data group Hagree).
  destruct (hread h data group) as [entries|e] eqn:E; [|reflexivity].
  assert (Hentries : forall k, hread h2 entries k = hread h entries k).
  { intros k. apply hread_frame. intros l Hl. apply Hagree.
    eapply hread_reachable; eauto. }
  now rewrite !Hentries.
Qed.

Lemma select_reachable h data group index none_found out_of_range entry l :
  select h data group index none_found out_of_range = Returned entry ->
  reachable h entry l -> reachable h data l.
Proof.
  unfold select. intros Hsel Hr.
  destruct (hread h data group) as [entries|e] eqn:E; [|discriminate].
  eapply hread_reachable; [exact E|].
  destruct (if negb (truthy_h entries) then _ else _) as [[]|]; try discriminate.
  destruct (hread h entries "length") as [len|]; [|discriminate].
  destruct (index_ge_pure index len) as [[]|]; try discriminate.
  eapply hread_reachable; eauto.
Qed.

Lemma heap_size_mono (h h2 : heap) : dom h ⊆ dom h2 -> (size h <= size h2)%nat.
Proof.
  intros Hdom. rewrite <- !size_dom. now apply subseteq_size.
Qed.

(** What the copy of an entry is. *)
Lemma cloneDeep_spec entry h v1 h1 :
  cloneDeep entry h = (Returned v1, h1) ->
  (exists l t, entry = HRef l /\ reify_json (S (size h)) h entry = Some t /\
               alloc_json t h = (v1, h1)) \/
  ((forall l, entry <> HRef l) /\ v1 = entry /\ h1 = h).
Proof.
  destruct entry as [|p|l]; cbn [cloneDeep]; unfold ret.
  - intros [= <- <-]. right. repeat split; congruence.
  - intros [= <- <-]. right. repeat split; congruence.
  - destruct (reify_json (S (size h)) h (HRef l)) as [t|] eqn:E; [|discriminate].
    destruct (alloc_json t h) as [v' h'] eqn:Ea. intros [= <- <-].
    left. eauto.
Qed.

Lemma cloneDeep_ref l t h :
  reify_json (S (size h)) h (HRef l) = Some t ->
  cloneDeep (HRef l) h = (Returned (fst (alloc_json t h)), snd (alloc_json t h)).
Proof.
  intros E. cbn [cloneDeep]. rewrite E. now destruct (alloc_json t h).
Qed.

Section WithJSON.
Context {J : JSONImpl}.

(** A getter is a load, a pure selection on the heap, and a copy. *)
Lemma get_entry_select fileName group index none_found out_of_range st :
  get_entry fileName group index none_found out_of_range st =
  match loadTestData fileName st with
  | (Thrown e, sta) => (Thrown e, sta)
  | (Returned data, sta) =>
      match select (heap_of sta) data group index none_found out_of_range with
      | Thrown e => (Thrown e, sta)
      | Returned entry => on_heap (cloneDeep entry) sta
      end
  end.
Proof.
  unfold get_entry. unfold bind at 1.
  destruct (loadTestData fileName st) as [[data|e] sta]; [|reflexivity].
  destruct sta as [h c d lg].
  unfold select, bind, on_heap, hget, ret, throw. cbn [heap_of cache disk log].
  destruct (hread h data group) as [entries|e]; [|reflexivity].
  destruct (truthy_h entries); cbn [negb heap_of cache disk log]; [|reflexivity].
  destruct (hread h entries "length") as [len|e] eqn:Elen; [|reflexivity].
  destruct (is_zero len); [reflexivity|].
  cbn [heap_of cache disk log]. rewrite Elen.
  rewrite index_ge_pure_spec.
  destruct (index_ge_pure index len) as [[]|e]; reflexivity.
Qed.

Lemma getUser_get_entry type index :
  exists group none_found out_of_range,
    getUser type index = get_entry "users" group index none_found out_of_range.
Proof. do 3 eexists. reflexivity. Qed.

Lemma getProduct_get_entry type index :
  exists group none_found out_of_range,
    getProduct type index = get_entry "products" group index none_found out_of_range.
Proof. do 3 eexists. reflexivity. Qed.

(** A file that is in the cache is answered from the cache. *)
Lemma loadTestData_hit fileName st root :
  cache st !! fileName = Some root ->
  exists sta,
    loadTestData fileName st = (Returned root, sta) /\
    heap_of sta = heap_of st /\ cache sta = cache st.
Proof.
  intros Hhit. unfold loadTestData. unfold bind at 1, gets. rewrite Hhit.
  unfold bind, logger, modify, ret. eexists. split; [reflexivity|]. now cbn.
Qed.

(** A load that returns leaves its answer in the cache and every cached
    object on the heap. *)
Lemma loadTestData_ok fileName st root sta :
  heap_closed st ->
  loadTestData fileName st = (Returned root, sta) ->
  cache sta !! fileName = Some root /\ heap_closed sta.
Proof.
  intros Hclosed Hload. unfold loadTestData in Hload.
  unfold bind at 1, gets in Hload.
  destruct (cache st !! fileName) as [data|] eqn:Hc.
  - unfold bind, logger, modify, ret in Hload. injection Hload as <- <-.
    cbn [cache]. split; [exact Hc|]. exact Hclosed.
  - unfold try_catch in Hload.
    match type of Hload with
    | (let (o, s') := ?body st in _) = _ => destruct (body st) as [[r|e] s1] eqn:Ebody
    end.
    2:{ unfold bind, logger, modify, throw in Hload. discriminate. }
    injection Hload as -> ->.
    destruct st as [h c d lg]. cbn [cache heap_of] in *.
    unfold bind, on_disk, on_heap, existsSync, gets, readFileSync, cache_set,
      logger, modify, ret, throw in Ebody.
    repeat (cbn [heap_of cache disk log] in Ebody; try discriminate;
            match type of Ebody with
            | context [match ?x with _ => _ end] =>
                lazymatch x with
                | context [match _ with _ => _ end] => fail
                | _ => destruct x eqn:?
                end
            end).
    cbn [heap_of cache disk log] in Ebody. injection Ebody as <- <-.
    match goal with
    | E : alloc_json ?p h = (?v', ?h'') |- _ =>
        rename E into Ealloc; rename p into parsed; rename h'' into h'; rename v' into v
    end.
    cbn [cache]. split; [apply lookup_insert_eq|].
    destruct (alloc_json_ok parsed h v h' Ealloc) as [[Hsub _ _] _].
    intros l (key & r & Hkey & Hreach). cbn [cache heap_of] in *.
    destruct (decide (key = fileName)) as [->|Hne].
    + rewrite lookup_insert_eq in Hkey. injection Hkey as <-.
      now apply (alloc_json_fresh parsed h v h' l Ealloc).
    + rewrite lookup_insert_ne in Hkey by congruence.
      assert (Hold : forall x, reachable h r x -> x ∈ dom h).
      { intros x Hx. apply Hclosed. exists key, r. now split. }
      apply (subseteq_dom _ _ Hsub). apply Hold.
      eapply reachable_within; eauto.
Qed.

(** The shared shape of the getters hands out copies. *)
Lemma get_entry_copies fileName group index none_found out_of_range :
  returns_copies (get_entry fileName group index none_found out_of_range).
Proof.
  intros st v1 st1 Hclosed Hrun. rewrite get_entry_select in Hrun.
  destruct (loadTestData fileName st) as [[root|e] sta] eqn:Eload; [|discriminate].
  destruct (loadTestData_ok _ _ _ _ Hclosed Eload) as [Hroot Hclosed_a].
  destruct (select (heap_of sta) root group index none_found out_of_range)
    as [entry|e] eqn:Esel; [|discriminate].
  destruct sta as [h c d lg]. cbn [heap_of cache] in *.
  unfold on_heap in Hrun. cbn [heap_of cache disk log] in Hrun.
  destruct (cloneDeep entry h) as [r h1] eqn:Eclone.
  injection Hrun as -> <-. cbn [heap_of cache].
  (* the heap only grew *)
  assert (Hsub : h ⊆ h1).
  { destruct (cloneDeep_spec _ _ _ _ Eclone) as [(l & t & -> & _ & Ea)|(_ & _ & ->)];
      [|reflexivity].
    now destruct (alloc_json_ok t h v1 h1 Ea) as [[Hs _ _] _]. }
  (* the cached objects are those of before the copy *)
  assert (Hcached : forall l,
            cached_object {| heap_of := h1; cache := c; disk := d; log := lg |} l ->
            l ∈ dom h /\ h1 !! l = h !! l).
  { intros l (key & r & Hkey & Hreach). cbn [cache heap_of] in *.
    assert (Hold : forall x, reachable h r x -> x ∈ dom h).
    { intros x Hx. apply Hclosed_a. exists key, r. now split. }
    pose proof (Hold l (reachable_within h h1 r Hsub Hold l Hreach)) as Hdom.
    split; [exact Hdom|].
    apply elem_of_dom in Hdom as [cl Hcl].
    now rewrite Hcl, (lookup_weaken _ _ _ _ Hcl Hsub). }
  destruct (cloneDeep_spec _ _ _ _ Eclone) as [(le & t & -> & Hreify & Ea)|(Hno & -> & ->)].
  - (* the entry is an object: the answer is a fresh copy *)
    destruct (alloc_json_ok t h v1 h1 Ea) as [_ [n Hn]].
    exists (Some t). split; [now exists n|]. split.
    + intros l Hl Hc. apply Hcached in Hc as [Hdom _].
      now destruct (alloc_json_fresh t h v1 h1 l Ea Hl).
    + intros h2 Hwrites.
      assert (Hagree : forall l, reachable h root l -> h2 !! l = h !! l).
      { intros l Hl.
        assert (Hc : cached_object {| heap_of := h1; cache := c; disk := d; log := lg |} l).
        { exists fileName, root. split; [exact Hroot|]. cbn. eapply reachable_mono; eauto. }
        rewrite (caller_writes_keep _ _ _ _ Hwrites Hc). now apply Hcached. }
      rewrite get_entry_select. unfold with_heap. cbn [heap_of cache disk log].
      destruct (loadTestData_hit fileName
                  {| heap_of := h2; cache := c; disk := d; log := lg |} root Hroot)
        as (stb & Hload2 & Hheap2 & Hcache2).
      rewrite Hload2, Hheap2. cbn [heap_of].
      rewrite (select_frame h h2 root _ _ _ _ Hagree), Esel.
      assert (Hreify2 : reify_json (S (size h2)) h2 (HRef le) = Some t).
      { rewrite (reify_json_frame _ h h2).
        - eapply reify_json_mono; [| reflexivity | exact Hreify].
          apply le_n_S, heap_size_mono.
          transitivity (dom h1); [now apply subseteq_dom|].
          eapply caller_writes_dom; eauto.
        - intros l Hl. apply Hagree. eapply select_reachable; eauto. }
      destruct stb as [hb cb db lb]. cbn [heap_of cache] in *. subst hb cb.
      unfold on_heap. cbn [heap_of cache disk log].
      rewrite (cloneDeep_ref le t h2 Hreify2).
      destruct (alloc_json t h2) as [v2 h3] eqn:Ea2. cbn [fst snd].
      do 2 eexists. split; [reflexivity|]. cbn [heap_of].
      destruct (alloc_json_ok t h2 v2 h3 Ea2) as [[Hsub2 _ _] [n2 Hn2]].
      split; [now exists n2|].
      intros l Hc. rewrite <- (caller_writes_keep _ _ _ _ Hwrites Hc).
      destruct (Hcached l Hc) as [Hdom _].
      assert (Hdom2 : l ∈ dom h2).
      { eapply caller_writes_dom; eauto. now apply (subseteq_dom _ _ Hsub). }
      apply elem_of_dom in Hdom2 as [cl Hcl].
      now rewrite Hcl, (lookup_weaken _ _ _ _ Hcl Hsub2).
  - (* the entry is a primitive or undefined: the answer is the entry *)
    exists (match entry with
            | HPrim p => Some (JPrim p)
            | _ => None
            end).
    split; [|split].
    + destruct entry as [|p|l]; [reflexivity | now exists 0%nat | now destruct (Hno l)].
    + intros l Hl. destruct entry as [|p|l']; [now apply reachable_undefined in Hl
        | now apply reachable_prim in Hl | now destruct (Hno l')].
    + intros h2 Hwrites.
      assert (Hagree : forall l, reachable h root l -> h2 !! l = h !! l).
      { intros l Hl.
        assert (Hc : cached_object {| heap_of := h; cache := c; disk := d; log := lg |} l).
        { exists fileName, root. now split. }
        rewrite (caller_writes_keep _ _ _ _ Hwrites Hc). reflexivity. }
      rewrite get_entry_select. unfold with_heap. cbn [heap_of cache disk log].
      destruct (loadTestData_hit fileName
                  {| heap_of := h2; cache := c; disk := d; log := lg |} root Hroot)
        as (stb & Hload2 & Hheap2 & Hcache2).
      rewrite Hload2, Hheap2. cbn [heap_of].
      rewrite (select_frame h h2 root _ _ _ _ Hagree), Esel.
      destruct stb as [hb cb db lb]. cbn [heap_of cache] in *. subst hb cb.
      unfold on_heap. cbn [heap_of cache disk log].
      assert (Hclone2 : cloneDeep entry h2 = (Returned entry, h2)).
      { destruct entry as [|p|l]; [reflexivity | reflexivity | now destruct (Hno l)]. }
      rewrite Hclone2. do 2 eexists. split; [reflexivity|]. cbn [heap_of].
      split.
      * destruct entry as [|p|l]; [reflexivity | now exists 0%nat | now destruct (Hno l)].
      * intros l Hc. now apply (caller_writes_keep _ _ _ _ Hwrites).
Qed.

(** C9: [getUser] and [getProduct] hand out deep copies: for every type
    and index, the objects of an answer are none of the cached ones, and
    whatever the caller writes into objects that are not cached ones,
    the next call with the same arguments gives an equal value and the
    cached objects are as they were. *)
Theorem getters_return_copies type index :
  returns_copies (getUser type index) /\ returns_copies (getProduct type index).
Proof.
  split.
  - destruct (getUser_get_entry type index) as (g & a & b & ->).
    apply get_entry_copies.
  - destruct (getProduct_get_entry type index) as (g & a & b & ->).
    apply get_entry_copies.
Qed.

(** A file that was loaded once is answered from the cache from then
    on: the same object, whatever has become of the file on disk, and
    without a new object on the heap. *)
Theorem loadTestData_cached fileName st root sta d :
  heap_closed st ->
  loadTestData fileName st = (Returned root, sta) ->
  exists stb,
    loadTestData fileName (with_disk sta d) = (Returned root, stb) /\
    heap_of stb = heap_of sta /\ cache stb = cache sta /\ disk stb = d.
Proof.
  intros Hclosed Hload.
  destruct (loadTestData_ok _ _ _ _ Hclosed Hload) as [Hroot _].
  unfold loadTestData. unfold bind at 1, gets. cbn [cache with_disk].
  rewrite Hroot. unfold bind, logger, modify, ret.
  eexists. split; [reflexivity|]. now cbn.
Qed.

End WithJSON.

#[local] Existing Instance JSONText.text_json.

Lemma sample_manager_closed : heap_closed sample_manager.
Proof.
  intros l (key & root & Hkey & _). cbn in Hkey.
  now rewrite lookup_empty in Hkey.
Qed.

Lemma getters_return_copies_witness :
  exists v1 st1,
    getUser "valid" 0 sample_manager = (Returned v1, st1) /\
    exists x,
      denotes (heap_of st1) v1 x /\
      (forall l, reachable (heap_of st1) v1 l -> ~ cached_object st1 l) /\
      forall h2,
        caller_writes (cached_object st1) (heap_of st1) h2 ->
        exists v2 st3,
          getUser "valid" 0 (with_heap st1 h2) = (Returned v2, st3) /\
          denotes (heap_of st3) v2 x /\
          (forall l, cached_object st1 l -> heap_of st3 !! l = heap_of st1 !! l).
Proof.
  destruct (getUser "valid" 0 sample_manager) as [[v1|e] st1] eqn:E.
  - exists v1, st1. split; [reflexivity|].
    exact (proj1 (getters_return_copies "valid" 0) sample_manager v1 st1
             sample_manager_closed E).
  - vm_compute in E. discriminate.
Defined.

(** The first user of the sample file is read, the caller overwrites the
    email of the object it was given, and a second read gives the email
    of the file. *)
Example getUser_after_caller_write :
  exists v1 st1 l props,
    getUser "valid" 0 sample_manager = (Returned v1, st1) /\
    v1 = HRef l /\ heap_of st1 !! l = Some (CObj props) /\
    let h2 := <[l := CObj (obj_set props "email" (HPrim (PStr "changed@example.com")))]>
                (heap_of st1) in
    exists v2 st3,
      getUser "valid" 0 (with_heap st1 h2) = (Returned v2, st3) /\
      reify_json 3 (heap_of st3) v2 = Some sample_user /\
      reify_json 3 (heap_of st3) v1
        = Some (JObj [("email", JStr "changed@example.com"); ("password", JStr "secret1")]).
Proof.
  do 4 eexists. split; [vm_compute; reflexivity|].
  split; [reflexivity|]. split; [vm_compute; reflexivity|].
  cbv zeta. do 2 eexists. split; [vm_compute; reflexivity|].
  split; vm_compute; reflexivity.
Qed.

(** The sample manager, after the file has been removed. *)
Lemma loadTestData_cached_witness :
  exists root sta stb,
    loadTestData "users" sample_manager = (Returned root, sta) /\
    loadTestData "users" (with_disk sta empty_fs) = (Returned root, stb) /\
    heap_of stb = heap_of sta /\ cache stb = cache sta /\ disk stb = empty_fs.
Proof.
  destruct (loadTestData "users" sample_manager) as [[root|e] sta] eqn:E.
  - destruct (loadTestData_cached "users" sample_manager root sta empty_fs
                sample_manager_closed E) as (stb & H).
    exists root, sta, stb. split; [reflexivity | exact H].
  - vm_compute in E. discriminate.
Defined.

End TestDataFacts.

(** ** The matcher and the email pattern *)

Module RegexFacts.
Lemma lang_seq_inv r1 r2 s :
  lang (Seq r1 r2) s <-> exists s1 s2, s = s1 ++ s2 /\ lang r1 s1 /\ lang r2 s2.
Proof.
  split.
  - inversion 1; subst; eauto.
  - intros (s1 & s2 & -> & H1 & H2). now constructor.
Qed.

Lemma nullable_lang r : nullable r = true <-> lang r [].
Proof.
  induction r as [| |accept|r1 IH1 r2 IH2|r1 IH1 r2 IH2|r IH]; cbn.
  - split; [discriminate | inversion 1].
  - split; [constructor | reflexivity].
  - split; [discriminate | inversion 1].
  - rewrite andb_true_iff, IH1, IH2. split.
    + intros [H1 H2]. change (@nil ascii) with (@nil ascii ++ []). now constructor.
    + intros H. apply lang_seq_inv in H as (s1 & s2 & Heq & H1 & H2).
      symmetry in Heq. apply app_eq_nil in Heq as [-> ->]. now split.
  - rewrite orb_true_iff, IH1, IH2. split.
    + intros [H|H]; [now apply lang_alt_l | now apply lang_alt_r].
    + inversion 1; subst; auto.
  - split; [constructor | reflexivity].
Qed.

Lemma lang_star_cons_inv r c s :
  lang (Star r) (c :: s) ->
  exists s1 s2, s = s1 ++ s2 /\ lang r (c :: s1) /\ lang (Star r) s2.
Proof.
  remember (Star r) as q eqn:Eq. remember (c :: s) as w eqn:Ew.
  intros H. revert Eq Ew.
  induction H as [| | | | | |r' s1 s2 H1 _ H2 IH2]; try discriminate.
  intros [= ->] Ew. destruct s1 as [|c' s1'].
  - cbn in Ew. now apply IH2.
  - cbn in Ew. injection Ew as -> <-. eauto.
Qed.

Lemma deriv_lang c r : forall s, lang (deriv c r) s <-> lang r (c :: s).
Proof.
  induction r as [| |accept|r1 IH1 r2 IH2|r1 IH1 r2 IH2|r IH]; intros s; cbn.
  - split; inversion 1.
  - split; inversion 1.
  - destruct (accept c) eqn:E; split.
    + inversion 1; subst. now constructor.
    + inversion 1; subst. constructor.
    + inversion 1.
    + inversion 1; subst. congruence.
  - assert (Hleft : forall s, lang (Seq (deriv c r1) r2) s -> lang (Seq r1 r2) (c :: s)).
    { intros w H. apply lang_seq_inv in H as (s1 & s2 & -> & H1 & H2).
      apply IH1 in H1. change (c :: s1 ++ s2) with ((c :: s1) ++ s2). now constructor. }
    assert (Hback : forall s, lang (Seq r1 r2) (c :: s) ->
              lang (Seq (deriv c r1) r2) s \/ (lang r1 [] /\ lang (deriv c r2) s)).
    { intros w H. apply lang_seq_inv in H as (s1 & s2 & Heq & H1 & H2).
      destruct s1 as [|c' s1'].
      - cbn in Heq. subst. right. split; [exact H1 | now apply IH2].
      - cbn in Heq. injection Heq as <- ->. left. constructor; [now apply IH1 | exact H2]. }
    destruct (nullable r1) eqn:En; split.
    + inversion 1; subst; [now apply Hleft|].
      change (c :: s) with ([] ++ c :: s). constructor; [now apply nullable_lang | now apply IH2].
    + intros H. destruct (Hback s H) as [H'|[_ H']];
        [now apply lang_alt_l | now apply lang_alt_r].
    + apply Hleft.
    + intros H. destruct (Hback s H) as [H'|[H' _]]; [exact H'|].
      apply nullable_lang in H'. congruence.
  - split.
    + inversion 1; subst; [apply lang_alt_l | apply lang_alt_r]; [now apply IH1 | now apply IH2].
    + inversion 1; subst; [apply lang_alt_l | apply lang_alt_r]; [now apply IH1 | now apply IH2].
  - split.
    + intros H. apply lang_seq_inv in H as (s1 & s2 & -> & H1 & H2). apply IH in H1.
      change (c :: s1 ++ s2) with ((c :: s1) ++ s2). now constructor.
    + intros H. apply lang_star_cons_inv in H as (s1 & s2 & -> & H1 & H2).
      constructor; [now apply IH | exact H2].
Qed.

(** The matcher decides the words of the pattern. *)
Theorem matches_lang r s : matches r s = true <-> lang r s.
Proof.
  revert r. induction s as [|c s IH]; intros r; cbn.
  - apply nullable_lang.
  - rewrite IH. apply deriv_lang.
Qed.

Lemma lang_star_chr accept s :
  lang (Star (Chr accept)) s <-> Forall (fun c => accept c = true) s.
Proof.
  split.
  - remember (Star (Chr accept)) as q eqn:Eq. intros H. revert Eq.
    induction H as [| | | | | |r' s1 s2 H1 _ H2 IH2]; try discriminate.
    + constructor.
    + intros [= ->]. inversion H1; subst. constructor; auto.
  - induction 1 as [|c s Hc _ IH]; [constructor|].
    change (c :: s) with ([c] ++ s). constructor; [now constructor | exact IH].
Qed.

Lemma lang_plus_chr accept s :
  lang (Plus (Chr accept)) s <-> s <> [] /\ Forall (fun c => accept c = true) s.
Proof.
  unfold Plus. split.
  - intros H. apply lang_seq_inv in H as (s1 & s2 & -> & H1 & H2).
    inversion H1; subst. apply lang_star_chr in H2. split; [discriminate|].
    now constructor.
  - intros [Hne Hall]. destruct Hall as [|c s Hc Hall]; [congruence|].
    change (c :: s) with ([c] ++ s). constructor; [now constructor|].
    now apply lang_star_chr.
Qed.

Lemma lang_is_char x s : lang (Chr (is_char x)) s <-> s = [x].
Proof.
  split.
  - inversion 1 as [|? c Hc| | | | |]; subst. unfold is_char in *.
    match goal with Hc : Ascii.eqb _ _ = true |- _ => apply Ascii.eqb_eq in Hc; now subst end.
  - intros ->. constructor. unfold is_char. apply Ascii.eqb_refl.
Qed.

(** The email pattern accepts exactly the strings [local@domain.tld]
    whose three parts are non-empty and hold neither white space nor
    [@]. *)
Theorem emailRegex_shape s :
  regex_test emailRegex s = true <-> email_shape (list_ascii_of_string s).
Proof.
  unfold regex_test. rewrite matches_lang. unfold emailRegex, email_shape, email_part.
  generalize (list_ascii_of_string s) as w. intros w. split.
  - intros H.
    apply lang_seq_inv in H as (a & w1 & -> & Ha & H).
    apply lang_seq_inv in H as (at_ & w2 & -> & Hat & H).
    apply lang_seq_inv in H as (b & w3 & -> & Hb & H).
    apply lang_seq_inv in H as (dot & c & -> & Hdot & Hc).
    apply lang_is_char in Hat, Hdot. subst.
    apply lang_plus_chr in Ha, Hb, Hc.
    exists a, b, c. cbn. auto.
  - intros (a & b & c & -> & Ha & Hb & Hc).
    apply lang_plus_chr in Ha, Hb, Hc.
    constructor; [exact Ha|].
    change ("@"%char :: b ++ "."%char :: c) with (["@"%char] ++ b ++ ["."%char] ++ c).
    constructor; [now apply lang_is_char|].
    constructor; [exact Hb|].
    constructor; [now apply lang_is_char | exact Hc].
Qed.

End RegexFacts.

(** ** The validation of user data *)

Module ValidationFacts.
Import Validation JSONTextFacts.

Lemma member_field_of {S} (v : jsvalue) k (s : S) :
  nullish v = false -> member v k s = (Returned (field_of v k), s).
Proof.
  destruct v as [[[| | |]|elems|props]|]; cbn; try discriminate; intros _;
    try reflexivity.
  - destruct (String.eqb k "length"); [reflexivity|].
    now destruct (key_index k).
  - destruct (String.eqb k "length"); [reflexivity|].
    now destruct (key_index k).
Qed.

Lemma member_nullish {S} (v : jsvalue) k (s : S) :
  nullish v = true -> member v k s = (Thrown TypeError, s).
Proof.
  destruct v as [[[| | |]|elems|props]|]; cbn; try discriminate; reflexivity.
Qed.

Lemma truthy_not_nullish v : truthy v = true -> nullish v = false.
Proof. destruct v as [[[| | |]|elems|props]|]; cbn; congruence. Qed.

(** *** The conversions *)

Lemma number_less_Z k n :
  number_less (Finite (inject_Z k)) (Finite (inject_Z n)) = Some (k <? n).
Proof.
  cbn. unfold Qcompare. cbn. rewrite !Z.mul_1_r. unfold Z.ltb.
  now destruct (k ?= n).
Qed.

Lemma less_number k n : less (Some (JNum k)) (Some (JNum n)) = Returned (k <? n).
Proof.
  unfold less, operands. cbn [to_primitive]. unfold prim_less. cbn [to_number].
  rewrite number_less_Z. cbn. now destruct (k <? n).
Qed.

Lemma less_than_number {S} k n (s : S) :
  less_than (Some (JNum k)) n s = (Returned (k <? n), s).
Proof. unfold less_than, answer. now rewrite less_number. Qed.

(** With whole numbers up to [2^53], the conversion to a string gives a
    string where the value converts, and throws a [TypeError] where it
    does not. *)
Lemma to_string_json_converts v :
  exact_numbers_json v = true ->
  if converts_json v then exists text, to_string_json v = Returned text
  else to_string_json v = Thrown TypeError.
Proof.
  induction v as [p|l IH|ps IH] using json_ind'; intros Hx.
  - cbn. destruct p as [|[]|n|s]; cbn in *; eauto. rewrite Hx. eauto.
  - cbn [converts_json to_string_json exact_numbers_json] in *.
    match goal with
    | |- if ?all l then (exists text, match ?texts l with _ => _ end = _) else _ =>
        assert (Hl : if all l then exists pieces, texts l = Returned pieces
                     else texts l = Thrown TypeError)
    end.
    { induction l as [|x l IHl]; [cbn; eauto|].
      apply Forall_cons in IH as [IHx IHrest].
      apply andb_prop in Hx as [Hx Hrest].
      specialize (IHl IHrest Hrest). specialize (IHx Hx).
      assert (Hel : if converts_json x
                    then exists text, match x with
                                      | JNull => Returned ""
                                      | _ => to_string_json x
                                      end = Returned text
                    else match x with
                         | JNull => Returned ""
                         | _ => to_string_json x
                         end = Thrown TypeError).
      { destruct x as [[| | |]| |]; try exact IHx. cbn. eauto. }
      destruct (converts_json x); cbn [andb].
      - destruct Hel as [text ->].
        match type of IHl with
        | if ?c then _ else _ => destruct c
        end.
        + destruct IHl as [pieces ->]. eauto.
        + now rewrite IHl.
      - now rewrite Hel. }
    match type of Hl with
    | if ?c then _ else _ => destruct c
    end.
    + destruct Hl as [pieces ->]. eauto.
    + now rewrite Hl.
  - cbn. destruct (obj_get ps "toString"); eauto.
Qed.

Lemma value_text_converts v :
  exact_numbers v = true ->
  if converts v then exists text, value_text v = Returned text
  else value_text v = Thrown TypeError.
Proof.
  destruct v as [j|]; [apply to_string_json_converts | cbn; eauto].
Qed.

Lemma to_primitive_converts v :
  exact_numbers v = true ->
  if converts v then exists p, to_primitive v = Returned p
  else to_primitive v = Thrown TypeError.
Proof.
  intros Hx. destruct v as [j|]; [|cbn; eauto].
  pose proof (to_string_json_converts j Hx) as H.
  destruct j as [p|l|ps]; [cbn; eauto| |].
  - cbn [converts to_primitive]. destruct (converts_json (JArr l)).
    + destruct H as [text ->]. eauto.
    + now rewrite H.
  - cbn [converts to_primitive]. destruct (converts_json (JObj ps)).
    + destruct H as [text ->]. eauto.
    + now rewrite H.
Qed.

(** *** The fields of a user *)

Lemma exact_numbers_obj_get ps k v :
  exact_numbers_json (JObj ps) = true -> obj_get ps k = Some v ->
  exact_numbers_json v = true.
Proof.
  induction ps as [|[k' x] ps IH]; cbn [obj_get]; [discriminate|].
  intros Hx Hget. cbn [exact_numbers_json snd] in Hx.
  apply andb_prop in Hx as [Hx Hrest].
  destruct (String.eqb k' k); [now injection Hget as <- | now apply IH].
Qed.

(** A field with a name that is no index and not [length] holds a
    value of the user. *)
Lemma exact_numbers_field user k :
  key_index k = None -> String.eqb k "length" = false ->
  exact_numbers user = true -> exact_numbers (field_of user k) = true.
Proof.
  intros Hk Hlen Hx.
  destruct user as [[[| | |s]|elems|props]|]; cbn; try reflexivity.
  - now rewrite Hlen, Hk.
  - now rewrite Hlen, Hk.
  - destruct (obj_get props k) as [v|] eqn:E; [|reflexivity].
    now apply (exact_numbers_obj_get props k).
Qed.

(** The length of a password converts to a primitive, or throws a
    [TypeError]. *)
Lemma password_length_primitive user :
  exact_numbers user = true ->
  if converts (password_length user)
  then exists p, to_primitive (password_length user) = Returned p
  else to_primitive (password_length user) = Thrown TypeError.
Proof.
  intros Hx. unfold password_length.
  pose proof (exact_numbers_field user "password" eq_refl eq_refl Hx) as Hp.
  destruct (field_of user "password") as [[[| | |s]|elems|props]|];
    try (cbn; eauto; fail).
  cbn [field_of get_member ret]. apply to_primitive_converts.
  destruct (obj_get props "length") as [v|] eqn:E; [|reflexivity].
  now apply (exact_numbers_obj_get props "length").
Qed.

Lemma password_ok_undefined user :
  password_length user = None -> password_ok user = true.
Proof. unfold password_ok. now intros ->. Qed.

Lemma password_ok_number user n :
  password_length user = Some (JNum n) -> password_ok user = (8 <=? n).
Proof.
  unfold password_ok. intros ->. rewrite less_number. now rewrite Z.leb_antisym.
Qed.

(** What [validateUserData] answers once the four fields are there. *)
Lemma validateUserData_checks {S} (user : jsvalue) (s : S) :
  nullish user = false -> fields_present user = true ->
  validateUserData user s
  = match value_text (field_of user "email") with
    | Thrown e => (Thrown e, s)
    | Returned text =>
        match less (password_length user) (Some (JNum 8)) with
        | Thrown e => (Thrown e, s)
        | Returned short =>
            let errors1 := if negb (regex_test emailRegex text)
                           then ["Invalid email format"] else [] in
            let errors2 := if short
                           then errors1 ++ ["Password must be at least 8 characters long"]
                           else errors1 in
            (Returned {| valid := Z.of_nat (length errors2) =? 0; errors := errors2 |}, s)
        end
    end.
Proof.
  intros Hn Hfields.
  unfold fields_present, requiredFields in Hfields. cbn [forallb] in Hfields.
  rewrite andb_true_r, !andb_true_iff in Hfields.
  destruct Hfields as (He & Hp & Hf & Hl).
  unfold validateUserData, requiredFields. cbn [filter_missing].
  unfold bind. rewrite !member_field_of by exact Hn. unfold ret.
  rewrite He, Hp, Hf, Hl. cbn [negb].
  change (0 <? Z.of_nat (length (@nil string))) with false. cbv beta iota.
  rewrite !member_field_of by exact Hn.
  unfold to_string, answer.
  destruct (value_text (field_of user "email")) as [text|e]; [|reflexivity].
  rewrite member_field_of by exact Hn.
  rewrite (member_field_of (field_of user "password")) by now apply truthy_not_nullish.
  fold (password_length user). unfold less_than, answer.
  destruct (less (password_length user) (Some (JNum 8))) as [short|e]; reflexivity.
Qed.

(** What it answers when one of them is missing. *)
Lemma validateUserData_missing {S} (user : jsvalue) (s : S) :
  nullish user = false -> fields_present user = false ->
  exists r,
    validateUserData user s = (Returned r, s) /\ valid r = false /\ errors r <> [].
Proof.
  intros Hn Hfields.
  unfold fields_present, requiredFields in Hfields. cbn [forallb] in Hfields.
  unfold validateUserData, requiredFields. cbn [filter_missing].
  unfold bind. rewrite !member_field_of by exact Hn. unfold ret.
  destruct (truthy (field_of user "email")), (truthy (field_of user "password")),
    (truthy (field_of user "firstName")), (truthy (field_of user "lastName"));
    try discriminate; cbn; eexists; (split; [reflexivity|]); cbn; split;
    (reflexivity || discriminate).
Qed.

(** C10 (amended): [validateUserData] throws a [TypeError] on [null] and
    [undefined].  On any other user with one of the four required
    fields falsy it answers [valid: false] with an error.  With the
    four fields truthy, and the numbers of the user whole and up to
    [2^53], it throws a [TypeError] when the email or the length of the
    password does not convert to a primitive; otherwise it answers
    [valid: true], with no error, exactly when the email as a string
    matches the pattern and [password.length < 8] is false, and
    [valid: false] with at least one error in every other case.  The
    comparison is false for a password without a [length], and for a
    length that is a number when that number is at least 8. *)
Theorem validateUserData_spec {S} (user : jsvalue) (s : S) :
  (nullish user = true -> validateUserData user s = (Thrown TypeError, s)) /\
  (nullish user = false -> fields_present user = false ->
   exists r,
     validateUserData user s = (Returned r, s) /\
     valid r = false /\ errors r <> []) /\
  (nullish user = false -> fields_present user = true ->
   exact_numbers user = true ->
   if converts (field_of user "email") && converts (password_length user)
   then exists r,
          validateUserData user s = (Returned r, s) /\
          valid r = email_ok user && password_ok user /\
          (valid r = true -> errors r = []) /\
          (valid r = false -> errors r <> [])
   else validateUserData user s = (Thrown TypeError, s)) /\
  (password_length user = None -> password_ok user = true) /\
  (forall n, password_length user = Some (JNum n) -> password_ok user = (8 <=? n)).
Proof.
  split; [|split; [|split; [|split]]].
  - intros Hn. unfold validateUserData, requiredFields. cbn [filter_missing].
    unfold bind at 1. unfold bind at 1. now rewrite member_nullish.
  - apply validateUserData_missing.
  - intros Hn Hfields Hx. rewrite validateUserData_checks by assumption.
    pose proof (value_text_converts (field_of user "email")
                  (exact_numbers_field user "email" eq_refl eq_refl Hx)) as He.
    pose proof (password_length_primitive user Hx) as Hp.
    unfold email_ok, password_ok, less, operands.
    destruct (converts (field_of user "email")); cbn [andb].
    2:{ now rewrite He. }
    destruct He as [text ->].
    destruct (converts (password_length user)).
    2:{ now rewrite Hp. }
    destruct Hp as [p ->]. cbn [to_primitive].
    destruct (regex_test emailRegex text),
      (is_answer (prim_less p (Some (PNum 8))) true); cbn;
      eexists; (split; [reflexivity|]); cbn; repeat split; discriminate.
  - apply password_ok_undefined.
  - apply password_ok_number.
Qed.

(** C10, witness: a user with all four fields, a well-formed email and a
    password of ten characters. *)
Lemma validateUserData_spec_witness :
  exists r,
    validateUserData sample_valid_user tt = (Returned r, tt) /\
    valid r = email_ok sample_valid_user && password_ok sample_valid_user /\
    (valid r = true -> errors r = []) /\
    (valid r = false -> errors r <> []).
Proof.
  exact (proj1 (proj2 (proj2 (validateUserData_spec sample_valid_user tt)))
           eq_refl eq_refl eq_refl).
Defined.

(** C10, counterexample: a password of four digits, given as a number,
    is accepted; and the call on [null] throws. *)
Lemma numeric_password_accepted :
  validateUserData numeric_password_user tt
  = (Returned {| valid := true; errors := [] |}, tt)
  /\ value_text (field_of numeric_password_user "password") = Returned "1234"
  /\ String.length "1234" = 4%nat
  /\ validateUserData (Some JNull) tt = (Thrown TypeError, tt).
Proof. repeat split; vm_compute; reflexivity. Qed.

Example validate_short_password :
  validateUserData
    (Some (JObj [("email", JStr "qa@example.com"); ("password", JStr "short");
                 ("firstName", JStr "Quinn"); ("lastName", JStr "Ashby")])) tt
  = (Returned {| valid := false;
                 errors := ["Password must be at least 8 characters long"] |}, tt).
Proof. vm_compute. reflexivity. Qed.

Example validate_missing_and_bad :
  validateUserData
    (Some (JObj [("email", JStr "not an email"); ("password", JStr "longenough")])) tt
  = (Returned {| valid := false;
                 errors := ["Missing required fields: firstName, lastName"] |}, tt).
Proof. vm_compute. reflexivity. Qed.

Example validate_bad_email :
  validateUserData
    (Some (JObj [("email", JStr "a b@c.d"); ("password", JStr "longenough");
                 ("firstName", JStr "Quinn"); ("lastName", JStr "Ashby")])) tt
  = (Returned {| valid := false; errors := ["Invalid email format"] |}, tt).
Proof. vm_compute. reflexivity. Qed.

Example validate_array_password :
  validateUserData
    (Some (JObj [("email", JStr "qa@example.com");
                 ("password", JArr [JNum 1; JNum 2; JNum 3]);
                 ("firstName", JStr "Quinn"); ("lastName", JStr "Ashby")])) tt
  = (Returned {| valid := false;
                 errors := ["Password must be at least 8 characters long"] |}, tt).
Proof. vm_compute. reflexivity. Qed.

Example validate_undefined_user :
  validateUserData undefined tt = (Thrown TypeError, tt).
Proof. reflexivity. Qed.

(** A length that is no number is compared as the number it converts
    to: [NaN] is not below 8, and the object passes for a password. *)
Example validate_length_text :
  validateUserData
    (Some (JObj [("email", JStr "qa@example.com");
                 ("password", JObj [("length", JStr "abc")]);
                 ("firstName", JStr "Quinn"); ("lastName", JStr "Ashby")])) tt
  = (Returned {| valid := true; errors := [] |}, tt).
Proof. vm_compute. reflexivity. Qed.

Example validate_length_digits :
  validateUserData
    (Some (JObj [("email", JStr "qa@example.com");
                 ("password", JObj [("length", JStr " 7.5 ")]);
                 ("firstName", JStr "Quinn"); ("lastName", JStr "Ashby")])) tt
  = (Returned {| valid := false;
                 errors := ["Password must be at least 8 characters long"] |}, tt).
Proof. vm_compute. reflexivity. Qed.

(** An email that does not convert to a string: the test of the pattern
    throws. *)
Example validate_email_object :
  validateUserData
    (Some (JObj [("email", JObj [("toString", JNum 1)]);
                 ("password", JStr "longenough");
                 ("firstName", JStr "Quinn"); ("lastName", JStr "Ashby")])) tt
  = (Thrown TypeError, tt).
Proof. vm_compute. reflexivity. Qed.

End ValidationFacts.

(** ** The resolution of fixtures *)

Module FixtureFacts.
Import FixtureComposer.

Lemma mem_spec name names : mem name names = true <-> name ∈ names.
Proof.
  unfold mem. rewrite existsb_exists. split.
  - intros (x & Hin & Heq). apply String.eqb_eq in Heq. subst.
    now apply list_elem_of_In.
  - intros Hin. exists name. split; [now apply list_elem_of_In | apply String.eqb_refl].
Qed.

Lemma mem_false name names : mem name names = false <-> name ∉ names.
Proof.
  rewrite <- mem_spec. now destruct (mem name names).
Qed.

(** The loop inside [visit] is [visit_all] one fuel down. *)
Lemma visit_unfold fuel reg stack name order :
  visit (S fuel) reg stack name order =
  if mem name order then inr order
  else if mem name stack then inl (CycleError (name :: stack))
  else
    match obj_get reg name with
    | None => inl (UnknownFixture name)
    | Some deps =>
        match visit_all fuel reg (name :: stack) deps order with
        | inl e => inl e
        | inr order' => inr (order' ++ [name])
        end
    end.
Proof.
  cbn [visit]. destruct (mem name order); [reflexivity|].
  destruct (mem name stack); [reflexivity|].
  destruct (obj_get reg name) as [deps|]; [|reflexivity].
  revert order. induction deps as [|d deps IH]; intros order; cbn [visit_all].
  - reflexivity.
  - destruct (visit fuel reg (name :: stack) d order); [reflexivity | apply IH].
Qed.

Lemma visit_zero reg stack name order :
  visit 0 reg stack name order =
  if mem name order then inr order
  else if mem name stack then inl (CycleError (name :: stack))
  else
    match obj_get reg name with
    | None => inl (UnknownFixture name)
    | Some deps => inl DepthExceeded
    end.
Proof. reflexivity. Qed.

Lemma obj_get_declared {A} (reg : list (string * A)) name v :
  obj_get reg name = Some v -> name ∈ map fst reg.
Proof.
  induction reg as [|[k w] reg IH]; cbn; [discriminate|].
  destruct (String.eqb_spec k name) as [->|_]; [now left | right; auto].
Qed.

Lemma split_last {A} (before after o : list A) (n x : A) :
  before ++ n :: after = o ++ [x] ->
  (after = [] /\ before = o /\ n = x) \/
  (exists after', after = after' ++ [x] /\ o = before ++ n :: after').
Proof.
  intros H. destruct after as [|a after _] using rev_ind.
  - left. apply app_inj_tail in H. tauto.
  - right. exists after.
    rewrite app_comm_cons, app_assoc in H. apply app_inj_tail in H as [H ->].
    split; [reflexivity | now symmetry].
Qed.

Section Resolve.
Variable reg : registry.

Local Abbreviation good := (FixtureComposer.good reg).
Local Abbreviation visit_post := (FixtureComposer.visit_post reg).
Local Abbreviation stack_ok := (FixtureComposer.stack_ok reg).

Lemma good_nil : good [].
Proof.
  split; [constructor|]. intros before name after deps d H.
  now destruct before.
Qed.

Lemma good_snoc order name deps :
  good order -> name ∉ order ->
  obj_get reg name = Some deps ->
  (forall d, d ∈ deps -> d ∈ order) ->
  good (order ++ [name]).
Proof.
  intros [Hnd Htopo] Hname Hdeps Hin. split.
  - apply NoDup_app. split; [exact Hnd|]. split; [|apply NoDup_singleton].
    intros x Hx Hx'. apply list_elem_of_singleton in Hx'. now subst.
  - intros before n after deps' d Heq Hn Hd.
    symmetry in Heq.
    apply split_last in Heq as [(-> & -> & ->)|(after' & -> & ->)].
    + rewrite Hdeps in Hn. injection Hn as <-. auto.
    + eapply Htopo; eauto.
Qed.

(** The loop over the names keeps the invariant, given that a visit
    does. *)
Lemma visit_all_correct fuel :
  (forall stack name order,
     good order -> dependency_chain reg (name :: stack) -> stack_ok fuel stack ->
     visit_post stack order (visit fuel reg stack name order) [name]) ->
  forall stack names order,
    good order ->
    (forall d, d ∈ names -> dependency_chain reg (d :: stack)) ->
    stack_ok fuel stack ->
    visit_post stack order (visit_all fuel reg stack names order) names.
Proof.
  intros Hvisit stack names. induction names as [|d names IH];
    intros order Hgood Hchain Hstack; cbn [visit_all].
  - split; [exact Hgood|]. split.
    + exists []. split; [now rewrite app_nil_r | intros x Hx; inversion Hx].
    + intros n Hn. inversion Hn.
  - pose proof (Hvisit stack d order Hgood (Hchain d ltac:(now left)) Hstack) as Hd.
    destruct (visit fuel reg stack d order) as [e|order1]; [exact Hd|].
    destruct Hd as (Hgood1 & (ext1 & -> & Hext1) & Hin1).
    pose proof (IH (order ++ ext1) Hgood1
                  (fun x Hx => Hchain x ltac:(now right)) Hstack) as Hrest.
    destruct (visit_all fuel reg stack names (order ++ ext1)) as [e|order2];
      [exact Hrest|].
    destruct Hrest as (Hgood2 & (ext2 & -> & Hext2) & Hin2).
    split; [exact Hgood2|]. split.
    + exists (ext1 ++ ext2). split; [now rewrite app_assoc|].
      intros x Hx. apply elem_of_app in Hx as [Hx|Hx]; auto.
    + intros n Hn. apply elem_of_cons in Hn as [->|Hn]; [|auto].
      apply elem_of_app. left. apply Hin1. now left.
Qed.

(** A visit with fuel for the fixtures that are not on the stack ends
    with a good order or a justified error. *)
Lemma visit_correct fuel :
  forall stack name order,
    good order -> dependency_chain reg (name :: stack) -> stack_ok fuel stack ->
    visit_post stack order (visit fuel reg stack name order) [name].
Proof.
  induction fuel as [|fuel IH]; intros stack name order Hgood Hchain Hstack.
  - rewrite visit_zero.
    destruct (mem name order) eqn:Hord.
    { apply mem_spec in Hord. split; [exact Hgood|]. split.
      - exists []. split; [now rewrite app_nil_r | intros x Hx; inversion Hx].
      - intros n Hn. apply list_elem_of_singleton in Hn. now subst. }
    destruct (mem name stack) eqn:Hstk.
    { apply mem_spec in Hstk. split; [exact Hchain | eauto]. }
    destruct (obj_get reg name) as [deps|] eqn:Hdeps; [|exact Hdeps].
    apply mem_false in Hstk. destruct Hstack as (Hnd & Hdecl & Hlen).
    assert (Hsub : (name :: stack) ⊆+ map fst reg).
    { apply NoDup_submseteq; [now apply NoDup_cons|].
      intros x Hx. apply elem_of_cons in Hx as [->|Hx]; [|auto].
      eapply obj_get_declared; eauto. }
    apply submseteq_length in Hsub. rewrite length_map in Hsub.
    cbn [length] in Hsub. cbn. lia.
  - rewrite visit_unfold.
    destruct (mem name order) eqn:Hord.
    { apply mem_spec in Hord. split; [exact Hgood|]. split.
      - exists []. split; [now rewrite app_nil_r | intros x Hx; inversion Hx].
      - intros n Hn. apply list_elem_of_singleton in Hn. now subst. }
    destruct (mem name stack) eqn:Hstk.
    { apply mem_spec in Hstk. split; [exact Hchain | eauto]. }
    destruct (obj_get reg name) as [deps|] eqn:Hdeps; [|exact Hdeps].
    apply mem_false in Hstk, Hord. destruct Hstack as (Hnd & Hdecl & Hlen).
    assert (Hstack' : stack_ok fuel (name :: stack)).
    { split; [now apply NoDup_cons|]. split.
      - intros x Hx. apply elem_of_cons in Hx as [->|Hx]; [|auto].
        eapply obj_get_declared; eauto.
      - cbn [length]. lia. }
    pose proof (visit_all_correct fuel IH (name :: stack) deps order Hgood) as Hall.
    specialize (Hall (fun d Hd => conj (ex_intro _ deps (conj Hdeps Hd)) Hchain) Hstack').
    destruct (visit_all fuel reg (name :: stack) deps order) as [e|order1];
      [exact Hall|].
    destruct Hall as (Hgood1 & (ext1 & -> & Hext1) & Hin1).
    assert (Hfresh : name ∉ order ++ ext1).
    { intros Hin. apply elem_of_app in Hin as [Hin|Hin]; [tauto|].
      apply (Hext1 _ Hin). now left. }
    split; [eapply good_snoc; eauto|]. split.
    + exists (ext1 ++ [name]). split; [now rewrite app_assoc|].
      intros x Hx. apply elem_of_app in Hx as [Hx|Hx].
      * intros Hs. apply (Hext1 _ Hx). now right.
      * apply list_elem_of_singleton in Hx. now subst.
    + intros n Hn. apply list_elem_of_singleton in Hn. subst.
      apply elem_of_app. right. now left.
Qed.

(** C8: for every declared graph and every request, resolution ends
    with a setup order without repetition that holds the requested
    fixtures and places each fixture after all of its dependencies, or
    with an error: a [CycleError] whose chain is a dependency cycle of
    the graph, or an unknown name; it does not run out of steps. *)
Theorem resolve_orders_or_fails testDecl :
  match resolve reg testDecl with
  | inr order =>
      NoDup order /\ topological reg order /\
      (forall n, n ∈ testDecl -> n ∈ order)
  | inl (CycleError chain) => is_cycle reg chain
  | inl (UnknownFixture name) => obj_get reg name = None
  | inl DepthExceeded => False
  end.
Proof.
  unfold resolve.
  pose proof (visit_all_correct (length reg) (visit_correct (length reg))
                [] testDecl [] good_nil) as H.
  specialize (H (fun d _ => conj I I)).
  assert (Hstack : stack_ok (length reg) []).
  { split; [constructor|]. split; [intros s Hs; inversion Hs | cbn; lia]. }
  specialize (H Hstack).
  destruct (visit_all (length reg) reg [] testDecl []) as [e|order]; [exact H|].
  destruct H as ([Hnd Htopo] & _ & Hin). auto.
Qed.

End Resolve.

Example resolve_login_test :
  resolve all_fixtures ["loginPage"] = inr ["browser"; "context"; "page"; "loginPage"].
Proof. vm_compute. reflexivity. Qed.

Example resolve_smoke_test :
  resolve all_fixtures
    ["page"; "testData"; "screenshot"; "errorTracker"; "performanceMonitor"]
  = inr ["browser"; "context"; "page"; "testData"; "screenshot"; "errorTracker";
         "performanceMonitor"].
Proof. vm_compute. reflexivity. Qed.

Example resolve_authenticated :
  resolve all_fixtures ["authenticatedUser"; "browserHelper"]
  = inr ["browser"; "context"; "page"; "baseURL"; "apiHelper";
         "authenticatedUser"; "browserHelper"].
Proof. vm_compute. reflexivity. Qed.

Example resolve_cycle :
  resolve [("a", ["b"]); ("b", ["c"]); ("c", ["a"])] ["a"]
  = inl (CycleError ["a"; "c"; "b"; "a"]).
Proof. vm_compute. reflexivity. Qed.

Example resolve_unknown :
  resolve all_fixtures ["loggedInPage"] = inl (UnknownFixture "loggedInPage").
Proof. vm_compute. reflexivity. Qed.

End FixtureFacts.

(** ** The pure helpers of [APIHelper] *)

Module APIHelperFacts.
Import Validation Settings TestDataManager Coercion SettingsFacts ValidationFacts APIHelper.

Lemma split_on_nonempty sep s : split_on sep s <> [].
Proof.
  destruct s as [|c s]; simpl; [discriminate|].
  destruct (Ascii.eqb c sep); [discriminate|].
  destruct (split_on sep s); discriminate.
Qed.

(** Splitting a text with a separator in the middle splits both sides. *)
Lemma split_on_app sep p q :
  split_on sep (p ++ String sep q)%string = split_on sep p ++ split_on sep q.
Proof.
  induction p as [|c p IH]; simpl.
  - now rewrite Ascii.eqb_refl.
  - destruct (Ascii.eqb c sep); [now rewrite IH|].
    rewrite IH. pose proof (split_on_nonempty sep p) as Hne.
    destruct (split_on sep p) as [|first others]; [congruence | reflexivity].
Qed.

(** A text without the separator is one piece. *)
Lemma split_on_single sep s :
  Forall (fun c => Ascii.eqb c sep = false) (list_ascii_of_string s) ->
  split_on sep s = [s].
Proof.
  induction s as [|c s IH]; simpl; [reflexivity|].
  intros H. apply Forall_cons in H as [Hc Hs]. rewrite Hc, (IH Hs). reflexivity.
Qed.

Lemma index_key_not_length i : String.eqb (index_key i) "length" = false.
Proof.
  destruct (index_key_starts_with_digit i) as (c & rest & -> & Hc).
  apply String.eqb_neq. intros [= -> _]. discriminate.
Qed.

Lemma key_index_index_key i : key_index (index_key i) = Some i.
Proof.
  unfold key_index, index_key.
  assert (Hne : Nat.to_uint i <> Decimal.Nil).
  { pose proof (DecimalNat.Unsigned.to_of (Nat.to_uint i)) as Hto.
    rewrite DecimalNat.Unsigned.of_to in Hto. rewrite Hto.
    apply DecimalFacts.unorm_nonnil. }
  rewrite NilZero.usu by exact Hne.
  rewrite DecimalNat.Unsigned.of_to. now rewrite String.eqb_refl.
Qed.

(** A value has what its own keys name. *)
Lemma enumerable_own v k : k ∈ enumerable_keys v -> field_of v k <> None.
Proof.
  destruct v as [[[| | |text]|elems|props]|]; cbn [enumerable_keys own_props map];
    try (intros H; inversion H; fail).
  - intros H. apply list_elem_of_fmap in H as ([k' x] & -> & Hin).
    apply list_elem_of_lookup in Hin as [i Hi].
    apply list_lookup_imap_Some in Hi as (c & Hc & [= -> ->]).
    cbn. rewrite index_key_not_length, key_index_index_key.
    rewrite <- (string_of_list_ascii_of_string text).
    assert (Hget : forall l n ch, l !! n = Some ch ->
                     String.get n (string_of_list_ascii l) = Some ch).
    { induction l as [|a l IH]; intros [|n] ch; cbn; try discriminate; auto. }
    now rewrite (Hget _ _ _ Hc).
  - intros H. apply list_elem_of_fmap in H as ([k' x] & -> & Hin).
    apply list_elem_of_lookup in Hin as [i Hi].
    apply list_lookup_imap_Some in Hi as (y & Hy & [= -> ->]).
    cbn. rewrite index_key_not_length, key_index_index_key. now rewrite Hy.
  - cbn. induction props as [|[k' x] props IH]; cbn; intros H; [inversion H|].
    destruct (String.eqb_spec k' k); [discriminate|].
    apply elem_of_cons in H as [->|H]; [congruence | auto].
Qed.

Section Runtime.
Variable inherits : json -> string -> bool.

Lemma read_nullish {S} (v : jsvalue) k (s : S) :
  nullish v = true -> read inherits v k s = (Thrown TypeError, s).
Proof. intros H. unfold read, bind. now rewrite member_nullish. Qed.

Lemma read_plain {S} (v : jsvalue) k (s : S) :
  nullish v = false -> plain_key inherits v k = true ->
  read inherits v k s = (Returned (field_of v k), s).
Proof.
  intros Hn Hp. unfold read, bind. rewrite member_field_of by exact Hn.
  unfold plain_key in Hp. destruct v as [j|]; [|discriminate].
  destruct (field_of (Some j) k); [reflexivity|].
  apply negb_true_iff in Hp. now rewrite Hp.
Qed.

Lemma read_own {S} (v : jsvalue) k (s : S) :
  k ∈ enumerable_keys v -> read inherits v k s = (Returned (field_of v k), s).
Proof.
  intros Hk. pose proof (enumerable_own v k Hk) as Hown.
  apply read_plain.
  - destruct v as [[[| | |]| |]|]; try reflexivity; inversion Hk.
  - unfold plain_key. destruct v; [|reflexivity]. now destruct (field_of _ k).
Qed.

(** A read throws nothing but a [TypeError], on [null] and [undefined]. *)
Lemma read_outcome {S} (v : jsvalue) k (s : S) :
  nullish v = false ->
  read inherits v k s = (Returned (field_of v k), s)
  \/ exists what, read inherits v k s = (Thrown (Unmodelled what), s).
Proof.
  intros Hn. unfold read, bind. rewrite member_field_of by exact Hn.
  destruct v as [j|]; [|discriminate].
  destruct (field_of (Some j) k); [now left|].
  destruct (inherits j k); [right; eauto | now left].
Qed.

Lemma reduce_path_state {S} keys (current : jsvalue) (s : S) :
  snd (reduce_path inherits keys current s) = s.
Proof.
  revert current. induction keys as [|key keys IH]; intros current.
  - reflexivity.
  - cbn [reduce_path]. unfold bind.
    destruct (truthy current) eqn:E; [|apply IH].
    destruct (read_outcome current key s (truthy_not_nullish _ E)) as [->|[what ->]].
    + apply IH.
    + reflexivity.
Qed.

Lemma reduce_path_app {S} keys1 keys2 (current : jsvalue) (s : S) :
  reduce_path inherits (keys1 ++ keys2) current s
  = (do v <- reduce_path inherits keys1 current; reduce_path inherits keys2 v) s.
Proof.
  revert current s. induction keys1 as [|key keys1 IH]; intros current s.
  - reflexivity.
  - cbn [app reduce_path]. unfold bind.
    destruct ((if truthy current then read inherits current key else ret current) s)
      as [[next|e] s1]; [|reflexivity].
    rewrite IH. reflexivity.
Qed.

Lemma reduce_path_falsy {S} keys (current : jsvalue) (s : S) :
  truthy current = false ->
  reduce_path inherits keys current s = (Returned current, s).
Proof.
  intros Hf. induction keys as [|key keys IH]; [reflexivity|].
  cbn [reduce_path]. unfold bind. rewrite Hf. exact IH.
Qed.


(** Once the path has led to a falsy value, every longer path answers
    that value: below [0], [""], [false] or [null] a lookup does not
    answer [undefined]. *)
Theorem getValueByPath_stops_at_falsy {S} (obj v : jsvalue) (p q : string) (s : S) :
  getValueByPath inherits obj p s = (Returned v, s) ->
  truthy v = false ->
  getValueByPath inherits obj (p ++ "." ++ q) s = (Returned v, s).
Proof.
  unfold getValueByPath. intros Hp Hf.
  change ("." ++ q)%string with (String "." q).
  rewrite split_on_app, reduce_path_app. unfold bind. rewrite Hp.
  now apply reduce_path_falsy.
Qed.

End Runtime.

Lemma getValueByPath_stops_at_falsy_witness :
  getValueByPath sample_inherits (Some (JObj [("count", JNum 0)]))
    ("count" ++ "." ++ "unit") tt
  = (Returned (Some (JNum 0)), tt).
Proof.
  apply (getValueByPath_stops_at_falsy sample_inherits (Some (JObj [("count", JNum 0)]))
           (Some (JNum 0)) "count" "unit" tt); reflexivity.
Defined.

(** A key without a dot reads one member; a key of an object that holds
    a dot cannot be reached. *)
Example getValueByPath_nested :
  getValueByPath sample_inherits
    (Some (JObj [("user", JObj [("name", JStr "Quinn")])])) "user.name" tt
  = (Returned (Some (JStr "Quinn")), tt).
Proof. reflexivity. Qed.

Example getValueByPath_dotted_key :
  getValueByPath sample_inherits (Some (JObj [("a.b", JNum 1)])) "a.b" tt
  = (Returned undefined, tt).
Proof. reflexivity. Qed.

(** *** [validateSchema] *)

Lemma strict_eq_string_true a text :
  strict_eq_string a text = true <-> a = Some (JStr text).
Proof.
  unfold strict_eq_string. destruct a as [[[| | |s]| |]|]; try (split; [discriminate|congruence]).
  rewrite String.eqb_eq. split; congruence.
Qed.

Lemma hasOwnProperty_call_hidden {S} schema key (s : S) :
  method_hidden schema = true -> hasOwnProperty_call schema key s = (Thrown TypeError, s).
Proof.
  unfold method_hidden, hasOwnProperty_call.
  destruct schema as [[p|l|props]|]; try discriminate.
  destruct (obj_get props "hasOwnProperty"); [reflexivity|].
  intros H. apply bool_decide_eq_true in H. now destruct H.
Qed.

Lemma hasOwnProperty_call_inherited {S} schema key (s : S) :
  method_hidden schema = false -> hasOwnProperty_call schema key s = (Returned true, s).
Proof.
  unfold method_hidden, hasOwnProperty_call.
  destruct schema as [[p|l|props]|]; try reflexivity.
  destruct (obj_get props "hasOwnProperty"); [|reflexivity].
  intros H. apply bool_decide_eq_false in H. destruct H. eauto.
Qed.

Section Runtime.
Variable inherits : json -> string -> bool.

(** What the loop answers over keys of the schema. *)
Lemma check_keys_outcome {S} data schema keys (s : S) :
  keys ⊆ enumerable_keys schema ->
  forallb (plain_key inherits data) keys = true ->
  try_catch (check_keys inherits data schema keys) answer_false s
  = (Returned (keys_ok data schema keys), s).
Proof.
  intros Hsub Hplain.
  destruct keys as [|key0 keys0]; [reflexivity|].
  unfold keys_ok. set (keys := key0 :: keys0) in *.
  destruct (method_hidden schema) eqn:Hh.
  { unfold try_catch, keys. cbn [check_keys]. unfold bind at 1.
    now rewrite hasOwnProperty_call_hidden. }
  destruct (nullish data) eqn:Hd.
  { unfold try_catch, keys. cbn [check_keys]. unfold bind at 1.
    rewrite hasOwnProperty_call_inherited by exact Hh.
    unfold bind at 1. now rewrite read_nullish. }
  assert (Hs : nullish schema = false).
  { assert (Hk : key0 ∈ enumerable_keys schema) by (apply Hsub; now left).
    destruct schema as [[[| | |]| |]|]; try reflexivity; inversion Hk. }
  rewrite Hs.
  cbn [negb andb]. clearbody keys. clear key0 keys0.
  induction keys as [|key keys IH]; [reflexivity|].
  cbn [forallb] in Hplain. apply andb_true_iff in Hplain as [Hkey Hrest].
  assert (Hown : key ∈ enumerable_keys schema) by (apply Hsub; now left).
  assert (Hsub' : keys ⊆ enumerable_keys schema).
  { intros k Hk. apply Hsub. now right. }
  specialize (IH Hsub' Hrest).
  unfold try_catch in *. cbn [check_keys forallb]. unfold bind at 1.
  rewrite hasOwnProperty_call_inherited by exact Hh.
  unfold bind at 1. rewrite read_plain by assumption.
  unfold bind at 1. rewrite read_own by exact Hown.
  destruct (strict_eq_string (field_of schema key) (typeof (field_of data key)));
    cbn [negb andb]; [exact IH | reflexivity].
Qed.

(** Where no key of the schema reads an inherited property of the data,
    [validateSchema] never throws.  It answers [true] exactly when the
    schema has no key to visit, or when the data is neither [null] nor
    [undefined], no key [hasOwnProperty] hides the method, and at every
    key of the schema the data has the type the schema names there. *)
Theorem validateSchema_spec {S} (data schema : jsvalue) (s : S) :
  forallb (plain_key inherits data) (enumerable_keys schema) = true ->
  exists b,
    validateSchema inherits data schema s = (Returned b, s) /\
    (b = true <->
     enumerable_keys schema = [] \/
     (method_hidden schema = false /\ nullish data = false /\
      forall k, k ∈ enumerable_keys schema -> type_matches data schema k)).
Proof.
  intros Hplain.
  exists (keys_ok data schema (enumerable_keys schema)).
  split; [now apply check_keys_outcome|].
  unfold keys_ok. destruct (enumerable_keys schema) as [|key0 keys0] eqn:Ek.
  { split; auto. }
  assert (Hs : nullish schema = false).
  { destruct schema as [[[| | |]| |]|]; try reflexivity; discriminate. }
  rewrite Hs.
  rewrite !andb_true_iff, !negb_true_iff, forallb_forall.
  split.
  - intros [[[Hh Hd] _] Hall]. right. split; [exact Hh|]. split; [exact Hd|].
    intros k Hk. apply strict_eq_string_true, Hall. now apply list_elem_of_In.
  - intros [Hnil|(Hh & Hd & Hall)]; [discriminate|].
    repeat split; auto. intros k Hk. apply strict_eq_string_true, Hall.
    now apply list_elem_of_In.
Qed.

(** The order in which the loop visits the keys does not matter. *)
Lemma validateSchema_order {S} data schema keys keys' (s : S) :
  keys ≡ₚ keys' ->
  keys ⊆ enumerable_keys schema ->
  forallb (plain_key inherits data) keys = true ->
  try_catch (check_keys inherits data schema keys) answer_false s
  = try_catch (check_keys inherits data schema keys') answer_false s.
Proof.
  intros Hp Hsub Hplain.
  assert (Hsub' : keys' ⊆ enumerable_keys schema).
  { intros k Hk. apply Hsub. now rewrite Hp. }
  assert (Hplain' : forallb (plain_key inherits data) keys' = true).
  { rewrite forallb_forall in *. intros k Hk. apply Hplain.
    apply list_elem_of_In. apply list_elem_of_In in Hk. now rewrite Hp. }
  rewrite !check_keys_outcome by assumption. f_equal. f_equal. unfold keys_ok.
  destruct keys as [|k ks], keys' as [|k' ks'].
  - reflexivity.
  - apply Permutation_nil_l in Hp. discriminate.
  - apply Permutation_nil_r in Hp. discriminate.
  - f_equal. set (P := fun k0 => strict_eq_string _ _).
    apply eq_true_iff_eq. rewrite !forallb_forall.
    split; intros H x Hx; apply H; apply list_elem_of_In; apply list_elem_of_In in Hx.
    + now rewrite Hp.
    + now rewrite <- Hp.
Qed.

End Runtime.

Lemma validateSchema_spec_witness :
  exists b,
    validateSchema sample_inherits
      (Some (JObj [("id", JNum 7); ("tags", JArr [])]))
      (Some (JObj [("id", JStr "number"); ("tags", JStr "array")])) tt
    = (Returned b, tt) /\
    (b = true <->
     enumerable_keys (Some (JObj [("id", JStr "number"); ("tags", JStr "array")])) = [] \/
     (method_hidden (Some (JObj [("id", JStr "number"); ("tags", JStr "array")])) = false /\
      nullish (Some (JObj [("id", JNum 7); ("tags", JArr [])])) = false /\
      forall k,
        k ∈ enumerable_keys (Some (JObj [("id", JStr "number"); ("tags", JStr "array")])) ->
        type_matches (Some (JObj [("id", JNum 7); ("tags", JArr [])]))
                     (Some (JObj [("id", JStr "number"); ("tags", JStr "array")])) k)).
Proof.
  apply (validateSchema_spec sample_inherits
           (Some (JObj [("id", JNum 7); ("tags", JArr [])]))
           (Some (JObj [("id", JStr "number"); ("tags", JStr "array")])) tt).
  reflexivity.
Defined.

Example validateSchema_array_is_object :
  validateSchema sample_inherits
                 (Some (JObj [("tags", JArr []); ("owner", JNull)]))
                 (Some (JObj [("tags", JStr "object"); ("owner", JStr "object")])) tt
  = (Returned true, tt).
Proof. reflexivity. Qed.

Example validateSchema_null_data :
  validateSchema sample_inherits (Some JNull) (Some (JObj [("id", JStr "number")])) tt
  = (Returned false, tt)
  /\ validateSchema sample_inherits (Some JNull) (Some (JObj [])) tt = (Returned true, tt).
Proof. split; reflexivity. Qed.

Example validateSchema_hidden_method :
  validateSchema sample_inherits
                 (Some (JObj [("hasOwnProperty", JStr "x")]))
                 (Some (JObj [("hasOwnProperty", JStr "string")])) tt
  = (Returned false, tt).
Proof. reflexivity. Qed.

(** A schema that names an inherited method asks for a value outside
    the fragment. *)
Example validateSchema_inherited_method :
  validateSchema sample_inherits (Some (JObj []))
                 (Some (JObj [("toString", JStr "function")])) tt
  = (Thrown (Unmodelled "inherited property"), tt).
Proof. reflexivity. Qed.

(** *** [median] *)

Lemma sorted_lookup_le (s : list Z) :
  StronglySorted Z.le s ->
  forall i j a b, (i <= j)%nat -> s !! i = Some a -> s !! j = Some b -> a <= b.
Proof.
  induction 1 as [|x s Hs IH Hx]; intros i j a b Hij Ha Hb.
  - discriminate.
  - destruct i as [|i], j as [|j]; cbn in *.
    + injection Ha as <-. injection Hb as <-. lia.
    + injection Ha as <-. rewrite Forall_forall in Hx. apply Hx.
      eapply list_elem_of_lookup_2; eauto.
    + lia.
    + eapply IH; [|eauto|eauto]. lia.
Qed.

Lemma merge_sort_sorted (arr : list Z) : StronglySorted Z.le (merge_sort Z.le arr).
Proof. apply Sorted_StronglySorted; [apply _|]. apply Sorted_merge_sort. apply _. Qed.

Lemma at_index_nat (l : list Z) (i : nat) : at_index l (Z.of_nat i) = l !! i.
Proof.
  unfold at_index. replace (Z.of_nat i <? 0) with false by (symmetry; apply Z.ltb_ge; lia).
  now rewrite Nat2Z.id.
Qed.

(** The rounded sum of two integers stays between the doubles of the
    two. *)
Lemma double_add_between (a b : Z) :
  a <= b -> 2 * a <= double_add a b <= 2 * b.
Proof.
  intros Hab. unfold double_add.
  destruct (exact_integer (a + b) || Z.even (a + b)) eqn:E; [lia|].
  apply orb_false_iff in E as [_ Hodd].
  assert (a <> b).
  { intros ->. replace (b + b) with (2 * b) in Hodd by lia.
    now rewrite Z.even_mul in Hodd. }
  destruct ((a + b + 1) mod 4 =? 0); lia.
Qed.

(** The median of a non-empty array of integers up to [2^53] in
    magnitude splits its values into a lower and an upper half, the
    values of the one at most the median, those of the other at least;
    the upper half has the value more when the length is odd. *)
Theorem median_splits (arr : list Z) :
  arr <> [] ->
  forallb exact_integer arr = true ->
  exists m lower upper,
    median arr = Returned (Some m) /\
    arr ≡ₚ lower ++ upper /\
    Forall (fun x => (inject_Z x <= m)%Q) lower /\
    Forall (fun x => (m <= inject_Z x)%Q) upper /\
    length upper = (length lower + length arr mod 2)%nat.
Proof.
  intros Hne Hexact. unfold median.
  pose proof (merge_sort_sorted arr) as Hsorted.
  pose proof (merge_sort_Permutation Z.le arr) as Hperm.
  set (s := merge_sort Z.le arr) in *.
  assert (Hrange : forallb exact_integer s = true).
  { apply forallb_forall. intros x Hx. apply (proj1 (forallb_forall _ _) Hexact).
    apply list_elem_of_In. rewrite <- Hperm. now apply list_elem_of_In. }
  rewrite Hrange. cbn [negb].
  assert (Hlen : length s = length arr) by now rewrite Hperm.
  assert (Hpos : (0 < length s)%nat).
  { rewrite Hlen. destruct arr; [congruence | cbn; lia]. }
  set (n := length s) in *. set (k := (n / 2)%nat).
  assert (Hmid : Z.of_nat n / 2 = Z.of_nat k).
  { unfold k. now rewrite Nat2Z.inj_div. }
  assert (Hmod : Z.of_nat n mod 2 = Z.of_nat (n mod 2)).
  { now rewrite Nat2Z.inj_mod. }
  pose proof (Nat.div_mod_eq n 2) as Hdiv. fold k in Hdiv.
  pose proof (Nat.mod_upper_bound n 2 ltac:(lia)) as Hmb.
  assert (Hsplit : arr ≡ₚ take k s ++ drop k s) by now rewrite take_drop.
  assert (Hlens : length (drop k s) = (length (take k s) + length arr mod 2)%nat).
  { rewrite length_drop, length_take. fold n. rewrite <- Hlen. fold n. lia. }
  rewrite Hmid, Hmod.
  destruct (Z.of_nat (n mod 2) =? 0) eqn:Heven.
  - apply Z.eqb_eq in Heven.
    assert (Hk : (1 <= k)%nat) by lia.
    replace (Z.of_nat k - 1) with (Z.of_nat (k - 1)) by lia.
    rewrite !at_index_nat.
    destruct (lookup_lt_is_Some_2 s (k - 1)) as [a Ha]; [fold n; lia|].
    destruct (lookup_lt_is_Some_2 s k) as [b Hb]; [fold n; lia|].
    rewrite Ha, Hb.
    pose proof (sorted_lookup_le s Hsorted (k - 1) k a b ltac:(lia) Ha Hb) as Hab.
    pose proof (double_add_between a b Hab) as Hsum.
    exists (double_add a b # 2), (take k s), (drop k s).
    split; [reflexivity|]. split; [exact Hsplit|].
    split; [|split; [|exact Hlens]].
    + apply Forall_lookup. intros i x Hx.
      apply lookup_take_Some in Hx as [Hx Hi].
      pose proof (sorted_lookup_le s Hsorted i (k - 1) x a ltac:(lia) Hx Ha).
      unfold Qle. cbn. lia.
    + apply Forall_lookup. intros i x Hx. rewrite lookup_drop in Hx.
      pose proof (sorted_lookup_le s Hsorted k (k + i) b x ltac:(lia) Hb Hx).
      unfold Qle. cbn. lia.
  - apply Z.eqb_neq in Heven.
    rewrite at_index_nat.
    destruct (lookup_lt_is_Some_2 s k) as [a Ha]; [fold n; lia|].
    rewrite Ha. cbn [option_map].
    exists (inject_Z a), (take k s), (drop k s).
    split; [reflexivity|]. split; [exact Hsplit|].
    split; [|split; [|exact Hlens]].
    + apply Forall_lookup. intros i x Hx.
      apply lookup_take_Some in Hx as [Hx Hi].
      pose proof (sorted_lookup_le s Hsorted i k x a ltac:(lia) Hx Ha).
      unfold Qle. cbn. lia.
    + apply Forall_lookup. intros i x Hx. rewrite lookup_drop in Hx.
      pose proof (sorted_lookup_le s Hsorted k (k + i) a x ltac:(lia) Ha Hx).
      unfold Qle. cbn. lia.
Qed.

Lemma median_splits_witness :
  exists m lower upper,
    median [310; 120; 95; 240] = Returned (Some m) /\
    [310; 120; 95; 240] ≡ₚ lower ++ upper /\
    Forall (fun x => (inject_Z x <= m)%Q) lower /\
    Forall (fun x => (m <= inject_Z x)%Q) upper /\
    length upper = (length lower + length [310; 120; 95; 240] mod 2)%nat.
Proof.
  apply (median_splits [310; 120; 95; 240]); [discriminate | reflexivity].
Defined.

(** The median does not depend on the order of the values, and the
    median of no value is [NaN]. *)
Theorem median_order (arr arr' : list Z) :
  arr ≡ₚ arr' -> median arr = median arr'.
Proof.
  intros Hp. unfold median.
  assert (Heq : merge_sort Z.le arr = merge_sort Z.le arr').
  { apply (Sorted_unique Z.le).
    - apply Sorted_merge_sort. apply _.
    - apply Sorted_merge_sort. apply _.
    - now rewrite !merge_sort_Permutation. }
  now rewrite Heq.
Qed.

Lemma median_order_witness : median [3; 1; 2] = median [2; 3; 1].
Proof.
  apply (median_order [3; 1; 2] [2; 3; 1]).
  apply (perm_trans (l' := [3; 2; 1])); [apply perm_skip; apply perm_swap | apply perm_swap].
Defined.

Example median_examples :
  median [] = Returned None /\ median [7] = Returned (Some (inject_Z 7))
  /\ median [4; 1] = Returned (Some (5 # 2))
  /\ median [9; 1; 5] = Returned (Some (inject_Z 5))
  /\ median [2 ^ 53 - 1; 2 ^ 53] = Returned (Some (2 ^ 54 # 2))
  /\ median [2 ^ 53 - 3; 2 ^ 53] = Returned (Some (2 ^ 54 - 4 # 2))
  /\ median [2 ^ 1023; 2 ^ 1023] = Thrown (Unmodelled "number beyond 2^53").
Proof. repeat split; vm_compute; reflexivity. Qed.

(** *** [formatResponse] and [assertResponseTime] *)

Lemma formatResponse_props {S} lastRequest response (s s' : S) f :
  formatResponse lastRequest response s = (Returned f, s') ->
  map fst f = ["status"; "statusText"; "headers"; "data"; "config"; "request"; "success"].
Proof.
  unfold formatResponse. intros H.
  destruct (nullish response) eqn:Hn.
  { unfold bind at 1 in H. rewrite member_nullish in H by exact Hn. discriminate. }
  unfold bind in H. rewrite !member_field_of in H by exact Hn.
  destruct (ge_number (field_of response "status") 200 s) as [[reached|e] s1] eqn:E1;
    [|discriminate].
  destruct reached.
  - rewrite member_field_of in H by exact Hn.
    destruct (less_than (field_of response "status") 300 s1) as [[success|e] s2] eqn:E2;
      [|discriminate].
    unfold ret in H. injection H as <- _. reflexivity.
  - unfold ret in H. injection H as <- _. reflexivity.
Qed.

Lemma formatResponse_no_time {S} lastRequest response (s s' : S) f :
  formatResponse lastRequest response s = (Returned f, s') ->
  prop f "responseTime" = None.
Proof.
  intros Hf. apply formatResponse_props in Hf.
  unfold prop. destruct (obj_get f "responseTime") as [v|] eqn:E; [|reflexivity].
  assert (Hin : "responseTime" ∈ map fst f).
  { clear Hf. induction f as [|[k x] f IH]; cbn in *; [discriminate|].
    destruct (String.eqb k "responseTime") eqn:Ek.
    - apply String.eqb_eq in Ek. subst. now left.
    - right. auto. }
  rewrite Hf in Hin. repeat (apply elem_of_cons in Hin as [Hin|Hin]; [discriminate|]).
  inversion Hin.
Qed.

(** Nothing is less than [undefined], and [undefined] is less than
    nothing. *)
Lemma prim_less_undefined p : prim_less p None = None.
Proof.
  unfold prim_less. destruct p as [[|b|n|str]|]; cbn [to_number]; try reflexivity.
  now destruct (string_to_number str).
Qed.

(** A response that [formatResponse] made has no [responseTime], so
    [assertResponseTime] never finds it late.  With a limit whose
    numbers are whole and up to [2^53], the check passes and logs its
    line when the limit converts to a primitive, and the comparison
    throws a [TypeError] when it does not: the check cannot fail with
    the error of a late response on what the HTTP methods of the helper
    return. *)
Theorem assertResponseTime_vacuous {S} lastRequest response (s s' : S) f maxTime log :
  formatResponse lastRequest response s = (Returned f, s') ->
  exact_numbers maxTime = true ->
  if converts maxTime
  then exists limit,
         value_text maxTime = Returned limit /\
         assertResponseTime f maxTime log
         = (Returned tt,
            log ++ [LogInfo ("Response time assertion passed: " ++ "undefined"
                             ++ "ms <= " ++ limit ++ "ms")%string])
  else assertResponseTime f maxTime log = (Thrown TypeError, log).
Proof.
  intros Hf Hx. apply formatResponse_no_time in Hf.
  pose proof (to_primitive_converts maxTime Hx) as Hp.
  pose proof (value_text_converts maxTime Hx) as Ht.
  unfold assertResponseTime. rewrite Hf.
  unfold bind, greater_than, to_string, answer, greater, operands.
  cbn [to_primitive value_text].
  destruct (converts maxTime).
  - destruct Hp as [p ->]. destruct Ht as [limit ->].
    rewrite prim_less_undefined. cbn [is_answer]. unfold ret, modify.
    exists limit. split; reflexivity.
  - now rewrite Hp.
Qed.

Lemma assertResponseTime_vacuous_witness :
  exists f,
    formatResponse (S := unit) (Some JNull) sample_response tt = (Returned f, tt) /\
    exists limit,
      value_text (Some (JNum 0)) = Returned limit /\
      assertResponseTime f (Some (JNum 0)) []
      = (Returned tt,
         [] ++ [LogInfo ("Response time assertion passed: " ++ "undefined"
                         ++ "ms <= " ++ limit ++ "ms")%string]).
Proof.
  destruct (formatResponse (S := unit) (Some JNull) sample_response tt)
    as [[f|e] []] eqn:E.
  - exists f. split; [reflexivity|].
    exact (assertResponseTime_vacuous (Some JNull) sample_response tt tt f
             (Some (JNum 0)) [] E eq_refl).
  - vm_compute in E. discriminate.
Defined.

(** A limit that does not convert: the comparison throws. *)
Example assertResponseTime_limit_object :
  fst (assertResponseTime [] (Some (JObj [("toString", JNum 1)])) [])
  = Thrown TypeError.
Proof. vm_compute. reflexivity. Qed.

(** A response that does carry a time is checked against the limit. *)
Example assertResponseTime_late :
  fst (assertResponseTime [("responseTime", Some (JNum 950))] (Some (JNum 500)) [])
  = Thrown (Error "Response time 950ms exceeded maximum 500ms").
Proof. vm_compute. reflexivity. Qed.

End APIHelperFacts.

(** ** The generated-data store, the cache, export and search *)

Module TestDataStoreFacts.
Import TestDataManager Validation Coercion Samples JSONTextFacts FsFacts HeapFacts.
Import TestDataFacts ValidationFacts TestDataStore.

(** *** The map of generated data *)

Lemma map_get_set_eq g key value : map_get (map_set g key value) key = Some value.
Proof.
  induction g as [|[k v] g IH]; cbn.
  - now rewrite decide_True.
  - destruct (decide (k = key)) as [->|Hne]; cbn.
    + now rewrite decide_True.
    + now rewrite decide_False.
Qed.

Lemma map_get_set_ne g key value key' :
  key' <> key -> map_get (map_set g key value) key' = map_get g key'.
Proof.
  intros Hne. induction g as [|[k v] g IH]; cbn.
  - now rewrite decide_False by congruence.
  - destruct (decide (k = key)) as [->|Hk]; cbn.
    + now rewrite !decide_False by congruence.
    + destruct (decide (k = key')); [reflexivity | exact IH].
Qed.

Lemma map_get_delete_eq g key : map_get (map_delete g key) key = None.
Proof.
  induction g as [|[k v] g IH]; cbn; [reflexivity|].
  destruct (bool_decide (k = key)) eqn:E; cbn; [exact IH|].
  apply bool_decide_eq_false in E. now rewrite decide_False.
Qed.

Lemma map_get_delete_ne g key key' :
  key' <> key -> map_get (map_delete g key) key' = map_get g key'.
Proof.
  intros Hne. induction g as [|[k v] g IH]; cbn; [reflexivity|].
  destruct (bool_decide (k = key)) eqn:E; cbn.
  - apply bool_decide_eq_true in E. subst. now rewrite decide_False by congruence.
  - destruct (decide (k = key')); [reflexivity | exact IH].
Qed.

(** What is saved under a key is what a read of the key answers: the
    saved value itself, an object by reference and not a copy; the other
    keys keep what they had. *)
Theorem getGeneratedData_after_save key data st st1 :
  saveGeneratedData key data st = (Returned tt, st1) ->
  (exists st2, getGeneratedData key st1 = (Returned data, st2)) /\
  heap_of (fst st1) = heap_of (fst st) /\
  forall key', key' <> key -> map_get (snd st1) key' = map_get (snd st) key'.
Proof.
  destruct st as [[h c d lg] g].
  unfold saveGeneratedData, bind, on_snd, on_fst, modify, text_of, logger.
  cbn [fst snd heap_of].
  destruct (to_string_h h key) as [text|] eqn:Et; [|discriminate].
  intros [= <-]. cbn [fst snd heap_of]. split; [|split; [reflexivity|]].
  - unfold getGeneratedData, bind, on_snd, on_fst, gets, text_of, logger, modify.
    cbn [fst snd heap_of]. rewrite map_get_set_eq.
    rewrite bool_decide_eq_true_2 by eauto. cbn [fst snd heap_of].
    rewrite Et. cbn. rewrite map_get_set_eq. cbn. eauto.
  - intros key' Hne. now apply map_get_set_ne.
Qed.

(** A clear with a falsy key -- [null], [undefined], but also [""], [0]
    and [false] -- empties the whole store: data saved under such a key
    cannot be cleared alone.  A clear with any other key removes that
    key only, and a read of it throws afterwards. *)
Theorem clearGeneratedData_spec key st :
  (truthy_h key = false ->
   exists st1, clearGeneratedData key st = (Returned tt, st1) /\ snd st1 = []) /\
  (truthy_h key = true ->
   forall st1, clearGeneratedData key st = (Returned tt, st1) ->
     map_get (snd st1) key = None /\
     (forall key', key' <> key -> map_get (snd st1) key' = map_get (snd st) key') /\
     exists message st2,
       getGeneratedData key st1 = (Thrown (Error message), st2)).
Proof.
  destruct st as [[h c d lg] g]. unfold clearGeneratedData. split; intros Hk; rewrite Hk.
  - unfold bind, on_snd, on_fst, modify, logger. cbn. eauto.
  - intros st1. unfold bind, on_snd, on_fst, modify, text_of, logger.
    cbn [fst snd heap_of].
    destruct (to_string_h h key) as [text|] eqn:Et; [|discriminate].
    intros [= <-]. cbn [fst snd]. split; [apply map_get_delete_eq|].
    split; [intros key' Hne; now apply map_get_delete_ne|].
    unfold getGeneratedData, bind, on_snd, on_fst, gets, text_of, throw.
    cbn [fst snd heap_of]. rewrite map_get_delete_eq.
    rewrite bool_decide_eq_false_2 by (intros [x Hx]; discriminate).
    cbn [fst snd heap_of]. rewrite Et. eauto.
Qed.

(** *** The cache *)

Section WithJSON.
Context {J : JSONImpl}.

(** A load of a file that is not in the cache reads the disk: whatever
    text stands there, if it parses. *)
Lemma loadTestData_miss_text fileName st text x :
  cache st !! fileName = None ->
  file_text (disk st) (data_file fileName) = Some text ->
  JSON_parse text = Some x ->
  exists root st2,
    loadTestData fileName st = (Returned root, st2) /\
    denotes (heap_of st2) root (Some x) /\
    cache st2 = <[fileName := root]> (cache st) /\
    disk st2 = disk st /\ heap_of st ⊆ heap_of st2.
Proof.
  intros Hc Hfile Hparse. destruct st as [h c d lg]. cbn [cache disk heap_of] in *.
  assert (Hnode : node_at d (data_file fileName) = Some (File text)).
  { unfold file_text in Hfile. destruct (node_at d (data_file fileName)) as [[|text']|];
      congruence. }
  unfold loadTestData. unfold bind at 1, gets. cbn [cache]. rewrite Hc.
  fold (data_file fileName).
  unfold try_catch, bind, on_disk, on_heap, existsSync, readFileSync, gets, ret.
  cbn [disk heap_of cache log]. unfold is_file. rewrite Hnode, orb_true_r.
  cbn [negb disk heap_of cache log]. rewrite Hnode. cbn [disk heap_of cache log].
  rewrite Hparse. cbn [disk heap_of cache log].
  destruct (alloc_json x h) as [v h'] eqn:Ea.
  destruct (alloc_json_ok x h v h' Ea) as [[Hsub _ _] Hden].
  unfold cache_set, logger, modify. cbn [disk heap_of cache log].
  do 2 eexists. split; [reflexivity|]. cbn [disk heap_of cache log]. auto.
Qed.

(** The same for a file the framework wrote itself. *)
Lemma loadTestData_miss fileName st x :
  JSON_faithful J -> json_wf x ->
  cache st !! fileName = None ->
  file_text (disk st) (data_file fileName) = Some (JSON_stringify x) ->
  exists root st2,
    loadTestData fileName st = (Returned root, st2) /\
    denotes (heap_of st2) root (Some x) /\
    cache st2 = <[fileName := root]> (cache st) /\
    disk st2 = disk st /\ heap_of st ⊆ heap_of st2.
Proof.
  intros [Hrt _] Hwf Hc Hfile.
  exact (loadTestData_miss_text fileName st _ x Hc Hfile (Hrt x Hwf)).
Qed.

(** After [clearCache] the cache is empty and a load reads the file
    again, whatever the cache held before: it answers what the text of
    the file parses to now, so that a file that has changed since the
    first load is seen only now. *)
Theorem clearCache_reloads fileName st text x :
  file_text (disk st) (data_file fileName) = Some text ->
  JSON_parse text = Some x ->
  exists st1 root st2,
    clearCache st = (Returned tt, st1) /\
    cache st1 = ∅ /\
    loadTestData fileName st1 = (Returned root, st2) /\
    denotes (heap_of st2) root (Some x).
Proof.
  intros Hfile Hparse. destruct st as [h c d lg]. cbn [disk] in Hfile.
  unfold clearCache, bind, modify, logger. cbn [heap_of cache disk log].
  destruct (loadTestData_miss_text fileName
              {| heap_of := h; cache := ∅; disk := d;
                 log := lg ++ [LogInfo "Test data cache cleared"] |} text x)
    as (root & st2 & Hload & Hden & _);
    [apply lookup_empty | exact Hfile | exact Hparse |].
  eauto 10.
Qed.

(** *** Export *)

Lemma exportTestData_ok fileName data st st1 :
  exportTestData fileName data st = (Returned tt, st1) ->
  exists x,
    view (S (size (heap_of st))) (heap_of st) data = Some (Some x) /\
    file_text (disk st1) (data_file fileName) = Some (JSON_stringify x) /\
    heap_of st1 = heap_of st /\ cache st1 = cache st.
Proof.
  destruct st as [h c d lg]. unfold exportTestData. fold (data_file fileName).
  unfold try_catch, bind, stringify_data, on_disk, logger, modify, throw.
  cbn [heap_of cache disk log].
  destruct (view (S (size h)) h data) as [[x|]|] eqn:Ev;
    cbn [heap_of cache disk log]; try discriminate.
  destruct (writeFileSync (data_file fileName) (JSON_stringify x) d) as [[[]|e] d'] eqn:Ew;
    cbn [heap_of cache disk log]; [|discriminate].
  intros [= <-]. cbn [heap_of cache disk log]. exists x. split; [reflexivity|].
  split; [|auto].
  unfold writeFileSync in Ew.
  destruct (is_dir d (data_file fileName)); [discriminate|].
  destruct (negb (is_dir d (dirname (data_file fileName)))); [discriminate|].
  destruct (denied d (data_file fileName)); [discriminate|].
  injection Ew as <-. apply file_text_with_file.
Qed.

(** What is exported under a name that is not in the cache is what a
    load of the name answers afterwards: the value as [JSON.stringify]
    saw it. *)
Theorem loadTestData_after_export fileName data st st1 :
  JSON_faithful J ->
  exportTestData fileName data st = (Returned tt, st1) ->
  cache st !! fileName = None ->
  (forall x, view (S (size (heap_of st))) (heap_of st) data = Some (Some x) -> json_wf x) ->
  exists x root st2,
    view (S (size (heap_of st))) (heap_of st) data = Some (Some x) /\
    loadTestData fileName st1 = (Returned root, st2) /\
    denotes (heap_of st2) root (Some x).
Proof.
  intros HJ Hexp Hc Hwf.
  destruct (exportTestData_ok _ _ _ _ Hexp) as (x & Hview & Hfile & _ & Hcache).
  destruct (loadTestData_miss fileName st1 x HJ (Hwf x Hview)) as (root & st2 & Hload & Hden & _);
    [now rewrite Hcache | exact Hfile |].
  eauto 10.
Qed.

(** An export does not touch the cache: under a name that was loaded
    before, a load after the export still answers the object of before,
    and not what was exported. *)
Theorem loadTestData_stale_after_export fileName data st st1 old :
  exportTestData fileName data st = (Returned tt, st1) ->
  cache st !! fileName = Some old ->
  exists st2,
    loadTestData fileName st1 = (Returned old, st2) /\
    heap_of st2 = heap_of st.
Proof.
  intros Hexp Hc.
  destruct (exportTestData_ok _ _ _ _ Hexp) as (x & _ & _ & Hheap & Hcache).
  destruct (loadTestData_hit fileName st1 old) as (st2 & Hload & Hh & _);
    [now rewrite Hcache|].
  exists st2. split; [exact Hload | congruence].
Qed.

End WithJSON.

(** *** Search *)

Lemma spread_h_reachable h v elems x l :
  spread_h h v = Returned elems -> x ∈ elems -> reachable h x l -> reachable h v l.
Proof.
  destruct v as [|[| | |s]|lv]; cbn; try discriminate.
  - intros [= <-] Hx Hr. apply list_elem_of_fmap in Hx as (c & -> & _).
    now apply reachable_prim in Hr.
  - destruct (h !! lv) as [[props|vs]|] eqn:E; try discriminate.
    intros [= <-] Hx Hr. eapply reach_step; eauto.
Qed.

Lemma gather_reachable h data groups : forall elems x l,
  gather h data groups = Returned elems -> x ∈ elems ->
  reachable h x l -> reachable h data l.
Proof.
  induction groups as [|g groups IH]; intros elems x l; cbn.
  - intros [= <-] Hx. inversion Hx.
  - destruct (hread h data g) as [v|e] eqn:Ev; [|discriminate].
    destruct (spread_h h v) as [first|e] eqn:Es; [|discriminate].
    destruct (gather h data groups) as [more|e] eqn:Eg; [|discriminate].
    intros [= <-] Hx Hr. apply elem_of_app in Hx as [Hx|Hx].
    + eapply hread_reachable; [exact Ev|]. eapply spread_h_reachable; eauto.
    + eapply IH; eauto.
Qed.

Lemma find_by_elem h elems field value x :
  find_by h elems field value = Returned x -> x = HUndefined \/ x ∈ elems.
Proof.
  induction elems as [|y elems IH]; cbn.
  - intros [= <-]. now left.
  - destruct (hread h y field) as [v|e]; [|discriminate].
    destruct (bool_decide (v = value)).
    + intros [= <-]. right. now left.
    + intros H. destruct (IH H) as [->|Hin]; [now left | right; now right].
Qed.

(** A group that is missing makes the gathering throw. *)
Lemma gather_missing_group h data groups g :
  g ∈ groups -> hread h data g = Returned HUndefined ->
  exists e, gather h data groups = Thrown e.
Proof.
  intros Hg Hread. induction groups as [|g' groups IH]; [inversion Hg|].
  cbn. apply elem_of_cons in Hg as [<-|Hg].
  - rewrite Hread. cbn. eauto.
  - destruct (hread h data g') as [v|e]; [|eauto].
    destruct (spread_h h v) as [first|e]; [|eauto].
    destruct (IH Hg) as [e ->]. eauto.
Qed.

Section Search.
Context {J : JSONImpl}.

Lemma findUserByEmail_find_entry email :
  findUserByEmail email = find_entry "users" user_groups "email" email.
Proof. reflexivity. Qed.

Lemma findProductBySku_find_entry sku :
  findProductBySku sku = find_entry "products" product_groups "sku" sku.
Proof. reflexivity. Qed.

Lemma find_entry_cached fileName groups field value st l st1 :
  heap_closed st ->
  find_entry fileName groups field value st = (Returned (HRef l), st1) ->
  cached_object st1 l /\ cache st1 !! fileName <> None.
Proof.
  intros Hclosed. unfold find_entry. unfold bind at 1.
  destruct (loadTestData fileName st) as [[root|e] sta] eqn:Eload; [|discriminate].
  destruct (loadTestData_ok _ _ _ _ Hclosed Eload) as [Hroot _].
  destruct sta as [h c d lg]. cbn [cache] in Hroot.
  unfold bind, on_heap, new_array, alloc. cbn [heap_of cache disk log].
  destruct (gather h root groups) as [elems|e] eqn:Eg; [|discriminate].
  cbn [heap_of cache disk log].
  intros H. injection H as Ef <-. cbn [cache heap_of].
  split; [|congruence].
  destruct (find_by_elem _ _ _ _ _ Ef) as [Hu|Hin]; [discriminate|].
  exists fileName, root. split; [exact Hroot|]. cbn [heap_of].
  eapply reachable_mono.
  - apply insert_subseteq. apply not_elem_of_dom. apply is_fresh.
  - eapply gather_reachable; eauto. constructor.
Qed.

(** A search hands out the cached object itself, not a copy: what the
    caller writes into it is written into the cached data. *)
Theorem searches_return_cached_objects value st l st1 :
  heap_closed st ->
  (findUserByEmail value st = (Returned (HRef l), st1) -> cached_object st1 l) /\
  (findProductBySku value st = (Returned (HRef l), st1) -> cached_object st1 l).
Proof.
  intros Hclosed. split; intros H.
  - rewrite findUserByEmail_find_entry in H. now apply (find_entry_cached _ _ _ _ _ _ _ Hclosed H).
  - rewrite findProductBySku_find_entry in H. now apply (find_entry_cached _ _ _ _ _ _ _ Hclosed H).
Qed.

Lemma find_entry_missing_group fileName groups field value st root sta g :
  loadTestData fileName st = (Returned root, sta) ->
  g ∈ groups ->
  hread (heap_of sta) root g = Returned HUndefined ->
  exists e st1, find_entry fileName groups field value st = (Thrown e, st1).
Proof.
  intros Hload Hg Hread. unfold find_entry. unfold bind at 1. rewrite Hload.
  destruct sta as [h c d lg]. cbn [heap_of] in Hread.
  unfold bind at 1. unfold on_heap at 1. cbn [heap_of cache disk log].
  destruct (gather_missing_group h root groups g Hg Hread) as [e ->]. eauto.
Qed.

(** A search needs all four groups of its file: when one of them is
    missing the search throws, whatever the other groups hold. *)
Theorem searches_need_every_group value st root sta g :
  (loadTestData "users" st = (Returned root, sta) ->
   g ∈ user_groups -> hread (heap_of sta) root g = Returned HUndefined ->
   exists e st1, findUserByEmail value st = (Thrown e, st1)) /\
  (loadTestData "products" st = (Returned root, sta) ->
   g ∈ product_groups -> hread (heap_of sta) root g = Returned HUndefined ->
   exists e st1, findProductBySku value st = (Thrown e, st1)).
Proof.
  split; intros Hload Hg Hread.
  - rewrite findUserByEmail_find_entry. eapply find_entry_missing_group; eauto.
  - rewrite findProductBySku_find_entry. eapply find_entry_missing_group; eauto.
Qed.

End Search.

(** *** [validateProductData] *)

Lemma price_ok_truthy product : price_ok product = true -> truthy (field_of product "price") = true.
Proof.
  unfold price_ok. destruct (field_of product "price") as [[[| |n|]| |]|]; try discriminate.
  cbn. intros H. apply Z.ltb_lt in H. apply negb_true_iff, Z.eqb_neq. lia.
Qed.

(** What [validateProductData] answers on a product that is neither
    [null] nor [undefined]. *)
Lemma validateProductData_outcome {S} (product : jsvalue) (s : S) :
  nullish product = false ->
  exists r,
    validateProductData product s = (Returned r, s) /\
    valid r = truthy (field_of product "name") && truthy (field_of product "category")
              && price_ok product && quantity_ok product /\
    (valid r = true -> errors r = []) /\
    (valid r = false -> errors r <> []).
Proof.
  intros Hn. unfold validateProductData, productFields. cbn [filter_missing].
  unfold bind. rewrite !member_field_of by exact Hn. unfold ret.
  destruct (truthy (field_of product "name")) eqn:Hname; cbn [negb andb].
  2:{ destruct (truthy (field_of product "price")), (truthy (field_of product "category"));
      cbn; eexists; (split; [reflexivity|]); cbn; repeat split; discriminate. }
  destruct (truthy (field_of product "price")) eqn:Hprice; cbn [negb andb].
  2:{ assert (Hp : price_ok product = false).
      { destruct (price_ok product) eqn:E; [|reflexivity].
        apply price_ok_truthy in E. congruence. }
      rewrite Hp, andb_false_r. cbn [andb].
      destruct (truthy (field_of product "category"));
        cbn; eexists; (split; [reflexivity|]); cbn; repeat split; discriminate. }
  destruct (truthy (field_of product "category")) eqn:Hcat; cbn [negb andb].
  2:{ eexists. split; [reflexivity|]. cbn. repeat split; discriminate. }
  change (0 <? Z.of_nat (length (@nil string))) with false. cbv beta iota.
  rewrite !member_field_of by exact Hn.
  unfold price_ok, quantity_ok.
  destruct (field_of product "price") as [[[|b|n|str]|elems|props]|] eqn:Eprice;
    try discriminate;
    destruct (field_of product "quantity") as [[[|b'|q|str']|elems'|props']|] eqn:Equantity;
    repeat (first [ rewrite member_field_of by exact Hn
                  | rewrite Equantity | rewrite Eprice
                  | rewrite less_than_number
                  | progress cbn [typeof String.eqb Ascii.eqb Bool.eqb negb andb orb]
                  | progress unfold ret ]).
  all: try (cbn in Hprice; apply negb_true_iff, Z.eqb_neq in Hprice).
  all: repeat match goal with
       | |- context [?a <? ?b] =>
           let E := fresh "E" in
           destruct (a <? b) eqn:E; [apply Z.ltb_lt in E | apply Z.ltb_ge in E]
       | |- context [?a <=? ?b] =>
           let E := fresh "E" in
           destruct (a <=? b) eqn:E; [apply Z.leb_le in E | apply Z.leb_gt in E]
       end.
  all: try (exfalso; lia).
  all: eexists; (split; [reflexivity|]); cbn; repeat split;
    try discriminate; try reflexivity.
Qed.

(** [validateProductData] throws a [TypeError] on [null] and
    [undefined].  On every other product it answers [valid: true], with
    no error, exactly when name and category are truthy, the price is a
    number above 0, and the quantity is absent or a number that is not
    negative; otherwise it answers [valid: false] with at least one
    error. *)
Theorem validateProductData_spec {S} (product : jsvalue) (s : S) :
  (nullish product = true -> validateProductData product s = (Thrown TypeError, s)) /\
  (nullish product = false ->
   exists r,
     validateProductData product s = (Returned r, s) /\
     valid r = truthy (field_of product "name") && truthy (field_of product "category")
               && price_ok product && quantity_ok product /\
     (valid r = true -> errors r = []) /\
     (valid r = false -> errors r <> [])).
Proof.
  split.
  - intros Hn. unfold validateProductData, productFields. cbn [filter_missing].
    unfold bind at 1. unfold bind at 1. now rewrite member_nullish.
  - apply validateProductData_outcome.
Qed.

(** *** Sample runs *)

#[local] Existing Instance JSONText.text_json.

Lemma sample_users_wf : json_wf sample_users.
Proof.
  cbn. repeat match goal with
            | |- _ /\ _ => split
            | |- True => exact I
            | |- NoDup [] => apply NoDup_nil_2
            | |- NoDup (_ :: _) => apply NoDup_cons_2
            | |- _ ∉ _ => rewrite ?not_elem_of_cons; rewrite ?elem_of_nil
            | |- _ <> _ => discriminate
            | |- ~ False => tauto
            end.
Qed.

Lemma full_manager_closed : heap_closed full_manager.
Proof.
  intros l (key & root & Hkey & _). cbn in Hkey. now rewrite lookup_empty in Hkey.
Qed.

Lemma getGeneratedData_after_save_witness :
  exists st1 st2,
    saveGeneratedData (HPrim (PStr "admin")) (HPrim (PNum 7)) (sample_manager, [])
    = (Returned tt, st1) /\
    getGeneratedData (HPrim (PStr "admin")) st1 = (Returned (HPrim (PNum 7)), st2).
Proof.
  destruct (saveGeneratedData (HPrim (PStr "admin")) (HPrim (PNum 7)) (sample_manager, []))
    as [[[]|e] st1] eqn:E.
  - destruct (proj1 (getGeneratedData_after_save _ _ _ _ E)) as [st2 H].
    exists st1, st2. split; [reflexivity | exact H].
  - vm_compute in E. discriminate.
Defined.

Lemma clearGeneratedData_spec_witness :
  exists st1,
    clearGeneratedData (HPrim (PStr ""))
      (sample_manager, [(HPrim (PStr ""), HPrim (PNum 1));
                        (HPrim (PStr "admin"), HPrim (PNum 7))])
    = (Returned tt, st1) /\ snd st1 = [].
Proof.
  exact (proj1 (clearGeneratedData_spec (HPrim (PStr "")) _) eq_refl).
Defined.

Lemma clearCache_reloads_witness :
  exists st1 root st2,
    clearCache edited_manager = (Returned tt, st1) /\
    cache st1 = ∅ /\
    loadTestData "users" st1 = (Returned root, st2) /\
    denotes (heap_of st2) root (Some (JObj [("validUsers", JArr [JNum 1; JNum 2])])).
Proof.
  apply (clearCache_reloads "users" edited_manager edited_text
           (JObj [("validUsers", JArr [JNum 1; JNum 2])])).
  - reflexivity.
  - vm_compute. reflexivity.
Defined.

Lemma loaded_manager_load :
  loadTestData "users" sample_manager = (Returned loaded_users, loaded_manager).
Proof. vm_compute. reflexivity. Qed.

Lemma loaded_users_view x :
  view (S (size (heap_of loaded_manager))) (heap_of loaded_manager) loaded_users
  = Some (Some x) -> x = sample_users.
Proof. vm_compute. congruence. Qed.

Lemma loadTestData_after_export_witness :
  exists st1 x root st2,
    exportTestData "backup" loaded_users loaded_manager = (Returned tt, st1) /\
    view (S (size (heap_of loaded_manager))) (heap_of loaded_manager) loaded_users
    = Some (Some x) /\
    loadTestData "backup" st1 = (Returned root, st2) /\
    denotes (heap_of st2) root (Some x).
Proof.
  destruct (exportTestData "backup" loaded_users loaded_manager) as [[[]|e] st1] eqn:E.
  - destruct (loadTestData_after_export "backup" loaded_users loaded_manager st1
                text_json_faithful E)
      as (x & root & st2 & H).
    + reflexivity.
    + intros x Hx. rewrite (loaded_users_view x Hx). apply sample_users_wf.
    + exists st1, x, root, st2. split; [reflexivity | exact H].
  - vm_compute in E. discriminate.
Defined.

Lemma loadTestData_stale_after_export_witness :
  exists st1 st2,
    exportTestData "users" (HPrim (PStr "replaced")) loaded_manager = (Returned tt, st1) /\
    loadTestData "users" st1 = (Returned loaded_users, st2) /\
    heap_of st2 = heap_of loaded_manager.
Proof.
  destruct (exportTestData "users" (HPrim (PStr "replaced")) loaded_manager)
    as [[[]|e] st1] eqn:E.
  - destruct (loadTestData_stale_after_export "users" _ loaded_manager st1 loaded_users E)
      as (st2 & H); [reflexivity|].
    exists st1, st2. split; [reflexivity | exact H].
  - vm_compute in E. discriminate.
Defined.

Lemma searches_return_cached_objects_witness :
  exists l st1,
    findUserByEmail (HPrim (PStr "user@example.com")) full_manager
    = (Returned (HRef l), st1) /\
    cached_object st1 l.
Proof.
  destruct (findUserByEmail (HPrim (PStr "user@example.com")) full_manager)
    as [[[|p|l]|e] st1] eqn:E.
  - vm_compute in E. discriminate.
  - vm_compute in E. discriminate.
  - exists l, st1. split; [reflexivity|].
    exact (proj1 (searches_return_cached_objects _ full_manager l st1 full_manager_closed) E).
  - vm_compute in E. discriminate.
Defined.

Lemma searches_need_every_group_witness :
  exists e st1,
    findUserByEmail (HPrim (PStr "user@example.com")) sample_manager = (Thrown e, st1).
Proof.
  apply (proj1 (searches_need_every_group (HPrim (PStr "user@example.com"))
                  sample_manager loaded_users loaded_manager "testUsers")).
  - apply loaded_manager_load.
  - unfold user_groups. do 2 right. left.
  - vm_compute. reflexivity.
Defined.

(** The file of the sample manager has no test users and no bulk users:
    the search throws where the getter answers. *)
Example search_throws_where_getter_answers :
  fst (findUserByEmail (HPrim (PStr "user@example.com")) sample_manager) = Thrown TypeError
  /\ exists v st1, getUser "valid" 0 sample_manager = (Returned v, st1).
Proof. split; [vm_compute; reflexivity | do 2 eexists; vm_compute; reflexivity]. Qed.

(** A user is searched, the caller overwrites the email of the object it
    was given, and the getter answers the changed email from then on. *)
Example getUser_after_write_through_search :
  exists l props st1,
    findUserByEmail (HPrim (PStr "user@example.com")) full_manager
    = (Returned (HRef l), st1) /\
    heap_of st1 !! l = Some (CObj props) /\
    let h2 := <[l := CObj (obj_set props "email" (HPrim (PStr "changed@example.com")))]>
                (heap_of st1) in
    exists v2 st3,
      getUser "valid" 0 (with_heap st1 h2) = (Returned v2, st3) /\
      reify_json 3 (heap_of st3) v2
      = Some (JObj [("email", JStr "changed@example.com"); ("password", JStr "secret1")]).
Proof.
  do 3 eexists. split; [vm_compute; reflexivity|].
  split; [vm_compute; reflexivity|].
  cbv zeta. do 2 eexists. split; vm_compute; reflexivity.
Qed.

Example price_zero_is_missing :
  validateProductData
    (Some (JObj [("name", JStr "Sample"); ("price", JNum 0); ("category", JStr "gift")])) tt
  = (Returned {| valid := false; errors := ["Missing required fields: price"] |}, tt).
Proof. vm_compute. reflexivity. Qed.

Example quantity_null_is_rejected :
  validateProductData
    (Some (JObj [("name", JStr "Sample"); ("price", JNum 5); ("category", JStr "gift");
                 ("quantity", JNull)])) tt
  = (Returned {| valid := false;
                 errors := ["Quantity must be a non-negative number"] |}, tt).
Proof. vm_compute. reflexivity. Qed.

Lemma validateProductData_spec_witness :
  exists r,
    validateProductData
      (Some (JObj [("name", JStr "Sample"); ("price", JNum 5); ("category", JStr "gift")])) tt
    = (Returned r, tt) /\
    valid r = true /\ errors r = [].
Proof.
  destruct (proj2 (validateProductData_spec
                     (Some (JObj [("name", JStr "Sample"); ("price", JNum 5);
                                  ("category", JStr "gift")])) tt) eq_refl)
    as (r & Hrun & Hvalid & Hgood & _).
  exists r. split; [exact Hrun|]. split; [exact Hvalid | exact (Hgood Hvalid)].
Defined.

End TestDataStoreFacts.

(** ** Modified copies and invalid variations *)

Module DataVariationFacts.
Import TestDataManager Validation Coercion JSONTextFacts HeapFacts ObjectFacts.
Import TestDataFacts ValidationFacts TestDataStore TestDataStoreFacts DataVariations.

Lemma field_of_obj_set u k v k' :
  field_of (Some (JObj (obj_set u k v))) k'
  = if String.eqb k k' then Some v else field_of (Some (JObj u)) k'.
Proof. cbn. apply obj_get_set. Qed.

Lemma reify_prop_prim n h k p : reify_prop n h (k, HPrim p) = Some (k, JPrim p).
Proof. unfold reify_prop. cbn. now destruct n. Qed.

(** Reading an object after an assignment is assigning to what was
    read. *)
Lemma mapM_obj_set n h ps k p : forall u,
  mapM (reify_prop n h) ps = Some u ->
  mapM (reify_prop n h) (obj_set ps k (HPrim p)) = Some (obj_set u k (JPrim p)).
Proof.
  induction ps as [|[k0 v0] ps IH]; intros u Hu.
  - cbn in Hu. injection Hu as <-. cbn. now rewrite reify_prop_prim.
  - cbn [mapM] in Hu. cbn [obj_set].
    destruct (reify_prop n h (k0, v0)) as [[k1 j0]|] eqn:E0; [|discriminate].
    assert (k1 = k0) as ->.
    { unfold reify_prop in E0. cbn in E0. destruct (reify_json n h v0); [|discriminate].
      now injection E0. }
    cbn in Hu. destruct (mapM (reify_prop n h) ps) as [u'|] eqn:Eu; [|discriminate].
    cbn in Hu. injection Hu as <-. cbn [obj_set].
    destruct (String.eqb k0 k).
    + cbn [mapM]. rewrite reify_prop_prim. cbn. rewrite Eu. reflexivity.
    + cbn [mapM]. rewrite E0. cbn. rewrite (IH u' eq_refl). reflexivity.
Qed.

Lemma mapM_assign n h flat : forall ps u,
  mapM (reify_prop n h) ps = Some u ->
  mapM (reify_prop n h) (assign HPrim ps flat) = Some (assign JPrim u flat).
Proof.
  unfold assign. induction flat as [|[k p] flat IH]; intros ps u Hu; cbn; [exact Hu|].
  apply IH. now apply mapM_obj_set.
Qed.

(** A copy with modifications, on the heap. *)
Lemma clone_then_merge h l u m mods flat :
  object_at h l u ->
  h !! m = Some (CObj mods) -> flat_props mods = Some flat ->
  exists l' h1 h2,
    cloneDeep (HRef l) h = (Returned (HRef l'), h1) /\
    merge (HRef l') (HRef m) h1 = (Returned (HRef l'), h2) /\
    (l' ∉ dom h) /\
    (forall l0, l0 ∈ dom h -> h2 !! l0 = h !! l0) /\
    exists n, reify_json n h2 (HRef l') = Some (JObj (assign JPrim u flat)).
Proof.
  unfold object_at. intros Hu Hm Hflat.
  rewrite (cloneDeep_ref _ _ _ Hu), alloc_json_obj.
  destruct (alloc_props u h) as [ps h0] eqn:Ep. unfold alloc. cbn [fst snd].
  assert (Hspec : Forall (fun kv : string * json => alloc_spec (snd kv)) u).
  { apply Forall_forall. intros kv _. apply alloc_json_ok. }
  destruct (alloc_props_ok u Hspec _ _ _ Ep) as [[Hsub _ _] [n Hr]].
  set (l' := fresh (dom h0)).
  assert (Hfresh : l' ∉ dom h0) by apply is_fresh.
  assert (Hnew : l' ∉ dom h).
  { intros Hin. apply Hfresh. revert Hin. apply subseteq_dom in Hsub. apply Hsub. }
  assert (Hne : m <> l').
  { intros ->. apply Hnew. apply elem_of_dom. eauto. }
  exists l', (<[l' := CObj ps]> h0),
    (<[l' := CObj (assign HPrim ps flat)]> (<[l' := CObj ps]> h0)).
  split; [reflexivity|]. split.
  { unfold merge. rewrite lookup_insert_eq, lookup_insert_ne by congruence.
    rewrite (lookup_weaken _ _ _ _ Hm Hsub), Hflat. reflexivity. }
  split; [exact Hnew|]. split.
  { intros l0 Hl0. assert (l0 <> l') by (intros ->; contradiction).
    rewrite !lookup_insert_ne by congruence.
    apply elem_of_dom in Hl0 as [c Hc]. rewrite Hc. eapply lookup_weaken; eauto. }
  exists (S n). rewrite reify_ref, lookup_insert_eq. rewrite insert_insert_eq.
  erewrite mapM_assign; [reflexivity|].
  eapply mapM_mono; [|exact Hr].
  intros [k y] [k' j] _. unfold reify_prop. cbn [fst snd].
  destruct (reify_json n h0 y) as [j'|] eqn:Ey; [|discriminate].
  intros [= <- <-].
  erewrite reify_json_mono; [reflexivity | | | exact Ey]; [lia|].
  apply insert_subseteq. now apply not_elem_of_dom.
Qed.

(** A modified copy is a new object: it reads the modifications at the
    keys they name, in the order [_.merge] assigns them, and the data of
    the original at every other key; the original and every other
    object of the heap are left as they were.  [modifyProductData] is
    the same function. *)
Theorem modifyUserData_copies l m u mods flat st :
  object_at (heap_of st) l u ->
  heap_of st !! m = Some (CObj mods) -> flat_props mods = Some flat ->
  exists l' st1,
    modifyUserData (HRef l) (HRef m) st = (Returned (HRef l'), st1) /\
    modifyProductData (HRef l) (HRef m) st = (Returned (HRef l'), st1) /\
    (l' ∉ dom (heap_of st)) /\
    (forall l0, l0 ∈ dom (heap_of st) -> heap_of st1 !! l0 = heap_of st !! l0) /\
    denotes (heap_of st1) (HRef l') (Some (JObj (assign JPrim u flat))).
Proof.
  intros Hu Hm Hflat. destruct st as [h c d lg]. cbn [heap_of] in *.
  destruct (clone_then_merge h l u m mods flat Hu Hm Hflat)
    as (l' & h1 & h2 & Hclone & Hmerge & Hnew & Hkeep & Hden).
  exists l', {| heap_of := h2; cache := c; disk := d; log := lg |}.
  assert (Hrun : modifyUserData (HRef l) (HRef m)
                   {| heap_of := h; cache := c; disk := d; log := lg |}
                 = (Returned (HRef l'), {| heap_of := h2; cache := c; disk := d; log := lg |})).
  { unfold modifyUserData, bind, on_heap. cbn [heap_of cache disk log].
    rewrite Hclone. cbn [heap_of cache disk log]. rewrite Hmerge. reflexivity. }
  split; [exact Hrun|]. split; [exact Hrun|]. cbn [heap_of]. auto.
Qed.

(** The objects of an array literal are new objects that hold what the
    literals say; what was on the heap stays. *)
Lemma new_objects_spec literals : forall h,
  exists vs h',
    new_objects literals h = (Returned vs, h') /\
    h ⊆ h' /\
    length vs = length literals /\
    forall i props, literals !! i = Some props ->
      exists li, vs !! i = Some (HRef li) /\ h' !! li = Some (CObj props).
Proof.
  induction literals as [|props literals IH]; intros h.
  - exists [], h. split; [reflexivity|]. split; [reflexivity|]. split; [reflexivity|].
    intros i props Hi. discriminate.
  - cbn [new_objects]. unfold bind at 1, new_object, alloc.
    set (l := fresh (dom h)).
    assert (Hl : h !! l = None) by (apply not_elem_of_dom, is_fresh).
    destruct (IH (<[l := CObj props]> h)) as (vs & h' & Hrun & Hsub & Hlen & Hall).
    exists (HRef l :: vs), h'. unfold bind. rewrite Hrun. unfold ret.
    split; [reflexivity|]. split.
    { etrans; [|exact Hsub]. now apply insert_subseteq. }
    split; [cbn; now rewrite Hlen|].
    intros [|i] props' Hi; cbn in Hi.
    + injection Hi as <-. exists l. split; [reflexivity|].
      eapply lookup_weaken; [|exact Hsub]. apply lookup_insert_eq.
    + apply Hall, Hi.
Qed.

Section WithJSON.
Context {J : JSONImpl}.

Lemma createInvalidUser_create_invalid draw base :
  createInvalidUser draw base = create_invalid (getUser "valid" 0) userVariations draw base.
Proof. reflexivity. Qed.

Lemma createInvalidProduct_create_invalid draw base :
  createInvalidProduct draw base
  = create_invalid (getProduct "valid" 0) productVariations draw base.
Proof. reflexivity. Qed.

(** With a base object given, the answer is a copy of it with the
    variation drawn. *)
Lemma create_invalid_copies default literals draw l u st k p :
  object_at (heap_of st) l u ->
  literals !! draw = Some [(k, HPrim p)] ->
  exists l' st1,
    create_invalid default literals draw (HRef l) st = (Returned (HRef l'), st1) /\
    (l' ∉ dom (heap_of st)) /\
    (forall l0, l0 ∈ dom (heap_of st) -> heap_of st1 !! l0 = heap_of st !! l0) /\
    denotes (heap_of st1) (HRef l') (Some (JObj (obj_set u k (JPrim p)))).
Proof.
  intros Hu Hdraw. destruct st as [h c d lg]. cbn [heap_of] in *.
  unfold create_invalid. cbn [truthy_h]. unfold bind at 1. unfold ret at 1.
  unfold bind at 1. unfold on_heap at 1. cbn [heap_of cache disk log].
  destruct (new_objects_spec literals h) as (vs & h1 & Hrun & Hsub & Hlen & Hall).
  rewrite Hrun.
  unfold bind at 1. unfold on_heap at 1, new_array, alloc. cbn [heap_of cache disk log].
  set (la := fresh (dom h1)).
  assert (Hla : h1 !! la = None) by (apply not_elem_of_dom, is_fresh).
  set (h2 := <[la := CArr vs]> h1).
  assert (Hsub2 : h ⊆ h2).
  { etrans; [exact Hsub|]. now apply insert_subseteq. }
  destruct (Hall draw _ Hdraw) as (m & Hm & Hcell).
  unfold bind at 1. unfold arrayElement. rewrite Hm. unfold ret at 1.
  assert (Hu2 : object_at h2 l u).
  { unfold object_at in *. eapply reify_json_mono; [| exact Hsub2 | exact Hu].
    apply le_n_S. apply heap_size_mono. now apply subseteq_dom. }
  assert (Hm2 : h2 !! m = Some (CObj [(k, HPrim p)])).
  { eapply lookup_weaken; [exact Hcell|]. now apply insert_subseteq. }
  destruct (clone_then_merge h2 l u m [(k, HPrim p)] [(k, p)] Hu2 Hm2 eq_refl)
    as (l' & h3 & h4 & Hclone & Hmerge & Hnew & Hkeep & Hden).
  exists l', {| heap_of := h4; cache := c; disk := d; log := lg |}.
  split.
  { unfold modifyUserData, bind, on_heap. cbn [heap_of cache disk log].
    fold la. fold h2. rewrite Hclone. cbn [heap_of cache disk log].
    rewrite Hmerge. reflexivity. }
  cbn [heap_of]. split.
  { intros Hin. apply Hnew. revert Hin. apply subseteq_dom in Hsub2. apply Hsub2. }
  split.
  { intros l0 Hl0. rewrite Hkeep.
    - apply elem_of_dom in Hl0 as [c0 Hc0]. rewrite Hc0. eapply lookup_weaken; eauto.
    - revert Hl0. apply subseteq_dom in Hsub2. apply Hsub2. }
  exact Hden.
Qed.

End WithJSON.

(** *** Which variations a validation rejects *)

(** What [validateUserData] accepts. *)
Lemma user_accepted_spec user :
  nullish user = false ->
  user_accepted user = fields_present user && email_ok user && password_ok user.
Proof.
  intros Hn. unfold user_accepted.
  destruct (fields_present user) eqn:Hf.
  - rewrite validateUserData_checks by assumption.
    unfold email_ok, password_ok.
    destruct (value_text (field_of user "email")) as [text|e]; [|reflexivity].
    destruct (less (password_length user) (Some (JNum 8))) as [short|e].
    + destruct (regex_test emailRegex text), short; reflexivity.
    + cbn. now rewrite andb_false_r.
  - destruct (validateUserData_missing user tt Hn Hf) as (r & -> & Hv & _).
    now rewrite Hv.
Qed.

(** What [validateProductData] accepts. *)
Lemma product_accepted_spec product :
  nullish product = false ->
  product_accepted product
  = truthy (field_of product "name") && truthy (field_of product "category")
    && price_ok product && quantity_ok product.
Proof.
  intros Hn. unfold product_accepted.
  destruct (validateProductData_outcome product tt Hn) as (r & -> & Hv & _).
  exact Hv.
Qed.

Lemma andb4_true a b c d :
  a && b && c && d = true -> a = true /\ b = true /\ c = true /\ d = true.
Proof. destruct a, b, c, d; cbn; auto; discriminate. Qed.

(** A user that [validateUserData] accepts is still accepted with
    another phone or role, and with no other variation. *)
Lemma user_variation_accepted u draw k p :
  user_accepted (Some (JObj u)) = true ->
  userVariations !! draw = Some [(k, HPrim p)] ->
  user_accepted (Some (JObj (obj_set u k (JPrim p))))
  = ((draw =? 6) || (draw =? 7))%nat.
Proof.
  intros Hacc Hdraw.
  rewrite user_accepted_spec in Hacc by reflexivity.
  rewrite user_accepted_spec by reflexivity.
  apply andb_true_iff in Hacc as [Hacc Hpw]. apply andb_true_iff in Hacc as [Hfields Hemail].
  unfold fields_present, requiredFields in Hfields. cbn [forallb] in Hfields.
  rewrite andb_true_r, !andb_true_iff in Hfields. destruct Hfields as (H1 & H2 & H3 & H4).
  unfold email_ok in Hemail. unfold password_ok, password_length in Hpw.
  unfold fields_present, requiredFields, email_ok, password_ok, password_length.
  cbn [forallb].
  do 10 (destruct draw as [|draw];
         [injection Hdraw as <- <-; rewrite !field_of_obj_set;
          cbn [String.eqb Ascii.eqb Bool.eqb];
          rewrite ?H1, ?H2, ?H3, ?H4, ?Hemail, ?Hpw; vm_compute; reflexivity|]).
  discriminate.
Qed.

(** A product that [validateProductData] accepts is still accepted with
    an empty [sku] or another [inStock], and with no other variation. *)
Lemma product_variation_accepted u draw k p :
  product_accepted (Some (JObj u)) = true ->
  productVariations !! draw = Some [(k, HPrim p)] ->
  product_accepted (Some (JObj (obj_set u k (JPrim p))))
  = ((draw =? 5) || (draw =? 6))%nat.
Proof.
  intros Hacc Hdraw.
  rewrite product_accepted_spec in Hacc by reflexivity.
  rewrite product_accepted_spec by reflexivity.
  apply andb4_true in Hacc as (H1 & H2 & H3 & H4).
  unfold price_ok in H3. unfold quantity_ok in H4.
  unfold price_ok, quantity_ok.
  do 7 (destruct draw as [|draw];
        [injection Hdraw as <- <-; rewrite !field_of_obj_set;
         cbn [String.eqb Ascii.eqb Bool.eqb];
         rewrite ?H1, ?H2, ?H3, ?H4; vm_compute; reflexivity|]).
  discriminate.
Qed.

Lemma variations_single (literals : list (list (string * hval))) draw :
  Forall (fun props => exists k p, props = [(k, HPrim p)]) literals ->
  (draw < length literals)%nat ->
  exists k p, literals !! draw = Some [(k, HPrim p)].
Proof.
  intros Hall Hlt. destruct (lookup_lt_is_Some_2 literals draw Hlt) as [props Hp].
  rewrite Forall_forall in Hall.
  destruct (Hall props) as (k & p & ->); [eapply list_elem_of_lookup_2; eauto|]. eauto.
Qed.

Section WithJSON.
Context {J : JSONImpl}.



End WithJSON.

#[local] Existing Instance JSONText.text_json.

Lemma modifyUserData_copies_witness :
  exists l' st1,
    modifyUserData (HRef (object_of valid_user)) (HRef promotion_object)
      manager_with_promotion = (Returned (HRef l'), st1) /\
    modifyProductData (HRef (object_of valid_user)) (HRef promotion_object)
      manager_with_promotion = (Returned (HRef l'), st1) /\
    (l' ∉ dom (heap_of manager_with_promotion)) /\
    (forall l0, l0 ∈ dom (heap_of manager_with_promotion) ->
                heap_of st1 !! l0 = heap_of manager_with_promotion !! l0) /\
    denotes (heap_of st1) (HRef l')
      (Some (JObj [("email", JStr "admin@example.com"); ("password", JStr "longenough");
                   ("firstName", JStr "Quinn"); ("lastName", JStr "Ashby");
                   ("role", JStr "admin")])).
Proof.
  apply (modifyUserData_copies (object_of valid_user) promotion_object valid_user
           [("role", HPrim (PStr "admin")); ("email", HPrim (PStr "admin@example.com"))]
           [("role", PStr "admin"); ("email", PStr "admin@example.com")]
           manager_with_promotion);
    vm_compute; reflexivity.
Defined.



(** The variation of the phone, on a sample user. *)
Example createInvalidUser_phone :
  match createInvalidUser 6 (HRef (object_of valid_user)) (manager_with valid_user) with
  | (Returned v, st1) =>
      option_map (fun x => user_accepted (Some x))
        (reify_json (S (size (heap_of st1))) (heap_of st1) v)
  | (Thrown _, _) => None
  end = Some true.
Proof. vm_compute. reflexivity. Qed.

End DataVariationFacts.

(** ** The command line of the settings *)

Module SetConfigFacts.
Import Settings JSONTextFacts FsFacts ObjectFacts SettingsFacts SetConfig.

(** The second piece of a text is a string, or there is none. *)
Lemma second_piece_shape sep text :
  second_piece sep text = None \/ exists name, second_piece sep text = Some (JStr name).
Proof.
  unfold second_piece. destruct (APIHelper.split_on sep text) as [|first [|piece rest]]; eauto.
Qed.

Lemma obj_get_spread_keeps {A} (a b : list (string * A)) k :
  obj_get (obj_spread a b) k = None -> obj_get a k = None.
Proof.
  unfold obj_spread. revert a. induction b as [|[k' v] b IH]; intros a; cbn; [auto|].
  intros H. apply IH in H. rewrite obj_get_set in H.
  destruct (String.eqb k' k); [discriminate | exact H].
Qed.

Lemma obj_spread_NoDup {A} (a b : list (string * A)) :
  NoDup (map fst a) -> NoDup (map fst (obj_spread a b)).
Proof.
  unfold obj_spread. revert a. induction b as [|[k v] b IH]; intros a Ha; cbn; [exact Ha|].
  apply IH. now apply obj_set_NoDup.
Qed.

Lemma obj_spread_Forall {A} (P : string * A -> Prop) (a b : list (string * A)) :
  Forall P a -> Forall P b -> Forall P (obj_spread a b).
Proof.
  unfold obj_spread. revert a. induction b as [|[k v] b IH]; intros a Ha Hb; cbn; [exact Ha|].
  apply Forall_cons in Hb as [Hkv Hb]. apply IH; [|exact Hb].
  clear IH Hb. induction a as [|[k' v'] a IHa]; cbn.
  - now constructor.
  - apply Forall_cons in Ha as [H1 H2].
    destruct (String.eqb k' k) eqn:E.
    + apply String.eqb_eq in E. subst. constructor; auto.
    + constructor; auto.
Qed.

Lemma own_props_wf parsed :
  json_wf parsed -> Forall (fun kv => json_wf (snd kv)) (own_props parsed).
Proof.
  destruct parsed as [[| | |s]|elems|props]; cbn [own_props]; intros Hwf.
  - constructor.
  - constructor.
  - constructor.
  - apply Forall_lookup. intros i [k v] Hi.
    apply list_lookup_imap_Some in Hi as (c & _ & [= _ ->]). exact I.
  - apply json_wf_arr in Hwf. apply Forall_lookup. intros i [k v] Hi.
    apply list_lookup_imap_Some in Hi as (x & Hx & [= _ ->]). cbn.
    rewrite Forall_lookup in Hwf. eauto.
  - apply json_wf_obj in Hwf. tauto.
Qed.

Lemma defaultSettings_wf : json_wf (JObj defaultSettings).
Proof.
  cbn. repeat match goal with
            | |- _ /\ _ => split
            | |- True => exact I
            | |- NoDup [] => apply NoDup_nil_2
            | |- NoDup (_ :: _) => apply NoDup_cons_2
            | |- _ ∉ _ => rewrite ?not_elem_of_cons; rewrite ?elem_of_nil
            | |- _ <> _ => discriminate
            | |- ~ False => tauto
            end.
Qed.

Section WithJSON.
Context {J : JSONImpl}.

(** [loadSettings] always answers, leaves the disk as it is, and its
    answer is a well-formed object that has every default key. *)
Lemma loadSettings_answers fs c :
  JSON_faithful J ->
  exists settings c',
    loadSettings (fs, c) = (Returned settings, (fs, c')) /\
    json_wf (JObj settings) /\
    forall k, obj_get settings k = None -> obj_get defaultSettings k = None.
Proof.
  intros [_ HJ]. unfold loadSettings.
  unfold bind at 1. unfold on_fst at 1, existsSync, gets. cbn [fst snd].
  rewrite settings_present.
  destruct (node_at fs settingsPath) as [[|content]|] eqn:E.
  - unfold try_catch, bind. rewrite read_and_parse_spec, E.
    unfold console_error, on_snd, modify, ret; cbn [fst snd].
    do 2 eexists. split; [reflexivity|]. split; [apply defaultSettings_wf | auto].
  - unfold try_catch, bind. rewrite read_and_parse_spec, E.
    destruct (JSON_parse content) as [parsed|] eqn:EP.
    + unfold ret. do 2 eexists. split; [reflexivity|]. split.
      * apply json_wf_obj. pose proof defaultSettings_wf as Hd.
        apply json_wf_obj in Hd as [Hd1 Hd2]. split.
        -- now apply obj_spread_NoDup.
        -- apply obj_spread_Forall; [exact Hd2|]. apply own_props_wf. eauto.
      * intros k. apply obj_get_spread_keeps.
    + unfold console_error, on_snd, modify, ret; cbn [fst snd].
      do 2 eexists. split; [reflexivity|]. split; [apply defaultSettings_wf | auto].
  - unfold ret. do 2 eexists. split; [reflexivity|].
    split; [apply defaultSettings_wf | auto].
Qed.

(** A load of a file that holds an object answers the object over the
    defaults. *)
Lemma loadSettings_of_file fs c written :
  JSON_faithful J -> json_wf (JObj written) ->
  file_text fs settingsPath = Some (JSON_stringify (JObj written)) ->
  loadSettings (fs, c) = (Returned (obj_spread defaultSettings written), (fs, c)).
Proof.
  intros [HJ _] Hwf Hfile. unfold loadSettings.
  unfold bind at 1. unfold on_fst at 1, existsSync, gets. cbn [fst snd].
  rewrite settings_present.
  unfold file_text in Hfile.
  destruct (node_at fs settingsPath) as [[|content]|] eqn:E; try discriminate.
  injection Hfile as ->.
  unfold try_catch, bind. rewrite read_and_parse_spec, E.
  rewrite (HJ _ Hwf). reflexivity.
Qed.

Lemma saveSettings_writes settings fs c out :
  settings_writable fs = true ->
  saveSettings settings ((fs, c), out)
  = (Returned tt,
     ((with_file fs settingsPath (JSON_stringify (JObj settings)), c),
      out ++ [Print "Settings updated successfully"]
          ++ [PrintSettings "Current settings:" settings])).
Proof.
  unfold settings_writable. rewrite andb_true_iff, !negb_true_iff. intros [Hd Hden].
  unfold saveSettings, try_catch, bind, on_fst, on_snd, console_log, modify, writeFileSync.
  cbn [fst snd]. rewrite Hd, Hden. cbn. now rewrite <- app_assoc.
Qed.

Lemma saveSettings_fails settings fs c out :
  settings_writable fs = false ->
  exists e, saveSettings settings ((fs, c), out) = (Returned tt, ((fs, c ++ [e]), out)).
Proof.
  unfold settings_writable. intros Hw.
  unfold saveSettings, try_catch, bind, on_fst, on_snd, console_log, modify, writeFileSync,
    cli_error, console_error.
  cbn [fst snd]. destruct (is_dir fs settingsPath); cbn; [eauto|].
  destruct (denied fs settingsPath); cbn; [eauto | discriminate].
Qed.

(** What the command line does with a chosen option. *)
Lemma setConfig_chosen arg rest fs c key value old c0 :
  chosen (toLowerCase arg) = Some (key, value) ->
  loadSettings (fs, c) = (Returned old, (fs, c0)) ->
  exists line,
    setConfig (arg :: rest) ((fs, c), [])
    = saveSettings (obj_set old key (JStr value)) ((fs, c0), [line]).
Proof.
  intros Hch Hload. unfold setConfig. unfold bind at 1. unfold on_fst at 1.
  cbn [fst snd]. rewrite Hload. cbn [fst snd].
  unfold chosen in Hch.
  destruct (String.eqb (toLowerCase arg) "parallel").
  { injection Hch as <- <-. eexists. unfold bind, console_log, on_snd, modify. cbn. reflexivity. }
  destruct (String.eqb (toLowerCase arg) "sequential").
  { injection Hch as <- <-. eexists. unfold bind, console_log, on_snd, modify. cbn. reflexivity. }
  destruct (String.eqb (toLowerCase arg) "headless").
  { injection Hch as <- <-. eexists. unfold bind, console_log, on_snd, modify. cbn. reflexivity. }
  destruct (String.eqb (toLowerCase arg) "headed").
  { injection Hch as <- <-. eexists. unfold bind, console_log, on_snd, modify. cbn. reflexivity. }
  destruct (String.prefix "env:" (toLowerCase arg)); [|discriminate].
  destruct (second_piece ":" (toLowerCase arg)) as [[[| | |name]| |]|]; try discriminate.
  destruct (includes validEnvs name); [|discriminate].
  injection Hch as <- <-. eexists. unfold bind, console_log, on_snd, modify. cbn. reflexivity.
Qed.

(** A load of the settings saved with one option set answers them. *)
Lemma load_after_save fs c old key value :
  JSON_faithful J -> json_wf (JObj old) ->
  (forall k, obj_get old k = None -> obj_get defaultSettings k = None) ->
  exists new,
    loadSettings (with_file fs settingsPath
                    (JSON_stringify (JObj (obj_set old key (JStr value)))), c)
    = (Returned new,
       (with_file fs settingsPath
          (JSON_stringify (JObj (obj_set old key (JStr value)))), c)) /\
    obj_get new key = Some (JStr value) /\
    forall k, k <> key -> obj_get new k = obj_get old k.
Proof.
  intros HJ Hwf Hkeys.
  assert (Hwf' : json_wf (JObj (obj_set old key (JStr value)))).
  { apply json_wf_obj in Hwf as [H1 H2]. apply json_wf_obj. split.
    - now apply obj_set_NoDup.
    - apply obj_set_Forall; [exact H2 | intros; exact I]. }
  exists (obj_spread defaultSettings (obj_set old key (JStr value))).
  split.
  - apply loadSettings_of_file; [exact HJ | exact Hwf' | apply file_text_with_file].
  - assert (Hnd : NoDup (map fst (obj_set old key (JStr value)))).
    { apply json_wf_obj in Hwf'. tauto. }
    split.
    + rewrite obj_get_spread by exact Hnd. rewrite obj_get_set, String.eqb_refl. reflexivity.
    + intros k Hne. rewrite obj_get_spread by exact Hnd. rewrite obj_get_set.
      destruct (String.eqb_spec key k); [congruence|].
      destruct (obj_get old k) as [v|] eqn:Eo; [reflexivity|]. now apply Hkeys.
Qed.

(** The values the command line sets are no empty strings. *)
Lemma chosen_value_truthy choice key value :
  chosen choice = Some (key, value) -> truthy (Some (JStr value)) = true.
Proof.
  unfold chosen.
  repeat match goal with
         | |- context [if String.eqb choice ?t then _ else _] =>
             destruct (String.eqb choice t); [intros [= <- <-]; reflexivity|]
         end.
  destruct (String.prefix "env:" choice); [|discriminate].
  destruct (second_piece ":" choice) as [[[| | |name]| |]|]; try discriminate.
  destruct (includes validEnvs name) eqn:E; [|discriminate].
  intros [= <- <-]. unfold includes, validEnvs in E. cbn in E.
  repeat match type of E with
         | context [String.eqb name ?t] =>
             destruct (String.eqb_spec name t); [subst; reflexivity|]
         end.
  discriminate.
Qed.

Lemma chosen_key choice key value :
  chosen choice = Some (key, value) ->
  key = "executionMode" \/ key = "browserMode" \/ key = "environment".
Proof.
  unfold chosen.
  repeat match goal with
         | |- context [if String.eqb choice ?t then _ else _] =>
             destruct (String.eqb choice t); [intros [= <- <-]; tauto|]
         end.
  destruct (String.prefix "env:" choice); [|discriminate].
  destruct (second_piece ":" choice) as [[[| | |name]| |]|]; try discriminate.
  destruct (includes validEnvs name); [|discriminate].
  intros [= <- <-]. tauto.
Qed.

(** After the command line has set an option, a load answers the
    settings of before with that one option changed: the chosen value
    under the chosen key, and under every other key what a load answered
    before the call. *)
Theorem setConfig_round_trip arg rest fs c key value :
  JSON_faithful J ->
  chosen (toLowerCase arg) = Some (key, value) ->
  settings_writable fs = true ->
  exists old c0 fs' c' out,
    loadSettings (fs, c) = (Returned old, (fs, c0)) /\
    setConfig (arg :: rest) ((fs, c), []) = (Returned tt, ((fs', c'), out)) /\
    forall c2, exists new,
      loadSettings (fs', c2) = (Returned new, (fs', c2)) /\
      obj_get new key = Some (JStr value) /\
      forall k, k <> key -> obj_get new k = obj_get old k.
Proof.
  intros HJ Hch Hw.
  destruct (loadSettings_answers fs c HJ) as (old & c0 & Hload & Hwf & Hkeys).
  destruct (setConfig_chosen arg rest fs c key value old c0 Hch Hload) as [line Hrun].
  rewrite saveSettings_writes in Hrun by exact Hw.
  exists old, c0. do 3 eexists. split; [exact Hload|]. split; [exact Hrun|].
  intros c2. now apply load_after_save.
Qed.

(** The runner configuration follows the command line: after an option
    has been set, the configuration reads the flag or the environment of
    that option from the chosen value, and the other two as before. *)
Theorem setConfig_then_config arg rest fs c key value :
  JSON_faithful J ->
  chosen (toLowerCase arg) = Some (key, value) ->
  settings_writable fs = true ->
  exists before c0 fs' c' out,
    load_current_config (fs, c) = (Returned before, (fs, c0)) /\
    setConfig (arg :: rest) ((fs, c), []) = (Returned tt, ((fs', c'), out)) /\
    forall c2, exists after,
      load_current_config (fs', c2) = (Returned after, (fs', c2)) /\
      isParallel after
      = (if String.eqb key "executionMode" then String.eqb value "parallel"
         else isParallel before) /\
      isHeadless after
      = (if String.eqb key "browserMode" then String.eqb value "headless"
         else isHeadless before) /\
      environment after
      = (if String.eqb key "environment" then Some (JStr value)
         else environment before).
Proof.
  intros HJ Hch Hw.
  destruct (loadSettings_answers fs c HJ) as (old & c0 & Hload & Hwf & Hkeys).
  destruct (setConfig_chosen arg rest fs c key value old c0 Hch Hload) as [line Hrun].
  rewrite saveSettings_writes in Hrun by exact Hw.
  pose proof (chosen_value_truthy _ _ _ Hch) as Htruthy.
  pose proof (chosen_key _ _ _ Hch) as Hkey.
  change (@load_current_config J)
    with (do settings <- loadSettings;
          ret {| isParallel := strict_eq_string (obj_get settings "executionMode") "parallel";
                 isHeadless := strict_eq_string (obj_get settings "browserMode") "headless";
                 environment := js_or (obj_get settings "environment")
                                  (Some (JStr "staging")) |}).
  unfold bind at 1. rewrite Hload. unfold ret at 1.
  do 5 eexists. split; [reflexivity|]. split; [exact Hrun|].
  intros c2.
  destruct (load_after_save fs c2 old key value HJ Hwf Hkeys) as (new & Hnew & Hset & Hother).
  unfold bind. rewrite Hnew. unfold ret. eexists. split; [reflexivity|].
  cbn [isParallel isHeadless environment].
  destruct Hkey as [-> | [-> | ->]]; cbn [String.eqb Ascii.eqb Bool.eqb];
    rewrite Hset, !Hother by discriminate; cbn [strict_eq_string];
    repeat split; try reflexivity.
  unfold js_or. now rewrite Htruthy.
Qed.

(** The command line never throws, and it leaves the disk as it is when
    it has no argument, when the argument names no option, or when the
    settings file cannot be written. *)
Theorem setConfig_leaves_disk args fs c :
  JSON_faithful J ->
  match args with
  | [] => True
  | arg :: _ => chosen (toLowerCase arg) = None \/ settings_writable fs = false
  end ->
  exists c' out, setConfig args ((fs, c), []) = (Returned tt, ((fs, c'), out)).
Proof.
  intros HJ Hcase. destruct args as [|arg rest].
  { unfold setConfig, bind, console_log, on_snd, modify. cbn. eauto. }
  destruct (loadSettings_answers fs c HJ) as (old & c0 & Hload & _).
  destruct (chosen (toLowerCase arg)) as [[key value]|] eqn:Hch.
  - destruct Hcase as [Hcase|Hw]; [discriminate|].
    destruct (setConfig_chosen arg rest fs c key value old c0 Hch Hload) as [line Hrun].
    rewrite Hrun. destruct (saveSettings_fails (obj_set old key (JStr value)) fs c0 [line] Hw)
      as [e ->]. eauto.
  - unfold setConfig. unfold bind at 1. unfold on_fst at 1. cbn [fst snd].
    rewrite Hload. cbn [fst snd]. unfold chosen in Hch.
    destruct (String.eqb (toLowerCase arg) "parallel"); [discriminate|].
    destruct (String.eqb (toLowerCase arg) "sequential"); [discriminate|].
    destruct (String.eqb (toLowerCase arg) "headless"); [discriminate|].
    destruct (String.eqb (toLowerCase arg) "headed"); [discriminate|].
    destruct (String.prefix "env:" (toLowerCase arg)).
    + destruct (second_piece_shape ":" (toLowerCase arg)) as [Hs|[name Hs]];
        rewrite Hs in *.
      { unfold bind, cli_error, console_error, console_log, on_fst, on_snd, modify.
        cbn. eauto. }
      destruct (includes validEnvs name); [discriminate|].
      unfold bind, cli_error, console_error, console_log, on_fst, on_snd, modify.
      cbn. eauto.
    + unfold cli_error, console_error, on_fst, on_snd, modify. cbn. eauto.
Qed.

End WithJSON.

#[local] Existing Instance JSONText.text_json.

Lemma setConfig_round_trip_witness :
  exists old c0 fs' c' out,
    loadSettings (Samples.browser_only_disk, []) = (Returned old, (Samples.browser_only_disk, c0)) /\
    setConfig ["ENV:Dev"] ((Samples.browser_only_disk, []), [])
    = (Returned tt, ((fs', c'), out)) /\
    forall c2, exists new,
      loadSettings (fs', c2) = (Returned new, (fs', c2)) /\
      obj_get new "environment" = Some (JStr "dev") /\
      forall k, k <> "environment" -> obj_get new k = obj_get old k.
Proof.
  apply (setConfig_round_trip "ENV:Dev" [] Samples.browser_only_disk [] "environment" "dev"
           text_json_faithful); reflexivity.
Defined.

Lemma setConfig_then_config_witness :
  exists before c0 fs' c' out,
    load_current_config (Samples.browser_only_disk, [])
    = (Returned before, (Samples.browser_only_disk, c0)) /\
    setConfig ["Sequential"] ((Samples.browser_only_disk, []), [])
    = (Returned tt, ((fs', c'), out)) /\
    forall c2, exists after,
      load_current_config (fs', c2) = (Returned after, (fs', c2)) /\
      isParallel after = false /\
      isHeadless after = isHeadless before /\
      environment after = environment before.
Proof.
  apply (setConfig_then_config "Sequential" [] Samples.browser_only_disk []
           "executionMode" "sequential" text_json_faithful); reflexivity.
Defined.

Lemma setConfig_leaves_disk_witness :
  exists c' out,
    setConfig ["env:mars"] ((Samples.browser_only_disk, []), [])
    = (Returned tt, ((Samples.browser_only_disk, c'), out)).
Proof.
  apply (setConfig_leaves_disk ["env:mars"] Samples.browser_only_disk []
           text_json_faithful).
  left. reflexivity.
Defined.

Example setConfig_parallel_on_empty_project :
  file_text (fst (fst (snd (setConfig ["parallel"] ((empty_fs, []), []))))) settingsPath
  = Some (JSON_stringify (JObj defaultSettings)).
Proof. vm_compute. reflexivity. Qed.

End SetConfigFacts.

(** ** Directories of the file system *)

Module FsTreeFacts.
Import FsTree FsFacts.

Lemma within_spec p q : within p q = true <-> exists r, q = p ++ r.
Proof. unfold within. rewrite bool_decide_eq_true. reflexivity. Qed.

Lemma within_app p r : within p (p ++ r) = true.
Proof. apply within_spec. eauto. Qed.

Lemma within_false p q : within p q = false <-> forall r, q <> p ++ r.
Proof.
  rewrite <- not_true_iff_false, within_spec. split.
  - intros H r Hr. apply H. eauto.
  - intros H [r Hr]. exact (H r Hr).
Qed.

Lemma child_name_spec p q name : child_name p q = Some name <-> q = p ++ [name].
Proof.
  unfold child_name. split.
  - destruct (bool_decide (take (length p) q = p)) eqn:E; [|discriminate].
    apply bool_decide_eq_true in E.
    destruct (drop (length p) q) as [|n [|]] eqn:Ed; try discriminate.
    intros [= ->]. rewrite <- (take_drop (length p) q), E, Ed. reflexivity.
  - intros ->. rewrite take_app_length, bool_decide_true by reflexivity.
    now rewrite drop_app_length.
Qed.

Lemma children_spec fs p name :
  name ∈ children fs p <-> node_at fs (p ++ [name]) <> None.
Proof.
  unfold children, node_at. rewrite list_elem_of_omap. split.
  - intros ([q n] & Hin & Hc). apply elem_of_map_to_list in Hin.
    cbn in Hc. apply child_name_spec in Hc. subst q. cbn in Hin. rewrite Hin. discriminate.
  - intros H. destruct (fs_nodes fs !! (p ++ [name])) as [n|] eqn:E; [|done].
    exists (p ++ [name], n). split; [now apply elem_of_map_to_list|].
    cbn. now apply child_name_spec.
Qed.

Lemma NoDup_omap_fst {K A B} (f : K -> option B) (l : list (K * A)) :
  (forall x y z, f x = Some z -> f y = Some z -> x = y) ->
  NoDup (map fst l) -> NoDup (omap (fun kv => f (fst kv)) l).
Proof.
  intros Hinj. induction l as [|[k a] l IH]; cbn; intros Hnd; [constructor|].
  apply NoDup_cons in Hnd as [Hk Hnd].
  destruct (f k) as [z|] eqn:E; [|auto].
  apply NoDup_cons. split; [|auto].
  rewrite list_elem_of_omap. intros ([k' a'] & Hin & Hz). cbn in Hz.
  assert (k' = k) by (eapply Hinj; eauto). subst.
  apply Hk. apply list_elem_of_fmap. exists (k, a'). auto.
Qed.

Lemma children_NoDup fs p : NoDup (children fs p).
Proof.
  unfold children. apply NoDup_omap_fst.
  - intros x y z Hx Hy. apply child_name_spec in Hx, Hy. congruence.
  - apply NoDup_fst_map_to_list.
Qed.

Lemma node_at_without fs p q :
  node_at (without fs p) q = if bool_decide (p = q) then None else node_at fs q.
Proof.
  unfold node_at, without. cbn. case_bool_decide as E.
  - subst. apply lookup_delete_eq.
  - now apply lookup_delete_ne.
Qed.

Section Moved.
Variables src dst : path.
Hypothesis apart_src : within src dst = false.
Hypothesis apart_dst : within dst src = false.

Lemma apart_app r r' : src ++ r <> dst ++ r'.
Proof.
  intros H.
  destruct (decide (length src <= length dst)%nat) as [Hle|Hgt].
  - apply (f_equal (take (length src))) in H.
    rewrite take_app_length, take_app_le in H by exact Hle.
    apply (proj1 (within_false _ _) apart_src (drop (length src) dst)).
    rewrite H at 1. now rewrite take_drop.
  - apply (f_equal (take (length dst))) in H.
    rewrite take_app_length, take_app_le in H by lia.
    apply (proj1 (within_false _ _) apart_dst (drop (length dst) src)).
    rewrite <- H at 1. now rewrite take_drop.
Qed.

Lemma reroot_within q : within src q = true -> within dst (reroot src dst q) = true.
Proof. intros H. unfold reroot. rewrite H. apply within_app. Qed.

Lemma reroot_outside q : within src q = false -> reroot src dst q = q.
Proof. intros H. unfold reroot. now rewrite H. Qed.

Lemma reroot_inj q q' :
  within dst q = false -> within dst q' = false ->
  reroot src dst q = reroot src dst q' -> q = q'.
Proof.
  intros Hq Hq'. unfold reroot.
  destruct (within src q) eqn:E, (within src q') eqn:E'; intros H.
  - apply within_spec in E as [r ->]. apply within_spec in E' as [r' ->].
    rewrite !drop_app_length in H. apply app_inv_head in H. now subst.
  - subst. now rewrite within_app in Hq'.
  - subst. now rewrite within_app in Hq.
  - exact H.
Qed.

Lemma image_spec fs q n :
  (q, n) ∈ moved_entries fs src dst <->
  exists q0, node_at fs q0 = Some n /\ within dst q0 = false /\ q = reroot src dst q0.
Proof.
  unfold moved_entries, node_at. rewrite list_elem_of_omap. split.
  - intros ([q0 n0] & Hin & Hf). apply elem_of_map_to_list in Hin. cbn in Hf.
    destruct (within dst q0) eqn:E; [discriminate|]. injection Hf as <- <-. eauto.
  - intros (q0 & Hn & Hd & ->). exists (q0, n). split; [now apply elem_of_map_to_list|].
    cbn. now rewrite Hd.
Qed.

Lemma image_NoDup fs : NoDup (map fst (moved_entries fs src dst)).
Proof.
  unfold moved_entries.
  assert (Hnd : NoDup (map fst (map_to_list (fs_nodes fs)))) by apply NoDup_fst_map_to_list.
  induction (map_to_list (fs_nodes fs)) as [|[q0 n0] l IH]; cbn; [constructor|].
  cbn in Hnd. apply NoDup_cons in Hnd as [Hq Hnd].
  destruct (within dst q0) eqn:E; [auto|]. cbn. apply NoDup_cons. split; [|auto].
  intros Hin. apply list_elem_of_fmap in Hin as ([q n] & Hfst & Hin). cbn in Hfst. subst q.
  apply list_elem_of_omap in Hin as ([q1 n1] & Hin1 & Hf). cbn in Hf.
  destruct (within dst q1) eqn:E1; [discriminate|]. injection Hf as Hr _.
  apply reroot_inj in Hr; [|assumption..]. subst q1.
  apply Hq. apply list_elem_of_fmap. exists (q0, n1). auto.
Qed.

Lemma node_at_moved fs q n :
  node_at (moved fs src dst) q = Some n <->
  exists q0, node_at fs q0 = Some n /\ within dst q0 = false /\ q = reroot src dst q0.
Proof.
  unfold moved, node_at at 1. cbn [fs_nodes].
  rewrite <- elem_of_list_to_map by apply image_NoDup. apply image_spec.
Qed.

(** What stood at [src] and below stands at [dst] and below. *)
Lemma node_at_moved_dst fs r :
  node_at (moved fs src dst) (dst ++ r) = node_at fs (src ++ r).
Proof.
  destruct (node_at fs (src ++ r)) as [n|] eqn:E.
  - apply node_at_moved. exists (src ++ r). split; [exact E|]. split.
    + apply within_false. intros r' Hr. exact (apart_app _ _ Hr).
    + unfold reroot. now rewrite within_app, drop_app_length.
  - destruct (node_at (moved fs src dst) (dst ++ r)) as [n|] eqn:E'; [|reflexivity].
    apply node_at_moved in E' as (q0 & Hn & Hd & Hq).
    unfold reroot in Hq. destruct (within src q0) eqn:Es.
    + apply within_spec in Es as [r0 ->]. rewrite drop_app_length in Hq.
      apply app_inv_head in Hq. subst. congruence.
    + subst q0. now rewrite within_app in Hd.
Qed.

(** Nothing stands at [src] or below any more. *)
Lemma node_at_moved_src fs r : node_at (moved fs src dst) (src ++ r) = None.
Proof.
  destruct (node_at (moved fs src dst) (src ++ r)) as [n|] eqn:E; [|reflexivity].
  apply node_at_moved in E as (q0 & Hn & Hd & Hq).
  unfold reroot in Hq. destruct (within src q0) eqn:Es.
  - exfalso. exact (apart_app _ _ Hq).
  - subst q0. now rewrite within_app in Es.
Qed.

(** Everything else stands where it stood. *)
Lemma node_at_moved_other fs q :
  within src q = false -> within dst q = false ->
  node_at (moved fs src dst) q = node_at fs q.
Proof.
  intros Hs Hd. destruct (node_at fs q) as [n|] eqn:E.
  - apply node_at_moved. exists q. split; [exact E|]. split; [exact Hd|].
    now rewrite reroot_outside.
  - destruct (node_at (moved fs src dst) q) as [n|] eqn:E'; [|reflexivity].
    apply node_at_moved in E' as (q0 & Hn & Hd0 & Hq).
    unfold reroot in Hq. destruct (within src q0) eqn:Es.
    + subst q. now rewrite within_app in Hd.
    + subst q0. congruence.
Qed.

End Moved.

End FsTreeFacts.

(** ** The global teardown *)

Module GlobalTeardownFacts.
Import FsTree FsFacts FsTreeFacts GlobalTeardown.

Lemma is_dir_ext fs fs' p : node_at fs' p = node_at fs p -> is_dir fs' p = is_dir fs p.
Proof. intros H. unfold is_dir. destruct p; [reflexivity|]. now rewrite H. Qed.

Lemma is_file_ext fs fs' p : node_at fs' p = node_at fs p -> is_file fs' p = is_file fs p.
Proof. intros H. unfold is_file. now rewrite H. Qed.

Lemma denied_ext fs fs' p : fs_denied fs' = fs_denied fs -> denied fs' p = denied fs p.
Proof. intros H. unfold denied. now rewrite H. Qed.

Lemma temp_child_inj a b : tempDir ++ [a] = tempDir ++ [b] -> a = b.
Proof. intros H. apply app_inv_head in H. now injection H. Qed.

Lemma under_temp_child name : under "temp" (tempDir ++ [name]) = true.
Proof. reflexivity. Qed.

Lemma results_apart now : within testResultsDir (archivePath now) = false.
Proof. apply within_false. intros r. discriminate. Qed.

Lemma archive_apart now : within (archivePath now) testResultsDir = false.
Proof. apply within_false. intros r. discriminate. Qed.

Lemma within_under top rest q :
  within (top :: rest) q = true -> under top q = true.
Proof.
  intros H. apply within_spec in H as [r ->]. cbn. apply String.eqb_refl.
Qed.

Lemma not_under_not_within top rest q :
  under top q = false -> within (top :: rest) q = false.
Proof.
  intros H. destruct (within (top :: rest) q) eqn:E; [|reflexivity].
  apply within_under in E. congruence.
Qed.

Section Environment.
Variable listing : list string -> list string.
Variable locked : path -> bool.
Hypothesis listing_perm : forall l, listing l ≡ₚ l.

Local Abbreviation remove_file := (GlobalTeardown.remove_file locked).
Local Abbreviation sweep_temp := (GlobalTeardown.sweep_temp listing locked).
Local Abbreviation archive_results := (GlobalTeardown.archive_results listing locked).
Local Abbreviation teardown := (GlobalTeardown.teardown listing locked).

(** One turn of the loop. *)
Lemma remove_file_step file fs out :
  remove_file file (fs, out)
  = match node_at fs (tempDir ++ [file]) with
    | Some (File _) =>
        if locked (tempDir ++ [file])
        then (Thrown (IOError "EACCES" (tempDir ++ [file])), (fs, out))
        else (Returned tt, (without fs (tempDir ++ [file]), out))
    | Some Dir => (Returned tt, (fs, out))
    | None => (Thrown (IOError "ENOENT" (tempDir ++ [file])), (fs, out))
    end.
Proof.
  unfold GlobalTeardown.remove_file, bind, on_fst, stat_isFile, unlinkSync, ret.
  cbn [fst snd].
  destruct (node_at fs (tempDir ++ [file])) as [[|text]|] eqn:E; cbn [fst snd].
  - reflexivity.
  - rewrite E. now destruct (locked (tempDir ++ [file])).
  - rewrite is_dir_node by discriminate. now rewrite E.
Qed.

(** The loop over names that stand in the directory, none of them a
    locked file: it removes the files and nothing else. *)
Lemma sweep_loop names : forall fs out,
  NoDup names ->
  (forall name, name ∈ names -> node_at fs (tempDir ++ [name]) <> None) ->
  (forall name, name ∈ names -> is_file fs (tempDir ++ [name]) = true ->
                locked (tempDir ++ [name]) = false) ->
  exists fs',
    for_each names remove_file (fs, out) = (Returned tt, (fs', out)) /\
    fs_denied fs' = fs_denied fs /\
    (forall name, name ∈ names -> is_file fs (tempDir ++ [name]) = true ->
                  node_at fs' (tempDir ++ [name]) = None) /\
    (forall q, is_file fs q = false \/ (forall name, name ∈ names -> q <> tempDir ++ [name]) ->
               node_at fs' q = node_at fs q).
Proof.
  induction names as [|a names IH]; intros fs out Hnd Hex Hrem.
  - exists fs. split; [reflexivity|]. split; [reflexivity|]. split.
    + intros name Hin. inversion Hin.
    + reflexivity.
  - apply NoDup_cons in Hnd as [Ha Hnd].
    cbn [for_each]. unfold bind at 1. rewrite remove_file_step.
    assert (Hstep : exists fs1,
               match node_at fs (tempDir ++ [a]) with
               | Some (File _) =>
                   if locked (tempDir ++ [a])
                   then (Thrown (IOError "EACCES" (tempDir ++ [a])), (fs, out))
                   else (Returned tt, (without fs (tempDir ++ [a]), out))
               | Some Dir => (Returned tt, (fs, out))
               | None => (Thrown (IOError "ENOENT" (tempDir ++ [a])), (fs, out))
               end = (Returned tt, (fs1, out)) /\
               fs_denied fs1 = fs_denied fs /\
               (is_file fs (tempDir ++ [a]) = true -> node_at fs1 (tempDir ++ [a]) = None) /\
               (forall q, is_file fs q = false \/ q <> tempDir ++ [a] ->
                          node_at fs1 q = node_at fs q)).
    { pose proof (Hex a ltac:(now left)) as Hnode.
      pose proof (Hrem a ltac:(now left)) as Hlock. unfold is_file in Hlock |- *.
      destruct (node_at fs (tempDir ++ [a])) as [[|text]|] eqn:E; [| |congruence].
      - exists fs. repeat split; auto. discriminate.
      - rewrite (Hlock eq_refl). exists (without fs (tempDir ++ [a])).
        split; [reflexivity|]. split; [reflexivity|]. split.
        + intros _. rewrite node_at_without. now rewrite bool_decide_true.
        + intros q [Hq|Hq]; rewrite node_at_without; case_bool_decide as Eq; try reflexivity.
          * subst q. rewrite E in Hq. discriminate.
          * congruence. }
    destruct Hstep as (fs1 & -> & Hden1 & Hgone1 & Hkeep1).
    assert (Hrest : forall name, name ∈ names ->
                      node_at fs1 (tempDir ++ [name]) = node_at fs (tempDir ++ [name])).
    { intros name Hin. apply Hkeep1. right. intros Heq. apply temp_child_inj in Heq.
      subst. contradiction. }
    destruct (IH fs1 out Hnd) as (fs' & Hrun & Hden & Hgone & Hkeep).
    { intros name Hin. rewrite Hrest by exact Hin. apply Hex. now right. }
    { intros name Hin. rewrite (is_file_ext fs fs1) by now apply Hrest.
      apply Hrem. now right. }
    exists fs'. split; [exact Hrun|]. split; [congruence|]. split.
    + intros name Hin Hfile. apply elem_of_cons in Hin as [->|Hin].
      * rewrite Hkeep; [now apply Hgone1|].
        right. intros name Hin Heq. apply temp_child_inj in Heq. subst. contradiction.
      * apply Hgone; [exact Hin|]. rewrite (is_file_ext fs fs1) by now apply Hrest.
        exact Hfile.
    + intros q Hq. rewrite Hkeep.
      * apply Hkeep1. destruct Hq as [Hq|Hq]; [now left|]. right. apply Hq. now left.
      * destruct Hq as [Hq|Hq].
        -- left. destruct (decide (q = tempDir ++ [a])) as [->|Hne].
           ++ unfold is_file in Hq |- *.
              destruct (node_at fs (tempDir ++ [a])) as [[|text]|] eqn:E.
              ** rewrite Hkeep1; [now rewrite E|]. left. unfold is_file. now rewrite E.
              ** discriminate.
              ** rewrite Hkeep1; [now rewrite E|]. left. unfold is_file. now rewrite E.
           ++ rewrite (is_file_ext fs fs1); [exact Hq|]. apply Hkeep1. now right.
        -- right. intros name Hin. apply Hq. now right.
Qed.

(** The loop over names of which one is a locked file: it throws, and
    has touched nothing outside the directory. *)
Lemma sweep_loop_locked names : forall fs out,
  NoDup names ->
  (forall name, name ∈ names -> node_at fs (tempDir ++ [name]) <> None) ->
  (exists name, name ∈ names /\ is_file fs (tempDir ++ [name]) = true
                /\ locked (tempDir ++ [name]) = true) ->
  exists e fs',
    for_each names remove_file (fs, out) = (Thrown e, (fs', out)) /\
    fs_denied fs' = fs_denied fs /\
    (forall q, under "temp" q = false -> node_at fs' q = node_at fs q).
Proof.
  induction names as [|a names IH]; intros fs out Hnd Hex (bad & Hin & Hfile & Hlock).
  - inversion Hin.
  - apply NoDup_cons in Hnd as [Ha Hnd].
    cbn [for_each]. unfold bind at 1. rewrite remove_file_step.
    pose proof (Hex a ltac:(now left)) as Hnode.
    assert (Hother : forall fs1,
               (forall q, q <> tempDir ++ [a] -> node_at fs1 q = node_at fs q) ->
               fs_denied fs1 = fs_denied fs ->
               bad <> a ->
               exists e fs',
                 for_each names remove_file (fs1, out) = (Thrown e, (fs', out)) /\
                 fs_denied fs' = fs_denied fs /\
                 (forall q, under "temp" q = false -> node_at fs' q = node_at fs q)).
    { intros fs1 Hkeep1 Hden1 Hne.
      assert (Hin' : bad ∈ names).
      { apply elem_of_cons in Hin as [->|Hin]; [contradiction | exact Hin]. }
      assert (Hrest : forall name, name ∈ names ->
                        node_at fs1 (tempDir ++ [name]) = node_at fs (tempDir ++ [name])).
      { intros name Hn. apply Hkeep1. intros Heq. apply temp_child_inj in Heq.
        subst. contradiction. }
      destruct (IH fs1 out Hnd) as (e & fs' & Hrun & Hden & Hkeep).
      { intros name Hn. rewrite Hrest by exact Hn. apply Hex. now right. }
      { exists bad. split; [exact Hin'|]. split; [|exact Hlock].
        rewrite (is_file_ext fs fs1) by now apply Hrest. exact Hfile. }
      exists e, fs'. split; [exact Hrun|]. split; [congruence|].
      intros q Hq. rewrite Hkeep by exact Hq. apply Hkeep1.
      intros ->. now rewrite under_temp_child in Hq. }
    destruct (node_at fs (tempDir ++ [a])) as [[|text]|] eqn:E; [| |congruence].
    + apply (Hother fs); auto. intros ->. unfold is_file in Hfile. now rewrite E in Hfile.
    + destruct (locked (tempDir ++ [a])) eqn:El.
      * exists (IOError "EACCES" (tempDir ++ [a])), fs. auto.
      * apply (Hother (without fs (tempDir ++ [a]))).
        -- intros q Hq. rewrite node_at_without. case_bool_decide; [congruence | reflexivity].
        -- reflexivity.
        -- intros ->. congruence.
Qed.

Lemma listing_NoDup fs p : NoDup (listing (children fs p)).
Proof. rewrite listing_perm. apply children_NoDup. Qed.

Lemma listing_spec fs p name :
  name ∈ listing (children fs p) <-> node_at fs (p ++ [name]) <> None.
Proof. rewrite listing_perm. apply children_spec. Qed.

Lemma teardown_temp_not_root : tempDir <> [].
Proof. discriminate. Qed.

(** The clean-up where no file of the directory is locked. *)
Lemma sweep_temp_ok fs out :
  is_file fs tempDir = false ->
  removable locked fs tempDir ->
  exists fs1 out1,
    sweep_temp (fs, out) = (Returned tt, (fs1, out1)) /\
    fs_denied fs1 = fs_denied fs /\
    (is_dir fs tempDir = true -> forall name, is_file fs1 (tempDir ++ [name]) = false) /\
    (forall name, is_dir fs1 (tempDir ++ [name]) = is_dir fs (tempDir ++ [name])) /\
    (forall q, is_file fs q = false \/ (forall name, q <> tempDir ++ [name]) ->
               node_at fs1 q = node_at fs q).
Proof.
  intros Hfile Hrem. unfold GlobalTeardown.sweep_temp.
  unfold bind at 1. unfold on_fst at 1, existsSync, gets. cbn [fst snd].
  rewrite Hfile, orb_false_r.
  destruct (is_dir fs tempDir) eqn:Hdir.
  - unfold bind at 1. unfold on_fst at 1, readdirSync. cbn [fst snd]. rewrite Hdir.
    destruct (sweep_loop (listing (children fs tempDir)) fs out)
      as (fs1 & Hrun & Hden & Hgone & Hkeep).
    { apply listing_NoDup. }
    { intros name Hin. now apply listing_spec. }
    { intros name _. apply Hrem. }
    unfold bind at 1. rewrite Hrun.
    unfold console_log, on_snd, modify. cbn [fst snd].
    do 2 eexists. split; [reflexivity|]. split; [exact Hden|]. split.
    + intros _ name. destruct (is_file fs (tempDir ++ [name])) eqn:Ef.
      * unfold is_file. rewrite Hgone; [reflexivity| |exact Ef].
        apply listing_spec. unfold is_file in Ef.
        destruct (node_at fs (tempDir ++ [name])); [discriminate | discriminate].
      * rewrite (is_file_ext fs fs1); [exact Ef|]. apply Hkeep. now left.
    + split.
      * intros name. destruct (is_file fs (tempDir ++ [name])) eqn:Ef.
        -- rewrite !is_dir_node by discriminate. rewrite Hgone; [| |exact Ef].
           ++ unfold is_file in Ef.
              now destruct (node_at fs (tempDir ++ [name])) as [[|text]|].
           ++ apply listing_spec. unfold is_file in Ef.
              destruct (node_at fs (tempDir ++ [name])); [discriminate | discriminate].
        -- apply is_dir_ext. apply Hkeep. now left.
      * intros q [Hq|Hq]; apply Hkeep; [now left|]. right. intros name _. apply Hq.
  - unfold ret. exists fs, out. split; [reflexivity|]. split; [reflexivity|].
    split; [discriminate|]. split; reflexivity.
Qed.

(** The clean-up where it cannot list the directory, or cannot remove a
    file of it. *)
Lemma sweep_temp_fails fs out :
  is_file fs tempDir = true \/
  (is_dir fs tempDir = true /\
   exists name, is_file fs (tempDir ++ [name]) = true /\ locked (tempDir ++ [name]) = true) ->
  exists e fs1,
    sweep_temp (fs, out) = (Thrown e, (fs1, out)) /\
    fs_denied fs1 = fs_denied fs /\
    (forall q, under "temp" q = false -> node_at fs1 q = node_at fs q).
Proof.
  intros Hcase. unfold GlobalTeardown.sweep_temp.
  unfold bind at 1. unfold on_fst at 1, existsSync, gets. cbn [fst snd].
  destruct Hcase as [Hfile|(Hdir & bad & Hfile & Hlock)].
  - rewrite Hfile, orb_true_r.
    assert (Hdir : is_dir fs tempDir = false).
    { destruct (is_dir fs tempDir) eqn:E; [|reflexivity].
      apply is_dir_is_file in E; [congruence | apply teardown_temp_not_root]. }
    unfold bind at 1. unfold on_fst at 1, readdirSync. cbn [fst snd].
    rewrite Hdir, Hfile. do 2 eexists. split; [reflexivity|]. auto.
  - rewrite Hdir. cbn [orb].
    unfold bind at 1. unfold on_fst at 1, readdirSync. cbn [fst snd]. rewrite Hdir.
    destruct (sweep_loop_locked (listing (children fs tempDir)) fs out)
      as (e & fs1 & Hrun & Hden & Hkeep).
    { apply listing_NoDup. }
    { intros name Hin. now apply listing_spec. }
    { exists bad. split; [|auto]. apply listing_spec. unfold is_file in Hfile.
      destruct (node_at fs (tempDir ++ [bad])); [discriminate | discriminate]. }
    unfold bind at 1. rewrite Hrun. eauto.
Qed.

(** What the second half leaves alone, however it ends. *)
Lemma archive_results_frame now fs out r fs' out' :
  archive_results now (fs, out) = (r, (fs', out')) ->
  forall q, under "test-results" q = false -> under "archived-results" q = false ->
            node_at fs' q = node_at fs q.
Proof.
  unfold GlobalTeardown.archive_results.
  unfold bind at 1. unfold on_fst at 1, existsSync, gets. cbn [fst snd].
  destruct (is_dir fs testResultsDir || is_file fs testResultsDir);
    [|unfold ret; intros [= _ <- _]; reflexivity].
  unfold bind at 1. unfold on_fst at 1, existsSync, gets. cbn [fst snd].
  assert (Hmk : exists r2 fs2,
             (if negb (is_dir fs archiveDir || is_file fs archiveDir)
              then on_fst (mkdirSync archiveDir) else ret tt) (fs, out) = (r2, (fs2, out)) /\
             forall q, under "archived-results" q = false -> node_at fs2 q = node_at fs q).
  { destruct (is_dir fs archiveDir || is_file fs archiveDir); cbn [negb].
    - unfold ret. eauto.
    - unfold on_fst, mkdirSync. cbn [fst snd].
      destruct (is_dir fs archiveDir || is_file fs archiveDir); [eauto|].
      destruct (negb (is_dir fs (dirname archiveDir))); [eauto|].
      destruct (denied fs archiveDir); [eauto|].
      do 2 eexists. split; [reflexivity|]. intros q Hq. rewrite nodes_with_dirs.
      case_bool_decide as E; [|reflexivity].
      apply list_elem_of_singleton in E. subst q. discriminate. }
  destruct Hmk as (r2 & fs2 & Hmk & Hkeep2).
  unfold bind at 1. rewrite Hmk. destruct r2 as [[]|e2].
  2:{ intros [= _ <- _]. intros q _ Hq. now apply Hkeep2. }
  unfold bind at 1. unfold on_fst at 1, readdirSync. cbn [fst snd].
  destruct (is_dir fs2 testResultsDir).
  2:{ destruct (is_file fs2 testResultsDir); intros [= _ <- _]; intros q _ Hq;
        now apply Hkeep2. }
  destruct (0 <? Z.of_nat (length (listing (children fs2 testResultsDir)))).
  2:{ unfold ret. intros [= _ <- _]. intros q _ Hq. now apply Hkeep2. }
  unfold bind at 1. unfold on_fst at 1, renameSync. cbn [fst snd].
  destruct (negb (is_dir fs2 testResultsDir || is_file fs2 testResultsDir)).
  { intros [= _ <- _]. intros q _ Hq. now apply Hkeep2. }
  rewrite results_apart.
  destruct (is_dir fs2 (archivePath now) || is_file fs2 (archivePath now)).
  { intros [= _ <- _]. intros q _ Hq. now apply Hkeep2. }
  destruct (negb (is_dir fs2 (dirname (archivePath now)))).
  { intros [= _ <- _]. intros q _ Hq. now apply Hkeep2. }
  destruct (denied fs2 (archivePath now) || locked testResultsDir).
  { intros [= _ <- _]. intros q _ Hq. now apply Hkeep2. }
  unfold console_log, on_snd, modify. cbn [fst snd].
  intros [= _ <- _]. intros q Hr Ha.
  rewrite node_at_moved_other by now apply not_under_not_within.
  now apply Hkeep2.
Qed.

(** The second half where there are results and the archive can be
    made. *)
Lemma archive_results_moves now fs out :
  is_dir fs testResultsDir = true ->
  (exists name, node_at fs (testResultsDir ++ [name]) <> None) ->
  archivable locked fs now ->
  exists fs' out',
    archive_results now (fs, out) = (Returned tt, (fs', out')) /\
    (forall r, node_at fs' (archivePath now ++ r) = node_at fs (testResultsDir ++ r)) /\
    (forall r, node_at fs' (testResultsDir ++ r) = None).
Proof.
  intros Hdir (name & Hname) (Hafile & Hadir & Hfree & Hden & Hlock).
  unfold GlobalTeardown.archive_results.
  unfold bind at 1. unfold on_fst at 1, existsSync, gets. cbn [fst snd].
  rewrite Hdir. cbn [orb].
  unfold bind at 1. unfold on_fst at 1, existsSync, gets. cbn [fst snd].
  rewrite Hafile, orb_false_r.
  assert (Hmk : exists fs2,
             (if negb (is_dir fs archiveDir)
              then on_fst (mkdirSync archiveDir) else ret tt) (fs, out)
             = (Returned tt, (fs2, out)) /\
             is_dir fs2 archiveDir = true /\
             fs_denied fs2 = fs_denied fs /\
             forall q, q <> archiveDir -> node_at fs2 q = node_at fs q).
  { destruct (is_dir fs archiveDir) eqn:Ea; cbn [negb].
    - exists fs. unfold ret. auto.
    - destruct Hadir as [?|Hadir]; [discriminate|].
      unfold on_fst, mkdirSync. cbn [fst snd].
      rewrite Ea, Hafile, Hadir. change (dirname archiveDir) with (@nil string).
      cbn [is_dir orb negb].
      eexists. split; [reflexivity|]. split.
      + rewrite is_dir_with_dirs. rewrite bool_decide_true; [reflexivity|].
        apply list_elem_of_singleton. reflexivity.
      + split; [reflexivity|]. intros q Hq. rewrite nodes_with_dirs.
        case_bool_decide as E; [|reflexivity].
        apply list_elem_of_singleton in E. contradiction. }
  destruct Hmk as (fs2 & Hmk & Hadir2 & Hden2 & Hkeep2).
  unfold bind at 1. rewrite Hmk.
  assert (Hres : forall r, node_at fs2 (testResultsDir ++ r) = node_at fs (testResultsDir ++ r)).
  { intros r. apply Hkeep2. discriminate. }
  assert (Hdir2 : is_dir fs2 testResultsDir = true).
  { rewrite <- Hdir. apply is_dir_ext. apply (Hres []). }
  unfold bind at 1. unfold on_fst at 1, readdirSync. cbn [fst snd]. rewrite Hdir2.
  assert (Hlen : (0 <? Z.of_nat (length (listing (children fs2 testResultsDir)))) = true).
  { apply Z.ltb_lt. rewrite listing_perm.
    assert (Hin : name ∈ children fs2 testResultsDir).
    { apply children_spec. now rewrite Hres. }
    destruct (children fs2 testResultsDir); [inversion Hin | cbn; lia]. }
  rewrite Hlen.
  unfold bind at 1. unfold on_fst at 1, renameSync. cbn [fst snd].
  rewrite Hdir2. cbn [orb negb]. rewrite results_apart.
  assert (Hfree2 : node_at fs2 (archivePath now) = None).
  { rewrite Hkeep2 by discriminate. exact Hfree. }
  rewrite (is_dir_node fs2 (archivePath now)) by discriminate.
  unfold is_file at 1. rewrite Hfree2. cbn [orb].
  change (dirname (archivePath now)) with archiveDir. rewrite Hadir2. cbn [negb].
  rewrite (denied_ext fs fs2) by exact Hden2. rewrite Hden, Hlock. cbn [orb].
  unfold console_log, on_snd, modify. cbn [fst snd].
  do 2 eexists. split; [reflexivity|]. split.
  - intros r. rewrite (node_at_moved_dst _ _ (results_apart now) (archive_apart now)).
    apply Hres.
  - intros r. apply (node_at_moved_src _ _ (results_apart now) (archive_apart now)).
Qed.

(** The second half where the directory of the results is empty: the
    results stay, and the archive directory is made all the same. *)
Lemma archive_results_empty now fs out :
  is_dir fs testResultsDir = true ->
  (forall name, node_at fs (testResultsDir ++ [name]) = None) ->
  is_file fs archiveDir = false ->
  is_dir fs archiveDir = true \/ denied fs archiveDir = false ->
  exists fs',
    archive_results now (fs, out) = (Returned tt, (fs', out)) /\
    is_dir fs' archiveDir = true /\
    forall q, q <> archiveDir -> node_at fs' q = node_at fs q.
Proof.
  intros Hdir Hempty Hafile Hadir.
  unfold GlobalTeardown.archive_results.
  unfold bind at 1. unfold on_fst at 1, existsSync, gets. cbn [fst snd].
  rewrite Hdir. cbn [orb].
  unfold bind at 1. unfold on_fst at 1, existsSync, gets. cbn [fst snd].
  rewrite Hafile, orb_false_r.
  assert (Hmk : exists fs2,
             (if negb (is_dir fs archiveDir)
              then on_fst (mkdirSync archiveDir) else ret tt) (fs, out)
             = (Returned tt, (fs2, out)) /\
             is_dir fs2 archiveDir = true /\
             forall q, q <> archiveDir -> node_at fs2 q = node_at fs q).
  { destruct (is_dir fs archiveDir) eqn:Ea; cbn [negb].
    - exists fs. unfold ret. auto.
    - destruct Hadir as [?|Hadir]; [discriminate|].
      unfold on_fst, mkdirSync. cbn [fst snd].
      rewrite Ea, Hafile, Hadir. change (dirname archiveDir) with (@nil string).
      cbn [is_dir orb negb].
      eexists. split; [reflexivity|]. split.
      + rewrite is_dir_with_dirs. rewrite bool_decide_true; [reflexivity|].
        apply list_elem_of_singleton. reflexivity.
      + intros q Hq. rewrite nodes_with_dirs.
        case_bool_decide as E; [|reflexivity].
        apply list_elem_of_singleton in E. contradiction. }
  destruct Hmk as (fs2 & Hmk & Hadir2 & Hkeep2).
  unfold bind at 1. rewrite Hmk.
  assert (Hdir2 : is_dir fs2 testResultsDir = true).
  { rewrite <- Hdir. apply is_dir_ext. apply Hkeep2. discriminate. }
  unfold bind at 1. unfold on_fst at 1, readdirSync. cbn [fst snd]. rewrite Hdir2.
  assert (Hnil : children fs2 testResultsDir = []).
  { destruct (children fs2 testResultsDir) as [|name rest] eqn:E; [reflexivity|].
    assert (Hin : name ∈ children fs2 testResultsDir) by (rewrite E; now left).
    apply children_spec in Hin. rewrite Hkeep2 in Hin by discriminate.
    now rewrite Hempty in Hin. }
  assert (Hlen : (0 <? Z.of_nat (length (listing (children fs2 testResultsDir)))) = false).
  { apply Z.ltb_ge. rewrite listing_perm, Hnil. cbn. lia. }
  rewrite Hlen. unfold ret. eauto.
Qed.

(** The teardown after a clean-up that went through: it returns, with
    the disk as the second half leaves it. *)
Lemma teardown_after_sweep now fs fs1 out1 :
  sweep_temp (fs, [Logged "Running global teardown..."]) = (Returned tt, (fs1, out1)) ->
  exists r fs' out2 out',
    archive_results now (fs1, out1) = (r, (fs', out2)) /\
    teardown now (fs, []) = (Returned tt, (fs', out')).
Proof.
  intros Hsweep. unfold GlobalTeardown.teardown.
  unfold bind at 1. unfold console_log at 1, on_snd, modify. cbn [fst snd app].
  unfold try_catch. unfold bind at 1. rewrite Hsweep.
  unfold bind at 1.
  destruct (archive_results now (fs1, out1)) as [[[]|e] [fs' out2]] eqn:Ea.
  - do 4 eexists. split; [reflexivity|]. reflexivity.
  - do 4 eexists. split; [reflexivity|]. reflexivity.
Qed.

End Environment.

Section Teardown.
Context {J : JSONImpl}.
Variable listing : list string -> list string.
Variable locked : path -> bool.
Hypothesis listing_perm : forall l, listing l ≡ₚ l.

(** Where [temp] is a directory and no file of it is locked, the
    teardown returns and has removed every file that stood directly in
    [temp]; the directories of [temp] stay.  The outcome store is one
    of those files: a read of it answers the empty object afterwards. *)
Theorem teardown_sweeps_temp now fs :
  is_dir fs tempDir = true ->
  removable locked fs tempDir ->
  exists fs' out,
    teardown listing locked now (fs, []) = (Returned tt, (fs', out)) /\
    (forall name, is_file fs' (tempDir ++ [name]) = false) /\
    (forall name, is_dir fs' (tempDir ++ [name]) = is_dir fs (tempDir ++ [name])) /\
    (is_dir fs OutcomeHelper.dataPath = false ->
     OutcomeHelper.readTestData fs' = (Returned (JObj []), fs')).
Proof.
  intros Hdir Hrem.
  assert (Hfile : is_file fs tempDir = false).
  { apply is_dir_is_file; [discriminate | exact Hdir]. }
  destruct (sweep_temp_ok listing locked listing_perm fs
              [Logged "Running global teardown..."] Hfile Hrem)
    as (fs1 & out1 & Hsweep & _ & Hgone & Hdirs1 & Hkeep).
  destruct (teardown_after_sweep listing locked now fs fs1 out1 Hsweep)
    as (r & fs' & out2 & out' & Harch & Hrun).
  pose proof (archive_results_frame listing locked now fs1 out1 r fs' out2 Harch) as Hframe.
  assert (Hfiles : forall name, is_file fs' (tempDir ++ [name]) = false).
  { intros name. rewrite (is_file_ext fs1 fs') by now apply Hframe. now apply Hgone. }
  assert (Hdirs : forall name, is_dir fs' (tempDir ++ [name]) = is_dir fs (tempDir ++ [name])).
  { intros name. rewrite (is_dir_ext fs1 fs') by now apply Hframe. apply Hdirs1. }
  exists fs', out'. split; [exact Hrun|]. split; [exact Hfiles|]. split; [exact Hdirs|].
  intros Hdata. unfold OutcomeHelper.readTestData, bind, existsSync, gets.
  change OutcomeHelper.dataPath with (tempDir ++ ["testData.json"]) in *.
  rewrite Hdirs, Hdata, Hfiles. reflexivity.
Qed.

(** Where the clean-up fails -- [temp] is a file, or a file of [temp]
    is locked -- the teardown still returns: it prints the error and
    skips the archive, so that everything outside [temp] stands as it
    stood and the results are not archived. *)
Theorem teardown_failure_skips_archive now fs :
  is_file fs tempDir = true \/
  (is_dir fs tempDir = true /\
   exists name, is_file fs (tempDir ++ [name]) = true /\ locked (tempDir ++ [name]) = true) ->
  exists e fs',
    teardown listing locked now (fs, [])
    = (Returned tt, (fs', [Logged "Running global teardown...";
                           Failed "Error during global teardown:" e])) /\
    forall q, under "temp" q = false -> node_at fs' q = node_at fs q.
Proof.
  intros Hcase.
  destruct (sweep_temp_fails listing locked listing_perm fs
              [Logged "Running global teardown..."] Hcase)
    as (e & fs1 & Hsweep & _ & Hkeep).
  exists e, fs1. split; [|exact Hkeep].
  unfold GlobalTeardown.teardown.
  unfold bind at 1. unfold console_log at 1, on_snd, modify. cbn [fst snd app].
  unfold try_catch. unfold bind at 1. rewrite Hsweep.
  unfold console_error, on_snd, modify. reflexivity.
Qed.

(** Where the clean-up goes through, [test-results] is a directory
    that is not empty and the archive can be made, the teardown moves
    the results: what stood at a path below [test-results] stands at
    the same path below [archived-results/results-<time>], and nothing
    stands at [test-results] any more. *)
Theorem teardown_archives now fs :
  is_file fs tempDir = false ->
  removable locked fs tempDir ->
  is_dir fs testResultsDir = true ->
  (exists name, node_at fs (testResultsDir ++ [name]) <> None) ->
  archivable locked fs now ->
  exists fs' out,
    teardown listing locked now (fs, []) = (Returned tt, (fs', out)) /\
    (forall r, node_at fs' (archivePath now ++ r) = node_at fs (testResultsDir ++ r)) /\
    (forall r, node_at fs' (testResultsDir ++ r) = None).
Proof.
  intros Hfile Hrem Hdir Hsome Harchivable.
  destruct (sweep_temp_ok listing locked listing_perm fs
              [Logged "Running global teardown..."] Hfile Hrem)
    as (fs1 & out1 & Hsweep & Hden1 & _ & _ & Hkeep).
  assert (Hsame : forall q, under "temp" q = false -> node_at fs1 q = node_at fs q).
  { intros q Hq. apply Hkeep. right. intros name ->. now rewrite under_temp_child in Hq. }
  assert (Hdir1 : is_dir fs1 testResultsDir = true).
  { rewrite <- Hdir. apply is_dir_ext. now apply Hsame. }
  assert (Hsome1 : exists name, node_at fs1 (testResultsDir ++ [name]) <> None).
  { destruct Hsome as [name Hname]. exists name. now rewrite Hsame. }
  assert (Harchivable1 : archivable locked fs1 now).
  { destruct Harchivable as (Ha & Hb & Hc & Hd & He). unfold archivable.
    rewrite (is_file_ext fs fs1), (is_dir_ext fs fs1) by now apply Hsame.
    rewrite !(denied_ext fs fs1) by exact Hden1.
    rewrite Hsame by reflexivity. auto. }
  destruct (archive_results_moves listing locked listing_perm now fs1 out1
              Hdir1 Hsome1 Harchivable1) as (fs' & out2 & Harch & Hto & Hfrom).
  exists fs'. eexists. split.
  - unfold GlobalTeardown.teardown.
    unfold bind at 1. unfold console_log at 1, on_snd, modify. cbn [fst snd app].
    unfold try_catch. unfold bind at 1. rewrite Hsweep.
    unfold bind at 1. rewrite Harch.
    unfold console_log, on_snd, modify. reflexivity.
  - split; [|exact Hfrom]. intros r. rewrite Hto. now apply Hsame.
Qed.

(** Where the clean-up goes through and [test-results] is an empty
    directory, the results directory stays, and the directory
    [archived-results] is made all the same. *)
Theorem teardown_empty_results now fs :
  is_file fs tempDir = false ->
  removable locked fs tempDir ->
  is_dir fs testResultsDir = true ->
  (forall name, node_at fs (testResultsDir ++ [name]) = None) ->
  is_file fs archiveDir = false ->
  is_dir fs archiveDir = true \/ denied fs archiveDir = false ->
  exists fs' out,
    teardown listing locked now (fs, []) = (Returned tt, (fs', out)) /\
    is_dir fs' testResultsDir = true /\
    is_dir fs' archiveDir = true.
Proof.
  intros Hfile Hrem Hdir Hempty Hafile Hadir.
  destruct (sweep_temp_ok listing locked listing_perm fs
              [Logged "Running global teardown..."] Hfile Hrem)
    as (fs1 & out1 & Hsweep & Hden1 & _ & _ & Hkeep).
  assert (Hsame : forall q, under "temp" q = false -> node_at fs1 q = node_at fs q).
  { intros q Hq. apply Hkeep. right. intros name ->. now rewrite under_temp_child in Hq. }
  destruct (archive_results_empty listing locked listing_perm now fs1 out1)
    as (fs' & Harch & Hmade & Hkeep').
  { rewrite <- Hdir. apply is_dir_ext. now apply Hsame. }
  { intros name. now rewrite Hsame. }
  { rewrite <- Hafile. apply is_file_ext. now apply Hsame. }
  { rewrite (is_dir_ext fs fs1) by now apply Hsame.
    now rewrite (denied_ext fs fs1) by exact Hden1. }
  exists fs'. eexists. split.
  - unfold GlobalTeardown.teardown.
    unfold bind at 1. unfold console_log at 1, on_snd, modify. cbn [fst snd app].
    unfold try_catch. unfold bind at 1. rewrite Hsweep.
    unfold bind at 1. rewrite Harch.
    unfold console_log, on_snd, modify. reflexivity.
  - split; [|exact Hmade].
    rewrite <- Hdir. transitivity (is_dir fs1 testResultsDir).
    + apply is_dir_ext. apply Hkeep'. discriminate.
    + apply is_dir_ext. now apply Hsame.
Qed.

End Teardown.

#[local] Existing Instance JSONText.text_json.

Lemma as_stored_perm l : as_stored l ≡ₚ l.
Proof. reflexivity. Qed.

Lemma teardown_sweeps_temp_witness :
  exists fs' out,
    teardown as_stored nothing_locked sample_time (disk_after_run, [])
    = (Returned tt, (fs', out)) /\
    (forall name, is_file fs' (tempDir ++ [name]) = false) /\
    (forall name, is_dir fs' (tempDir ++ [name]) = is_dir disk_after_run (tempDir ++ [name])) /\
    (is_dir disk_after_run OutcomeHelper.dataPath = false ->
     OutcomeHelper.readTestData fs' = (Returned (JObj []), fs')).
Proof.
  apply (teardown_sweeps_temp as_stored nothing_locked as_stored_perm sample_time
           disk_after_run).
  - vm_compute. reflexivity.
  - intros name _. reflexivity.
Defined.

Lemma teardown_failure_skips_archive_witness :
  exists e fs',
    teardown as_stored store_locked sample_time (disk_after_run, [])
    = (Returned tt, (fs', [Logged "Running global teardown...";
                           Failed "Error during global teardown:" e])) /\
    forall q, under "temp" q = false -> node_at fs' q = node_at disk_after_run q.
Proof.
  apply (teardown_failure_skips_archive as_stored store_locked as_stored_perm sample_time
           disk_after_run).
  right. split; [vm_compute; reflexivity|].
  exists "testData.json". split; vm_compute; reflexivity.
Defined.

Lemma teardown_archives_witness :
  exists fs' out,
    teardown as_stored nothing_locked sample_time (disk_after_run, [])
    = (Returned tt, (fs', out)) /\
    (forall r, node_at fs' (archivePath sample_time ++ r)
               = node_at disk_after_run (testResultsDir ++ r)) /\
    (forall r, node_at fs' (testResultsDir ++ r) = None).
Proof.
  apply (teardown_archives as_stored nothing_locked as_stored_perm sample_time
           disk_after_run).
  - vm_compute. reflexivity.
  - intros name _. reflexivity.
  - vm_compute. reflexivity.
  - exists "results.json". vm_compute. discriminate.
  - unfold archivable. repeat split; try (vm_compute; reflexivity).
    right. vm_compute. reflexivity.
Defined.

Lemma teardown_empty_results_witness :
  exists fs' out,
    teardown as_stored nothing_locked sample_time (disk_without_results, [])
    = (Returned tt, (fs', out)) /\
    is_dir fs' testResultsDir = true /\
    is_dir fs' archiveDir = true.
Proof.
  apply (teardown_empty_results as_stored nothing_locked as_stored_perm sample_time
           disk_without_results).
  - vm_compute. reflexivity.
  - intros name _. reflexivity.
  - vm_compute. reflexivity.
  - intros name. unfold disk_without_results. rewrite nodes_with_dirs.
    rewrite bool_decide_false; [reflexivity|].
    intros H. repeat (apply elem_of_cons in H as [H|H]; [discriminate|]). inversion H.
  - vm_compute. reflexivity.
  - right. vm_compute. reflexivity.
Defined.

(** The teardown on the sample disk: the report is in the archive, the
    store is gone, the snapshot directory stays. *)
Example teardown_after_run :
  let fs' := fst (snd (teardown as_stored nothing_locked sample_time (disk_after_run, []))) in
  file_text fs' (archivePath sample_time ++ ["results.json"]) = Some "[]"
  /\ archivePath sample_time = ["archived-results"; "results-2024-05-01T10-20-30-123Z"]
  /\ node_at fs' (tempDir ++ ["testData.json"]) = None
  /\ is_dir fs' (tempDir ++ ["snapshots"]) = true
  /\ is_dir fs' testResultsDir = false.
Proof. vm_compute. repeat split; reflexivity. Qed.

End GlobalTeardownFacts.

(** ** The clean-up of the file operations *)

Module FileOperationsFacts.
Import FsTree FsFacts FsTreeFacts TestDataManager GlobalTeardown GlobalTeardownFacts.
Import FileOperations.

Lemma child_inj (dir : path) (a b : string) : dir ++ [a] = dir ++ [b] -> a = b.
Proof. intros H. apply app_inv_head in H. now injection H. Qed.

Section Environment.
Variable listing : list string -> list string.
Variable locked : path -> bool.
Hypothesis listing_perm : forall l, listing l ≡ₚ l.

Local Abbreviation remove_entries := (FileOperations.remove_entries listing locked).
Local Abbreviation cleanupFiles := (FileOperations.cleanupFiles listing locked).

Lemma cleanupFiles_blocks :
  cleanupFiles
  = try_catch
      (remove_entries downloadPath;;
       remove_entries uploadPath;;
       logger_info "Test files cleaned up")
      (fun error => logger_error "Error cleaning up files:" error).
Proof. reflexivity. Qed.

(** The loop over entries that are files and not locked removes them
    all, and nothing else. *)
Lemma unlink_loop dir names : forall fs (log : list log_line),
  NoDup names ->
  (forall name, name ∈ names ->
     is_file fs (dir ++ [name]) = true /\ locked (dir ++ [name]) = false) ->
  exists fs',
    for_each names (fun file => on_fst (unlinkSync locked (dir ++ [file]))) (fs, log)
    = (Returned tt, (fs', log)) /\
    (forall name, name ∈ names -> node_at fs' (dir ++ [name]) = None) /\
    (forall q, (forall name, name ∈ names -> q <> dir ++ [name]) ->
               node_at fs' q = node_at fs q).
Proof.
  induction names as [|a names IH]; intros fs log Hnd Hall.
  - exists fs. split; [reflexivity|]. split; [|reflexivity].
    intros name Hin. inversion Hin.
  - apply NoDup_cons in Hnd as [Ha Hnd].
    destruct (Hall a ltac:(now left)) as [Hfile Hlock].
    cbn [for_each]. unfold bind at 1. unfold on_fst at 1, unlinkSync. cbn [fst snd].
    unfold is_file in Hfile.
    destruct (node_at fs (dir ++ [a])) as [[|text]|] eqn:E; try discriminate.
    rewrite Hlock.
    assert (Hrest : forall name, name ∈ names ->
              node_at (without fs (dir ++ [a])) (dir ++ [name]) = node_at fs (dir ++ [name])).
    { intros name Hin. rewrite node_at_without. case_bool_decide as Eq; [|reflexivity].
      apply child_inj in Eq. subst. contradiction. }
    destruct (IH (without fs (dir ++ [a])) log Hnd) as (fs' & Hrun & Hgone & Hkeep).
    { intros name Hin. rewrite (is_file_ext fs) by now apply Hrest. apply Hall. now right. }
    exists fs'. split; [exact Hrun|]. split.
    + intros name Hin. apply elem_of_cons in Hin as [->|Hin]; [|now apply Hgone].
      rewrite Hkeep.
      * rewrite node_at_without. now rewrite bool_decide_true.
      * intros name Hin Heq. apply child_inj in Heq. subst. contradiction.
    + intros q Hq. rewrite Hkeep.
      * rewrite node_at_without. case_bool_decide as Eq; [|reflexivity].
        subst q. exfalso. apply (Hq a); [now left | reflexivity].
      * intros name Hin. apply Hq. now right.
Qed.

(** The loop over entries of which one is stuck throws, and has touched
    nothing but entries of the directory. *)
Lemma unlink_loop_stuck dir names : forall fs (log : list log_line),
  NoDup names ->
  (forall name, name ∈ names -> node_at fs (dir ++ [name]) <> None) ->
  (exists name, name ∈ names /\ stuck_entry locked fs dir name) ->
  exists e fs',
    for_each names (fun file => on_fst (unlinkSync locked (dir ++ [file]))) (fs, log)
    = (Thrown e, (fs', log)) /\
    (forall q, (forall name, q <> dir ++ [name]) -> node_at fs' q = node_at fs q).
Proof.
  induction names as [|a names IH]; intros fs log Hnd Hex (bad & Hin & Hbad).
  - inversion Hin.
  - apply NoDup_cons in Hnd as [Ha Hnd].
    pose proof (Hex a ltac:(now left)) as Hnode.
    cbn [for_each]. unfold bind at 1. unfold on_fst at 1, unlinkSync. cbn [fst snd].
    destruct (node_at fs (dir ++ [a])) as [[|text]|] eqn:E; [| |congruence].
    { do 2 eexists. split; [reflexivity|]. reflexivity. }
    destruct (locked (dir ++ [a])) eqn:El.
    { do 2 eexists. split; [reflexivity|]. reflexivity. }
    assert (Hne : bad <> a).
    { intros ->. unfold stuck_entry in Hbad.
      assert (Hpath : dir ++ [a] <> []) by (destruct dir; discriminate).
      rewrite (is_dir_node fs _ Hpath) in Hbad. rewrite E in Hbad.
      destruct Hbad as [?|[_ ?]]; congruence. }
    assert (Hin' : bad ∈ names).
    { apply elem_of_cons in Hin as [->|Hin]; [contradiction | exact Hin]. }
    assert (Hrest : forall name, name ∈ names ->
              node_at (without fs (dir ++ [a])) (dir ++ [name]) = node_at fs (dir ++ [name])).
    { intros name Hn. rewrite node_at_without. case_bool_decide as Eq; [|reflexivity].
      apply child_inj in Eq. subst. contradiction. }
    destruct (IH (without fs (dir ++ [a])) log Hnd) as (e & fs' & Hrun & Hkeep).
    { intros name Hn. rewrite Hrest by exact Hn. apply Hex. now right. }
    { exists bad. split; [exact Hin'|]. unfold stuck_entry in *.
      rewrite (is_dir_ext fs), (is_file_ext fs) by now apply Hrest. exact Hbad. }
    exists e, fs'. split; [exact Hrun|].
    intros q Hq. rewrite Hkeep by exact Hq. rewrite node_at_without.
    case_bool_decide as Eq; [|reflexivity]. subst q. exfalso. now apply (Hq a).
Qed.

(** A block over a directory of files that can be removed. *)
Lemma remove_entries_ok dir fs (log : list log_line) :
  dir <> [] -> is_dir fs dir = true -> only_files locked fs dir ->
  exists fs',
    remove_entries dir (fs, log) = (Returned tt, (fs', log)) /\
    (forall name, node_at fs' (dir ++ [name]) = None) /\
    (forall q, (forall name, q <> dir ++ [name]) -> node_at fs' q = node_at fs q).
Proof.
  intros Hroot Hdir Hfiles. unfold FileOperations.remove_entries.
  unfold bind at 1. unfold on_fst at 1, existsSync, gets. cbn [fst snd].
  rewrite Hdir. cbn [orb].
  unfold bind at 1. unfold on_fst at 1, readdirSync. cbn [fst snd]. rewrite Hdir.
  destruct (unlink_loop dir (listing (children fs dir)) fs log)
    as (fs' & Hrun & Hgone & Hkeep).
  { rewrite listing_perm. apply children_NoDup. }
  { intros name Hin. apply Hfiles. rewrite listing_perm in Hin. now apply children_spec. }
  exists fs'. split; [exact Hrun|]. split.
  - intros name. destruct (node_at fs (dir ++ [name])) as [n|] eqn:E.
    + apply Hgone. rewrite listing_perm. apply children_spec. congruence.
    + rewrite <- E. destruct (decide (name ∈ listing (children fs dir))) as [Hin|Hout].
      * rewrite Hgone by exact Hin. now rewrite E.
      * apply Hkeep. intros name' Hin' Heq. apply child_inj in Heq. subst. contradiction.
  - intros q Hq. apply Hkeep. intros name _. apply Hq.
Qed.

(** A block over a directory with a stuck entry. *)
Lemma remove_entries_stuck dir fs (log : list log_line) name :
  is_dir fs dir = true -> stuck_entry locked fs dir name ->
  exists e fs',
    remove_entries dir (fs, log) = (Thrown e, (fs', log)) /\
    (forall q, (forall name, q <> dir ++ [name]) -> node_at fs' q = node_at fs q).
Proof.
  intros Hdir Hstuck. unfold FileOperations.remove_entries.
  unfold bind at 1. unfold on_fst at 1, existsSync, gets. cbn [fst snd].
  rewrite Hdir. cbn [orb].
  unfold bind at 1. unfold on_fst at 1, readdirSync. cbn [fst snd]. rewrite Hdir.
  apply unlink_loop_stuck.
  - rewrite listing_perm. apply children_NoDup.
  - intros name' Hin. rewrite listing_perm in Hin. now apply children_spec.
  - exists name. split; [|exact Hstuck]. rewrite listing_perm. apply children_spec.
    assert (Hpath : dir ++ [name] <> []) by (destruct dir; discriminate).
    unfold stuck_entry in Hstuck. rewrite (is_dir_node fs _ Hpath) in Hstuck.
    unfold is_file in Hstuck.
    destruct (node_at fs (dir ++ [name])); [discriminate|].
    destruct Hstuck as [?|[? _]]; discriminate.
Qed.

(** [cleanupFiles] never lets an error out.  Where both directories
    hold nothing but files that can be removed, it removes them all and
    touches nothing else.  Where an entry of [downloads] is a directory
    or a locked file, it stops there: it logs the error and leaves the
    test files, and everything else outside [downloads], as they were. *)
Theorem cleanupFiles_spec fs :
  (is_dir fs downloadPath = true -> is_dir fs uploadPath = true ->
   only_files locked fs downloadPath -> only_files locked fs uploadPath ->
   exists fs',
     cleanupFiles (fs, []) = (Returned tt, (fs', [LogInfo "Test files cleaned up"])) /\
     (forall name, node_at fs' (downloadPath ++ [name]) = None) /\
     (forall name, node_at fs' (uploadPath ++ [name]) = None) /\
     (forall q, (forall name, q <> downloadPath ++ [name] /\ q <> uploadPath ++ [name]) ->
                node_at fs' q = node_at fs q)) /\
  (is_dir fs downloadPath = true ->
   (exists name, stuck_entry locked fs downloadPath name) ->
   exists e fs',
     cleanupFiles (fs, []) = (Returned tt, (fs', [LogError "Error cleaning up files:" e])) /\
     (forall q, under "downloads" q = false -> node_at fs' q = node_at fs q)).
Proof.
  rewrite cleanupFiles_blocks. split.
  - intros Hd Hu Hfd Hfu.
    destruct (remove_entries_ok downloadPath fs [] ltac:(discriminate) Hd Hfd)
      as (fs1 & Hrun1 & Hgone1 & Hkeep1).
    assert (Hsame : forall q, under "downloads" q = false -> node_at fs1 q = node_at fs q).
    { intros q Hq. apply Hkeep1. intros name ->. discriminate. }
    destruct (remove_entries_ok uploadPath fs1 [] ltac:(discriminate))
      as (fs2 & Hrun2 & Hgone2 & Hkeep2).
    { rewrite <- Hu. apply is_dir_ext. now apply Hsame. }
    { intros name. rewrite (is_file_ext fs fs1) by (apply Hsame; reflexivity).
      rewrite Hsame by reflexivity. apply Hfu. }
    exists fs2. unfold try_catch, bind. rewrite Hrun1, Hrun2.
    split; [reflexivity|]. split.
    + intros name. rewrite Hkeep2; [apply Hgone1|]. intros name'. discriminate.
    + split; [exact Hgone2|]. intros q Hq. rewrite Hkeep2, Hkeep1.
      * reflexivity.
      * intros name. apply Hq.
      * intros name. apply Hq.
  - intros Hd [name Hstuck].
    destruct (remove_entries_stuck downloadPath fs [] name Hd Hstuck)
      as (e & fs1 & Hrun1 & Hkeep1).
    exists e, fs1. unfold try_catch, bind. rewrite Hrun1. split; [reflexivity|].
    intros q Hq. apply Hkeep1. intros name' ->. discriminate.
Qed.

End Environment.

Lemma cleanupFiles_spec_witness :
  (exists fs',
     FileOperations.cleanupFiles as_stored nothing_locked (tidy_disk, [])
     = (Returned tt, (fs', [LogInfo "Test files cleaned up"])) /\
     (forall name, node_at fs' (downloadPath ++ [name]) = None) /\
     (forall name, node_at fs' (uploadPath ++ [name]) = None) /\
     (forall q, (forall name, q <> downloadPath ++ [name] /\ q <> uploadPath ++ [name]) ->
                node_at fs' q = node_at tidy_disk q)) /\
  (exists e fs',
     FileOperations.cleanupFiles as_stored nothing_locked (disk_with_folder, [])
     = (Returned tt, (fs', [LogError "Error cleaning up files:" e])) /\
     (forall q, under "downloads" q = false -> node_at fs' q = node_at disk_with_folder q)).
Proof.
  assert (Hfiles : forall dir, dir ∈ [downloadPath; uploadPath] ->
                     only_files nothing_locked tidy_disk dir).
  { intros dir Hdir name Hnode. split; [|reflexivity].
    unfold tidy_disk, is_file in *. rewrite !nodes_with_file in *.
    repeat (destruct (decide _) as [|]; [reflexivity|]).
    rewrite nodes_with_dirs in *.
    case_bool_decide as E; [|exfalso; apply Hnode; reflexivity].
    exfalso. repeat (apply elem_of_cons in Hdir as [->|Hdir]);
      try (inversion Hdir; fail);
      repeat (apply elem_of_cons in E as [E|E]; [discriminate|]); inversion E. }
  split.
  - apply (proj1 (cleanupFiles_spec as_stored nothing_locked as_stored_perm tidy_disk)).
    + vm_compute. reflexivity.
    + vm_compute. reflexivity.
    + apply Hfiles. now left.
    + apply Hfiles. right. now left.
  - apply (proj2 (cleanupFiles_spec as_stored nothing_locked as_stored_perm disk_with_folder)).
    + vm_compute. reflexivity.
    + exists "unpacked". left. vm_compute. reflexivity.
Defined.

(** With a folder among the downloads the test file survives the
    clean-up. *)
Example cleanupFiles_leaves_uploads :
  let fs' := fst (snd (FileOperations.cleanupFiles as_stored nothing_locked
                         (disk_with_folder, []))) in
  file_text fs' (uploadPath ++ ["avatar.png"]) = Some "PNG".
Proof. vm_compute. reflexivity. Qed.

End FileOperationsFacts.
